(** * Journey-to-DayOne importer: the markup-to-Markdown conversion engine

    A shallow embedding of [Importer.convert_journey_html_to_dayone_markdown]
    and the stages it calls (src/j2d_regex_conversions.py), together with
    the part of Python's [re] module those stages rely on: a backtracking
    matcher with capture groups, lazy and greedy repetition and lookahead,
    [re.search], [re.finditer], [re.sub] and the replacement-template
    parser.

    Text is a list of characters.  A character is a code point of the
    Latin-1 range, held in an [ascii]; the classes [\s], [\w] and [\d] are
    Python's Unicode classes restricted to that range.  The template
    parser is the one of CPython 3.7 to 3.11: an unknown letter escape in
    a replacement is an error, and a group name that is no identifier is
    read with [int] (CPython 3.12 accepts ASCII digits only there).

    The file also embeds the functions of the importer around the
    conversion: the validation of the coordinates of an entry, the
    arguments of the [dayone2] command and the reading of its output. *)

From Stdlib Require SpecFloat.
From Stdlib Require Import BinInt.
From Stdlib Require Import Ascii String Bool Arith Lia DecimalString List.
Import ListNotations.

Set Implicit Arguments.

(** ** Text *)

Definition str := list ascii.

Definition nl : ascii := "010"%char.
Definition bsl : ascii := "\"%char.
Definition dq : ascii := "034"%char.

Definition lit (s : string) : str := list_ascii_of_string s.

Notation "'T' s" := (lit s%string) (at level 9, s at level 0, only parsing).

Definition code (a : ascii) : nat := nat_of_ascii a.

Definition between (lo hi : nat) (a : ascii) : bool :=
  (lo <=? code a) && (code a <=? hi).

(** [str.isspace] on Latin-1: TAB..CR, FS..US, SPACE, NEL, NBSP. *)
Definition is_space (a : ascii) : bool :=
  between 9 13 a || between 28 32 a || (code a =? 133) || (code a =? 160).

Definition is_digit (a : ascii) : bool := between 48 57 a.
Definition is_octdigit (a : ascii) : bool := between 48 55 a.
Definition is_upper (a : ascii) : bool := between 65 90 a.
Definition is_lower (a : ascii) : bool := between 97 122 a.
Definition is_ascii_letter (a : ascii) : bool := is_upper a || is_lower a.

(** [\w]: the alphanumerics of Latin-1 and the underscore. *)
Definition is_word (a : ascii) : bool :=
  is_ascii_letter a || is_digit a || (code a =? 95)
  || (code a =? 170) || (code a =? 178) || (code a =? 179)
  || (code a =? 181) || (code a =? 185) || (code a =? 186)
  || between 188 190 a
  || between 192 214 a || between 216 246 a || between 248 255 a.

(** [str.lower] and [str.upper], as [fix_name_spellings] applies them to
    the (ASCII) names of its table. *)
Definition lower_char (a : ascii) : ascii :=
  if is_upper a then ascii_of_nat (code a + 32) else a.
Definition upper_char (a : ascii) : ascii :=
  if is_lower a then ascii_of_nat (code a - 32) else a.
Definition lower (s : str) : str := map lower_char s.
Definition upper (s : str) : str := map upper_char s.

Definition ascii_eqb (a b : ascii) : bool := Ascii.eqb a b.

Fixpoint str_eqb (s t : str) : bool :=
  match s, t with
  | [], [] => true
  | a :: s', b :: t' => ascii_eqb a b && str_eqb s' t'
  | _, _ => false
  end.

(** ** Regular expressions *)

Inductive cls : Type :=
| Lit (a : ascii)      (* a literal character *)
| Any                  (* [.] : any character but newline, any at all under DOTALL *)
| Space                (* [\s] *)
| Word                 (* [\w] *)
| Digit.               (* [\d] *)

Inductive regex : Type :=
| Eps
| Chr (c : cls)
| Seq (r1 r2 : regex)
| Alt (r1 r2 : regex)
| Star (greedy : bool) (r : regex)
| Group (i : nat) (r : regex)
| Look (r : regex).    (* [(?=r)] *)

(** [r+], [r?] / [r{0,1}] (both greedy in the source). *)
Definition Plus (r : regex) : regex := Seq r (Star true r).
Definition Opt (r : regex) : regex := Alt r Eps.

Fixpoint Lits (s : str) : regex :=
  match s with
  | [] => Eps
  | [a] => Chr (Lit a)
  | a :: s' => Seq (Chr (Lit a)) (Lits s')
  end.

Fixpoint Seqs (rs : list regex) : regex :=
  match rs with
  | [] => Eps
  | [r] => r
  | r :: rs' => Seq r (Seqs rs')
  end.

(** A compiled pattern: the expression, the number of groups and the
    names of the named groups. *)
Record pattern : Type := Pattern {
  p_re : regex;
  p_groups : nat;
  p_names : list (str * nat)
}.

(** ** The backtracking matcher *)

(** A position in the subject is the text that remains from it on; a
    captured group is the pair of the positions where it starts and
    ends. *)
Definition span := (str * str)%type.
Definition caps := list (nat * span).

Fixpoint cap_get (c : caps) (i : nat) : option span :=
  match c with
  | [] => None
  | (j, sp) :: c' => if Nat.eqb i j then Some sp else cap_get c' i
  end.

Definition cls_match (dotall : bool) (c : cls) (a : ascii) : bool :=
  match c with
  | Lit b => ascii_eqb a b
  | Any => dotall || negb (ascii_eqb a nl)
  | Space => is_space a
  | Word => is_word a
  | Digit => is_digit a
  end.

(** The text between a position [s] and a later position [s'] (a suffix
    of [s]): the slice [text[start:end]]. *)
Definition consumed (s s' : str) : str :=
  firstn (length s - length s') s.

Definition span_text (sp : span) : str := consumed (fst sp) (snd sp).

Section Star.
Variable A : Type.

Definition cont := str -> caps -> option A.

(** Repetition of a body [body], at most [fuel] times; an iteration that
    consumes nothing ends the repetition. *)
Fixpoint star (body : str -> caps -> cont -> option A) (greedy : bool)
         (fuel : nat) (s : str) (c : caps) (k : cont) : option A :=
  match fuel with
  | 0 => k s c
  | S fuel' =>
      let again :=
        body s c (fun s' c' =>
          if length s' <? length s
          then star body greedy fuel' s' c' k else None) in
      if greedy
      then match again with Some x => Some x | None => k s c end
      else match k s c with Some x => Some x | None => again end
  end.
End Star.

(** [m dotall r s c k]: match [r] at the front of [s] with captures [c],
    then continue with [k]; alternatives are tried in the order of
    Python's engine and the first success is returned.  A lookahead is
    atomic: once it has matched, it is not re-entered. *)
Fixpoint m (dotall : bool) (A : Type) (r : regex) (s : str) (c : caps)
         (k : cont A) : option A :=
  match r with
  | Eps => k s c
  | Chr p =>
      match s with
      | a :: s' => if cls_match dotall p a then k s' c else None
      | [] => None
      end
  | Seq r1 r2 => m dotall r1 s c (fun s' c' => m dotall r2 s' c' k)
  | Alt r1 r2 =>
      match m dotall r1 s c k with
      | Some x => Some x
      | None => m dotall r2 s c k
      end
  | Star greedy r1 => star (m dotall (A:=A) r1) greedy (length s) s c k
  | Group i r1 =>
      m dotall r1 s c (fun s' c' => k s' ((i, (s, s')) :: c'))
  | Look r1 =>
      match m dotall r1 s c (fun _ c' => Some c') with
      | Some c' => k s c'
      | None => None
      end
  end.

Arguments m dotall [A] r s c k.

(** ** Match objects, [re.search] and [re.finditer] *)

Record mres : Type := MRes {
  m_pre : str;       (* the text skipped before the match *)
  m_span : span;     (* start and end of the whole match *)
  m_caps : caps
}.

Definition m_start (x : mres) : str := fst (m_span x).
Definition m_end (x : mres) : str := snd (m_span x).

(** [match.group(i)]; [None] for a group that took no part in the match. *)
Definition group (x : mres) (i : nat) : option str :=
  match i with
  | 0 => Some (span_text (m_span x))
  | _ => option_map span_text (cap_get (m_caps x) i)
  end.

(** [match.start(i)] and [match.end(i)], as positions. *)
Definition start_of (x : mres) (i : nat) : option str :=
  option_map fst (cap_get (m_caps x) i).
Definition end_of (x : mres) (i : nat) : option str :=
  option_map snd (cap_get (m_caps x) i).

(** One attempt at the front of [s]; with [adv] an empty match is
    refused (the engine's must-advance flag after an empty match). *)
Definition match_here (dotall : bool) (r : regex) (adv : bool) (s : str)
  : option (str * caps) :=
  m dotall r s []
    (fun s' c => if adv && (length s' =? length s) then None
                 else Some (s', c)).

Definition shift (a : ascii) (x : mres) : mres :=
  MRes (a :: m_pre x) (m_span x) (m_caps x).

(** The leftmost match at or after the front of [s]. *)
Fixpoint search_adv (dotall : bool) (r : regex) (adv : bool) (s : str)
  : option mres :=
  match match_here dotall r adv s with
  | Some (s', c) => Some (MRes [] (s, s') c)
  | None =>
      match s with
      | [] => None
      | a :: t => option_map (shift a) (search_adv dotall r false t)
      end
  end.

(** [re.search(p, text, flags)]. *)
Definition search (dotall : bool) (p : pattern) (text : str) : option mres :=
  search_adv dotall (p_re p) false text.

Definition is_nil (s : str) : bool :=
  match s with [] => true | _ => false end.

(** The successive non-overlapping matches, as [finditer] and [sub] find
    them. *)
Fixpoint scan (fuel : nat) (dotall : bool) (r : regex) (adv : bool)
         (s : str) : list mres :=
  match fuel with
  | 0 => []
  | S fuel' =>
      match search_adv dotall r adv s with
      | None => []
      | Some x =>
          x :: scan fuel' dotall r (is_nil (span_text (m_span x))) (m_end x)
      end
  end.

Definition scan_fuel (s : str) : nat := 2 * length s + 2.

(** [re.finditer(p, text)] (no flags in the source). *)
Definition finditer (p : pattern) (text : str) : list mres :=
  scan (scan_fuel text) false (p_re p) false text.

(** ** Exceptions *)

Inductive exn : Type :=
| ReError       (* [re.error] *)
| IndexError.   (* [IndexError]: unknown group name in a template *)

Inductive result (X : Type) : Type :=
| Ok (x : X)
| Raise (e : exn).

Arguments Ok [X] x.
Arguments Raise {X} e.

Definition bind {X Y : Type} (r : result X) (f : X -> result Y) : result Y :=
  match r with
  | Ok x => f x
  | Raise e => Raise e
  end.

Notation "x <- e1 ;; e2" := (bind e1 (fun x => e2))
  (at level 61, e1 at next level, right associativity).
Notation "' pat <- e1 ;; e2" := (bind e1 (fun x => match x with pat => e2 end))
  (at level 61, pat pattern, e1 at next level, right associativity).

(** ** Replacement templates ([re._parser.parse_template]) *)

Inductive titem : Type :=
| TLit (a : ascii)
| TGroup (i : nat).

(** The tokenizer: a token is one character, or a backslash with the
    character after it; the token after the current one is read ahead, so
    a backslash that ends the template is reported one token early. *)
Definition token := str.
Definition tokenizer := (option token * str)%type.

Definition tok_next (s : str) : result tokenizer :=
  match s with
  | [] => Ok (None, [])
  | a :: r =>
      if ascii_eqb a bsl then
        match r with
        | [] => Raise ReError              (* bad escape (end of pattern) *)
        | c :: r' => Ok (Some [a; c], r')
        end
      else Ok (Some [a], r)
  end.

Definition tok_get (t : tokenizer) : result (option token * tokenizer) :=
  t' <- tok_next (snd t) ;; Ok (fst t, t').

Definition tok_is (t : tokenizer) (p : ascii -> bool) : bool :=
  match fst t with
  | Some [a] => p a
  | _ => false
  end.

(** [Tokenizer.getuntil(">", "group name")]. *)
Fixpoint getuntil (fuel : nat) (t : tokenizer) (acc : str)
  : result (str * tokenizer) :=
  match fuel with
  | 0 => Raise ReError
  | S fuel' =>
      '(c, t') <- tok_get t ;;
      match c with
      | None => Raise ReError              (* missing name / unterminated *)
      | Some tok =>
          if str_eqb tok (T ">")
          then if is_nil acc then Raise ReError else Ok (acc, t')
          else getuntil fuel' t' (acc ++ tok)
      end
  end.

Definition is_ident_start (a : ascii) : bool :=
  is_ascii_letter a || (code a =? 95) || (code a =? 170) || (code a =? 181)
  || (code a =? 186) || between 192 214 a || between 216 246 a
  || between 248 255 a.

Definition is_ident_char (a : ascii) : bool :=
  is_ident_start a || is_digit a || (code a =? 183).

Definition is_identifier (s : str) : bool :=
  match s with
  | [] => false
  | a :: s' => is_ident_start a && forallb is_ident_char s'
  end.

Definition digit_val (a : ascii) : nat := code a - 48.

Definition int_of (base : nat) (s : str) : nat :=
  fold_left (fun n a => base * n + digit_val a) s 0.

(** The whitespace that [int] skips around a number. *)
Definition is_int_space (a : ascii) : bool :=
  between 9 13 a || (code a =? 32) || (code a =? 133) || (code a =? 160).

Fixpoint skip_int_space (s : str) : str :=
  match s with
  | a :: r => if is_int_space a then skip_int_space r else s
  | [] => []
  end.

(** Digits, with single underscores between two digits. *)
Fixpoint digits_grouped (after_digit : bool) (s : str) : bool :=
  match s with
  | [] => after_digit
  | a :: r =>
      if is_digit a then digits_grouped true r
      else if ascii_eqb a "_" then after_digit && digits_grouped false r
      else false
  end.

(** [int(name)] of a group name, with the check [index < 0] after it:
    whitespace around the number, a sign, digits in base ten.  [None]
    stands for the [ValueError]. *)
Definition int_name (name : str) : option nat :=
  let s := rev (skip_int_space (rev (skip_int_space name))) in
  let '(negative, body) :=
    match s with
    | a :: r =>
        if ascii_eqb a "+" then (false, r)
        else if ascii_eqb a "-" then (true, r)
        else (false, s)
    | [] => (false, [])
    end in
  if digits_grouped false body then
    let index := int_of 10 (filter is_digit body) in
    if negative && negb (index =? 0) then None else Some index
  else None.

Fixpoint lookup_name (names : list (str * nat)) (n : str) : option nat :=
  match names with
  | [] => None
  | (k, i) :: rest => if str_eqb k n then Some i else lookup_name rest n
  end.

(** The table [ESCAPES] of the parser. *)
Definition escape_of (c : ascii) : option ascii :=
  if ascii_eqb c "a" then Some (ascii_of_nat 7)
  else if ascii_eqb c "b" then Some (ascii_of_nat 8)
  else if ascii_eqb c "f" then Some (ascii_of_nat 12)
  else if ascii_eqb c "n" then Some nl
  else if ascii_eqb c "r" then Some (ascii_of_nat 13)
  else if ascii_eqb c "t" then Some (ascii_of_nat 9)
  else if ascii_eqb c "v" then Some (ascii_of_nat 11)
  else if ascii_eqb c bsl then Some bsl
  else None.

Definition addgroup (p : pattern) (index : nat) : result (list titem) :=
  if p_groups p <? index then Raise ReError   (* invalid group reference *)
  else Ok [TGroup index].

(** One escape [\c] whose first token is already taken; returns the items
    it stands for and the tokenizer after it. *)
Definition parse_escape (fuel : nat) (p : pattern) (c : ascii) (t : tokenizer)
  : result (list titem * tokenizer) :=
  if ascii_eqb c "g" then
    if tok_is t (ascii_eqb "<") then
      '(_, t1) <- tok_get t ;;
      '(name, t2) <- getuntil fuel t1 [] ;;
      if is_identifier name then
        match lookup_name (p_names p) name with
        | Some i => g <- addgroup p i ;; Ok (g, t2)
        | None => Raise IndexError          (* unknown group name *)
        end
      else
        match int_name name with
        | Some index => g <- addgroup p index ;; Ok (g, t2)
        | None => Raise ReError             (* bad character in group name *)
        end
    else Raise ReError                      (* missing < *)
  else if ascii_eqb c "0" then
    if tok_is t is_octdigit then
      '(d1, t1) <- tok_get t ;;
      if tok_is t1 is_octdigit then
        '(d2, t2) <- tok_get t1 ;;
        let v := int_of 8 (match d1, d2 with
                           | Some x, Some y => x ++ y | _, _ => [] end) in
        Ok ([TLit (ascii_of_nat (v mod 256))], t2)
      else
        Ok ([TLit (ascii_of_nat
                     (int_of 8 (match d1 with Some x => x | None => [] end)))],
            t1)
    else Ok ([TLit (ascii_of_nat 0)], t)
  else if is_digit c then
    if tok_is t is_digit then
      '(d1, t1) <- tok_get t ;;
      let d1 := match d1 with Some x => x | None => [] end in
      if is_octdigit c && forallb is_octdigit d1 && tok_is t1 is_octdigit then
        '(d2, t2) <- tok_get t1 ;;
        let d2 := match d2 with Some x => x | None => [] end in
        let v := int_of 8 (c :: d1 ++ d2) in
        if 255 <? v then Raise ReError      (* octal escape out of range *)
        else Ok ([TLit (ascii_of_nat v)], t2)
      else
        g <- addgroup p (int_of 10 (c :: d1)) ;; Ok (g, t1)
    else
      g <- addgroup p (int_of 10 [c]) ;; Ok (g, t)
  else
    match escape_of c with
    | Some a => Ok ([TLit a], t)
    | None =>
        if is_ascii_letter c then Raise ReError   (* bad escape *)
        else Ok ([TLit bsl; TLit c], t)
    end.

Fixpoint parse_loop (fuel : nat) (p : pattern) (t : tokenizer)
  : result (list titem) :=
  match fuel with
  | 0 => Ok []
  | S fuel' =>
      '(this, t1) <- tok_get t ;;
      match this with
      | None => Ok []
      | Some [a] => rest <- parse_loop fuel' p t1 ;; Ok (TLit a :: rest)
      | Some (_ :: c :: _) =>
          '(items, t2) <- parse_escape fuel' p c t1 ;;
          rest <- parse_loop fuel' p t2 ;; Ok (items ++ rest)
      | Some [] => Ok []
      end
  end.

Definition parse_template (p : pattern) (repl : str) : result (list titem) :=
  t <- tok_next repl ;; parse_loop (S (length repl)) p t.

(** Expansion of a parsed template on a match; a group that did not take
    part in the match expands to the empty string. *)
Definition expand_item (x : mres) (it : titem) : str :=
  match it with
  | TLit a => [a]
  | TGroup i => match group x i with Some s => s | None => [] end
  end.

Definition expand (tpl : list titem) (x : mres) : str :=
  flat_map (expand_item x) tpl.

(** ** [re.sub] *)

(** [count = 0] replaces every match, [count = n > 0] the first [n]. *)
Fixpoint sub_loop (fuel : nat) (dotall : bool) (r : regex)
         (tpl : list titem) (count done : nat) (adv : bool) (s : str) : str :=
  match fuel with
  | 0 => s
  | S fuel' =>
      if negb (count =? 0) && (count <=? done) then s
      else
        match search_adv dotall r adv s with
        | None => s
        | Some x =>
            m_pre x ++ expand tpl x ++
            sub_loop fuel' dotall r tpl count (S done)
                     (is_nil (span_text (m_span x))) (m_end x)
        end
  end.

(** [re.sub(p, repl, text, count=count, flags=flags)]: the template is
    parsed first, whether or not the pattern matches. *)
Definition re_sub (dotall : bool) (p : pattern) (repl : str) (text : str)
           (count : nat) : result str :=
  tpl <- parse_template p repl ;;
  Ok (sub_loop (scan_fuel text) dotall (p_re p) tpl count 0 false text).

(** ** The patterns of the source *)

Definition L (s : string) : regex := Lits (lit s).
Definition lazy_any : regex := Star false (Chr Any).          (* [.*?] *)
Definition spaces : regex := Star true (Chr Space).           (* [\s*] *)
(** [<\\*/+] : the start of a closing tag, with any number of backslashes
    before its slashes. *)
Definition close_start : regex :=
  Seqs [L "<"; Star true (Chr (Lit bsl)); Plus (Chr (Lit "/"))].
(** [(\\{0,1}/{1}){0,1}] as group [i]. *)
Definition opt_slash (i : nat) : regex :=
  Opt (Group i (Seq (Opt (Chr (Lit bsl))) (Chr (Lit "/")))).
(** [\\{0,1}/{1}] *)
Definition slash1 : regex := Seq (Opt (Chr (Lit bsl))) (Chr (Lit "/")).

(** [<(t1|t2)>(?P<content>.*?)(?P<nbsp>&nbsp;)*<\\*/+(t1|t2)>] *)
Definition wrap_re (tag : regex) : regex :=
  Seqs [L "<"; Group 1 tag; L ">";
        Group 2 lazy_any;
        Star true (Group 3 (L "&nbsp;"));
        close_start; Group 4 tag; L ">"].

Definition wrap_pattern (tag : regex) : pattern :=
  Pattern (wrap_re tag) 4 [(T "content", 2); (T "nbsp", 3)].

Definition em_pattern : pattern := wrap_pattern (Alt (L "em") (L "i")).
Definition strong_pattern : pattern := wrap_pattern (Alt (L "strong") (L "b")).
Definition del_pattern : pattern := wrap_pattern (L "del").

(** [(<span.*?style.*?underline.*?>)(?P<text>.*?\w.*?)(<\\{0,1}/{1}span>)] *)
Definition underline_pattern : pattern :=
  Pattern
    (Seqs [Group 1 (Seqs [L "<span"; lazy_any; L "style"; lazy_any;
                          L "underline"; lazy_any; L ">"]);
           Group 2 (Seqs [lazy_any; Chr Word; lazy_any]);
           Group 3 (Seqs [L "<"; slash1; L "span>"])])
    3 [(T "text", 2)].

Definition plain (s : string) : pattern := Pattern (L s) 0 [].

Definition to_replace_simple : list pattern :=
  [em_pattern; strong_pattern; del_pattern; underline_pattern;
   plain "<h1>"; plain "<h2>"; plain "<h3>"; plain "&nbsp;"].

Definition replace_with_simple : list str :=
  [T "*\g<content>*\g<nbsp>"; T "**\g<content>**\g<nbsp>";
   T "~~\g<content>~~\g<nbsp>"; T "*\g<text>*";
   T "\n# "; T "\n## "; T "\n##### "; T " "].

(** The five patterns of [to_remove_simple]: an opening paragraph tag
    with attributes, and the opening or closing tags [p], [h] with
    digits, [del] and [span] (the last with anything up to the next
    [>]); the slash of a closing tag may have a backslash before it. *)
Definition remove_p_attrs : pattern :=
  Pattern (Seqs [L "<p"; Chr Space; lazy_any; L ">"]) 0 [].
Definition remove_p : pattern :=
  Pattern (Seqs [L "<"; opt_slash 1; L "p>"]) 1 [].
Definition remove_h : pattern :=
  Pattern (Seqs [L "<"; opt_slash 1; L "h"; Plus (Chr Digit); L ">"]) 1 [].
Definition remove_del : pattern :=
  Pattern (Seqs [L "<"; opt_slash 1; L "del>"]) 1 [].
Definition remove_span : pattern :=
  Pattern (Seqs [L "<"; opt_slash 1; L "span"; Opt (Chr Space);
                 lazy_any; L ">"]) 1 [].

Definition to_remove_simple : list pattern :=
  [remove_p_attrs; remove_p; remove_h; remove_del; remove_span].

(** Four groups: the opening tag, the whitespace after it, the contents
    (lazy) and the closing tag. *)
Definition ol_parent_search_pattern : pattern :=
  Pattern (Seqs [Group 1 (L "<ol>"); Group 2 spaces; Group 3 lazy_any;
                 Group 4 (Seqs [close_start; L "ol>"])]) 4 [].

(** Groups [opening_tag] (with any attributes), [newline] (whitespace),
    [contents] (lazy) and the closing tag. *)
Definition ul_parent_search_pattern : pattern :=
  Pattern (Seqs [Group 1 (Seqs [L "<ul"; lazy_any; L ">"]); Group 2 spaces;
                 Group 3 lazy_any; Group 4 (Seqs [close_start; L "ul>"])])
          4 [(T "opening_tag", 1); (T "newline", 2); (T "contents", 3)].

(** The opening tag of a task list: [<ul], whitespace, [class=], the
    word task in double quotes, [>]. *)
Definition tl_start_search_pattern : pattern :=
  Pattern (Group 1 (Seqs [L "<ul"; spaces; L "class="; Chr (Lit dq);
                          L "task"; Chr (Lit dq); L ">"])) 1 [].

(** Groups: the opening tag, [contents] (lazy), the closing tag and
    [newline], the whitespace after the item. *)
Definition li_search_pattern : pattern :=
  Pattern (Seqs [Group 1 (L "<li>"); Group 2 lazy_any;
                 Group 3 (Seqs [close_start; L "li>"]); Group 4 spaces])
          4 [(T "contents", 2); (T "newline", 4)].

(** [<li data-checked=\"true\">], [<li>], [<\\*/+li>] *)
Definition li_checked_pattern : pattern :=
  Pattern (Seqs [L "<li data-checked="; Chr (Lit dq); L "true";
                 Chr (Lit dq); L ">"]) 0 [].
Definition li_open_pattern : pattern := plain "<li>".
Definition li_close_pattern : pattern :=
  Pattern (Seqs [close_start; L "li>"]) 0 [].

(** Groups: the opening tag, [contents] (lazy) and the closing tag. *)
Definition quote_parent_search_pattern : pattern :=
  Pattern (Seqs [Group 1 (L "<blockquote>"); Group 2 lazy_any;
                 Group 3 (Seqs [close_start; L "blockquote>"])])
          3 [(T "contents", 2)].

(** [(\n)(?P<contents>.*?(?=\n))] *)
Definition quote_contents_search_pattern : pattern :=
  Pattern (Seq (Group 1 (Chr (Lit nl)))
               (Group 2 (Seq lazy_any (Look (Chr (Lit nl))))))
          2 [(T "contents", 2)].

(** [(C|c)(offee)(S|s)(hop)] *)
Definition coffee_shop_search_pattern : pattern :=
  Pattern (Seqs [Group 1 (Alt (L "C") (L "c")); Group 2 (L "offee");
                 Group 3 (Alt (L "S") (L "s")); Group 4 (L "hop")]) 4 [].

(** [<hr( dir.*?){0,1}>] *)
Definition hr_pattern : pattern :=
  Pattern (Seqs [L "<hr"; Opt (Group 1 (Seq (L " dir") lazy_any)); L ">"])
          1 [].

(** ** The stages *)

(** [str(n)] for a natural number. *)
Definition str_of_nat (n : nat) : str :=
  list_ascii_of_string (NilEmpty.string_of_uint (Nat.to_uint n)).

(** The two loops of [convert_simple]: every pair of
    [zip(to_replace_simple, replace_with_simple)], then every pattern of
    [to_remove_simple] with the empty replacement. *)
Fixpoint replace_all (pairs : list (pattern * str)) (text : str) : result str :=
  match pairs with
  | [] => Ok text
  | (p, repl) :: rest =>
      text' <- re_sub false p repl text 0 ;; replace_all rest text'
  end.

Definition convert_simple (text : str) : result str :=
  text <- replace_all (combine to_replace_simple replace_with_simple) text ;;
  replace_all (map (fun p => (p, [])) to_remove_simple) text.

(** A loop of the source that has not ended within the iterations allowed
    is [None]; otherwise the value returned or the exception raised. *)
Definition run (X : Type) := option (result X).

Definition group_str (x : mres) (i : nat) : str :=
  match group x i with Some s => s | None => [] end.

(** The body of the [for] loop over the items of an ordered list, from
    index [k] on. *)
Fixpoint li_lines (k : nat) (items : list mres) : str :=
  match items with
  | [] => []
  | li_match :: rest =>
      let line_num := T "\n" ++ str_of_nat k ++ T ". " in
      line_num ++ group_str li_match 2 ++ group_str li_match 4
      ++ li_lines (S k) rest
  end.

(** One iteration of the ordered-list loop, for the match [ol_match]. *)
Definition ol_step (text : str) (ol_match : mres) : result str :=
  let ol_substring := span_text (m_span ol_match) in
  let li_iter := finditer li_search_pattern ol_substring in
  let li_str := li_lines 1 li_iter in
  re_sub true ol_parent_search_pattern (T "\2" ++ li_str) text 1.

Fixpoint ol_loop (fuel : nat) (text : str) : run str :=
  match search true ol_parent_search_pattern text with
  | None => Some (Ok text)
  | Some ol_match =>
      match fuel with
      | 0 => None
      | S fuel' =>
          match ol_step text ol_match with
          | Ok text' => ol_loop fuel' text'
          | Raise e => Some (Raise e)
          end
      end
  end.

(** [text[m.start(i):m.end(j)]]. *)
Definition slice_groups (x : mres) (i j : nat) : str :=
  match start_of x i, end_of x j with
  | Some a, Some b => consumed a b
  | _, _ => []
  end.

(** One iteration of the unordered and task list loop. *)
Definition ul_step (text : str) (ul_match : mres) : result str :=
  let ul_substring := slice_groups ul_match 2 3 in
  ul_substring <-
    match search true tl_start_search_pattern (group_str ul_match 1) with
    | Some _ =>
        u <- re_sub false li_checked_pattern (T "\n- [X] ") ul_substring 0 ;;
        re_sub false li_open_pattern (T "\n- [ ] ") u 0
    | None =>
        re_sub false li_open_pattern (T "\n- ") ul_substring 0
    end ;;
  ul_substring <- re_sub false li_close_pattern [] ul_substring 0 ;;
  re_sub true ul_parent_search_pattern (T "\2" ++ ul_substring) text 1.

Fixpoint ul_loop (fuel : nat) (text : str) : run str :=
  match search true ul_parent_search_pattern text with
  | None => Some (Ok text)
  | Some ul_match =>
      match fuel with
      | 0 => None
      | S fuel' =>
          match ul_step text ul_match with
          | Ok text' => ul_loop fuel' text'
          | Raise e => Some (Raise e)
          end
      end
  end.

Definition rbind {X Y : Type} (r : run X) (f : X -> run Y) : run Y :=
  match r with
  | Some (Ok x) => f x
  | Some (Raise e) => Some (Raise e)
  | None => None
  end.

Definition convert_lists (fuel : nat) (text : str) : run str :=
  rbind (ol_loop fuel text) (ul_loop fuel).

(** One iteration of the blockquote loop. *)
Definition quote_step (text : str) (quote_match : mres) : result str :=
  let quote_substring := slice_groups quote_match 2 2 in
  quote_substring <-
    re_sub true quote_contents_search_pattern (T "\n> \g<contents>")
           quote_substring 0 ;;
  re_sub true quote_parent_search_pattern quote_substring text 1.

Fixpoint quote_loop (fuel : nat) (text : str) : run str :=
  match search true quote_parent_search_pattern text with
  | None => Some (Ok text)
  | Some quote_match =>
      match fuel with
      | 0 => None
      | S fuel' =>
          match quote_step text quote_match with
          | Ok text' => quote_loop fuel' text'
          | Raise e => Some (Raise e)
          end
      end
  end.

Definition convert_quote_blocks := quote_loop.

Definition perform_phrase_replacements (text : str) : result str :=
  re_sub false coffee_shop_search_pattern (T "\1\2 \3\4") text 0.

(** The table of [fix_name_spellings], in the order of the dictionary
    literal; [None] stands for the entry without a misspelling. *)
Definition names_to_fix : list (str * list (option str)) :=
  [ (T "Name One", [Some (T "Nome One")]);
    (T "Name Two", [Some (T "Nome Two"); Some (T "Neme Two")]);
    (T "Name Three", [None]) ].

(** A name used as a pattern: the names of the table hold letters and
    spaces only, which stand for themselves. *)
Definition name_pattern (name : str) : pattern := Pattern (Lits name) 0 [].
Definition name_alt_pattern (a b : str) : pattern :=
  Pattern (Alt (Lits a) (Lits b)) 0 [].

Fixpoint fix_mispellings (correct_name : str) (mispellings : list (option str))
         (text : str) : result str :=
  match mispellings with
  | [] => Ok text
  | None :: rest => fix_mispellings correct_name rest text
  | Some mispelling :: rest =>
      text <- re_sub false (name_pattern (upper mispelling))
                     (upper correct_name) text 0 ;;
      text <- re_sub false (name_alt_pattern mispelling (lower mispelling))
                     correct_name text 0 ;;
      fix_mispellings correct_name rest text
  end.

Fixpoint fix_names (table : list (str * list (option str))) (text : str)
  : result str :=
  match table with
  | [] => Ok text
  | (correct_name, mispellings) :: rest =>
      text <- re_sub false (name_pattern (lower correct_name))
                     correct_name text 0 ;;
      text <- fix_mispellings correct_name mispellings text ;;
      fix_names rest text
  end.

Definition fix_name_spellings (text : str) : result str :=
  fix_names names_to_fix text.

Definition lift {X : Type} (r : result X) : run X := Some r.

Definition convert_journey_html_to_dayone_markdown (fuel : nat) (text : str)
  : run str :=
  rbind (lift (convert_simple text)) (fun text =>
  rbind (convert_lists fuel text) (fun text =>
  rbind (lift (perform_phrase_replacements text)) (fun text =>
  rbind (lift (fix_name_spellings text)) (fun text =>
  rbind (convert_quote_blocks fuel text) (fun text =>
  lift (re_sub false hr_pattern (T "\n---") text 0)))))).

(** ** What the inline rewriter recognizes *)

Definition recognized : list pattern := to_replace_simple ++ to_remove_simple.

Definition is_none {X : Type} (o : option X) : bool :=
  match o with None => true | Some _ => false end.

(** No pattern of [convert_simple] matches anywhere in [text]. *)
Definition no_recognized_markup (text : str) : bool :=
  forallb (fun p => is_none (search false p text)) recognized.

(** The tags among what the inline rewriter recognizes: every pattern
    of [convert_simple] but the one for the entity of a non-breaking
    space. *)
Definition recognized_tags : list pattern :=
  [em_pattern; strong_pattern; del_pattern; underline_pattern;
   plain "<h1>"; plain "<h2>"; plain "<h3>"] ++ to_remove_simple.

(** No tag pattern of [convert_simple] matches anywhere in [text]. *)
Definition no_recognized_tags (text : str) : bool :=
  forallb (fun p => is_none (search false p text)) recognized_tags.

(** The entity of a non-breaking space occurs nowhere in [text]. *)
Definition no_entity (text : str) : bool :=
  is_none (search false (plain "&nbsp;") text).

(** ** A declarative reading of the matcher

    [Matches d r s s']: the expression [r] can match from position [s] to
    position [s'].  It forgets the order in which the engine tries the
    alternatives, and is used to show that a pattern cannot match. *)

Inductive Matches (d : bool) : regex -> str -> str -> Prop :=
| M_Eps s : Matches d Eps s s
| M_Chr p a s : cls_match d p a = true -> Matches d (Chr p) (a :: s) s
| M_Seq r1 r2 s s1 s2 :
    Matches d r1 s s1 -> Matches d r2 s1 s2 -> Matches d (Seq r1 r2) s s2
| M_AltL r1 r2 s s1 : Matches d r1 s s1 -> Matches d (Alt r1 r2) s s1
| M_AltR r1 r2 s s1 : Matches d r2 s s1 -> Matches d (Alt r1 r2) s s1
| M_StarNil g r s : Matches d (Star g r) s s
| M_StarCons g r s s1 s2 :
    Matches d r s s1 -> Matches d (Star g r) s1 s2 ->
    Matches d (Star g r) s s2
| M_Group i r s s1 : Matches d r s s1 -> Matches d (Group i r) s s1
| M_Look r s s1 : Matches d r s s1 -> Matches d (Look r) s s.

(** [t] is a position of [s]: what remains of [s] from some point on. *)
Definition suffix (t s : str) : Prop := exists u, s = u ++ t.

(** The character a match of [r] must start with, when [r] starts with a
    literal. *)
Fixpoint first_lit (r : regex) : option ascii :=
  match r with
  | Chr (Lit a) => Some a
  | Seq r1 _ => first_lit r1
  | Group _ r1 => first_lit r1
  | _ => None
  end.

(** ** Auxiliary notions for the proofs *)

Definition in_cls (d : bool) (cl : cls) (a : ascii) : Prop :=
  cls_match d cl a = true.

Definition prepend (u : str) (x : mres) : mres :=
  MRes (u ++ m_pre x) (m_span x) (m_caps x).

(** A text without a backslash: as a replacement template it stands for
    itself. *)
Definition plain_text (s : str) : Prop := ~ In bsl s.

(** The measure that decreases from one search of a scan to the next. *)
Definition scan_measure (s : str) (adv : bool) : nat :=
  2 * length s + (if adv then 0 else 1).

(** [re.sub] with the template already parsed. *)
Definition sub_with (d : bool) (r : regex) (tpl : list titem) (count : nat)
           (s : str) : str :=
  sub_loop (scan_fuel s) d r tpl count 0 false s.

(** ** The rule for horizontal lines

    The last statement of the conversion:
    [re.sub(r'<hr( dir.*?){0,1}>', r'\n---', text)]. *)

Definition hr_rule (text : str) : result str :=
  re_sub false hr_pattern (T "\n---") text 0.

(** A character that may stand inside the attribute of a horizontal-rule
    marker: neither the end of the tag nor a newline. *)
Definition attr_char (a : ascii) : bool :=
  negb (ascii_eqb a ">") && negb (ascii_eqb a nl).

Definition not_char (b : ascii) (a : ascii) : bool := negb (ascii_eqb a b).

(** ** Inputs on which the block loops do not end *)

Definition ol_bad : str := T "<ol><li>\g<0></li></ol>".
Definition ul_bad : str := T "<ul>\g<0></ul>".
Definition quote_bad : str := T "<blockquote>\g<0></blockquote>".

(** [n] copies of [u]. *)
Fixpoint copies (n : nat) (u : str) : str :=
  match n with
  | 0 => []
  | S k => copies k u ++ u
  end.

(** The text of the ordered-list loop after [n] iterations on [ol_bad]. *)
Definition ol_bad_after (n : nat) : str := copies n (nl :: T "1. ") ++ ol_bad.

(** ** Sample texts *)

Definition tab : ascii := "009"%char.

(** A span styled as underlined, with the inner text [inner]. *)
Definition underlined (inner : str) : str :=
  T "<span style=" ++ dq :: T "text-decoration: underline;" ++ dq :: T ">"
  ++ inner ++ T "</span>".

(** ** The name normalizer in the words of the specification

    Replacing occurrences of words is defined here on the text alone,
    without the matcher.  [strip_prefix w s] is the text after [w] when
    [s] starts with [w]; [match_len olds s] is the length of the first
    word of [olds] that [s] starts with. *)

Fixpoint strip_prefix (w s : str) : option str :=
  match w, s with
  | [], _ => Some s
  | a :: w', b :: s' => if ascii_eqb b a then strip_prefix w' s' else None
  | _ :: _, [] => None
  end.

Fixpoint match_len (olds : list str) (s : str) : option nat :=
  match olds with
  | [] => None
  | w :: rest =>
      match strip_prefix w s with
      | Some _ => Some (length w)
      | None => match_len rest s
      end
  end.

(** Left to right, every occurrence of a word of [olds] is replaced by
    [new]; [skip] counts the characters of an occurrence still to pass. *)
Fixpoint replace_occ (olds : list str) (new : str) (skip : nat) (s : str)
  : str :=
  match s with
  | [] => []
  | a :: t =>
      match skip with
      | S k => replace_occ olds new k t
      | 0 =>
          match match_len olds s with
          | Some (S n) => new ++ replace_occ olds new n t
          | _ => a :: replace_occ olds new 0 t
          end
      end
  end.

Definition replace_each (olds : list str) (new : str) (s : str) : str :=
  replace_occ olds new 0 s.

(** Rule (b) for one misspelling: its all-uppercase occurrences become
    the canonical name in uppercase, then its occurrences as spelled in
    the table or in lowercase become the canonical name. *)
Definition fix_mispelling_spec (canon : str) (w : option str) (text : str)
  : str :=
  match w with
  | None => text
  | Some w =>
      replace_each [w; lower w] canon
        (replace_each [upper w] (upper canon) text)
  end.

(** One entry: rule (a), then rule (b) for each misspelling in turn. *)
Definition fix_entry_spec (entry : str * list (option str)) (text : str)
  : str :=
  fold_left (fun t w => fix_mispelling_spec (fst entry) w t) (snd entry)
            (replace_each [lower (fst entry)] (fst entry) text).

Definition rewriteNames_spec (table : list (str * list (option str)))
           (text : str) : str :=
  fold_left (fun t entry => fix_entry_spec entry t) table text.

(** A table the model covers: every name and misspelling is non-empty
    and free of backslashes. *)
Definition good_name (w : str) : bool :=
  negb (is_nil w) && forallb (not_char bsl) w.

Definition good_entry (entry : str * list (option str)) : bool :=
  good_name (fst entry)
  && forallb (fun w => match w with Some w => good_name w | None => true end)
             (snd entry).

(** ** Lines of a blockquote *)

(** The lines after the first one, each with the newline before it. *)
Definition join_lines (ls : list str) : str := flat_map (fun l => nl :: l) ls.

(** The same lines as the quote rewriter leaves them: the prefix [> ]
    after the newline of every line but the last. *)
Fixpoint quote_lines (ls : list str) : str :=
  match ls with
  | [] => []
  | l :: rest =>
      match rest with
      | [] => nl :: l
      | _ :: _ => (nl :: T "> ") ++ l ++ quote_lines rest
      end
  end.

(** A character of a line of plain quoted text: no newline, no start of
    a tag, no backslash. *)
Definition line_char (a : ascii) : bool :=
  not_char nl a && not_char "<" a && not_char bsl a.

Definition plain_line (l : str) : bool := forallb line_char l.

Definition quote_block (content : str) : str :=
  T "<blockquote>" ++ content ++ T "</blockquote>".

(** The parsed template of the contents rule: newline, [> ], group 2. *)
Definition quote_contents_tpl : list titem :=
  [TLit nl; TLit ">"%char; TLit " "%char; TGroup 2].

(** ** Spans *)

Definition span_open (attrs : str) : str := T "<span" ++ attrs ++ T ">".
Definition span_close : str := T "</span>".

(** A character of plain running text: no start of a tag, no start of an
    entity. *)
Definition text_char (a : ascii) : bool := not_char "<" a && not_char "&" a.

(** A character inside an opening tag, after the tag name. *)
Definition tag_char (a : ascii) : bool :=
  text_char a && not_char ">" a && not_char nl a.

(** A character of running text that is no word character. *)
Definition wordless_char (a : ascii) : bool := text_char a && negb (is_word a).

(** ** Items of a list *)

(** An item with its inner content and the whitespace after it. *)
Definition li_item (it : str * str) : str :=
  T "<li>" ++ fst it ++ T "</li>" ++ snd it.

Definition li_items (items : list (str * str)) : str := flat_map li_item items.

Definition ol_block (ws : str) (items : list (str * str)) : str :=
  T "<ol>" ++ ws ++ li_items items ++ T "</ol>".

(** The value of [li_str] for the items, numbered from [k]: the raw
    template text, with the two characters backslash and n before each
    number. *)
Fixpoint raw_lines (k : nat) (items : list (str * str)) : str :=
  match items with
  | [] => []
  | it :: rest =>
      T "\n" ++ str_of_nat k ++ T ". " ++ fst it ++ snd it
      ++ raw_lines (S k) rest
  end.

(** The numbered lines that replace the items. *)
Fixpoint numbered (k : nat) (items : list (str * str)) : str :=
  match items with
  | [] => []
  | it :: rest =>
      nl :: str_of_nat k ++ T ". " ++ fst it ++ snd it ++ numbered (S k) rest
  end.

(** An item of plain text: its content is a plain line, and what follows
    it is whitespace. *)
Definition plain_item (it : str * str) : bool :=
  plain_line (fst it) && forallb is_space (snd it).

(** The continuation [K] fails at every position inside [u], when [u] is
    followed by [s]. *)
Definition fails_on (A : Type) (K : cont A) (c : caps) (u s : str) : Prop :=
  forall v a w, u = v ++ a :: w -> K (a :: w ++ s) c = None.

(** ** Texts cut into segments

    A segment is a piece of text with a flag: [true] when the pattern of
    a pass matches exactly the piece (whatever follows it), [false] when
    it matches nowhere inside the piece (whatever follows it). *)

Definition seg_text (segs : list (str * bool)) : str :=
  flat_map (fun sg : str * bool => fst sg) segs.

Definition seg_result (new : str) (segs : list (str * bool)) : str :=
  flat_map (fun sg : str * bool => if snd sg then new else fst sg) segs.

Definition seg_ok (d : bool) (r : regex) (sg : str * bool) : Prop :=
  if snd sg
  then fst sg <> []
       /\ forall rest, exists c,
            match_here d r false (fst sg ++ rest) = Some (rest, c)
  else forall rest v a w,
         fst sg = v ++ a :: w -> match_here d r false (a :: w ++ rest) = None.
(** ** Unordered and task lists *)

Definition li_checked_open : str :=
  T "<li data-checked=" ++ dq :: T "true" ++ dq :: T ">".

Definition task_open : str := T "<ul class=" ++ dq :: T "task" ++ dq :: T ">".

(** The opening tag of a list, of a task list when [task]. *)
Definition ul_open (task : bool) : str := if task then task_open else T "<ul>".

(** An item: whether it is checked, its content, the whitespace after
    it. *)
Definition uitem : Type := (bool * (str * str))%type.

Definition ul_item_open (checked : bool) : str :=
  if checked then li_checked_open else T "<li>".

Definition ul_item (it : uitem) : str :=
  ul_item_open (fst it) ++ fst (snd it) ++ T "</li>" ++ snd (snd it).

Definition ul_items (items : list uitem) : str := flat_map ul_item items.

Definition ul_block (task : bool) (ws : str) (items : list uitem) : str :=
  ul_open task ++ ws ++ ul_items items ++ T "</ul>".

(** What the opening tag of an item becomes: in a task list the mark of
    a checked or of an unchecked item, in a plain list the bullet; the
    opening tag of a checked item in a plain list is left as it is. *)
Definition bullet (task checked : bool) : str :=
  if task then (if checked then nl :: T "- [X] " else nl :: T "- [ ] ")
  else (if checked then li_checked_open else nl :: T "- ").

Definition bullets (task : bool) (items : list uitem) : str :=
  flat_map (fun it : uitem =>
              bullet task (fst it) ++ fst (snd it) ++ snd (snd it)) items.

Definition plain_uitem (it : uitem) : bool :=
  plain_line (fst (snd it)) && forallb is_space (snd (snd it)).

(** The segments of an item for a pass: its opening tag as the pass
    finds it, its content, its closing tag and the whitespace after. *)
Definition item_segs (opener : bool -> str) (open_hit : bool -> bool)
           (close_hit : bool) (it : uitem) : list (str * bool) :=
  [ (opener (fst it), open_hit (fst it)); (fst (snd it), false);
    (T "</li>", close_hit); (snd (snd it), false) ].

Definition list_segs (opener : bool -> str) (open_hit : bool -> bool)
           (close_hit : bool) (ws : str) (items : list uitem)
  : list (str * bool) :=
  (ws, false) :: flat_map (item_segs opener open_hit close_hit) items.

(** The opening tags before the second pass: in a task list the checked
    ones are already rewritten. *)
Definition opener_mid (task checked : bool) : str :=
  if checked then (if task then nl :: T "- [X] " else li_checked_open)
  else T "<li>".

(** The opening tag of a list as [<ul], attributes, [>]. *)
Definition ul_attrs (task : bool) : str :=
  if task then T " class=" ++ dq :: T "task" ++ [dq] else [].

(** ** Inline spans *)

(** The tags of the three wrapping rules with a group for the entity:
    the pattern, the name of the tag and the marker of the rule. *)
Definition wrap_rules : list (pattern * (str * str)) :=
  [ (em_pattern, (T "em", T "*")); (em_pattern, (T "i", T "*"));
    (strong_pattern, (T "strong", T "**")); (strong_pattern, (T "b", T "**"));
    (del_pattern, (T "del", T "~~")) ].

(** The replacement template of a rule with marker [mk]. *)
Definition wrap_template (mk : str) : str :=
  mk ++ T "\g<content>" ++ mk ++ T "\g<nbsp>".

(** A span with the entity before its closing tag. *)
Definition wrapped_nbsp (name content : str) : str :=
  T "<" ++ name ++ T ">" ++ content ++ T "&nbsp;</" ++ name ++ T ">".

(** A character of the content of an inline span: running text on one
    line. *)
Definition content_char (a : ascii) : bool := text_char a && not_char nl a.

(** ** Where captured groups lie *)

(** Every group of [c] starts at a position of [s0]. *)
Definition caps_in (s0 : str) (c : caps) : Prop :=
  forall i sp, In (i, sp) c -> suffix (fst sp) s0.

(** ** Texts with lists

    A text made of pieces: running text without a tag, blocks of ordered
    items and blocks of unordered or task items. *)

Inductive piece : Type :=
| PText (s : str)
| POl (ws : str) (items : list (str * str))
| PUl (task : bool) (ws : str) (items : list uitem).

Definition piece_text (p : piece) : str :=
  match p with
  | PText s => s
  | POl ws items => ol_block ws items
  | PUl task ws items => ul_block task ws items
  end.

(** A piece once the loop for ordered lists is through. *)
Definition piece_numbered (p : piece) : str :=
  match p with
  | POl ws items => ws ++ numbered 1 items
  | _ => piece_text p
  end.

(** A piece once both loops are through. *)
Definition piece_markdown (p : piece) : str :=
  match p with
  | PText s => s
  | POl ws items => ws ++ numbered 1 items
  | PUl task ws items => ws ++ ws ++ bullets task items
  end.

Definition good_piece (p : piece) : bool :=
  match p with
  | PText s => forallb (not_char "<") s
  | POl ws items => forallb is_space ws && forallb plain_item items
  | PUl task ws items => forallb is_space ws && forallb plain_uitem items
  end.

Definition doc_text (ps : list piece) : str := flat_map piece_text ps.
Definition doc_numbered (ps : list piece) : str := flat_map piece_numbered ps.
Definition doc_markdown (ps : list piece) : str := flat_map piece_markdown ps.

(** ** Tags ([Importer.escape_tag]) *)

(** [\s+] *)
Definition whitespace_pattern : pattern := Pattern (Plus (Chr Space)) 0 [].

(** [re.sub(r'\s+', r'\\\g<0>', raw)] *)
Definition escape_tag (raw : str) : result str :=
  re_sub false whitespace_pattern (T "\\\g<0>") raw 0.

(** A backslash before every run of whitespace, read off the text
    alone; [in_run] tells that the character before was whitespace. *)
Fixpoint escape_runs (in_run : bool) (s : str) : str :=
  match s with
  | [] => []
  | a :: t =>
      if is_space a
      then (if in_run then [a] else [bsl; a]) ++ escape_runs true t
      else a :: escape_runs false t
  end.

(** The whitespace at the front of a text, and the text after it. *)
Fixpoint take_space (s : str) : str :=
  match s with
  | a :: t => if is_space a then a :: take_space t else []
  | [] => []
  end.

Fixpoint drop_space (s : str) : str :=
  match s with
  | a :: t => if is_space a then drop_space t else s
  | [] => []
  end.

(** ** The identifier of a new entry ([Importer.parse_id_from_output]) *)

(** A set of characters [[...]] that is not empty, as the alternation of
    its characters. *)
Fixpoint one_of (cs : str) : regex :=
  match cs with
  | [] => Eps
  | [a] => Chr (Lit a)
  | a :: cs' => Alt (Chr (Lit a)) (one_of cs')
  end.

(** [[A-F0-9]] *)
Definition id_chars : str := T "ABCDEF0123456789".

Definition is_id_char (a : ascii) : bool := existsb (ascii_eqb a) id_chars.

(** [([A-F0-9]+)\s*], the pattern of [parse_id_from_output] up to its
    [$]. *)
Definition id_pattern : pattern :=
  Pattern (Seq (Group 1 (Plus (one_of id_chars))) spaces) 1 [].

(** [$] without the MULTILINE flag: the end of the text, or the place
    before a newline that ends the text. *)
Definition at_end (s : str) : bool :=
  match s with
  | [] => true
  | [a] => ascii_eqb a nl
  | _ => false
  end.

(** One attempt at the front of [s] for a pattern that ends with [$]. *)
Definition match_here_end (dotall : bool) (r : regex) (s : str)
  : option (str * caps) :=
  m dotall r s [] (fun s' c => if at_end s' then Some (s', c) else None).

(** [re.search] for a pattern that ends with [$]. *)
Fixpoint search_end (dotall : bool) (r : regex) (s : str) : option mres :=
  match match_here_end dotall r s with
  | Some (s', c) => Some (MRes [] (s, s') c)
  | None =>
      match s with
      | [] => None
      | a :: t => option_map (shift a) (search_end dotall r t)
      end
  end.

Definition parse_id_from_output (output : str) : str :=
  match search_end false (p_re id_pattern) output with
  | Some x => group_str x 1
  | None => []
  end.

Fixpoint take_while (p : ascii -> bool) (s : str) : str :=
  match s with
  | a :: t => if p a then a :: take_while p t else []
  | [] => []
  end.

Fixpoint drop_while (p : ascii -> bool) (s : str) : str :=
  match s with
  | a :: t => if p a then drop_while p t else s
  | [] => []
  end.

(** The identifier at the end of a text, read off the text alone: the
    longest run of characters of [[A-F0-9]] that ends where the trailing
    whitespace starts. *)
Definition trailing_id (output : str) : str :=
  rev (take_while is_id_char (drop_while is_space (rev output))).

(** ** Coordinates and the command line
    ([Importer.build_valid_entry], [Importer.build_dayone_args]) *)

Module DayOne.

(** A Python float: a value of the IEEE 754 binary64 format. *)
Definition float : Type := SpecFloat.spec_float.

(** [math.isfinite] *)
Definition isfinite (x : float) : bool :=
  match x with
  | SpecFloat.S754_zero _ | SpecFloat.S754_finite _ _ _ => true
  | SpecFloat.S754_infinity _ | SpecFloat.S754_nan => false
  end.

(** The constants [90] and [180] as floats. *)
Definition f90 : float :=
  SpecFloat.S754_finite false 6333186975989760%positive (-46)%Z.
Definition f180 : float :=
  SpecFloat.S754_finite false 6333186975989760%positive (-45)%Z.

Definition is_lat_valid (lat : float) : bool :=
  isfinite lat && SpecFloat.SFleb (SpecFloat.SFabs lat) f90.
Definition is_lon_valid (lon : float) : bool :=
  isfinite lon && SpecFloat.SFleb (SpecFloat.SFabs lon) f180.

(** The coordinates of a validated entry, from those of the raw entry
    (the part of [build_valid_entry] on [lat] and [lon]). *)
Definition valid_coordinates (raw_lat raw_lon : option float)
  : option float * option float :=
  match raw_lat, raw_lon with
  | Some lat, Some lon =>
      if is_lat_valid lat && is_lon_valid lon then (Some lat, Some lon)
      else (None, None)
  | _, _ => (None, None)
  end.

Record ValidatedEntry : Type := {
  foreign_id : str;
  source_path : str;
  text : str;
  tags : list str;
  photos : list str;
  lat : option float;
  lon : option float;
  timestamp : str;
  timezone : str
}.

(** The truth value of an optional float: [None] and the zeros are
    false. *)
Definition truthy (x : option float) : bool :=
  match x with
  | None | Some (SpecFloat.S754_zero _) => false
  | Some _ => true
  end.

Definition is_empty {X : Type} (l : list X) : bool :=
  match l with [] => true | _ => false end.

Section Args.

(** [str] on a float. *)
Variable float_str : float -> str.

Definition coordinate_args (entry : ValidatedEntry) : list str :=
  match lat entry, lon entry with
  | Some la, Some lo =>
      if truthy (lat entry) && truthy (lon entry)
      then [T "--coordinate"; float_str la; float_str lo]
      else []
  | _, _ => []
  end.

Definition build_dayone_args (target_journal_name : str)
           (entry : ValidatedEntry) : list str :=
  [T "dayone2"; T "-j"; target_journal_name]
  ++ [T "-d"; timestamp entry]
  ++ [T "-z"; timezone entry]
  ++ (if is_empty (tags entry) then [] else T "-t" :: tags entry)
  ++ (if is_empty (photos entry) then [] else T "-p" :: photos entry)
  ++ coordinate_args entry
  ++ [T "--"; T "new"].

End Args.

(** The entry [entry] with other coordinates. *)
Definition with_coordinates (entry : ValidatedEntry)
           (la lo : option float) : ValidatedEntry :=
  {| foreign_id := foreign_id entry; source_path := source_path entry;
     text := text entry; tags := tags entry; photos := photos entry;
     lat := la; lon := lo;
     timestamp := timestamp entry; timezone := timezone entry |}.

End DayOne.

(** ** Web links ([Importer.convert_weblinks], which the conversion does
    not call) *)

(** [(<a\s*href=\")(?P<link>.*?)(.{1}\">)(?P<display_text>.*?)(<\\*/+a>)] *)
Definition link_parent_search_pattern : pattern :=
  Pattern (Seqs [Group 1 (Seqs [L "<a"; spaces; L "href="; Chr (Lit dq)]);
                 Group 2 lazy_any;
                 Group 3 (Seqs [Chr Any; Chr (Lit dq); L ">"]);
                 Group 4 lazy_any;
                 Group 5 (Seqs [close_start; L "a>"])])
          5 [(T "link", 2); (T "display_text", 4)].

Definition convert_weblinks (text : str) : result str :=
  re_sub true link_parent_search_pattern (T "[\g<display_text>\](\g<link>)")
         text 0.

(** A link with its address and the text it shows. *)
Definition anchor (url display : str) : str :=
  T "<a href=" ++ dq :: url ++ dq :: T ">" ++ display ++ T "</a>".

(** ** The phrase replacement, read off the text alone *)

(** The two letters that vary in an occurrence of the phrase at the
    front of [s] (the [C] or [c] and the [S] or [s]), when [s] starts
    with an occurrence. *)
Definition coffee_shop_at (s : str) : option (ascii * ascii) :=
  match s with
  | c1 :: s1 =>
      if ascii_eqb c1 "C" || ascii_eqb c1 "c" then
        match strip_prefix (T "offee") s1 with
        | Some (c2 :: s2) =>
            if ascii_eqb c2 "S" || ascii_eqb c2 "s" then
              match strip_prefix (T "hop") s2 with
              | Some _ => Some (c1, c2)
              | None => None
              end
            else None
        | _ => None
        end
      else None
  | [] => None
  end.

(** Left to right, a space is put into every occurrence of the phrase;
    [skip] counts the characters of an occurrence still to pass. *)
Fixpoint split_coffee_shop (skip : nat) (s : str) : str :=
  match s with
  | [] => []
  | a :: t =>
      match skip with
      | S k => split_coffee_shop k t
      | 0 =>
          match coffee_shop_at s with
          | Some (c1, c2) =>
              c1 :: T "offee " ++ c2 :: T "hop" ++ split_coffee_shop 9 t
          | None => a :: split_coffee_shop 0 t
          end
      end
  end.

(** ** Patterns without groups, and the tags of a text *)

(** [r] holds no capture group. *)
Fixpoint gfree (r : regex) : bool :=
  match r with
  | Eps | Chr _ => true
  | Seq r1 r2 | Alt r1 r2 => gfree r1 && gfree r2
  | Star _ r1 | Look r1 => gfree r1
  | Group _ _ => false
  end.

(** The number of [<] in a text: every loop iteration takes at least one
    away. *)
Fixpoint opens (s : str) : nat :=
  match s with
  | [] => 0
  | a :: t => (if ascii_eqb a "<" then 1 else 0) + opens t
  end.
(** The content of an item that [finditer] has found and the whitespace
    after it. *)
Definition item_of (li_match : mres) : str * str :=
  (group_str li_match 2, group_str li_match 4).

Definition plain_pair (it : str * str) : Prop :=
  plain_text (fst it) /\ plain_text (snd it).

Definition item_opens (it : str * str) : nat := opens (fst it) + opens (snd it).

(** ** Inline markup, token by token

    A text cut into tokens: running text, the entity for a non-breaking
    space, a span of one of the wrapping rules (with or without the
    entity before its closing tag), the opening tag of a heading of
    level 1 to 3, the closing tag of a heading, the opening tag of a
    paragraph with or without attributes, its closing tag, and a tag
    that no rule of [convert_simple] touches. *)

Inductive wrap_kind : Type := WEm | WI | WStrong | WB | WDel.

Definition wrap_rule (k : wrap_kind) : pattern * (str * str) :=
  match k with
  | WEm => (em_pattern, (T "em", T "*"))
  | WI => (em_pattern, (T "i", T "*"))
  | WStrong => (strong_pattern, (T "strong", T "**"))
  | WB => (strong_pattern, (T "b", T "**"))
  | WDel => (del_pattern, (T "del", T "~~"))
  end.

Definition wrap_name (k : wrap_kind) : str := fst (snd (wrap_rule k)).
Definition wrap_marker (k : wrap_kind) : str := snd (snd (wrap_rule k)).

(** The pass of [convert_simple], counted from 1, that rewrites the spans
    of a kind. *)
Definition wrap_pass (k : wrap_kind) : nat :=
  match k with
  | WEm | WI => 1
  | WStrong | WB => 2
  | WDel => 3
  end.

Definition kept_tags : list str :=
  [T "<ol>"; T "</ol>"; T "<ul>"; task_open; T "</ul>"; T "<li>";
   li_checked_open; T "</li>"; T "<blockquote>"; T "</blockquote>";
   T "<hr>"; T "<br>"].

Inductive mtoken : Type :=
| TkText (s : str)
| TkNbsp
| TkWrap (k : wrap_kind) (c : str) (n : bool)
| TkHead (level : nat)
| TkHeadClose (digits : str)
| TkPOpen (attrs : str)
| TkPClose
| TkKeep (t : str).

Definition good_token (t : mtoken) : bool :=
  match t with
  | TkText s => forallb text_char s
  | TkNbsp | TkPClose => true
  | TkWrap _ c _ => forallb content_char c
  | TkHead l => (1 <=? l) && (l <=? 3)
  | TkHeadClose ds => negb (is_nil ds) && forallb is_digit ds
  | TkPOpen [] => true
  | TkPOpen (a :: r) => is_space a && forallb tag_char r
  | TkKeep t => existsb (str_eqb t) kept_tags
  end.

Definition head_open (l : nat) : str :=
  match l with
  | 1 => T "<h1>"
  | 2 => T "<h2>"
  | _ => T "<h3>"
  end.

(** The marker written for a heading; level 3 gets five hashes. *)
Definition head_marker (l : nat) : str :=
  match l with
  | 1 => nl :: T "# "
  | 2 => nl :: T "## "
  | _ => nl :: T "##### "
  end.

Definition wrap_open (k : wrap_kind) : str := T "<" ++ wrap_name k ++ T ">".
Definition wrap_close (k : wrap_kind) : str := T "</" ++ wrap_name k ++ T ">".

(** The parsed template of the rule of a kind: the marker, the content,
    the marker, the entity. *)
Definition wrap_tpl (k : wrap_kind) : list titem :=
  map TLit (wrap_marker k) ++ TGroup 2 :: map TLit (wrap_marker k) ++ [TGroup 3].

(** The text of a token once the first [j] passes of [convert_simple]
    are through: the eight replacements are passes 1 to 8, the five
    removals passes 9 to 13. *)
Definition token_after (j : nat) (t : mtoken) : str :=
  match t with
  | TkText s => s
  | TkNbsp => if 8 <=? j then T " " else T "&nbsp;"
  | TkWrap k c n =>
      let tail := if n then (if 8 <=? j then T " " else T "&nbsp;") else [] in
      if wrap_pass k <=? j
      then wrap_marker k ++ c ++ wrap_marker k ++ tail
      else wrap_open k ++ c ++ tail ++ wrap_close k
  | TkHead l => if 4 + l <=? j then head_marker l else head_open l
  | TkHeadClose ds => if 11 <=? j then [] else T "</h" ++ ds ++ T ">"
  | TkPOpen [] => if 10 <=? j then [] else T "<p>"
  | TkPOpen (a :: r) => if 9 <=? j then [] else T "<p" ++ a :: r ++ T ">"
  | TkPClose => if 10 <=? j then [] else T "</p>"
  | TkKeep t => t
  end.

Definition token_text (t : mtoken) : str := token_after 0 t.
Definition token_markdown (t : mtoken) : str := token_after 13 t.

Definition tokens_text (ts : list mtoken) : str := flat_map token_text ts.
Definition tokens_markdown (ts : list mtoken) : str :=
  flat_map token_markdown ts.

(** The thirteen passes of [convert_simple], in order. *)
Definition simple_passes : list (pattern * str) :=
  combine to_replace_simple replace_with_simple
  ++ map (fun p => (p, [])) to_remove_simple.

(** A piece of a text for a pass: with [Some res] the pattern matches
    exactly the piece, whatever follows, and the template expands to
    [res]; with [None] the pattern matches nowhere inside the piece. *)
Definition pieces_text (ps : list (str * option str)) : str :=
  flat_map (fun p : str * option str => fst p) ps.

Definition pieces_result (ps : list (str * option str)) : str :=
  flat_map (fun p : str * option str =>
              match snd p with Some res => res | None => fst p end) ps.

Definition piece_ok (d : bool) (r : regex) (tpl : list titem)
           (p : str * option str) : Prop :=
  match snd p with
  | Some res =>
      fst p <> []
      /\ forall rest, exists c,
           match_here d r false (fst p ++ rest) = Some (rest, c)
           /\ expand tpl (MRes [] (fst p ++ rest, rest) c) = res
  | None => seg_ok d r (fst p, false)
  end.

(** The pieces of a token for pass [j + 1]. *)
Definition token_pieces (j : nat) (t : mtoken) : list (str * option str) :=
  let whole (hit : bool) :=
    [(token_after j t, if hit then Some (token_after (S j) t) else None)] in
  match t with
  | TkText _ | TkKeep _ => whole false
  | TkNbsp => whole (j =? 7)
  | TkWrap k c n =>
      if (j =? 7) && n
      then [(wrap_marker k ++ c ++ wrap_marker k, None);
            (T "&nbsp;", Some (T " "))]
      else whole (S j =? wrap_pass k)
  | TkHead l => whole (S j =? 4 + l)
  | TkHeadClose _ => whole (j =? 10)
  | TkPOpen [] => whole (j =? 9)
  | TkPOpen (_ :: _) => whole (j =? 8)
  | TkPClose => whole (j =? 9)
  end.

(** A token of inline markup: any good token except a tag that
    [convert_simple] keeps. *)
Definition inline_token (t : mtoken) : bool :=
  match t with
  | TkKeep _ => false
  | _ => good_token t
  end.

(** ** The rule for horizontal lines, read off the text alone *)

(** The text after a horizontal-rule marker at the front of [s], when
    [s] starts with one.  A marker is [<hr>], or [<hr dir], any
    characters other than [>] and the newline, and [>]. *)
Definition hr_marker_at (s : str) : option str :=
  match strip_prefix (T "<hr") s with
  | Some r =>
      match strip_prefix (T " dir") r with
      | Some r1 =>
          match drop_while attr_char r1 with
          | a :: rest => if ascii_eqb a ">" then Some rest else None
          | [] => None
          end
      | None => strip_prefix (T ">") r
      end
  | None => None
  end.

(** Left to right, every marker becomes a newline and three dashes and
    every other character is kept; [fuel] bounds the length of [s]. *)
Fixpoint hr_lines (fuel : nat) (s : str) : str :=
  match fuel with
  | 0 => s
  | S fuel' =>
      match hr_marker_at s with
      | Some rest => (nl :: T "---") ++ hr_lines fuel' rest
      | None =>
          match s with
          | [] => []
          | a :: t => a :: hr_lines fuel' t
          end
      end
  end.

Definition hr_spec (text : str) : str := hr_lines (length text) text.

(** The first line of a text and the lines after it, each without the
    newline before it: [s] is the first line followed by
    [join_lines] of the others. *)
Fixpoint lines_of (s : str) : str * list str :=
  match s with
  | [] => ([], [])
  | a :: t =>
      if ascii_eqb a nl then ([], fst (lines_of t) :: snd (lines_of t))
      else (a :: fst (lines_of t), snd (lines_of t))
  end.

(** ** The rewriting of the items of a list, read off the text alone *)








(** * Properties of the matcher and of [re.sub] *)

Lemma sub_loop_no_match fuel d r tpl count done adv s :
  search_adv d r adv s = None ->
  sub_loop fuel d r tpl count done adv s = s.
Proof.
  intros H. destruct fuel as [|fuel]; simpl; [reflexivity|].
  destruct (negb (count =? 0) && (count <=? done)); [reflexivity|].
  now rewrite H.
Qed.

Lemma re_sub_no_match d p repl tpl text count :
  parse_template p repl = Ok tpl ->
  search d p text = None ->
  re_sub d p repl text count = Ok text.
Proof.
  intros Hp Hs. unfold re_sub. rewrite Hp. simpl.
  unfold search in Hs. now rewrite sub_loop_no_match.
Qed.

Lemma replace_all_no_match pairs text :
  Forall (fun pr => (exists tpl, parse_template (fst pr) (snd pr) = Ok tpl)
                    /\ search false (fst pr) text = None) pairs ->
  replace_all pairs text = Ok text.
Proof.
  induction 1 as [|[p repl] rest [[tpl Hp] Hs] _ IH]; simpl; [reflexivity|].
  simpl in Hp, Hs. erewrite re_sub_no_match by eassumption. exact IH.
Qed.

Lemma no_recognized_search text p :
  no_recognized_markup text = true -> In p recognized ->
  search false p text = None.
Proof.
  unfold no_recognized_markup. rewrite forallb_forall. intros H Hin.
  specialize (H p Hin). now destruct (search false p text).
Qed.

Ltac in_list := solve [repeat first [left; reflexivity | right]].

Lemma convert_simple_no_markup y :
  no_recognized_markup y = true -> convert_simple y = Ok y.
Proof.
  intros H. unfold convert_simple.
  rewrite replace_all_no_match; [cbn [bind]|].
  - apply replace_all_no_match.
    repeat constructor; cbn [fst snd];
      try (eexists; vm_compute; reflexivity);
      apply no_recognized_search; trivial; unfold recognized;
      apply in_or_app; right; in_list.
  - repeat constructor; cbn [fst snd];
      try (eexists; vm_compute; reflexivity);
      apply no_recognized_search; trivial; unfold recognized;
      apply in_or_app; left; in_list.
Qed.

Lemma no_tags_no_entity y :
  no_recognized_tags y = true -> no_entity y = true ->
  no_recognized_markup y = true.
Proof.
  unfold no_recognized_tags, no_entity, no_recognized_markup, recognized,
    recognized_tags, to_replace_simple.
  cbn [forallb app]. intros Ht He.
  repeat (apply andb_prop in Ht; destruct Ht as [?H Ht]).
  repeat (apply andb_true_intro; split); assumption.
Qed.

(** ** Soundness of the matcher for the declarative reading *)

Lemma star_sound d r g :
  (forall A s c (k : cont A) x, m d r s c k = Some x ->
     exists s' c', Matches d r s s' /\ k s' c' = Some x) ->
  forall A fuel s c (k : cont A) x,
    star (m d (A:=A) r) g fuel s c k = Some x ->
    exists s' c', Matches d (Star g r) s s' /\ k s' c' = Some x.
Proof.
  intros IHr A fuel.
  induction fuel as [|fuel IH]; intros s c k x H; simpl in H.
  - exists s, c. split; [constructor | exact H].
  - assert (Hagain : forall y,
      m d r s c (fun s' c' =>
        if length s' <? length s then star (m d (A:=A) r) g fuel s' c' k
        else None) = Some y ->
      exists s' c', Matches d (Star g r) s s' /\ k s' c' = Some y).
    { intros y Hy. apply IHr in Hy. destruct Hy as (s1 & c1 & Hm & Hk).
      destruct (length s1 <? length s); [|discriminate].
      apply IH in Hk. destruct Hk as (s2 & c2 & Hs & Hk).
      exists s2, c2. split; [econstructor; eassumption | exact Hk]. }
    destruct g.
    + destruct (m d r s c _) as [y|] eqn:E.
      * inversion H; subst. now apply Hagain.
      * exists s, c. split; [constructor | exact H].
    + destruct (k s c) as [y|] eqn:E.
      * inversion H; subst. exists s, c. split; [constructor | exact E].
      * now apply Hagain.
Qed.

Lemma m_sound d r :
  forall A s c (k : cont A) x, m d r s c k = Some x ->
    exists s' c', Matches d r s s' /\ k s' c' = Some x.
Proof.
  induction r as [|p|r1 IH1 r2 IH2|r1 IH1 r2 IH2|g r1 IH1|i r1 IH1|r1 IH1];
    intros A s c k x H; simpl in H.
  - exists s, c. split; [constructor | exact H].
  - destruct s as [|a s]; [discriminate|].
    destruct (cls_match d p a) eqn:E; [|discriminate].
    exists s, c. split; [now constructor | exact H].
  - apply IH1 in H. destruct H as (s1 & c1 & H1 & H).
    apply IH2 in H. destruct H as (s2 & c2 & H2 & H).
    exists s2, c2. split; [econstructor; eassumption | exact H].
  - destruct (m d r1 s c k) as [y|] eqn:E.
    + inversion H; subst. apply IH1 in E. destruct E as (s1 & c1 & H1 & E).
      exists s1, c1. split; [now apply M_AltL | exact E].
    + apply IH2 in H. destruct H as (s1 & c1 & H1 & H).
      exists s1, c1. split; [now apply M_AltR | exact H].
  - eapply star_sound; eassumption.
  - apply IH1 in H. destruct H as (s1 & c1 & H1 & H).
    exists s1, ((i, (s, s1)) :: c1). split; [now constructor | exact H].
  - destruct (m d r1 s c _) as [c'|] eqn:E; [|discriminate].
    apply IH1 in E. destruct E as (s1 & c1 & H1 & _).
    exists s, c'. split; [econstructor; eassumption | exact H].
Qed.

(** If no way of matching [r] at [s] lets the continuation succeed, the
    matcher fails. *)
Lemma m_none d r A s c (k : cont A) :
  (forall s' c', Matches d r s s' -> k s' c' = None) ->
  m d r s c k = None.
Proof.
  intros H. destruct (m d r s c k) as [x|] eqn:E; [|reflexivity].
  apply m_sound in E. destruct E as (s' & c' & Hm & Hk).
  rewrite (H s' c' Hm) in Hk. discriminate.
Qed.

Lemma suffix_refl (s : str) : suffix s s.
Proof. now exists []. Qed.

Lemma suffix_trans (s t u : str) : suffix s t -> suffix t u -> suffix s u.
Proof.
  intros [a Ha] [b Hb]. exists (b ++ a). subst. now rewrite app_assoc.
Qed.

Lemma suffix_cons (a : ascii) (s t : str) : suffix t s -> suffix t (a :: s).
Proof. intros [u Hu]. exists (a :: u). now subst. Qed.

Lemma Matches_suffix d r s s' : Matches d r s s' -> suffix s' s.
Proof.
  induction 1; try apply suffix_refl; try assumption.
  - apply suffix_cons, suffix_refl.
  - eapply suffix_trans; eassumption.
  - eapply suffix_trans; eassumption.
Qed.

Lemma Matches_first_lit d r a0 s s' :
  first_lit r = Some a0 -> Matches d r s s' -> exists t, s = a0 :: t.
Proof.
  intros Hf Hm. induction Hm; simpl in Hf; try discriminate; auto.
  destruct p; try discriminate. inversion Hf; subst.
  simpl in H. unfold ascii_eqb in H. apply Ascii.eqb_eq in H. subst.
  now exists s.
Qed.

(** A pattern that starts with a literal fails at once on a text that
    starts with another character, and on the empty text. *)
Lemma m_first_lit d r a0 A a s c (k : cont A) :
  first_lit r = Some a0 -> a <> a0 -> m d r (a :: s) c k = None.
Proof.
  intros Hf Hne. apply m_none. intros s' c' Hm.
  destruct (Matches_first_lit Hf Hm) as [t Ht]. congruence.
Qed.

Lemma m_first_lit_nil d r a0 A c (k : cont A) :
  first_lit r = Some a0 -> m d r [] c k = None.
Proof.
  intros Hf. apply m_none. intros s' c' Hm.
  destruct (Matches_first_lit Hf Hm) as [t Ht]. discriminate.
Qed.

(** ** Literals *)

Lemma ascii_eqb_refl a : ascii_eqb a a = true.
Proof. apply Ascii.eqb_refl. Qed.

Lemma ascii_eqb_neq a b : a <> b -> ascii_eqb a b = false.
Proof. intros H. now apply Ascii.eqb_neq. Qed.

Lemma m_Lits d A p : forall s c (k : cont A),
  m d (Lits p) (p ++ s) c k = k s c.
Proof.
  induction p as [|a p IH]; intros s c k; [reflexivity|].
  destruct p as [|b p].
  - simpl. now rewrite ascii_eqb_refl.
  - change (Lits (a :: b :: p)) with (Seq (Chr (Lit a)) (Lits (b :: p))).
    cbn [m app cls_match]. rewrite ascii_eqb_refl. apply IH.
Qed.

Lemma m_L d A w s c (k : cont A) : m d (L w) (lit w ++ s) c k = k s c.
Proof. apply m_Lits. Qed.

(** ** Lazy and greedy runs of one character class *)

Lemma m_Star_eq d g r A s c (k : cont A) :
  m d (Star g r) s c k = star (m d (A:=A) r) g (length s) s c k.
Proof. reflexivity. Qed.

Lemma m_Chr_cons d cl A a s c (k : cont A) :
  m d (Chr cl) (a :: s) c k = if cls_match d cl a then k s c else None.
Proof. reflexivity. Qed.

Lemma ltb_length_cons (a : ascii) (s : str) :
  (length s <? length (a :: s)) = true.
Proof. apply Nat.ltb_lt. simpl. lia. Qed.

Lemma star_Chr_cons d cl g A a s c (k : cont A) :
  in_cls d cl a ->
  m d (Star g (Chr cl)) (a :: s) c k
  = if g then match m d (Star g (Chr cl)) s c k with
              | Some x => Some x
              | None => k (a :: s) c
              end
    else match k (a :: s) c with
         | Some x => Some x
         | None => m d (Star g (Chr cl)) s c k
         end.
Proof.
  intros Ha. rewrite !m_Star_eq.
  change (length (a :: s)) with (S (length s)). cbn [star].
  rewrite m_Chr_cons, Ha.
  change (S (length s)) with (length (a :: s)).
  rewrite ltb_length_cons. unfold in_cls in Ha. now rewrite Ha.
Qed.

Lemma lazy_skip d cl A (k : cont A) c u : forall s,
  Forall (in_cls d cl) u ->
  (forall v a w, u = v ++ a :: w -> k (a :: w ++ s) c = None) ->
  m d (Star false (Chr cl)) (u ++ s) c k = m d (Star false (Chr cl)) s c k.
Proof.
  induction u as [|a u IH]; intros s Hu Hk; [reflexivity|].
  inversion Hu as [|? ? Ha Hu']; subst.
  cbn [app]. rewrite star_Chr_cons by assumption.
  rewrite (Hk [] a u eq_refl).
  apply IH; [assumption|].
  intros v b w E. apply (Hk (a :: v) b w). now rewrite E.
Qed.

Lemma lazy_stop d r A (k : cont A) c s x :
  k s c = Some x -> m d (Star false r) s c k = Some x.
Proof.
  intros H. rewrite m_Star_eq. destruct (length s); cbn [star]; now rewrite H.
Qed.

Lemma lazy_nil d r A (k : cont A) c :
  m d (Star false r) [] c k = k [] c.
Proof. reflexivity. Qed.

Lemma lazy_blocked d cl A (k : cont A) c a s :
  cls_match d cl a = false ->
  m d (Star false (Chr cl)) (a :: s) c k = k (a :: s) c.
Proof.
  intros H. rewrite m_Star_eq. cbn [length star]. rewrite m_Chr_cons, H.
  now destruct (k (a :: s) c).
Qed.

Lemma greedy_skip d cl A (k : cont A) c u x : forall s,
  Forall (in_cls d cl) u ->
  m d (Star true (Chr cl)) s c k = Some x ->
  m d (Star true (Chr cl)) (u ++ s) c k = Some x.
Proof.
  induction u as [|a u IH]; intros s Hu Hk; [exact Hk|].
  inversion Hu as [|? ? Ha Hu']; subst.
  cbn [app]. rewrite star_Chr_cons by assumption.
  now rewrite (IH s Hu' Hk).
Qed.

Lemma greedy_nil d r A (k : cont A) c :
  m d (Star true r) [] c k = k [] c.
Proof. reflexivity. Qed.

Lemma greedy_blocked d cl A (k : cont A) c a s :
  cls_match d cl a = false ->
  m d (Star true (Chr cl)) (a :: s) c k = k (a :: s) c.
Proof.
  intros H. rewrite m_Star_eq. cbn [length star]. now rewrite m_Chr_cons, H.
Qed.

(** ** Searching *)

Lemma search_adv_here d r adv s s' c :
  match_here d r adv s = Some (s', c) ->
  search_adv d r adv s = Some (MRes [] (s, s') c).
Proof. intros H. destruct s; simpl; now rewrite H. Qed.

Lemma search_adv_next d r adv a t :
  match_here d r adv (a :: t) = None ->
  search_adv d r adv (a :: t) = option_map (shift a) (search_adv d r false t).
Proof. intros H. simpl. now rewrite H. Qed.

Lemma search_adv_skip d r u : forall s,
  (forall v a w, u = v ++ a :: w -> match_here d r false (a :: w ++ s) = None) ->
  search_adv d r false (u ++ s)
  = option_map (prepend u) (search_adv d r false s).
Proof.
  induction u as [|a u IH]; intros s H.
  - simpl. destruct (search_adv d r false s) as [[? ? ?]|]; reflexivity.
  - cbn [app]. rewrite search_adv_next by (apply (H [] a u eq_refl)).
    rewrite IH by (intros v b w E; apply (H (a :: v) b w); now rewrite E).
    destruct (search_adv d r false s) as [[? ? ?]|]; reflexivity.
Qed.

Lemma match_here_first_lit d r a0 adv a s :
  first_lit r = Some a0 -> a <> a0 -> match_here d r adv (a :: s) = None.
Proof. intros. unfold match_here. eapply m_first_lit; eassumption. Qed.

Lemma match_here_nil d r a0 adv :
  first_lit r = Some a0 -> match_here d r adv [] = None.
Proof. intros. unfold match_here. eapply m_first_lit_nil; eassumption. Qed.

(** A text without the first character of [r] has no match of [r]. *)
Lemma search_adv_absent d r a0 u :
  first_lit r = Some a0 -> ~ In a0 u -> search_adv d r false u = None.
Proof.
  intros Hf. induction u as [|a u IH]; intros Hn.
  - simpl. now rewrite (match_here_nil d r false Hf).
  - rewrite search_adv_next.
    + rewrite IH; [reflexivity|]. intros Hin. apply Hn. now right.
    + eapply match_here_first_lit; [eassumption|].
      intros E. apply Hn. now left.
Qed.

(** ** [re.sub], step by step *)

Lemma expand_shift tpl a x : expand tpl (shift a x) = expand tpl x.
Proof.
  unfold expand. apply flat_map_ext. intros [b|[|i]]; reflexivity.
Qed.

Lemma sub_loop_next f d r tpl count done a t :
  match_here d r false (a :: t) = None ->
  sub_loop (S f) d r tpl count done false (a :: t)
  = a :: sub_loop (S f) d r tpl count done false t.
Proof.
  intros H. cbn [sub_loop].
  destruct (negb (count =? 0) && (count <=? done)); [reflexivity|].
  rewrite search_adv_next by assumption.
  destruct (search_adv d r false t) as [x|]; [|reflexivity].
  cbn [option_map]. now rewrite expand_shift.
Qed.

Lemma sub_loop_skip f d r tpl count done u : forall s,
  (forall v a w, u = v ++ a :: w -> match_here d r false (a :: w ++ s) = None) ->
  sub_loop (S f) d r tpl count done false (u ++ s)
  = u ++ sub_loop (S f) d r tpl count done false s.
Proof.
  induction u as [|a u IH]; intros s H; [reflexivity|].
  cbn [app]. rewrite sub_loop_next by (apply (H [] a u eq_refl)).
  rewrite IH; [reflexivity|].
  intros v b w E. apply (H (a :: v) b w). now rewrite E.
Qed.

Lemma sub_loop_here f d r tpl count done adv s s' c :
  match_here d r adv s = Some (s', c) ->
  sub_loop (S f) d r tpl count done adv s
  = if negb (count =? 0) && (count <=? done) then s
    else expand tpl (MRes [] (s, s') c)
         ++ sub_loop f d r tpl count (S done) (is_nil (consumed s s')) s'.
Proof.
  intros H. cbn [sub_loop]. now rewrite (search_adv_here _ _ _ _ H).
Qed.

Lemma sub_loop_count_reached f d r tpl n adv s :
  sub_loop f d r tpl (S n) (S n) adv s = s.
Proof.
  destruct f; cbn [sub_loop]; [reflexivity|].
  replace (negb (S n =? 0) && (S n <=? S n)) with true; [reflexivity|].
  symmetry. apply andb_true_iff. split; [reflexivity|].
  apply Nat.leb_le. lia.
Qed.

Lemma scan_fuel_S (s : str) : scan_fuel s = S (S (2 * length s)).
Proof. unfold scan_fuel. lia. Qed.

(** ** Templates without a backslash *)

Lemma plain_text_cons a s : plain_text (a :: s) -> a <> bsl /\ plain_text s.
Proof.
  unfold plain_text. intros H. split.
  - intros E. apply H. left. now symmetry.
  - intros Hin. apply H. now right.
Qed.

Lemma parse_loop_plain p s : forall fuel,
  length s < fuel -> plain_text s ->
  (t <- tok_next s ;; parse_loop fuel p t) = Ok (map TLit s).
Proof.
  induction s as [|a s IH]; intros fuel Hf Hp.
  - destruct fuel; [simpl in Hf; lia|]. reflexivity.
  - destruct fuel as [|fuel]; [simpl in Hf; lia|].
    apply plain_text_cons in Hp. destruct Hp as [Ha Hp].
    assert (IH' := IH fuel ltac:(simpl in Hf; lia) Hp).
    cbn [tok_next]. rewrite (ascii_eqb_neq Ha). cbn [bind parse_loop].
    unfold tok_get. cbn [fst snd].
    destruct (tok_next s) as [t'|e]; cbn [bind] in *; [|discriminate].
    now rewrite IH'.
Qed.

Lemma parse_template_plain p s :
  plain_text s -> parse_template p s = Ok (map TLit s).
Proof.
  intros H. unfold parse_template. apply parse_loop_plain; [lia | exact H].
Qed.

Lemma expand_plain s x : expand (map TLit s) x = s.
Proof.
  unfold expand. induction s as [|a s IH]; simpl; [reflexivity|].
  now rewrite IH.
Qed.

(** ** Progress of the scan: [re.sub] does not depend on its fuel *)

Lemma suffix_length (t s : str) : suffix t s -> length t <= length s.
Proof. intros [u ->]. rewrite length_app. lia. Qed.

Lemma match_here_length d r adv s s' c :
  match_here d r adv s = Some (s', c) ->
  length s' <= length s /\ (adv = true -> length s' < length s).
Proof.
  unfold match_here. intros H. apply m_sound in H.
  destruct H as (s1 & c1 & Hm & Hk).
  apply Matches_suffix, suffix_length in Hm.
  destruct adv; cbn [andb] in Hk.
  - destruct (length s1 =? length s) eqn:E; [discriminate|].
    inversion Hk; subst. apply Nat.eqb_neq in E. split; [lia|]. intros _. lia.
  - inversion Hk; subst. split; [lia|]. discriminate.
Qed.

Lemma span_text_nil (s s' : str) :
  length s' <= length s -> is_nil (span_text (s, s')) = true ->
  length s' = length s.
Proof.
  unfold span_text, consumed. cbn [fst snd]. intros Hle H.
  destruct s as [|a s]; [simpl in *; lia|].
  destruct (length (a :: s) - length s') eqn:E; [lia|].
  simpl in H. discriminate.
Qed.

Lemma search_adv_measure d r : forall s adv x,
  search_adv d r adv s = Some x ->
  scan_measure (m_end x) (is_nil (span_text (m_span x))) < scan_measure s adv.
Proof.
  induction s as [|a s IH]; intros adv x H; simpl in H.
  - destruct (match_here d r adv []) as [[s' c]|] eqn:E; [|discriminate].
    inversion H; subst. apply match_here_length in E. destruct E as [E1 E2].
    unfold scan_measure, m_end. simpl (m_span _). cbn [snd].
    destruct adv; [specialize (E2 eq_refl); simpl in E2; lia|].
    unfold span_text, consumed. cbn [fst snd]. rewrite firstn_nil.
    simpl in *. lia.
  - destruct (match_here d r adv (a :: s)) as [[s' c]|] eqn:E.
    + inversion H; subst. apply match_here_length in E. destruct E as [E1 E2].
      unfold scan_measure, m_end. simpl (m_span _). cbn [snd].
      destruct (is_nil _) eqn:N.
      * apply span_text_nil in N; [|assumption].
        destruct adv; [specialize (E2 eq_refl); lia | lia].
      * destruct adv; [specialize (E2 eq_refl); lia|].
        assert (length s' <> length (a :: s)); [|lia].
        intros L. unfold span_text, consumed in N. cbn [fst snd] in N.
        rewrite L, Nat.sub_diag in N. discriminate.
    + destruct (search_adv d r false s) as [y|] eqn:F; [|discriminate].
      inversion H; subst. apply IH in F.
      unfold scan_measure, m_end in *. cbn [shift m_span] in *.
      simpl length. destruct adv; lia.
Qed.

Lemma sub_loop_fuel d r tpl count : forall f1 f2 done adv s,
  scan_measure s adv < f1 -> scan_measure s adv < f2 ->
  sub_loop f1 d r tpl count done adv s = sub_loop f2 d r tpl count done adv s.
Proof.
  induction f1 as [|f1 IH]; intros f2 done adv s H1 H2; [lia|].
  destruct f2 as [|f2]; [lia|]. cbn [sub_loop].
  destruct (negb (count =? 0) && (count <=? done)); [reflexivity|].
  destruct (search_adv d r adv s) as [x|] eqn:E; [|reflexivity].
  apply search_adv_measure in E.
  rewrite (IH f2); [reflexivity | lia | lia].
Qed.

Lemma scan_fuel_enough (s : str) adv : scan_measure s adv < scan_fuel s.
Proof. unfold scan_measure, scan_fuel. destruct adv; lia. Qed.


(** ** [re.sub] on a text, piece by piece *)

Lemma re_sub_eq d p repl text count :
  re_sub d p repl text count
  = (tpl <- parse_template p repl ;; Ok (sub_with d (p_re p) tpl count text)).
Proof. reflexivity. Qed.

Lemma sub_loop_done0 d r tpl : forall f done adv s,
  sub_loop f d r tpl 0 done adv s = sub_loop f d r tpl 0 0 adv s.
Proof.
  induction f as [|f IH]; intros done adv s; [reflexivity|].
  cbn [sub_loop Nat.eqb negb andb].
  destruct (search_adv d r adv s) as [x|]; [|reflexivity].
  now rewrite (IH 1), (IH (S done)).
Qed.

Lemma sub_with_none d r tpl count s :
  search_adv d r false s = None -> sub_with d r tpl count s = s.
Proof. intros H. unfold sub_with. now apply sub_loop_no_match. Qed.

Lemma sub_with_skip d r tpl u s :
  (forall v a w, u = v ++ a :: w -> match_here d r false (a :: w ++ s) = None) ->
  sub_with d r tpl 0 (u ++ s) = u ++ sub_with d r tpl 0 s.
Proof.
  intros H. unfold sub_with. rewrite scan_fuel_S.
  rewrite sub_loop_skip by assumption. f_equal.
  apply sub_loop_fuel; [|apply scan_fuel_enough].
  unfold scan_measure. rewrite length_app. lia.
Qed.

Lemma sub_with_here d r tpl s s' c :
  match_here d r false s = Some (s', c) ->
  length s' < length s ->
  sub_with d r tpl 0 s = expand tpl (MRes [] (s, s') c) ++ sub_with d r tpl 0 s'.
Proof.
  intros H Hlt. unfold sub_with. rewrite scan_fuel_S.
  erewrite sub_loop_here by eassumption. cbn [Nat.eqb negb andb]. f_equal.
  replace (is_nil (consumed s s')) with false.
  - rewrite sub_loop_done0.
    apply sub_loop_fuel; [|apply scan_fuel_enough]. unfold scan_measure. lia.
  - unfold consumed. destruct s as [|a s]; [simpl in Hlt; lia|].
    destruct (length (a :: s) - length s') eqn:E; [lia|]. reflexivity.
Qed.

Lemma sub_with_first d r tpl s x :
  search_adv d r false s = Some x ->
  sub_with d r tpl 1 s = m_pre x ++ expand tpl x ++ m_end x.
Proof.
  intros H. unfold sub_with. rewrite scan_fuel_S.
  remember (S (2 * length s)) as f. cbn [sub_loop].
  cbn [Nat.eqb negb andb Nat.leb]. rewrite H.
  now rewrite sub_loop_count_reached.
Qed.

Lemma sub_with_nil d r tpl a0 count :
  first_lit r = Some a0 -> sub_with d r tpl count [] = [].
Proof.
  intros H. apply sub_with_none. simpl.
  now rewrite (match_here_nil d r false H).
Qed.

(** A run of characters none of which starts a match is copied. *)
Lemma sub_with_absent d r tpl a0 u s :
  first_lit r = Some a0 -> ~ In a0 u ->
  sub_with d r tpl 0 (u ++ s) = u ++ sub_with d r tpl 0 s.
Proof.
  intros Hf Hn. apply sub_with_skip. intros v a w E.
  eapply match_here_first_lit; [eassumption|].
  intros ->. apply Hn. rewrite E. apply in_or_app. right. now left.
Qed.

(** ** Unfolding equations of the matcher *)

Lemma m_Seq d r1 r2 A s c (k : cont A) :
  m d (Seq r1 r2) s c k = m d r1 s c (fun s' c' => m d r2 s' c' k).
Proof. reflexivity. Qed.

Lemma m_Alt d r1 r2 A s c (k : cont A) :
  m d (Alt r1 r2) s c k
  = match m d r1 s c k with Some x => Some x | None => m d r2 s c k end.
Proof. reflexivity. Qed.

Lemma m_Group d i r A s c (k : cont A) :
  m d (Group i r) s c k = m d r s c (fun s' c' => k s' ((i, (s, s')) :: c')).
Proof. reflexivity. Qed.

Lemma m_Eps d A s c (k : cont A) : m d Eps s c k = k s c.
Proof. reflexivity. Qed.

Lemma m_Look d r A s c (k : cont A) :
  m d (Look r) s c k
  = match m d r s c (fun _ c' => Some c') with
    | Some c' => k s c'
    | None => None
    end.
Proof. reflexivity. Qed.

Lemma m_Opt_some d r A s c (k : cont A) x :
  m d r s c k = Some x -> m d (Opt r) s c k = Some x.
Proof. intros H. unfold Opt. now rewrite m_Alt, H. Qed.

Lemma m_Opt_none d r A s c (k : cont A) :
  m d r s c k = None -> m d (Opt r) s c k = k s c.
Proof. intros H. unfold Opt. now rewrite m_Alt, H. Qed.

Lemma m_L_cons_neq d w a0 A a s c (k : cont A) :
  first_lit (L w) = Some a0 -> a <> a0 -> m d (L w) (a :: s) c k = None.
Proof. apply m_first_lit. Qed.

Lemma not_char_neq b a : not_char b a = true -> a <> b.
Proof.
  unfold not_char, ascii_eqb. intros H E. subst.
  now rewrite Ascii.eqb_refl in H.
Qed.

Lemma forallb_not_char b u : forallb (not_char b) u = true -> ~ In b u.
Proof.
  rewrite forallb_forall. intros H Hin. apply H in Hin.
  now apply not_char_neq in Hin.
Qed.

(** A lazy run stops at the first position where the rest of the pattern
    matches; here the rest cannot match before a character [a0] that the
    run [u] does not hold. *)
Lemma lazy_scan_to d cl A (K : cont A) c u s x a0 :
  Forall (in_cls d cl) u -> ~ In a0 u ->
  (forall a t, a <> a0 -> K (a :: t) c = None) ->
  K s c = Some x ->
  m d (Star false (Chr cl)) (u ++ s) c K = Some x.
Proof.
  intros Hu Hn HK Hs. rewrite lazy_skip; [now apply lazy_stop | exact Hu |].
  intros v a w E. apply HK. intros ->. apply Hn. rewrite E.
  apply in_or_app. right. now left.
Qed.

Lemma attr_char_spec u :
  forallb attr_char u = true ->
  Forall (in_cls false Any) u /\ ~ In ">"%char u.
Proof.
  intros H. split.
  - apply Forall_forall. intros a Ha.
    rewrite forallb_forall in H. apply H in Ha.
    unfold attr_char in Ha. apply andb_true_iff in Ha. destruct Ha as [_ Ha].
    unfold in_cls. simpl. exact Ha.
  - intros Hin. rewrite forallb_forall in H. apply H in Hin.
    unfold attr_char in Hin. now rewrite ascii_eqb_refl in Hin.
Qed.

(** ** The rule for horizontal lines *)

Lemma hr_match_attr attr post :
  forallb attr_char attr = true ->
  match_here false (p_re hr_pattern) false (T "<hr dir" ++ attr ++ T ">" ++ post)
  = Some (post, [(1, (T " dir" ++ attr ++ T ">" ++ post, T ">" ++ post))]).
Proof.
  intros Ha. apply attr_char_spec in Ha. destruct Ha as [Hany Hgt].
  unfold match_here, hr_pattern, p_re, Seqs.
  change (T "<hr dir") with (T "<hr" ++ T " dir"). rewrite <- app_assoc.
  rewrite m_Seq, m_L, m_Seq.
  erewrite m_Opt_some; [reflexivity|].
  rewrite m_Group, m_Seq, m_L. unfold lazy_any.
  eapply lazy_scan_to; [exact Hany | exact Hgt | |].
  - intros a t Hne. now apply m_first_lit with (a0 := ">"%char).
  - now rewrite m_L.
Qed.

Lemma hr_match_plain post :
  match_here false (p_re hr_pattern) false (T "<hr>" ++ post) = Some (post, []).
Proof. reflexivity. Qed.

Lemma hr_template :
  parse_template hr_pattern (T "\n---") = Ok (map TLit (nl :: T "---")).
Proof. reflexivity. Qed.

Lemma hr_first_lit : first_lit (p_re hr_pattern) = Some "<"%char.
Proof. reflexivity. Qed.

Lemma hr_rule_marker pre marker post c :
  forallb (not_char "<") pre = true ->
  match_here false (p_re hr_pattern) false (marker ++ post) = Some (post, c) ->
  marker <> [] ->
  hr_rule (pre ++ marker ++ post)
  = (rest <- hr_rule post ;; Ok (pre ++ (nl :: T "---") ++ rest)).
Proof.
  intros Hpre Hm Hne. unfold hr_rule. rewrite !re_sub_eq, hr_template.
  cbn [bind]. f_equal.
  rewrite sub_with_absent with (a0 := "<"%char);
    [| exact hr_first_lit | now apply forallb_not_char].
  f_equal. erewrite sub_with_here; [|exact Hm|].
  - now rewrite expand_plain.
  - rewrite length_app. destruct marker; [congruence | simpl; lia].
Qed.

(** ** The block loops *)

Lemma search_adv_absent_app d r a0 u s :
  first_lit r = Some a0 -> ~ In a0 u ->
  search_adv d r false (u ++ s)
  = option_map (prepend u) (search_adv d r false s).
Proof.
  intros Hf Hn. apply search_adv_skip. intros v a w E.
  eapply match_here_first_lit; [eassumption|].
  intros ->. apply Hn. rewrite E. apply in_or_app. right. now left.
Qed.

Lemma ol_loop_eq fuel text :
  ol_loop fuel text
  = match search true ol_parent_search_pattern text with
    | None => Some (Ok text)
    | Some ol_match =>
        match fuel with
        | 0 => None
        | S fuel' =>
            match ol_step text ol_match with
            | Ok text' => ol_loop fuel' text'
            | Raise e => Some (Raise e)
            end
        end
    end.
Proof. destruct fuel; reflexivity. Qed.

Lemma ul_loop_eq fuel text :
  ul_loop fuel text
  = match search true ul_parent_search_pattern text with
    | None => Some (Ok text)
    | Some ul_match =>
        match fuel with
        | 0 => None
        | S fuel' =>
            match ul_step text ul_match with
            | Ok text' => ul_loop fuel' text'
            | Raise e => Some (Raise e)
            end
        end
    end.
Proof. destruct fuel; reflexivity. Qed.

Lemma quote_loop_eq fuel text :
  quote_loop fuel text
  = match search true quote_parent_search_pattern text with
    | None => Some (Ok text)
    | Some quote_match =>
        match fuel with
        | 0 => None
        | S fuel' =>
            match quote_step text quote_match with
            | Ok text' => quote_loop fuel' text'
            | Raise e => Some (Raise e)
            end
        end
    end.
Proof. destruct fuel; reflexivity. Qed.

Lemma copies_absent (a0 : ascii) u n : ~ In a0 u -> ~ In a0 (copies n u).
Proof.
  intros H. induction n as [|n IH]; simpl; [tauto|].
  intros Hin. apply in_app_or in Hin. tauto.
Qed.

Lemma ol_bad_search n :
  exists x, search true ol_parent_search_pattern (ol_bad_after n) = Some x
    /\ ol_step (ol_bad_after n) x = Ok (ol_bad_after (S n)).
Proof.
  assert (Hn : ~ In "<"%char (copies n (nl :: T "1. "))).
  { apply copies_absent. vm_compute. intuition discriminate. }
  assert (Hs : search true ol_parent_search_pattern (ol_bad_after n)
               = option_map (prepend (copies n (nl :: T "1. ")))
                   (search_adv true (p_re ol_parent_search_pattern) false ol_bad)).
  { unfold search, ol_bad_after.
    now apply search_adv_absent_app with (a0 := "<"%char). }
  destruct (search_adv true (p_re ol_parent_search_pattern) false ol_bad)
    as [x0|] eqn:E0; [|vm_compute in E0; discriminate].
  exists (prepend (copies n (nl :: T "1. ")) x0). split; [exact Hs|].
  unfold ol_step. rewrite re_sub_eq.
  vm_compute in E0. inversion E0; subst x0; clear E0.
  match goal with
  | |- (tpl <- ?P ;; _) = _ =>
      let v := eval vm_compute in P in change P with v
  end.
  cbn [bind]. f_equal.
  unfold search in Hs. erewrite sub_with_first by exact Hs.
  unfold prepend, m_end. cbn [m_pre m_span m_caps snd].
  rewrite app_nil_r.
  unfold ol_bad_after. cbn [copies]. rewrite <- app_assoc. f_equal.
Qed.

Lemma ol_loop_bad : forall fuel n, ol_loop fuel (ol_bad_after n) = None.
Proof.
  induction fuel as [|fuel IH]; intros n; rewrite ol_loop_eq;
    destruct (ol_bad_search n) as (x & Hs & Hstep); rewrite Hs;
    [reflexivity|].
  rewrite Hstep. apply IH.
Qed.

Lemma ul_bad_fixed :
  exists x, search true ul_parent_search_pattern ul_bad = Some x
    /\ ul_step ul_bad x = Ok ul_bad.
Proof.
  destruct (search true ul_parent_search_pattern ul_bad) as [x|] eqn:E;
    [|vm_compute in E; discriminate].
  exists x. split; [reflexivity|].
  vm_compute in E. inversion E; subst x. vm_compute. reflexivity.
Qed.

Lemma quote_bad_fixed :
  exists x, search true quote_parent_search_pattern quote_bad = Some x
    /\ quote_step quote_bad x = Ok quote_bad.
Proof.
  destruct (search true quote_parent_search_pattern quote_bad) as [x|] eqn:E;
    [|vm_compute in E; discriminate].
  exists x. split; [reflexivity|].
  vm_compute in E. inversion E; subst x. vm_compute. reflexivity.
Qed.

(** ** Literal patterns replace occurrences of words *)

Lemma m_Lits_strip d A w : forall s c (k : cont A),
  m d (Lits w) s c k
  = match strip_prefix w s with Some rest => k rest c | None => None end.
Proof.
  induction w as [|a w IH]; intros s c k; [reflexivity|].
  destruct w as [|b w].
  - destruct s as [|x s]; [reflexivity|]. simpl.
    now destruct (ascii_eqb x a).
  - change (Lits (a :: b :: w)) with (Seq (Chr (Lit a)) (Lits (b :: w))).
    rewrite m_Seq. destruct s as [|x s]; [reflexivity|].
    rewrite m_Chr_cons. cbn [cls_match strip_prefix].
    destruct (ascii_eqb x a); [apply IH | reflexivity].
Qed.

Lemma strip_prefix_skipn w : forall s rest,
  strip_prefix w s = Some rest -> rest = skipn (length w) s.
Proof.
  induction w as [|a w IH]; intros s rest H; simpl in H.
  - now inversion H.
  - destruct s as [|x s]; [discriminate|].
    destruct (ascii_eqb x a); [|discriminate]. simpl. now apply IH.
Qed.

Lemma match_here_Lits d w s :
  match_here d (Lits w) false s
  = option_map (fun n => (skipn n s, [])) (match_len [w] s).
Proof.
  unfold match_here. rewrite m_Lits_strip. cbn [match_len andb].
  destruct (strip_prefix w s) as [rest|] eqn:E; [|reflexivity].
  cbn [option_map]. now rewrite (strip_prefix_skipn _ _ E).
Qed.

Lemma match_here_Alt_Lits d w1 w2 s :
  match_here d (Alt (Lits w1) (Lits w2)) false s
  = option_map (fun n => (skipn n s, [])) (match_len [w1; w2] s).
Proof.
  unfold match_here. rewrite m_Alt, !m_Lits_strip. cbn [match_len andb].
  destruct (strip_prefix w1 s) as [rest|] eqn:E.
  - cbn [option_map]. now rewrite (strip_prefix_skipn _ _ E).
  - destruct (strip_prefix w2 s) as [rest|] eqn:E2; [|reflexivity].
    cbn [option_map]. now rewrite (strip_prefix_skipn _ _ E2).
Qed.

Lemma replace_occ_skip olds new : forall k t,
  replace_occ olds new k t = replace_occ olds new 0 (skipn k t).
Proof.
  induction k as [|k IH]; intros t; [reflexivity|].
  destruct t as [|a t]; [reflexivity|]. simpl. apply IH.
Qed.

Lemma match_len_nonempty olds s :
  Forall (fun w => w <> []) olds -> match_len olds s <> Some 0.
Proof.
  induction 1 as [|w olds Hw _ IH]; simpl; [discriminate|].
  destruct (strip_prefix w s); [|exact IH].
  destruct w; [congruence | discriminate].
Qed.

Lemma match_len_nil olds :
  Forall (fun w => w <> []) olds -> match_len olds [] = None.
Proof.
  induction 1 as [|w olds Hw _ IH]; simpl; [reflexivity|].
  destruct w; [congruence | exact IH].
Qed.

(** [re.sub] with a pattern that matches exactly the words of [olds] (the
    first one that fits) and a literal replacement is [replace_each]. *)
Lemma sub_with_words d r olds new :
  Forall (fun w => w <> []) olds ->
  (forall s, match_here d r false s
             = option_map (fun n => (skipn n s, [])) (match_len olds s)) ->
  forall n s, length s <= n ->
    sub_with d r (map TLit new) 0 s = replace_each olds new s.
Proof.
  intros Hne Hr. unfold replace_each.
  induction n as [|n IH]; intros s Hn.
  - destruct s; [|simpl in Hn; lia]. apply sub_with_none. simpl.
    now rewrite Hr, match_len_nil.
  - destruct s as [|a t].
    + apply sub_with_none. simpl. now rewrite Hr, match_len_nil.
    + cbn [replace_occ].
      destruct (match_len olds (a :: t)) as [[|k]|] eqn:E.
      * now apply match_len_nonempty in E.
      * rewrite sub_with_here with (s' := skipn (S k) (a :: t)) (c := []).
        -- rewrite expand_plain. f_equal. rewrite replace_occ_skip.
           apply IH. simpl. rewrite length_skipn. simpl in Hn. lia.
        -- now rewrite Hr, E.
        -- simpl. rewrite length_skipn. lia.
      * change (a :: t) with ([a] ++ t). rewrite sub_with_skip.
        -- simpl. f_equal. apply IH. simpl in Hn. lia.
        -- intros v b w Ev.
           destruct v as [|? [|? ?]]; inversion Ev; subst.
           simpl. now rewrite Hr, E.
Qed.

Lemma lower_char_bsl a : a <> bsl -> lower_char a <> bsl.
Proof.
  destruct a as [[] [] [] [] [] [] [] []]; vm_compute; congruence.
Qed.

Lemma upper_char_bsl a : a <> bsl -> upper_char a <> bsl.
Proof.
  destruct a as [[] [] [] [] [] [] [] []]; vm_compute; congruence.
Qed.

Lemma good_name_spec w : good_name w = true -> w <> [] /\ plain_text w.
Proof.
  unfold good_name. intros H. apply andb_true_iff in H. destruct H as [H1 H2].
  split; [now destruct w | now apply forallb_not_char].
Qed.

Lemma plain_text_map (f : ascii -> ascii) w :
  (forall a, a <> bsl -> f a <> bsl) -> plain_text w -> plain_text (map f w).
Proof.
  unfold plain_text. intros Hf Hw Hin. apply in_map_iff in Hin.
  destruct Hin as (a & Ha & Hin). apply (Hf a); [|exact Ha].
  intros ->. now apply Hw.
Qed.

Lemma map_not_nil (f : ascii -> ascii) (w : str) : w <> [] -> map f w <> [].
Proof. now destruct w. Qed.

Lemma re_sub_name old new text :
  old <> [] -> plain_text new ->
  re_sub false (name_pattern old) new text 0
  = Ok (replace_each [old] new text).
Proof.
  intros Ho Hn. rewrite re_sub_eq, parse_template_plain by assumption.
  cbn [bind]. f_equal.
  apply sub_with_words with (n := length text); [| |lia].
  - now repeat constructor.
  - intros s. apply match_here_Lits.
Qed.

Lemma re_sub_name_alt w1 w2 new text :
  w1 <> [] -> w2 <> [] -> plain_text new ->
  re_sub false (name_alt_pattern w1 w2) new text 0
  = Ok (replace_each [w1; w2] new text).
Proof.
  intros H1 H2 Hn. rewrite re_sub_eq, parse_template_plain by assumption.
  cbn [bind]. f_equal.
  apply sub_with_words with (n := length text); [| |lia].
  - now repeat constructor.
  - intros s. apply match_here_Alt_Lits.
Qed.

Lemma fix_mispellings_spec canon : forall miss text,
  good_name canon = true ->
  forallb (fun w => match w with Some w => good_name w | None => true end)
          miss = true ->
  fix_mispellings canon miss text
  = Ok (fold_left (fun t w => fix_mispelling_spec canon w t) miss text).
Proof.
  intros miss text Hc. apply good_name_spec in Hc. destruct Hc as [Hc1 Hc2].
  revert text. induction miss as [|[w|] miss IH]; intros text Hm;
    cbn [fix_mispellings fold_left fix_mispelling_spec];
    [reflexivity| |apply IH; now simpl in Hm].
  simpl in Hm. apply andb_true_iff in Hm. destruct Hm as [Hw Hm].
  apply good_name_spec in Hw. destruct Hw as [Hw1 Hw2].
  rewrite re_sub_name;
    [| now apply map_not_nil
     | apply plain_text_map; [exact upper_char_bsl | exact Hc2]].
  cbn [bind].
  rewrite re_sub_name_alt; [| exact Hw1 | now apply map_not_nil | exact Hc2].
  cbn [bind]. now apply IH.
Qed.

Lemma fix_names_spec : forall table text,
  forallb good_entry table = true ->
  fix_names table text = Ok (rewriteNames_spec table text).
Proof.
  induction table as [|[canon miss] table IH]; intros text Ht;
    [reflexivity|].
  simpl in Ht. apply andb_true_iff in Ht. destruct Ht as [He Ht].
  unfold good_entry in He. cbn [fst snd] in He.
  apply andb_true_iff in He. destruct He as [Hc Hm].
  cbn [fix_names]. destruct (good_name_spec _ Hc) as [Hc1 Hc2].
  rewrite re_sub_name; [| now apply map_not_nil | exact Hc2].
  cbn [bind]. rewrite fix_mispellings_spec by assumption.
  cbn [bind]. unfold rewriteNames_spec. cbn [fold_left].
  now apply IH.
Qed.

Lemma rewriteNames_spec_examples :
  rewriteNames_spec names_to_fix (T "NOME ONE, nome one, Nome One, name one")
  = T "NAME ONE, Name One, Name One, Name One"
  /\ rewriteNames_spec names_to_fix (T "name three and NEME TWO")
     = T "Name Three and NAME TWO".
Proof. split; reflexivity. Qed.

(** ** Blockquotes *)

Lemma consumed_app (u s : str) : consumed (u ++ s) s = u.
Proof.
  unfold consumed. rewrite length_app.
  replace (length u + length s - length s) with (length u) by lia.
  rewrite firstn_app, firstn_all, Nat.sub_diag. simpl. apply app_nil_r.
Qed.

Lemma m_Look_lit_neq d b A a t c (k : cont A) :
  a <> b -> m d (Look (Chr (Lit b))) (a :: t) c k = None.
Proof.
  intros H. rewrite m_Look, m_Chr_cons. cbn [cls_match].
  now rewrite (ascii_eqb_neq H).
Qed.

Lemma m_Look_lit_eq d b A t c (k : cont A) :
  m d (Look (Chr (Lit b))) (b :: t) c k = k (b :: t) c.
Proof.
  rewrite m_Look, m_Chr_cons. cbn [cls_match]. now rewrite ascii_eqb_refl.
Qed.

Lemma lazy_run_out d cl A (K : cont A) c u :
  Forall (in_cls d cl) u ->
  (forall v a w, u = v ++ a :: w -> K (a :: w) c = None) ->
  m d (Star false (Chr cl)) u c K = K [] c.
Proof.
  intros Hu HK. rewrite <- (app_nil_r u).
  rewrite lazy_skip; [reflexivity | exact Hu |].
  intros v a w E. rewrite app_nil_r. now apply (HK v).
Qed.

Lemma all_any_dotall (u : str) : Forall (in_cls true Any) u.
Proof. apply Forall_forall. intros a _. reflexivity. Qed.

Lemma line_char_spec l :
  plain_line l = true -> ~ In nl l /\ ~ In "<"%char l /\ plain_text l.
Proof.
  unfold plain_line, plain_text. rewrite forallb_forall. intros H.
  repeat split; intros Hin; apply H in Hin; unfold line_char in Hin;
    apply andb_true_iff in Hin; destruct Hin as [Hin H3];
    apply andb_true_iff in Hin; destruct Hin as [H1 H2];
    [apply not_char_neq in H1 | apply not_char_neq in H2
     | apply not_char_neq in H3]; congruence.
Qed.

Lemma quote_contents_template :
  parse_template quote_contents_search_pattern (T "\n> \g<contents>")
  = Ok quote_contents_tpl.
Proof. reflexivity. Qed.

Lemma quote_contents_first_lit :
  first_lit (p_re quote_contents_search_pattern) = Some nl.
Proof. reflexivity. Qed.

(** A last line: a newline and a line after which no newline comes; the
    contents pattern does not match. *)
Lemma quote_contents_last l :
  ~ In nl l ->
  match_here true (p_re quote_contents_search_pattern) false (nl :: l) = None.
Proof.
  intros Hl. unfold match_here, quote_contents_search_pattern, p_re.
  rewrite m_Seq, m_Group, m_Chr_cons. cbn [cls_match].
  rewrite ascii_eqb_refl, m_Group, m_Seq. unfold lazy_any.
  rewrite lazy_run_out; [reflexivity | apply all_any_dotall |].
  intros v a w E. apply m_Look_lit_neq. intros ->. apply Hl. rewrite E.
  apply in_or_app. right. now left.
Qed.

(** A line followed by another: the match is the newline and the line. *)
Lemma quote_contents_line l rest :
  ~ In nl l ->
  match_here true (p_re quote_contents_search_pattern) false
             (nl :: l ++ nl :: rest)
  = Some (nl :: rest,
          [(2, (l ++ nl :: rest, nl :: rest));
           (1, (nl :: l ++ nl :: rest, l ++ nl :: rest))]).
Proof.
  intros Hl. unfold match_here, quote_contents_search_pattern, p_re.
  rewrite m_Seq, m_Group, m_Chr_cons. cbn [cls_match].
  rewrite ascii_eqb_refl, m_Group, m_Seq. unfold lazy_any.
  apply lazy_scan_to with (a0 := nl);
    [apply all_any_dotall | exact Hl | |].
  - intros a t Hne. now apply m_Look_lit_neq.
  - now rewrite m_Look_lit_eq.
Qed.
Lemma sub_with_absent_all d r tpl a0 count u :
  first_lit r = Some a0 -> ~ In a0 u -> sub_with d r tpl count u = u.
Proof.
  intros Hf Hn. apply sub_with_none. eapply search_adv_absent; eassumption.
Qed.

Lemma quote_sub_absent u s :
  ~ In nl u ->
  sub_with true (p_re quote_contents_search_pattern) quote_contents_tpl 0
           (u ++ s)
  = u ++ sub_with true (p_re quote_contents_search_pattern)
                  quote_contents_tpl 0 s.
Proof.
  intros H. now apply sub_with_absent with (a0 := nl).
Qed.

(** The contents rule on the lines after the first one. *)
Lemma quote_sub_lines : forall ls,
  Forall (fun l => ~ In nl l) ls ->
  sub_with true (p_re quote_contents_search_pattern) quote_contents_tpl 0
           (join_lines ls)
  = quote_lines ls.
Proof.
  induction ls as [|l rest IH]; intros Hls.
  - now apply sub_with_nil with (a0 := nl).
  - inversion Hls as [|? ? Hl Hrest]; subst.
    destruct rest as [|l2 rest].
    + cbn [join_lines flat_map quote_lines]. rewrite app_nil_r.
      change (nl :: l) with ([nl] ++ l).
      rewrite sub_with_skip.
      * now rewrite sub_with_absent_all with (a0 := nl).
      * intros v a w E. destruct v as [|? [|? ?]]; inversion E; subst.
        now apply quote_contents_last.
    + specialize (IH Hrest).
      change (join_lines (l :: l2 :: rest))
        with (nl :: l ++ nl :: l2 ++ join_lines rest).
      change (join_lines (l2 :: rest)) with (nl :: l2 ++ join_lines rest) in IH.
      rewrite sub_with_here with (1 := quote_contents_line l _ Hl).
      * rewrite IH. cbn [quote_lines]. unfold expand, quote_contents_tpl.
        cbn [flat_map expand_item group cap_get Nat.eqb option_map m_caps].
        unfold span_text. cbn [fst snd].
        rewrite (consumed_app l (nl :: l2 ++ join_lines rest)).
        now rewrite app_nil_r.
      * remember (nl :: l2 ++ join_lines rest) as J.
        cbn [length]. rewrite length_app. lia.
Qed.

Lemma quote_sub_content l0 ls :
  Forall (fun l => ~ In nl l) (l0 :: ls) ->
  re_sub true quote_contents_search_pattern (T "\n> \g<contents>")
         (l0 ++ join_lines ls) 0
  = Ok (l0 ++ quote_lines ls).
Proof.
  intros H. inversion H; subst.
  rewrite re_sub_eq, quote_contents_template. cbn [bind]. f_equal.
  rewrite quote_sub_absent by assumption. f_equal.
  now apply quote_sub_lines.
Qed.
Lemma quote_close_match A post c (k : cont A) :
  m true (Group 3 (Seqs [close_start; L "blockquote>"]))
    (T "</blockquote>" ++ post) c k
  = k post ((3, (T "</blockquote>" ++ post, post)) :: c).
Proof. reflexivity. Qed.

Lemma quote_parent_match content post :
  ~ In "<"%char content ->
  match_here true (p_re quote_parent_search_pattern) false
             (quote_block content ++ post)
  = Some (post,
          [(3, (T "</blockquote>" ++ post, post));
           (2, (content ++ T "</blockquote>" ++ post,
                T "</blockquote>" ++ post));
           (1, (quote_block content ++ post,
                content ++ T "</blockquote>" ++ post))]).
Proof.
  intros Hc. unfold match_here, quote_parent_search_pattern, p_re, quote_block.
  rewrite <- !app_assoc.
  change (Seqs [Group 1 (L "<blockquote>"); Group 2 lazy_any;
                Group 3 (Seqs [close_start; L "blockquote>"])])
    with (Seq (Group 1 (L "<blockquote>"))
              (Seq (Group 2 lazy_any)
                   (Group 3 (Seqs [close_start; L "blockquote>"])))).
  rewrite m_Seq, m_Group, m_L, m_Seq, m_Group. unfold lazy_any.
  apply lazy_scan_to with (a0 := "<"%char);
    [apply all_any_dotall | exact Hc | |].
  - intros a t Hne. now apply m_first_lit with (a0 := "<"%char).
  - now rewrite quote_close_match.
Qed.

Lemma quote_lines_plain : forall ls,
  Forall (fun l => plain_text l) ls -> plain_text (quote_lines ls).
Proof.
  unfold plain_text.
  induction ls as [|l rest IH]; intros H; [simpl; tauto|].
  inversion H as [|? ? Hl Hrest]; subst. specialize (IH Hrest).
  destruct rest as [|l2 rest].
  - intros [E|Hin]; [discriminate | now apply Hl].
  - change (quote_lines (l :: l2 :: rest))
      with ((nl :: T "> ") ++ l ++ quote_lines (l2 :: rest)).
    intros Hin. rewrite !in_app_iff in Hin.
    destruct Hin as [Hin|[Hin|Hin]];
      [vm_compute in Hin; intuition discriminate
      | now apply Hl | now apply IH].
Qed.

Lemma plain_lines_spec ls :
  forallb plain_line ls = true ->
  Forall (fun l => ~ In nl l) ls
  /\ Forall (fun l => ~ In "<"%char l) ls
  /\ Forall (fun l => plain_text l) ls.
Proof.
  rewrite forallb_forall. intros H.
  repeat split; apply Forall_forall; intros l Hl;
    apply H, line_char_spec in Hl; destruct Hl as (? & ? & ?); assumption.
Qed.

Lemma join_lines_absent (a0 : ascii) ls :
  a0 <> nl -> Forall (fun l => ~ In a0 l) ls -> ~ In a0 (join_lines ls).
Proof.
  intros Hne. induction 1 as [|l rest Hl _ IH]; simpl; [tauto|].
  intros [E|Hin]; [congruence|]. apply in_app_or in Hin. tauto.
Qed.

(** One iteration of the blockquote loop on a block of plain lines. *)
Lemma quote_step_block pre l0 ls post :
  forallb (not_char "<") pre = true ->
  forallb plain_line (l0 :: ls) = true ->
  exists quote_match,
    search true quote_parent_search_pattern
           (pre ++ quote_block (l0 ++ join_lines ls) ++ post)
    = Some quote_match
    /\ group quote_match 2 = Some (l0 ++ join_lines ls)
    /\ quote_step (pre ++ quote_block (l0 ++ join_lines ls) ++ post)
                  quote_match
       = Ok (pre ++ (l0 ++ quote_lines ls) ++ post).
Proof.
  intros Hpre Hls. apply forallb_not_char in Hpre.
  apply plain_lines_spec in Hls. destruct Hls as (Hnl & Hlt & Hbs).
  set (content := l0 ++ join_lines ls).
  assert (Hc : ~ In "<"%char content).
  { unfold content. inversion Hlt; subst. intros Hin.
    apply in_app_or in Hin. destruct Hin as [Hin|Hin]; [tauto|].
    revert Hin. apply join_lines_absent; [discriminate | assumption]. }
  pose proof (quote_parent_match content post Hc) as Hm.
  eexists. split; [|split].
  - unfold search.
    rewrite search_adv_absent_app with (a0 := "<"%char);
      [| reflexivity | exact Hpre].
    rewrite (search_adv_here _ _ _ _ Hm). reflexivity.
  - unfold group, prepend. cbn [m_caps cap_get Nat.eqb option_map].
    unfold span_text. cbn [fst snd]. now rewrite consumed_app.
  - unfold quote_step, slice_groups, start_of, end_of, prepend.
    cbn [m_caps cap_get Nat.eqb option_map fst snd].
    rewrite consumed_app. unfold content at 1.
    rewrite quote_sub_content by assumption. cbn [bind].
    rewrite re_sub_eq, parse_template_plain.
    + cbn [bind]. f_equal. erewrite sub_with_first.
      2:{ rewrite search_adv_absent_app with (a0 := "<"%char);
            [| reflexivity | exact Hpre].
          rewrite (search_adv_here _ _ _ _ Hm). reflexivity. }
      cbn [option_map prepend m_pre m_span m_caps m_end snd].
      now rewrite expand_plain, app_nil_r.
    + inversion Hbs as [|? ? Hb0 Hbr]; subst. unfold plain_text. intros Hin.
      apply in_app_or in Hin. destruct Hin as [Hin|Hin]; [now apply Hb0|].
      revert Hin. now apply quote_lines_plain.
Qed.

(** ** Positions of a text *)

Lemma suffix_cons_inv (a : ascii) (t s : str) :
  suffix t (a :: s) -> t = a :: s \/ suffix t s.
Proof.
  intros [u Hu]. destruct u as [|b u]; simpl in Hu.
  - now left.
  - right. inversion Hu; subst. now exists u.
Qed.

Lemma suffix_In (a : ascii) (t s : str) : suffix (a :: t) s -> In a s.
Proof. intros [u ->]. apply in_or_app. right. now left. Qed.

Lemma suffix_head_absent (a0 : ascii) (t u s : str) :
  suffix (a0 :: t) (u ++ s) -> ~ In a0 u -> suffix (a0 :: t) s.
Proof.
  induction u as [|b u IH]; intros H Hn; [exact H|].
  apply suffix_cons_inv in H. destruct H as [E|H].
  - inversion E; subst. exfalso. apply Hn. now left.
  - apply IH; [exact H|]. intros Hin. apply Hn. now right.
Qed.

Lemma suffix_app_cancel (x y s : str) : suffix (x ++ s) (y ++ s) -> suffix x y.
Proof.
  intros [u Hu]. exists u. rewrite app_assoc in Hu.
  now apply app_inv_tail in Hu.
Qed.

Lemma suffix_nil_inv (t : str) : suffix t [] -> t = [].
Proof.
  intros [u Hu]. symmetry in Hu. apply app_eq_nil in Hu. tauto.
Qed.

(** ** What a match of a sequence consists of *)

Lemma Matches_Seq_inv d r1 r2 s s2 :
  Matches d (Seq r1 r2) s s2 ->
  exists s1, Matches d r1 s s1 /\ Matches d r2 s1 s2.
Proof. intros H. inversion H; subst. eauto. Qed.

Lemma Matches_Group_inv d i r s s1 :
  Matches d (Group i r) s s1 -> Matches d r s s1.
Proof. intros H. now inversion H. Qed.

Lemma Matches_Chr_inv d p s s1 :
  Matches d (Chr p) s s1 -> exists a, s = a :: s1 /\ cls_match d p a = true.
Proof. intros H. inversion H; subst. eauto. Qed.

Lemma Matches_Lits_inv d w : forall s s1,
  Matches d (Lits w) s s1 -> s = w ++ s1.
Proof.
  induction w as [|a w IH]; intros s s1 H.
  - now inversion H.
  - destruct w as [|b w].
    + apply Matches_Chr_inv in H. destruct H as (x & -> & Hx).
      simpl in Hx. apply Ascii.eqb_eq in Hx. now subst.
    + change (Lits (a :: b :: w)) with (Seq (Chr (Lit a)) (Lits (b :: w))) in H.
      apply Matches_Seq_inv in H. destruct H as (s0 & H1 & H2).
      apply Matches_Chr_inv in H1. destruct H1 as (x & -> & Hx).
      simpl in Hx. apply Ascii.eqb_eq in Hx. subst.
      apply IH in H2. now subst.
Qed.

Lemma Matches_L_inv d w s s1 : Matches d (L w) s s1 -> s = lit w ++ s1.
Proof. apply Matches_Lits_inv. Qed.
(** ** A span whose content holds no word character *)

Lemma suffix_app_In (a : ascii) (u1 u2 v : str) :
  suffix (u1 ++ a :: u2) v -> In a v.
Proof.
  intros [u ->]. apply in_or_app. right. apply in_or_app. right. now left.
Qed.

Lemma Matches_suffix_split d r s s1 :
  Matches d r s s1 -> exists u, s = u ++ s1.
Proof. intros H. apply Matches_suffix in H. exact H. Qed.

(** The underline rule does not match at a span whose content has no
    word character, when no other tag follows. *)
Lemma underline_no_match adv attrs c post :
  ~ In ">"%char attrs -> ~ In "<"%char attrs ->
  ~ In "<"%char c -> (forall a, In a c -> is_word a = false) ->
  ~ In "<"%char post ->
  match_here false (p_re underline_pattern) adv
             (span_open attrs ++ c ++ span_close ++ post) = None.
Proof.
  intros Hgt Hlt Hc Hw Hpost. unfold match_here. apply m_none.
  intros s' c' Hm. exfalso.
  unfold underline_pattern, p_re in Hm. cbn [Seqs] in Hm.
  apply Matches_Seq_inv in Hm. destruct Hm as (s1 & H1 & Hm).
  apply Matches_Seq_inv in Hm. destruct Hm as (s2 & H2 & H3).
  (* the closing tag starts at [s2] *)
  assert (E3 : exists t, s2 = "<"%char :: t)
    by (refine (Matches_first_lit _ H3); reflexivity).
  destruct E3 as [t ->].
  (* the text group holds a word character *)
  apply Matches_Group_inv in H2.
  apply Matches_Seq_inv in H2. destruct H2 as (x & Hx & H2).
  apply Matches_Seq_inv in H2. destruct H2 as (y & Hy & H2).
  apply Matches_Chr_inv in Hy. destruct Hy as (a & -> & Ha). simpl in Ha.
  apply Matches_suffix_split in Hx. destruct Hx as [u1 ->].
  apply Matches_suffix_split in H2. destruct H2 as [u2 ->].
  (* the opening group ends with [>] just before [s1] *)
  apply Matches_Group_inv in H1.
  apply Matches_Seq_inv in H1. destruct H1 as (p1 & Hp1 & H1).
  apply Matches_L_inv in Hp1. unfold span_open in Hp1.
  rewrite <- !app_assoc in Hp1. apply app_inv_head in Hp1. subst p1.
  apply Matches_Seq_inv in H1. destruct H1 as (p2 & Hp2 & H1).
  apply Matches_Seq_inv in H1. destruct H1 as (p3 & Hp3 & H1).
  apply Matches_Seq_inv in H1. destruct H1 as (p4 & Hp4 & H1).
  apply Matches_Seq_inv in H1. destruct H1 as (p5 & Hp5 & H1).
  apply Matches_Seq_inv in H1. destruct H1 as (p6 & Hp6 & H1).
  apply Matches_L_inv in H1. subst p6.
  assert (Hs : suffix (T ">" ++ u1 ++ a :: u2 ++ "<"%char :: t)
                      (attrs ++ T ">" ++ c ++ span_close ++ post)).
  { apply Matches_suffix in Hp2, Hp3, Hp4, Hp5, Hp6.
    eapply suffix_trans; [exact Hp6|].
    eapply suffix_trans; [exact Hp5|].
    eapply suffix_trans; [exact Hp4|].
    eapply suffix_trans; [exact Hp3|]. exact Hp2. }
  clear Hp2 Hp3 Hp4 Hp5 Hp6.
  (* the closing tag found is the one of the span *)
  assert (Et : "<"%char :: t = span_close ++ post).
  { assert (Hs2 : suffix ("<"%char :: t)
                         ((attrs ++ T ">" ++ c) ++ span_close ++ post)).
    { rewrite <- !app_assoc. eapply suffix_trans; [|exact Hs].
      exists (T ">" ++ u1 ++ a :: u2). now rewrite <- !app_assoc. }
    apply suffix_head_absent in Hs2.
    - apply suffix_cons_inv in Hs2. destruct Hs2 as [E|Hs2]; [exact E|].
      apply suffix_In in Hs2. exfalso.
      simpl in Hs2. intuition discriminate.
    - intros Hin. apply in_app_or in Hin. destruct Hin as [Hin|Hin]; [tauto|].
      apply in_app_or in Hin. destruct Hin as [Hin|Hin]; [|tauto].
      vm_compute in Hin. intuition discriminate. }
  rewrite Et in Hs.
  (* so the word character lies in the content *)
  assert (Hin : In a c).
  { assert (Hs3 : suffix ((T ">" ++ u1 ++ a :: u2) ++ span_close ++ post)
                         ((attrs ++ T ">" ++ c) ++ span_close ++ post))
      by (now rewrite <- !app_assoc).
    apply suffix_app_cancel in Hs3.
    apply suffix_head_absent in Hs3; [|exact Hgt].
    apply suffix_cons_inv in Hs3. destruct Hs3 as [E|Hs3].
    - inversion E as [E']. apply in_or_app. right. now left.
    - exact (@suffix_app_In a (">"%char :: u1) u2 c Hs3). }
  apply Hw in Hin. congruence.
Qed.
Lemma search_adv_cons_none d r a s :
  match_here d r false (a :: s) = None ->
  search_adv d r false s = None ->
  search_adv d r false (a :: s) = None.
Proof. intros H1 H2. now rewrite search_adv_next, H2. Qed.

Lemma search_adv_app_none d r a0 u s :
  first_lit r = Some a0 -> ~ In a0 u ->
  search_adv d r false s = None ->
  search_adv d r false (u ++ s) = None.
Proof.
  intros Hf Hn Hs. rewrite search_adv_absent_app with (a0 := a0) by assumption.
  now rewrite Hs.
Qed.

(** A pattern that starts with [<] and matches neither at the opening
    tag nor at the closing tag of a span has no match in a text that
    holds no other tag. *)
Lemma search_none_around_span r pre attrs c post :
  first_lit r = Some "<"%char ->
  ~ In "<"%char pre -> ~ In "<"%char attrs ->
  ~ In "<"%char c -> ~ In "<"%char post ->
  match_here false r false (span_open attrs ++ c ++ span_close ++ post) = None ->
  match_here false r false (span_close ++ post) = None ->
  search_adv false r false (pre ++ span_open attrs ++ c ++ span_close ++ post)
  = None.
Proof.
  intros Hf Hpre Hattrs Hc Hpost Hopen Hclose.
  apply search_adv_app_none with (a0 := "<"%char); [exact Hf | exact Hpre |].
  unfold span_open in *. rewrite <- !app_assoc in *.
  change (T "<span" ++ attrs ++ T ">" ++ c ++ span_close ++ post)
    with ("<"%char :: (T "span" ++ attrs ++ T ">" ++ c ++ span_close ++ post))
    in *.
  apply search_adv_cons_none; [exact Hopen|].
  replace (T "span" ++ attrs ++ T ">" ++ c ++ span_close ++ post)
    with ((T "span" ++ attrs ++ T ">" ++ c) ++ span_close ++ post)
    by (now rewrite <- !app_assoc).
  apply search_adv_app_none with (a0 := "<"%char); [exact Hf | |].
  - intros Hin. rewrite !in_app_iff in Hin.
    destruct Hin as [Hin|[Hin|[Hin|Hin]]]; try tauto;
      vm_compute in Hin; intuition discriminate.
  - change (span_close ++ post) with ("<"%char :: (T "/span>" ++ post)) in *.
    apply search_adv_cons_none; [exact Hclose|].
    apply search_adv_absent with (a0 := "<"%char); [exact Hf|].
    intros Hin. simpl in Hin. intuition discriminate.
Qed.

(** The patterns that need a tag name other than [span] fail at a span
    tag by their first characters. *)
Lemma other_tags_fail_at_span p rest :
  In p [em_pattern; strong_pattern; del_pattern;
        plain "<h1>"; plain "<h2>"; plain "<h3>";
        remove_p_attrs; remove_p; remove_h; remove_del] ->
  match_here false (p_re p) false (T "<span" ++ rest) = None
  /\ match_here false (p_re p) false (span_close ++ rest) = None
  /\ first_lit (p_re p) = Some "<"%char.
Proof.
  intros Hin. simpl in Hin.
  repeat (destruct Hin as [<-|Hin]; [repeat split; reflexivity|]).
  contradiction.
Qed.
Lemma opt_space_then_gt A attrs rest c (k : cont A) x :
  Forall (in_cls false Any) attrs -> ~ In ">"%char attrs ->
  k rest c = Some x ->
  m false (Seq (Opt (Chr Space)) (Seq lazy_any (L ">")))
    (attrs ++ T ">" ++ rest) c k = Some x.
Proof.
  intros Hany Hgt Hk. rewrite m_Seq.
  assert (Hscan : forall u, Forall (in_cls false Any) u -> ~ In ">"%char u ->
            m false (Seq lazy_any (L ">")) (u ++ T ">" ++ rest) c k = Some x).
  { intros u Hu Hn. rewrite m_Seq. unfold lazy_any.
    apply lazy_scan_to with (a0 := ">"%char); [exact Hu | exact Hn | |].
    - intros a t Hne. now apply m_first_lit with (a0 := ">"%char).
    - now rewrite m_L. }
  destruct attrs as [|a attrs].
  - rewrite m_Opt_none by reflexivity. apply (Hscan [] Hany Hgt).
  - destruct (is_space a) eqn:Ea.
    + apply m_Opt_some. cbn [app]. rewrite m_Chr_cons. cbn [cls_match].
      rewrite Ea. inversion Hany; subst. apply Hscan; [assumption|].
      intros Hin. apply Hgt. now right.
    + rewrite m_Opt_none; [apply (Hscan (a :: attrs) Hany Hgt)|].
      cbn [app]. rewrite m_Chr_cons. cbn [cls_match]. now rewrite Ea.
Qed.

Lemma remove_span_open attrs rest :
  Forall (in_cls false Any) attrs -> ~ In ">"%char attrs ->
  match_here false (p_re remove_span) false (span_open attrs ++ rest)
  = Some (rest, []).
Proof.
  intros Hany Hgt. unfold match_here, remove_span, p_re, span_open.
  change (T "<span") with (T "<" ++ T "span"). rewrite <- !app_assoc.
  change (Seqs [L "<"; opt_slash 1; L "span"; Opt (Chr Space); lazy_any; L ">"])
    with (Seq (L "<") (Seq (opt_slash 1) (Seq (L "span")
            (Seq (Opt (Chr Space)) (Seq lazy_any (L ">")))))).
  rewrite m_Seq, m_L, m_Seq. unfold opt_slash.
  rewrite m_Opt_none by reflexivity.
  rewrite m_Seq, m_L.
  now apply opt_space_then_gt.
Qed.

Lemma remove_span_close rest :
  match_here false (p_re remove_span) false (span_close ++ rest)
  = Some (rest, [(1, (T "/span>" ++ rest, T "span>" ++ rest))]).
Proof. reflexivity. Qed.

Lemma remove_span_template : parse_template remove_span [] = Ok [].
Proof. reflexivity. Qed.

(** The removal of span tags on a span standing in plain text. *)
Lemma remove_span_around pre attrs c post :
  ~ In "<"%char pre -> ~ In "<"%char c -> ~ In "<"%char post ->
  Forall (in_cls false Any) attrs -> ~ In ">"%char attrs ->
  re_sub false remove_span [] (pre ++ span_open attrs ++ c ++ span_close ++ post) 0
  = Ok (pre ++ c ++ post).
Proof.
  intros Hpre Hc Hpost Hany Hgt.
  rewrite re_sub_eq, remove_span_template. cbn [bind]. f_equal.
  rewrite sub_with_absent with (a0 := "<"%char); [|reflexivity|exact Hpre].
  f_equal.
  rewrite sub_with_here with (1 := remove_span_open (c ++ span_close ++ post)
                                      Hany Hgt).
  - cbn [expand flat_map app].
    rewrite sub_with_absent with (a0 := "<"%char); [|reflexivity|exact Hc].
    f_equal.
    rewrite sub_with_here with (1 := remove_span_close post).
    + cbn [expand flat_map app].
      now apply sub_with_absent_all with (a0 := "<"%char).
    + unfold span_close. rewrite length_app. simpl. lia.
  - unfold span_open. rewrite !length_app. simpl. lia.
Qed.
Lemma text_char_spec u :
  forallb text_char u = true -> ~ In "<"%char u /\ ~ In "&"%char u.
Proof.
  rewrite forallb_forall. intros H.
  split; intros Hin; apply H in Hin; unfold text_char in Hin;
    apply andb_true_iff in Hin; destruct Hin as [H1 H2];
    [apply not_char_neq in H1 | apply not_char_neq in H2]; congruence.
Qed.

Lemma forallb_weaken (f g : ascii -> bool) u :
  (forall a, f a = true -> g a = true) ->
  forallb f u = true -> forallb g u = true.
Proof.
  intros Hfg. rewrite !forallb_forall. intros H a Ha. apply Hfg, H, Ha.
Qed.

Lemma tag_char_spec u :
  forallb tag_char u = true ->
  ~ In "<"%char u /\ ~ In "&"%char u /\ ~ In ">"%char u
  /\ Forall (in_cls false Any) u.
Proof.
  intros H.
  assert (Ht : forallb text_char u = true).
  { revert H. apply forallb_weaken. unfold tag_char. intros a Ha.
    apply andb_true_iff in Ha. destruct Ha as [Ha _].
    apply andb_true_iff in Ha. tauto. }
  apply text_char_spec in Ht. destruct Ht as [H1 H2].
  rewrite forallb_forall in H.
  repeat split; try assumption.
  - intros Hin. apply H in Hin. unfold tag_char in Hin.
    apply andb_true_iff in Hin. destruct Hin as [Hin _].
    apply andb_true_iff in Hin. destruct Hin as [_ Hin].
    apply not_char_neq in Hin. congruence.
  - apply Forall_forall. intros a Ha. apply H in Ha. unfold tag_char in Ha.
    apply andb_true_iff in Ha. destruct Ha as [_ Ha].
    unfold in_cls. simpl. exact Ha.
Qed.

Lemma wordless_char_spec u :
  forallb wordless_char u = true ->
  ~ In "<"%char u /\ ~ In "&"%char u
  /\ (forall a, In a u -> is_word a = false).
Proof.
  intros H.
  assert (Ht : forallb text_char u = true).
  { revert H. apply forallb_weaken. unfold wordless_char. intros a Ha.
    apply andb_true_iff in Ha. tauto. }
  apply text_char_spec in Ht. destruct Ht as [H1 H2].
  repeat split; try assumption.
  rewrite forallb_forall in H. intros a Ha. apply H in Ha.
  unfold wordless_char in Ha. apply andb_true_iff in Ha.
  destruct Ha as [_ Ha]. now destruct (is_word a).
Qed.

(** No rule of the first pass matches in a text whose only tags are
    those of one span with wordless content, and neither do the removal
    patterns for other tags. *)
Lemma wordless_span_searches pre attrs c post :
  forallb text_char pre = true ->
  forallb tag_char attrs = true ->
  forallb wordless_char c = true ->
  forallb text_char post = true ->
  forall p,
    In p [em_pattern; strong_pattern; del_pattern; underline_pattern;
          plain "<h1>"; plain "<h2>"; plain "<h3>"; plain "&nbsp;";
          remove_p_attrs; remove_p; remove_h; remove_del] ->
    search false p (pre ++ span_open attrs ++ c ++ span_close ++ post) = None.
Proof.
  intros Hpre Hattrs Hc Hpost.
  apply text_char_spec in Hpre, Hpost.
  destruct Hpre as [Hpre1 Hpre2], Hpost as [Hpost1 Hpost2].
  apply tag_char_spec in Hattrs. destruct Hattrs as (Ha1 & Ha2 & Ha3 & Ha4).
  apply wordless_char_spec in Hc. destruct Hc as (Hc1 & Hc2 & Hc3).
  set (text := pre ++ span_open attrs ++ c ++ span_close ++ post).
  assert (Hother : forall p,
    In p [em_pattern; strong_pattern; del_pattern;
          plain "<h1>"; plain "<h2>"; plain "<h3>";
          remove_p_attrs; remove_p; remove_h; remove_del] ->
    search false p text = None).
  { intros p Hp. unfold search, text, span_open. rewrite <- !app_assoc.
    destruct (@other_tags_fail_at_span p
                (attrs ++ T ">" ++ c ++ span_close ++ post) Hp) as (Ho & _ & Hf).
    destruct (@other_tags_fail_at_span p post Hp) as (_ & Hcl & _).
    pose proof (@search_none_around_span (p_re p) pre attrs c post
                  Hf Hpre1 Ha1 Hc1 Hpost1) as Hs.
    unfold span_open in Hs. rewrite <- !app_assoc in Hs. now apply Hs. }
  assert (Hunder : search false underline_pattern text = None).
  { unfold search, text. apply search_none_around_span; try assumption.
    - reflexivity.
    - now apply underline_no_match.
    - reflexivity. }
  assert (Hnbsp : search false (plain "&nbsp;") text = None).
  { unfold search. apply search_adv_absent with (a0 := "&"%char);
      [reflexivity|].
    unfold text, span_open, span_close. rewrite !in_app_iff.
    intros [H|[[H|[H|H]]|[H|[H|H]]]]; try tauto;
      vm_compute in H; intuition discriminate. }
  intros p Hp. simpl in Hp.
  destruct Hp as [<-|[<-|[<-|[<-|Hp]]]];
    try (apply Hother; in_list); try exact Hunder.
  destruct Hp as [<-|[<-|[<-|[<-|Hp]]]];
    try (apply Hother; in_list); try exact Hnbsp.
  apply Hother. simpl. tauto.
Qed.

(** The first pass of the inline rewriter leaves such a text as it is:
    the content is not wrapped. *)
Lemma wordless_span_first_pass pre attrs c post :
  forallb text_char pre = true ->
  forallb tag_char attrs = true ->
  forallb wordless_char c = true ->
  forallb text_char post = true ->
  replace_all (combine to_replace_simple replace_with_simple)
              (pre ++ span_open attrs ++ c ++ span_close ++ post)
  = Ok (pre ++ span_open attrs ++ c ++ span_close ++ post).
Proof.
  intros Hpre Hattrs Hc Hpost.
  pose proof (wordless_span_searches _ _ _ _ Hpre Hattrs Hc Hpost) as Hs.
  apply replace_all_no_match.
  apply Forall_forall. intros [p repl] Hin. cbn [fst snd].
  simpl in Hin.
  repeat (destruct Hin as [E|Hin];
          [inversion E; subst; split;
           [eexists; reflexivity | apply Hs; in_list]|]).
  contradiction.
Qed.

(** The second pass deletes the two tags and leaves the content bare. *)
Lemma wordless_span_bare pre attrs c post :
  forallb text_char pre = true ->
  forallb tag_char attrs = true ->
  forallb wordless_char c = true ->
  forallb text_char post = true ->
  convert_simple (pre ++ span_open attrs ++ c ++ span_close ++ post)
  = Ok (pre ++ c ++ post).
Proof.
  intros Hpre Hattrs Hc Hpost.
  pose proof (wordless_span_searches _ _ _ _ Hpre Hattrs Hc Hpost) as Hs.
  unfold convert_simple.
  rewrite wordless_span_first_pass by assumption. cbn [bind].
  cbn [map to_remove_simple replace_all].
  repeat (rewrite re_sub_no_match with (tpl := []);
          [cbn [bind] | reflexivity | apply Hs; in_list]).
  apply text_char_spec in Hpre, Hpost.
  apply tag_char_spec in Hattrs. apply wordless_char_spec in Hc.
  rewrite remove_span_around by tauto. reflexivity.
Qed.

(** ** Ordered lists *)

Lemma is_space_spec a :
  is_space a = true -> a <> "<"%char /\ a <> bsl /\ a <> "/"%char.
Proof.
  destruct a as [[] [] [] [] [] [] [] []]; vm_compute;
    intros H; try discriminate; repeat split; discriminate.
Qed.

Lemma spaces_spec w :
  forallb is_space w = true ->
  Forall (in_cls false Space) w /\ Forall (in_cls true Space) w
  /\ ~ In "<"%char w /\ plain_text w.
Proof.
  rewrite forallb_forall. intros H. repeat split.
  - apply Forall_forall. intros a Ha. now apply H.
  - apply Forall_forall. intros a Ha. now apply H.
  - intros Hin. apply H, is_space_spec in Hin. tauto.
  - intros Hin. apply H, is_space_spec in Hin. tauto.
Qed.

Lemma plain_line_any l : plain_line l = true -> Forall (in_cls false Any) l.
Proof.
  intros H. apply line_char_spec in H. destruct H as (Hnl & _ & _).
  apply Forall_forall. intros a Ha. unfold in_cls. simpl.
  apply negb_true_iff, ascii_eqb_neq. intros ->. now apply Hnl.
Qed.

Lemma li_close_match d A rest c (k : cont A) :
  m d (Group 3 (Seqs [close_start; L "li>"])) (T "</li>" ++ rest) c k
  = k rest ((3, (T "</li>" ++ rest, rest)) :: c).
Proof. reflexivity. Qed.

(** The item pattern at an item that is followed by a tag. *)
Lemma li_match c w t :
  plain_line c = true -> forallb is_space w = true ->
  match_here false (p_re li_search_pattern) false
             (li_item (c, w) ++ "<"%char :: t)
  = Some ("<"%char :: t,
          [(4, (w ++ "<"%char :: t, "<"%char :: t));
           (3, (T "</li>" ++ w ++ "<"%char :: t, w ++ "<"%char :: t));
           (2, (c ++ T "</li>" ++ w ++ "<"%char :: t,
                T "</li>" ++ w ++ "<"%char :: t));
           (1, (li_item (c, w) ++ "<"%char :: t,
                c ++ T "</li>" ++ w ++ "<"%char :: t))]).
Proof.
  intros Hc Hw. pose proof (plain_line_any _ Hc) as Hany.
  apply line_char_spec in Hc. destruct Hc as (_ & Hlt & _).
  apply spaces_spec in Hw. destruct Hw as (Hsp & _).
  unfold match_here, li_search_pattern, p_re, li_item. cbn [fst snd].
  rewrite <- !app_assoc.
  change (Seqs [Group 1 (L "<li>"); Group 2 lazy_any;
                Group 3 (Seqs [close_start; L "li>"]); Group 4 spaces])
    with (Seq (Group 1 (L "<li>"))
           (Seq (Group 2 lazy_any)
             (Seq (Group 3 (Seqs [close_start; L "li>"])) (Group 4 spaces)))).
  rewrite m_Seq, m_Group, m_L, m_Seq, m_Group. unfold lazy_any.
  apply lazy_scan_to with (a0 := "<"%char); [exact Hany | exact Hlt | |].
  - intros a s Hne. now apply m_first_lit with (a0 := "<"%char).
  - rewrite m_Seq, li_close_match.
    rewrite m_Group. unfold spaces.
    apply greedy_skip; [exact Hsp|].
    now rewrite greedy_blocked by reflexivity.
Qed.
Lemma group_str_prepend u x i : group_str (prepend u x) i = group_str x i.
Proof. destruct i; reflexivity. Qed.

(** Text before the first match does not change what the items give. *)
Lemma li_lines_scan_skip k f d r u s :
  (forall v a w, u = v ++ a :: w -> match_here d r false (a :: w ++ s) = None) ->
  li_lines k (scan (S f) d r false (u ++ s))
  = li_lines k (scan (S f) d r false s).
Proof.
  intros H. cbn [scan]. rewrite search_adv_skip by assumption.
  destruct (search_adv d r false s) as [x|]; [|reflexivity].
  cbn [option_map li_lines]. now rewrite !group_str_prepend.
Qed.

Lemma li_items_tail items :
  exists t, li_items items ++ T "</ol>" = "<"%char :: t.
Proof. destruct items as [|[c w] rest]; eexists; reflexivity. Qed.

Lemma plain_items_spec items :
  forallb plain_item items = true ->
  Forall (fun it => plain_line (fst it) = true
                    /\ forallb is_space (snd it) = true) items.
Proof.
  rewrite forallb_forall. intros H. apply Forall_forall. intros it Hit.
  apply H in Hit. unfold plain_item in Hit. now apply andb_true_iff in Hit.
Qed.

(** [finditer] on the items of a block gives their contents and the
    whitespace after them, in order. *)
Lemma li_lines_items : forall items k f,
  forallb plain_item items = true ->
  length items < f ->
  li_lines k (scan f false (p_re li_search_pattern) false
                   (li_items items ++ T "</ol>"))
  = raw_lines k items.
Proof.
  induction items as [|[c w] rest IH]; intros k f Hit Hf.
  - destruct f; [simpl in Hf; lia|]. reflexivity.
  - destruct f as [|f]; [simpl in Hf; lia|].
    simpl in Hit. apply andb_true_iff in Hit. destruct Hit as [Hi Hrest].
    unfold plain_item in Hi. cbn [fst snd] in Hi.
    apply andb_true_iff in Hi. destruct Hi as [Hc Hw].
    change (li_items ((c, w) :: rest)) with (li_item (c, w) ++ li_items rest).
    rewrite <- app_assoc.
    destruct (li_items_tail rest) as [t Ht]. rewrite Ht.
    cbn [scan]. erewrite search_adv_here by (apply li_match; assumption).
    unfold m_end. cbn [m_span snd]. unfold span_text. cbn [fst snd].
    rewrite (consumed_app (li_item (c, w)) ("<"%char :: t)).
    change (is_nil (li_item (c, w))) with false.
    cbn [li_lines raw_lines fst snd]. unfold group_str, group.
    cbn [m_caps cap_get Nat.eqb option_map]. unfold span_text. cbn [fst snd].
    rewrite <- Ht.
    rewrite (consumed_app w (li_items rest ++ T "</ol>")).
    rewrite (consumed_app c (T "</li>" ++ w ++ li_items rest ++ T "</ol>")).
    rewrite <- !app_assoc. do 5 f_equal.
    apply IH; [exact Hrest | simpl in Hf; lia].
Qed.

Lemma length_li_items items : length items <= length (li_items items).
Proof.
  induction items as [|[c w] rest IH]; [simpl; lia|].
  change (li_items ((c, w) :: rest)) with (li_item (c, w) ++ li_items rest).
  rewrite length_app. unfold li_item. simpl. lia.
Qed.

Lemma li_fails_at_ol X :
  match_here false (p_re li_search_pattern) false (T "<ol>" ++ X) = None.
Proof. reflexivity. Qed.

(** The value of [li_str] for the block. *)
Lemma li_str_block ws items :
  forallb is_space ws = true ->
  forallb plain_item items = true ->
  li_lines 1 (finditer li_search_pattern (ol_block ws items))
  = raw_lines 1 items.
Proof.
  intros Hws Hit. unfold finditer. rewrite scan_fuel_S.
  unfold ol_block.
  replace (T "<ol>" ++ ws ++ li_items items ++ T "</ol>")
    with ((T "<ol>" ++ ws) ++ li_items items ++ T "</ol>")
    by (now rewrite <- app_assoc).
  rewrite li_lines_scan_skip.
  - apply li_lines_items; [exact Hit|].
    pose proof (length_li_items items). rewrite !length_app. lia.
  - intros v a w E.
    destruct v as [|x v]; cbn [app] in E; inversion E; subst.
    + reflexivity.
    + apply match_here_first_lit with (a0 := "<"%char); [reflexivity|].
      intros ->. apply spaces_spec in Hws. destruct Hws as (_ & _ & Hlt & _).
      assert (Hin : In "<"%char ("o"%char :: "l"%char :: ">"%char :: ws))
        by (rewrite H1; apply in_elt).
      simpl in Hin. intuition discriminate.
Qed.
(** ** Templates, piece by piece *)

Lemma parse_cons_plain p f a s :
  a <> bsl ->
  (t <- tok_next (a :: s) ;; parse_loop (S f) p t)
  = (rest <- (t <- tok_next s ;; parse_loop f p t) ;; Ok (TLit a :: rest)).
Proof.
  intros Ha. cbn [tok_next]. rewrite (ascii_eqb_neq Ha). cbn [bind parse_loop].
  unfold tok_get. cbn [fst snd].
  destruct (tok_next s) as [t'|e]; reflexivity.
Qed.

Lemma parse_app_plain p u : forall f s,
  plain_text u ->
  (t <- tok_next (u ++ s) ;; parse_loop (length u + f) p t)
  = (rest <- (t <- tok_next s ;; parse_loop f p t) ;; Ok (map TLit u ++ rest)).
Proof.
  induction u as [|a u IH]; intros f s Hu.
  - cbn [app length Nat.add map].
    destruct (t <- tok_next s;; parse_loop f p t); reflexivity.
  - apply plain_text_cons in Hu. destruct Hu as [Ha Hu].
    cbn [app length Nat.add]. rewrite parse_cons_plain by assumption.
    rewrite IH by assumption.
    destruct (t <- tok_next s;; parse_loop f p t); reflexivity.
Qed.

Lemma parse_escape_n p f s :
  (t <- tok_next (bsl :: "n"%char :: s) ;; parse_loop (S f) p t)
  = (rest <- (t <- tok_next s ;; parse_loop f p t) ;; Ok (TLit nl :: rest)).
Proof.
  cbn [tok_next]. rewrite ascii_eqb_refl. cbn [bind parse_loop].
  unfold tok_get. cbn [fst snd].
  destruct (tok_next s) as [t'|e]; [|reflexivity].
  cbn [bind]. change (parse_escape f p "n" t') with (Ok ([TLit nl], t')).
  cbn [bind app]. reflexivity.
Qed.

(** [\2] before a text that does not start with a digit is group 2. *)
Lemma parse_group2 p f s :
  2 <= p_groups p ->
  match s with a :: _ => is_digit a = false | [] => True end ->
  (t <- tok_next (bsl :: "2"%char :: s) ;; parse_loop (S f) p t)
  = (rest <- (t <- tok_next s ;; parse_loop f p t) ;; Ok (TGroup 2 :: rest)).
Proof.
  intros Hg Hs. cbn [tok_next]. rewrite ascii_eqb_refl. cbn [bind parse_loop].
  unfold tok_get. cbn [fst snd].
  destruct (tok_next s) as [t'|e] eqn:Et; [|reflexivity].
  cbn [bind].
  assert (Hd : tok_is t' is_digit = false).
  { destruct s as [|a r]; [inversion Et; reflexivity|].
    cbn [tok_next] in Et. destruct (ascii_eqb a bsl).
    - destruct r; inversion Et; reflexivity.
    - inversion Et; subst. exact Hs. }
  assert (Hp : parse_escape f p "2" t' = Ok ([TGroup 2], t')).
  { unfold parse_escape.
    change (ascii_eqb "2" "g") with false. change (ascii_eqb "2" "0") with false.
    change (is_digit "2") with true. cbv iota. rewrite Hd.
    unfold addgroup. change (int_of 10 ["2"%char]) with 2.
    replace (p_groups p <? 2) with false
      by (symmetry; apply Nat.ltb_ge; exact Hg).
    reflexivity. }
  rewrite Hp. cbn [bind app]. reflexivity.
Qed.

Lemma uint_plain (d : Decimal.uint) :
  plain_text (list_ascii_of_string (NilEmpty.string_of_uint d)).
Proof.
  unfold plain_text.
  induction d; simpl; intros H; try tauto;
    destruct H as [E|H]; try discriminate; tauto.
Qed.

Lemma str_of_nat_plain k : plain_text (str_of_nat k).
Proof. apply uint_plain. Qed.

Lemma plain_text_app u v : plain_text u -> plain_text v -> plain_text (u ++ v).
Proof. unfold plain_text. intros Hu Hv H. apply in_app_or in H. tauto. Qed.
Lemma raw_lines_parse p : forall items k f,
  forallb plain_item items = true ->
  length (raw_lines k items) < f ->
  (t <- tok_next (raw_lines k items) ;; parse_loop f p t)
  = Ok (map TLit (numbered k items)).
Proof.
  induction items as [|[c w] rest IH]; intros k f Hit Hf.
  - destruct f; [simpl in Hf; lia|]. reflexivity.
  - simpl in Hit. apply andb_true_iff in Hit. destruct Hit as [Hi Hrest].
    unfold plain_item in Hi. cbn [fst snd] in Hi.
    apply andb_true_iff in Hi. destruct Hi as [Hc Hw].
    apply line_char_spec in Hc. destruct Hc as (_ & _ & Hc).
    apply spaces_spec in Hw. destruct Hw as (_ & _ & _ & Hw).
    cbn [raw_lines numbered fst snd] in *.
    set (u := str_of_nat k ++ T ". " ++ c ++ w).
    assert (Hu : plain_text u).
    { unfold u. repeat apply plain_text_app; try assumption.
      - apply str_of_nat_plain.
      - vm_compute. intuition discriminate. }
    replace (T "\n" ++ str_of_nat k ++ T ". " ++ c ++ w ++ raw_lines (S k) rest)
      with (bsl :: "n"%char :: u ++ raw_lines (S k) rest) in *
      by (unfold u; now rewrite <- !app_assoc).
    replace (nl :: str_of_nat k ++ T ". " ++ c ++ w ++ numbered (S k) rest)
      with (nl :: u ++ numbered (S k) rest)
      by (unfold u; now rewrite <- !app_assoc).
    destruct f as [|f]; [simpl in Hf; lia|].
    rewrite parse_escape_n.
    cbn [length] in Hf. rewrite length_app in Hf.
    replace f with (length u + (f - length u)) by lia.
    rewrite parse_app_plain by assumption.
    rewrite IH; [|exact Hrest|lia].
    cbn [bind map]. now rewrite map_app.
Qed.

Lemma raw_lines_head k items :
  match raw_lines k items with
  | a :: _ => is_digit a = false
  | [] => True
  end.
Proof. destruct items; [exact I | reflexivity]. Qed.

Lemma ol_template items :
  forallb plain_item items = true ->
  parse_template ol_parent_search_pattern (T "\2" ++ raw_lines 1 items)
  = Ok (TGroup 2 :: map TLit (numbered 1 items)).
Proof.
  intros Hit. unfold parse_template.
  change (T "\2" ++ raw_lines 1 items)
    with (bsl :: "2"%char :: raw_lines 1 items).
  cbn [length]. rewrite parse_group2.
  - rewrite raw_lines_parse; [reflexivity | exact Hit | lia].
  - simpl. lia.
  - apply raw_lines_head.
Qed.

(** ** Positions where the rest of a pattern fails *)

Lemma fails_on_nil A (K : cont A) c s : fails_on K c [] s.
Proof. intros v a w E. destruct v; discriminate. Qed.

Lemma fails_on_cons A (K : cont A) c a u s :
  K (a :: u ++ s) c = None -> fails_on K c u s -> fails_on K c (a :: u) s.
Proof.
  intros H1 H2 v b w E. destruct v as [|x v]; cbn [app] in E.
  - inversion E; subst. exact H1.
  - inversion E; subst. now apply (H2 v).
Qed.

Lemma fails_on_app A (K : cont A) c u1 u2 s :
  fails_on K c u1 (u2 ++ s) -> fails_on K c u2 s ->
  fails_on K c (u1 ++ u2) s.
Proof.
  induction u1 as [|a u1 IH]; intros H1 H2; [exact H2|].
  cbn [app]. apply fails_on_cons.
  - rewrite <- app_assoc. apply (H1 [] a u1 eq_refl).
  - apply IH; [|exact H2]. intros v b w E. apply (H1 (a :: v)).
    now rewrite E.
Qed.

Lemma fails_on_absent A (K : cont A) c a0 u s :
  ~ In a0 u -> (forall a t, a <> a0 -> K (a :: t) c = None) ->
  fails_on K c u s.
Proof.
  intros Hn HK v a w E. apply HK. intros ->. apply Hn. rewrite E.
  apply in_elt.
Qed.

Lemma lazy_skip_on d cl A (K : cont A) c u s :
  Forall (in_cls d cl) u -> fails_on K c u s ->
  m d (Star false (Chr cl)) (u ++ s) c K = m d (Star false (Chr cl)) s c K.
Proof. intros Hu HK. now apply lazy_skip. Qed.

(** A continuation that fails before [<li>] and [</li>] and on every
    character but [<] fails all along the items of a list. *)
Lemma fails_on_items A (K : cont A) c items : forall s,
  forallb plain_item items = true ->
  (forall a t, a <> "<"%char -> K (a :: t) c = None) ->
  (forall t, K (T "<li>" ++ t) c = None) ->
  (forall t, K (T "</li>" ++ t) c = None) ->
  fails_on K c (li_items items) s.
Proof.
  induction items as [|[c0 w0] rest IH]; intros s Hit H1 H2 H3;
    [apply fails_on_nil|].
  simpl in Hit. apply andb_true_iff in Hit. destruct Hit as [Hi Hrest].
  unfold plain_item in Hi. cbn [fst snd] in Hi.
  apply andb_true_iff in Hi. destruct Hi as [Hc Hw].
  apply line_char_spec in Hc. destruct Hc as (_ & Hc & _).
  apply spaces_spec in Hw. destruct Hw as (_ & _ & Hw & _).
  change (li_items ((c0, w0) :: rest)) with (li_item (c0, w0) ++ li_items rest).
  apply fails_on_app; [|now apply IH].
  unfold li_item. cbn [fst snd].
  change (T "<li>" ++ c0 ++ T "</li>" ++ w0)
    with ("<"%char :: T "li>" ++ c0 ++ "<"%char :: T "/li>" ++ w0).
  apply fails_on_cons.
  - rewrite <- !app_assoc. apply (H2 (c0 ++ T "</li>" ++ w0 ++ li_items rest ++ s)).
  - replace (T "li>" ++ c0 ++ "<"%char :: T "/li>" ++ w0)
      with ((T "li>" ++ c0) ++ "<"%char :: T "/li>" ++ w0)
      by (now rewrite <- app_assoc).
    apply fails_on_app.
    + apply fails_on_absent with (a0 := "<"%char); [|exact H1].
      intros Hin. apply in_app_or in Hin. destruct Hin as [Hin|Hin]; [|tauto].
      vm_compute in Hin. intuition discriminate.
    + apply fails_on_cons.
      * rewrite <- !app_assoc. apply (H3 (w0 ++ li_items rest ++ s)).
      * apply fails_on_absent with (a0 := "<"%char); [|exact H1].
        intros Hin. apply in_app_or in Hin. destruct Hin as [Hin|Hin]; [|tauto].
        vm_compute in Hin. intuition discriminate.
Qed.

Lemma ol_close_match A post c (k : cont A) :
  m true (Group 4 (Seqs [close_start; L "ol>"])) (T "</ol>" ++ post) c k
  = k post ((4, (T "</ol>" ++ post, post)) :: c).
Proof. reflexivity. Qed.

Lemma ol_parent_match ws items post :
  forallb is_space ws = true ->
  forallb plain_item items = true ->
  match_here true (p_re ol_parent_search_pattern) false
             (ol_block ws items ++ post)
  = Some (post,
          [(4, (T "</ol>" ++ post, post));
           (3, (li_items items ++ T "</ol>" ++ post, T "</ol>" ++ post));
           (2, (ws ++ li_items items ++ T "</ol>" ++ post,
                li_items items ++ T "</ol>" ++ post));
           (1, (ol_block ws items ++ post,
                ws ++ li_items items ++ T "</ol>" ++ post))]).
Proof.
  intros Hws Hit. apply spaces_spec in Hws. destruct Hws as (_ & Hsp & _).
  unfold match_here, ol_parent_search_pattern, p_re, ol_block.
  rewrite <- !app_assoc.
  change (Seqs [Group 1 (L "<ol>"); Group 2 spaces; Group 3 lazy_any;
                Group 4 (Seqs [close_start; L "ol>"])])
    with (Seq (Group 1 (L "<ol>"))
           (Seq (Group 2 spaces)
             (Seq (Group 3 lazy_any) (Group 4 (Seqs [close_start; L "ol>"]))))).
  rewrite m_Seq, m_Group, m_L, m_Seq, m_Group. unfold spaces.
  apply greedy_skip; [exact Hsp|].
  destruct (li_items_tail items) as [t Ht].
  assert (Ht' : li_items items ++ T "</ol>" ++ post = "<"%char :: t ++ post).
  { change (T "</ol>" ++ post) with ((T "</ol>") ++ post).
    rewrite app_assoc, Ht. reflexivity. }
  rewrite Ht'. rewrite greedy_blocked by reflexivity. rewrite <- Ht'.
  rewrite m_Seq, m_Group. unfold lazy_any.
  rewrite lazy_skip_on.
  - apply lazy_stop. now rewrite ol_close_match.
  - apply all_any_dotall.
  - apply fails_on_items;
      first [ exact Hit
            | intros a s Hne; now apply m_first_lit with (a0 := "<"%char)
            | reflexivity ].
Qed.
Lemma expand_cons it tpl x :
  expand (it :: tpl) x = expand_item x it ++ expand tpl x.
Proof. reflexivity. Qed.

(** One iteration of the ordered-list loop on a block of plain items:
    the [k]-th item becomes a newline, [k. ], its content and the
    whitespace after it. *)
Lemma ol_step_block pre ws items post :
  forallb (not_char "<") pre = true ->
  forallb is_space ws = true ->
  forallb plain_item items = true ->
  exists ol_match,
    search true ol_parent_search_pattern (pre ++ ol_block ws items ++ post)
    = Some ol_match
    /\ group ol_match 0 = Some (ol_block ws items)
    /\ ol_step (pre ++ ol_block ws items ++ post) ol_match
       = Ok (pre ++ ws ++ numbered 1 items ++ post).
Proof.
  intros Hpre Hws Hit. apply forallb_not_char in Hpre.
  pose proof (ol_parent_match ws items post Hws Hit) as Hm.
  assert (Hs : search_adv true (p_re ol_parent_search_pattern) false
                 (pre ++ ol_block ws items ++ post)
               = Some (prepend pre
                   (MRes [] (ol_block ws items ++ post, post)
                     [(4, (T "</ol>" ++ post, post));
                      (3, (li_items items ++ T "</ol>" ++ post,
                           T "</ol>" ++ post));
                      (2, (ws ++ li_items items ++ T "</ol>" ++ post,
                           li_items items ++ T "</ol>" ++ post));
                      (1, (ol_block ws items ++ post,
                           ws ++ li_items items ++ T "</ol>" ++ post))]))).
  { rewrite search_adv_absent_app with (a0 := "<"%char);
      [| reflexivity | exact Hpre].
    now rewrite (search_adv_here _ _ _ _ Hm). }
  eexists. split; [exact Hs|]. split.
  - unfold group, prepend, span_text. cbn [m_span fst snd].
    now rewrite consumed_app.
  - unfold ol_step, prepend, span_text. cbn [m_span fst snd].
    rewrite consumed_app, li_str_block by assumption.
    rewrite re_sub_eq, ol_template by assumption. cbn [bind]. f_equal.
    erewrite sub_with_first by exact Hs.
    unfold prepend, m_end. cbn [m_pre m_span m_caps snd].
    rewrite app_nil_r. f_equal.
    rewrite expand_cons, expand_plain.
    cbn [expand_item group m_caps cap_get Nat.eqb option_map].
    unfold span_text. cbn [fst snd]. rewrite consumed_app.
    now rewrite <- !app_assoc.
Qed.

(** ** [re.sub] on a text cut into segments *)

Lemma sub_with_segments d r new segs : forall tail,
  Forall (seg_ok d r) segs ->
  search_adv d r false tail = None ->
  sub_with d r (map TLit new) 0 (seg_text segs ++ tail)
  = seg_result new segs ++ tail.
Proof.
  induction segs as [|[u hit] segs IH]; intros tail Hok Htail.
  - now apply sub_with_none.
  - inversion Hok as [|? ? Hu Hrest]; subst.
    change (seg_text ((u, hit) :: segs)) with (u ++ seg_text segs).
    change (seg_result new ((u, hit) :: segs))
      with ((if hit then new else u) ++ seg_result new segs).
    rewrite <- !app_assoc. unfold seg_ok in Hu. cbn [fst snd] in Hu.
    destruct hit.
    + destruct Hu as [Hne Hm].
      destruct (Hm (seg_text segs ++ tail)) as [c Hc].
      rewrite sub_with_here with (1 := Hc).
      * rewrite expand_plain. f_equal. now apply IH.
      * rewrite !length_app. destruct u; [congruence | simpl; lia].
    + rewrite sub_with_skip by (apply Hu). f_equal. now apply IH.
Qed.

Lemma seg_ok_absent d r a0 u :
  first_lit r = Some a0 -> ~ In a0 u -> seg_ok d r (u, false).
Proof.
  intros Hf Hn rest v a w E. cbn [fst] in E.
  apply match_here_first_lit with (a0 := a0); [exact Hf|].
  intros ->. apply Hn. rewrite E. apply in_elt.
Qed.

(** A tag that the pattern does not match: it fails at the [<] and the
    other characters cannot start a match. *)
Lemma seg_ok_other_tag d r u :
  first_lit r = Some "<"%char -> ~ In "<"%char u ->
  (forall rest, match_here d r false ("<"%char :: u ++ rest) = None) ->
  seg_ok d r ("<"%char :: u, false).
Proof.
  intros Hf Hn Hm rest v a w E. cbn [fst] in E.
  destruct v as [|x v]; cbn [app] in E; inversion E; subst.
  - apply Hm.
  - apply match_here_first_lit with (a0 := "<"%char); [exact Hf|].
    intros ->. apply Hn. apply in_elt.
Qed.
(** ** Unordered and task lists *)

Lemma seg_text_app a b : seg_text (a ++ b) = seg_text a ++ seg_text b.
Proof. apply flat_map_app. Qed.

Lemma seg_result_app new a b :
  seg_result new (a ++ b) = seg_result new a ++ seg_result new b.
Proof. apply flat_map_app. Qed.

(** The result of a pass is the text of the next one, item by item. *)
Lemma seg_result_items new (f g : uitem -> list (str * bool)) items :
  (forall it, seg_result new (f it) = seg_text (g it)) ->
  seg_result new (flat_map f items) = seg_text (flat_map g items).
Proof.
  intros H. induction items as [|it rest IH]; [reflexivity|].
  cbn [flat_map]. now rewrite seg_result_app, seg_text_app, H, IH.
Qed.

Lemma seg_text_items (f : uitem -> list (str * bool)) (h : uitem -> str) items :
  (forall it, seg_text (f it) = h it) ->
  seg_text (flat_map f items) = flat_map h items.
Proof.
  intros H. induction items as [|it rest IH]; [reflexivity|].
  cbn [flat_map]. now rewrite seg_text_app, H, IH.
Qed.

Lemma seg_result_items_text new (f : uitem -> list (str * bool))
      (h : uitem -> str) items :
  (forall it, seg_result new (f it) = h it) ->
  seg_result new (flat_map f items) = flat_map h items.
Proof.
  intros H. induction items as [|it rest IH]; [reflexivity|].
  cbn [flat_map]. now rewrite seg_result_app, H, IH.
Qed.

Lemma plain_uitems_spec items :
  forallb plain_uitem items = true ->
  Forall (fun it : uitem =>
            plain_line (fst (snd it)) = true
            /\ forallb is_space (snd (snd it)) = true) items.
Proof.
  rewrite forallb_forall. intros H. apply Forall_forall. intros it Hit.
  apply H in Hit. unfold plain_uitem in Hit. now apply andb_true_iff in Hit.
Qed.

(** The segments of a list are right for a pattern [r] that starts with
    [<], when the opening and closing tags of the items are. *)
Lemma list_segs_ok r opener open_hit close_hit ws items :
  first_lit r = Some "<"%char ->
  forallb is_space ws = true ->
  forallb plain_uitem items = true ->
  (forall ck, seg_ok false r (opener ck, open_hit ck)) ->
  seg_ok false r (T "</li>", close_hit) ->
  Forall (seg_ok false r) (list_segs opener open_hit close_hit ws items).
Proof.
  intros Hf Hws Hit Hopen Hclose. unfold list_segs. constructor.
  - apply seg_ok_absent with (a0 := "<"%char); [exact Hf|].
    apply spaces_spec in Hws. tauto.
  - apply plain_uitems_spec in Hit.
    induction Hit as [|[ck [c w]] rest [Hc Hw] _ IH]; [constructor|].
    cbn [flat_map item_segs fst snd app] in *.
    repeat constructor; try assumption.
    + apply Hopen.
    + apply seg_ok_absent with (a0 := "<"%char); [exact Hf|].
      apply line_char_spec in Hc. tauto.
    + apply seg_ok_absent with (a0 := "<"%char); [exact Hf|].
      apply spaces_spec in Hw. tauto.
Qed.
Lemma seg_text_item_segs o h ch (it : uitem) :
  seg_text (item_segs o h ch it)
  = o (fst it) ++ fst (snd it) ++ T "</li>" ++ snd (snd it).
Proof.
  unfold seg_text, item_segs. cbn [flat_map fst snd]. now rewrite app_nil_r.
Qed.

Lemma seg_result_item_segs new o h ch (it : uitem) :
  seg_result new (item_segs o h ch it)
  = (if h (fst it) then new else o (fst it)) ++ fst (snd it)
    ++ (if ch then new else T "</li>") ++ snd (snd it).
Proof.
  unfold seg_result, item_segs. cbn [flat_map fst snd]. now rewrite app_nil_r.
Qed.

Lemma list_segs_text ws items :
  seg_text (list_segs ul_item_open (fun ck : bool => ck) false ws items)
  = ws ++ ul_items items.
Proof.
  unfold list_segs. cbn [seg_text flat_map fst]. f_equal.
  apply seg_text_items. intros it. apply seg_text_item_segs.
Qed.

Lemma list_segs_text_mid ws items :
  seg_text (list_segs (opener_mid false) negb false ws items)
  = ws ++ ul_items items.
Proof.
  unfold list_segs. cbn [seg_text flat_map fst]. f_equal.
  apply seg_text_items. intros [[|] [c w]]; apply seg_text_item_segs.
Qed.

(** First pass of a task list: the opening tags of checked items. *)
Lemma ul_pass_checked ws items :
  forallb is_space ws = true ->
  forallb plain_uitem items = true ->
  re_sub false li_checked_pattern (T "\n- [X] ") (ws ++ ul_items items) 0
  = Ok (seg_text (list_segs (opener_mid true) negb false ws items)).
Proof.
  intros Hws Hit. rewrite re_sub_eq.
  change (parse_template li_checked_pattern (T "\n- [X] "))
    with (Ok (map TLit (nl :: T "- [X] "))).
  cbn [bind]. f_equal.
  rewrite <- list_segs_text, <- (app_nil_r (seg_text _)).
  rewrite sub_with_segments.
  - rewrite app_nil_r. unfold list_segs, seg_result, seg_text.
    cbn [flat_map fst snd]. f_equal.
    apply seg_result_items. intros [[|] [c w]];
      now rewrite seg_result_item_segs, seg_text_item_segs.
  - apply list_segs_ok; try assumption; try reflexivity.
    + intros [|].
      * split; [discriminate|]. intros rest. eexists. reflexivity.
      * apply seg_ok_other_tag; [reflexivity | | reflexivity].
        vm_compute. intuition discriminate.
    + apply seg_ok_other_tag; [reflexivity | | reflexivity].
      vm_compute. intuition discriminate.
  - reflexivity.
Qed.

(** Second pass: the opening tags [<li>]. *)
Lemma ul_pass_open (task : bool) ws items :
  forallb is_space ws = true ->
  forallb plain_uitem items = true ->
  re_sub false li_open_pattern
         (if task then T "\n- [ ] " else T "\n- ")
         (seg_text (list_segs (opener_mid task) negb false ws items)) 0
  = Ok (seg_text (list_segs (bullet task) (fun _ : bool => false) true ws items)).
Proof.
  intros Hws Hit. rewrite re_sub_eq.
  replace (parse_template li_open_pattern
             (if task then T "\n- [ ] " else T "\n- "))
    with (Ok (map TLit (bullet task false)))
    by (destruct task; reflexivity).
  cbn [bind]. f_equal.
  rewrite <- (app_nil_r (seg_text _)).
  rewrite sub_with_segments.
  - rewrite app_nil_r. unfold list_segs, seg_result, seg_text.
    cbn [flat_map fst snd]. f_equal.
    apply seg_result_items. intros [[|] [c w]];
      rewrite seg_result_item_segs, seg_text_item_segs; cbn [fst snd negb];
      destruct task; reflexivity.
  - apply list_segs_ok; try assumption; try reflexivity.
    + intros [|]; cbn [negb opener_mid].
      * destruct task.
        -- apply seg_ok_absent with (a0 := "<"%char); [reflexivity|].
           vm_compute. intuition discriminate.
        -- apply seg_ok_other_tag; [reflexivity | | reflexivity].
           vm_compute. intuition discriminate.
      * split; [discriminate|]. intros rest. eexists. reflexivity.
    + apply seg_ok_other_tag; [reflexivity | | reflexivity].
      vm_compute. intuition discriminate.
  - reflexivity.
Qed.

(** Last pass: the closing tags of the items. *)
Lemma ul_pass_close task ws items :
  forallb is_space ws = true ->
  forallb plain_uitem items = true ->
  re_sub false li_close_pattern []
         (seg_text (list_segs (bullet task) (fun _ : bool => false) true ws items)) 0
  = Ok (ws ++ bullets task items).
Proof.
  intros Hws Hit. rewrite re_sub_eq.
  change (parse_template li_close_pattern []) with (Ok (map TLit [])).
  cbn [bind]. f_equal.
  rewrite <- (app_nil_r (seg_text _)).
  rewrite sub_with_segments.
  - rewrite app_nil_r. unfold list_segs, seg_result, bullets.
    cbn [flat_map fst snd]. f_equal.
    apply seg_result_items_text. intros [ck [c w]].
    now rewrite seg_result_item_segs.
  - apply list_segs_ok; try assumption; try reflexivity.
    + intros ck. destruct task, ck; cbn [bullet].
      * apply seg_ok_absent with (a0 := "<"%char); [reflexivity|].
        vm_compute. intuition discriminate.
      * apply seg_ok_absent with (a0 := "<"%char); [reflexivity|].
        vm_compute. intuition discriminate.
      * apply seg_ok_other_tag; [reflexivity | | reflexivity].
        vm_compute. intuition discriminate.
      * apply seg_ok_absent with (a0 := "<"%char); [reflexivity|].
        vm_compute. intuition discriminate.
    + split; [discriminate|]. intros rest. eexists. reflexivity.
  - reflexivity.
Qed.
Lemma strip_prefix_app w : forall s t,
  strip_prefix w s = Some t -> s = w ++ t.
Proof.
  induction w as [|a w IH]; intros s t H; simpl in H.
  - now inversion H.
  - destruct s as [|x s]; [discriminate|].
    destruct (ascii_eqb x a) eqn:E; [|discriminate].
    apply Ascii.eqb_eq in E. subst. simpl. f_equal. now apply IH.
Qed.

(** A continuation that fails after a prefix [w] fails on every text
    that starts with [w]. *)
Lemma fails_with_prefix A (K : cont A) c w s t :
  strip_prefix w s = Some t ->
  (forall t, K (w ++ t) c = None) -> K s c = None.
Proof.
  intros Hs HK. apply strip_prefix_app in Hs. subst. apply HK.
Qed.

Lemma fails_on_uitems A (K : cont A) c items : forall s,
  forallb plain_uitem items = true ->
  (forall a t, a <> "<"%char -> K (a :: t) c = None) ->
  (forall t, K (T "<li" ++ t) c = None) ->
  (forall t, K (T "</li>" ++ t) c = None) ->
  fails_on K c (ul_items items) s.
Proof.
  induction items as [|[ck [c0 w0]] rest IH]; intros s Hit H1 H2 H3;
    [apply fails_on_nil|].
  simpl in Hit. apply andb_true_iff in Hit. destruct Hit as [Hi Hrest].
  unfold plain_uitem in Hi. cbn [fst snd] in Hi.
  apply andb_true_iff in Hi. destruct Hi as [Hc Hw].
  apply line_char_spec in Hc. destruct Hc as (_ & Hc & _).
  apply spaces_spec in Hw. destruct Hw as (_ & _ & Hw & _).
  change (ul_items ((ck, (c0, w0)) :: rest))
    with (ul_item (ck, (c0, w0)) ++ ul_items rest).
  apply fails_on_app; [|now apply IH].
  unfold ul_item. cbn [fst snd].
  apply fails_on_app; [|apply fails_on_app; [|apply fails_on_app]].
  - destruct ck; cbn [ul_item_open].
    + change li_checked_open
        with ("<"%char :: T "li data-checked=" ++ dq :: T "true" ++ dq :: T ">").
      apply fails_on_cons.
      * eapply fails_with_prefix; [|exact H2]. reflexivity.
      * apply fails_on_absent with (a0 := "<"%char); [|exact H1].
        vm_compute. intuition discriminate.
    + change (T "<li>") with ("<"%char :: T "li>").
      apply fails_on_cons.
      * eapply fails_with_prefix; [|exact H2]. reflexivity.
      * apply fails_on_absent with (a0 := "<"%char); [|exact H1].
        vm_compute. intuition discriminate.
  - now apply fails_on_absent with (a0 := "<"%char).
  - change (T "</li>") with ("<"%char :: T "/li>").
    apply fails_on_cons.
    + eapply fails_with_prefix; [|exact H3]. reflexivity.
    + apply fails_on_absent with (a0 := "<"%char); [|exact H1].
      vm_compute. intuition discriminate.
  - now apply fails_on_absent with (a0 := "<"%char).
Qed.

Lemma ul_items_tail items :
  exists t, ul_items items ++ T "</ul>" = "<"%char :: t.
Proof. destruct items as [|[[|] [c w]] rest]; eexists; reflexivity. Qed.

Lemma ul_close_match A post c (k : cont A) :
  m true (Group 4 (Seqs [close_start; L "ul>"])) (T "</ul>" ++ post) c k
  = k post ((4, (T "</ul>" ++ post, post)) :: c).
Proof. reflexivity. Qed.

Lemma ul_open_attrs task : ul_open task = T "<ul" ++ ul_attrs task ++ T ">".
Proof. destruct task; reflexivity. Qed.

Lemma ul_parent_match task ws items post :
  forallb is_space ws = true ->
  forallb plain_uitem items = true ->
  match_here true (p_re ul_parent_search_pattern) false
             (ul_block task ws items ++ post)
  = Some (post,
          [(4, (T "</ul>" ++ post, post));
           (3, (ul_items items ++ T "</ul>" ++ post, T "</ul>" ++ post));
           (2, (ws ++ ul_items items ++ T "</ul>" ++ post,
                ul_items items ++ T "</ul>" ++ post));
           (1, (ul_block task ws items ++ post,
                ws ++ ul_items items ++ T "</ul>" ++ post))]).
Proof.
  intros Hws Hit. apply spaces_spec in Hws. destruct Hws as (_ & Hsp & _).
  unfold match_here, ul_parent_search_pattern, p_re, ul_block.
  rewrite ul_open_attrs. rewrite <- !app_assoc.
  change (Seqs [Group 1 (Seqs [L "<ul"; lazy_any; L ">"]); Group 2 spaces;
                Group 3 lazy_any; Group 4 (Seqs [close_start; L "ul>"])])
    with (Seq (Group 1 (Seq (L "<ul") (Seq lazy_any (L ">"))))
           (Seq (Group 2 spaces)
             (Seq (Group 3 lazy_any) (Group 4 (Seqs [close_start; L "ul>"]))))).
  rewrite m_Seq, m_Group, m_Seq, m_L, m_Seq. unfold lazy_any at 1.
  apply lazy_scan_to with (a0 := ">"%char).
  - apply all_any_dotall.
  - destruct task; vm_compute; intuition discriminate.
  - intros a s Hne. now apply m_first_lit with (a0 := ">"%char).
  - rewrite m_L, m_Seq, m_Group. unfold spaces.
    apply greedy_skip; [exact Hsp|].
    destruct (ul_items_tail items) as [t Ht].
    assert (Ht' : ul_items items ++ T "</ul>" ++ post = "<"%char :: t ++ post).
    { change (T "</ul>" ++ post) with ((T "</ul>") ++ post).
      rewrite app_assoc, Ht. reflexivity. }
    rewrite Ht'. rewrite greedy_blocked by reflexivity. rewrite <- Ht'.
    rewrite m_Seq, m_Group. unfold lazy_any.
    rewrite lazy_skip_on.
    + apply lazy_stop. now rewrite ul_close_match.
    + apply all_any_dotall.
    + apply fails_on_uitems;
        first [ exact Hit
              | intros a s Hne; now apply m_first_lit with (a0 := "<"%char)
              | reflexivity ].
Qed.
Lemma group2_template p u :
  2 <= p_groups p -> plain_text u ->
  match u with a :: _ => is_digit a = false | [] => True end ->
  parse_template p (T "\2" ++ u) = Ok (TGroup 2 :: map TLit u).
Proof.
  intros Hg Hu Hd. unfold parse_template.
  change (T "\2" ++ u) with (bsl :: "2"%char :: u).
  cbn [length]. rewrite parse_group2 by assumption.
  rewrite parse_loop_plain; [reflexivity | lia | exact Hu].
Qed.

Lemma bullets_plain task items :
  forallb plain_uitem items = true -> plain_text (bullets task items).
Proof.
  intros Hit. apply plain_uitems_spec in Hit. unfold bullets.
  induction Hit as [|[ck [c w]] rest [Hc Hw] _ IH]; [easy|].
  cbn [flat_map fst snd] in *.
  apply line_char_spec in Hc. destruct Hc as (_ & _ & Hc).
  apply spaces_spec in Hw. destruct Hw as (_ & _ & _ & Hw).
  repeat apply plain_text_app; try assumption.
  destruct task, ck; vm_compute; intuition discriminate.
Qed.

Lemma is_space_not_digit a : is_space a = true -> is_digit a = false.
Proof.
  destruct a as [[] [] [] [] [] [] [] []]; vm_compute; congruence.
Qed.

Lemma ul_substring_head task ws items :
  forallb is_space ws = true ->
  match ws ++ bullets task items with
  | a :: _ => is_digit a = false
  | [] => True
  end.
Proof.
  intros Hws. destruct ws as [|a ws].
  - destruct items as [|[ck [c w]] rest]; [exact I|].
    destruct task, ck; reflexivity.
  - simpl in Hws. apply andb_true_iff in Hws. destruct Hws as [Ha _].
    now apply is_space_not_digit.
Qed.

Lemma tl_search_task :
  exists x, search true tl_start_search_pattern (ul_open true) = Some x.
Proof. eexists. reflexivity. Qed.

Lemma tl_search_plain :
  search true tl_start_search_pattern (ul_open false) = None.
Proof. reflexivity. Qed.

Lemma ul_search task pre ws items post :
  forallb (not_char "<") pre = true ->
  forallb is_space ws = true ->
  forallb plain_uitem items = true ->
  search_adv true (p_re ul_parent_search_pattern) false
             (pre ++ ul_block task ws items ++ post)
  = Some (prepend pre
            (MRes [] (ul_block task ws items ++ post, post)
               [(4, (T "</ul>" ++ post, post));
                (3, (ul_items items ++ T "</ul>" ++ post, T "</ul>" ++ post));
                (2, (ws ++ ul_items items ++ T "</ul>" ++ post,
                     ul_items items ++ T "</ul>" ++ post));
                (1, (ul_block task ws items ++ post,
                     ws ++ ul_items items ++ T "</ul>" ++ post))])).
Proof.
  intros Hpre Hws Hit. apply forallb_not_char in Hpre.
  pose proof (ul_parent_match task ws items post Hws Hit) as Hm.
  rewrite search_adv_absent_app with (a0 := "<"%char);
    [| reflexivity | exact Hpre].
  now rewrite (search_adv_here _ _ _ _ Hm).
Qed.

(** The substitution that ends an iteration. *)
Lemma ul_splice task pre ws items post :
  forallb (not_char "<") pre = true ->
  forallb is_space ws = true ->
  forallb plain_uitem items = true ->
  re_sub true ul_parent_search_pattern (T "\2" ++ ws ++ bullets task items)
         (pre ++ ul_block task ws items ++ post) 1
  = Ok (pre ++ ws ++ ws ++ bullets task items ++ post).
Proof.
  intros Hpre Hws Hit.
  pose proof (ul_search task pre ws items post Hpre Hws Hit) as Hs.
  rewrite re_sub_eq, group2_template.
  - cbn [bind]. f_equal. erewrite sub_with_first by exact Hs.
    unfold prepend, m_end. cbn [m_pre m_span m_caps snd].
    rewrite app_nil_r. f_equal.
    rewrite expand_cons, expand_plain.
    cbn [expand_item group m_caps cap_get Nat.eqb option_map].
    unfold span_text. cbn [fst snd]. rewrite consumed_app.
    now rewrite <- !app_assoc.
  - simpl. lia.
  - apply plain_text_app; [|now apply bullets_plain].
    apply spaces_spec in Hws. tauto.
  - now apply ul_substring_head.
Qed.

(** One iteration of the unordered and task list loop on a block of
    plain items: the opening tag of each item becomes its bullet and the
    closing tags go; the whitespace after the opening tag of the list
    comes out twice. *)
Lemma ul_step_block task pre ws items post :
  forallb (not_char "<") pre = true ->
  forallb is_space ws = true ->
  forallb plain_uitem items = true ->
  exists ul_match,
    search true ul_parent_search_pattern (pre ++ ul_block task ws items ++ post)
    = Some ul_match
    /\ ul_step (pre ++ ul_block task ws items ++ post) ul_match
       = Ok (pre ++ ws ++ ws ++ bullets task items ++ post).
Proof.
  intros Hpre Hws Hit.
  pose proof (ul_search task pre ws items post Hpre Hws Hit) as Hs.
  eexists. split; [exact Hs|].
  unfold ul_step, slice_groups, start_of, end_of, group_str, group, prepend.
  cbn [m_caps cap_get Nat.eqb option_map fst snd]. unfold span_text.
  cbn [fst snd].
  replace (consumed (ws ++ ul_items items ++ T "</ul>" ++ post)
                    (T "</ul>" ++ post))
    with (ws ++ ul_items items)
    by (rewrite <- (consumed_app (ws ++ ul_items items) (T "</ul>" ++ post));
        now rewrite <- app_assoc).
  replace (consumed (ul_block task ws items ++ post)
                    (ws ++ ul_items items ++ T "</ul>" ++ post))
    with (ul_open task)
    by (rewrite <- (consumed_app (ul_open task)
                      (ws ++ ul_items items ++ T "</ul>" ++ post));
        unfold ul_block; now rewrite <- !app_assoc).
  destruct task.
  - destruct tl_search_task as [x Hx]. rewrite Hx.
    rewrite ul_pass_checked by assumption. cbn [bind].
    rewrite (ul_pass_open true) by assumption. cbn [bind].
    rewrite ul_pass_close by assumption. cbn [bind].
    now apply ul_splice.
  - rewrite tl_search_plain. rewrite <- list_segs_text_mid.
    rewrite (ul_pass_open false) by assumption. cbn [bind].
    rewrite ul_pass_close by assumption. cbn [bind].
    now apply ul_splice.
Qed.

(** ** Inline spans with a non-breaking space before the closing tag *)

Lemma star_greedy_body_fail d r A s c (k : cont A) :
  (forall K : cont A, m d r s c K = None) -> m d (Star true r) s c k = k s c.
Proof.
  intros H. rewrite m_Star_eq. destruct (length s); cbn [star];
    [reflexivity|]. now rewrite H.
Qed.

Lemma fails_on_pred A (K : cont A) c (P : ascii -> Prop) u s :
  Forall P u -> (forall a t, P a -> K (a :: t) c = None) -> fails_on K c u s.
Proof.
  intros Hu HK v a w E. apply HK. rewrite Forall_forall in Hu. apply Hu.
  rewrite E. apply in_elt.
Qed.

Lemma content_char_spec u :
  forallb content_char u = true ->
  Forall (fun a => a <> "<"%char /\ a <> "&"%char) u
  /\ Forall (in_cls false Any) u.
Proof.
  rewrite forallb_forall. intros H. split; apply Forall_forall; intros a Ha;
    apply H in Ha; unfold content_char, text_char in Ha;
    apply andb_true_iff in Ha; destruct Ha as [Ha H3];
    apply andb_true_iff in Ha; destruct Ha as [H1 H2].
  - apply not_char_neq in H1, H2. tauto.
  - unfold in_cls. simpl. exact H3.
Qed.

Lemma option_same A (o : option A) :
  match o with Some x => Some x | None => None end = o.
Proof. now destruct o. Qed.

Lemma star_body_fail_any d r A f s c (k : cont A) :
  (forall K : cont A, m d r s c K = None) ->
  star (m d (A:=A) r) true f s c k = k s c.
Proof.
  intros H. destruct f; cbn [star]; [reflexivity|]. now rewrite H.
Qed.

(** One entity taken by the greedy group, when no second one follows. *)
Lemma star_nbsp_once A s c (K : cont A) :
  (forall c' (K' : cont A), m false (Group 3 (L "&nbsp;")) s c' K' = None) ->
  m false (Star true (Group 3 (L "&nbsp;"))) (T "&nbsp;" ++ s) c K
  = match K s ((3, (T "&nbsp;" ++ s, s)) :: c) with
    | Some x => Some x
    | None => K (T "&nbsp;" ++ s) c
    end.
Proof.
  intros H. rewrite m_Star_eq.
  change (length (T "&nbsp;" ++ s)) with (S (5 + length s)) at 1.
  cbn [star]. rewrite m_Group, m_L.
  replace (length s <? length (T "&nbsp;" ++ s)) with true
    by (symmetry; apply Nat.ltb_lt; simpl; lia).
  now rewrite star_body_fail_any by (apply H).
Qed.

(** The end of a wrapping pattern, from the entity on. *)
Lemma wrap_tail_match p name mk :
  In (p, (name, mk)) wrap_rules ->
  exists tag,
    p_re p = wrap_re tag
    /\ (forall A rest c (k : cont A),
          m false (Group 1 tag) (name ++ rest) c k
          = k rest ((1, (name ++ rest, rest)) :: c))
    /\ (forall A post c (k : cont A),
          m false (Seqs [Star true (Group 3 (L "&nbsp;")); close_start;
                         Group 4 tag; L ">"])
            (T "&nbsp;</" ++ name ++ T ">" ++ post) c k
          = k post ((4, (name ++ T ">" ++ post, T ">" ++ post))
                    :: (3, (T "&nbsp;</" ++ name ++ T ">" ++ post,
                            T "</" ++ name ++ T ">" ++ post)) :: c)).
Proof.
  intros Hin. simpl in Hin.
  destruct Hin as [E|[E|[E|[E|[E|[]]]]]]; inversion E; subst; clear E;
    eexists; (split; [reflexivity|]); split; intros;
    try (cbn [Seqs];
         match goal with
         | |- m false _ (T "&nbsp;</" ++ ?r) _ _ = _ =>
             change (T "&nbsp;</" ++ r) with (T "&nbsp;" ++ T "</" ++ r)
         end;
         rewrite m_Seq, star_nbsp_once by reflexivity);
    first [reflexivity | cbn; rewrite ?option_same; reflexivity].
Qed.
(** A wrapping pattern at a span that ends with the entity: the content
    group holds the content, the entity group the entity. *)
Lemma wrap_match p name mk c post :
  In (p, (name, mk)) wrap_rules ->
  forallb content_char c = true ->
  match_here false (p_re p) false (wrapped_nbsp name c ++ post)
  = Some (post,
          [(4, (name ++ T ">" ++ post, T ">" ++ post));
           (3, (T "&nbsp;</" ++ name ++ T ">" ++ post,
                T "</" ++ name ++ T ">" ++ post));
           (2, (c ++ T "&nbsp;</" ++ name ++ T ">" ++ post,
                T "&nbsp;</" ++ name ++ T ">" ++ post));
           (1, (name ++ T ">" ++ c ++ T "&nbsp;</" ++ name ++ T ">" ++ post,
                T ">" ++ c ++ T "&nbsp;</" ++ name ++ T ">" ++ post))]).
Proof.
  intros Hin Hc. apply content_char_spec in Hc. destruct Hc as [Hc Hany].
  destruct (wrap_tail_match Hin) as (tag & Hre & H1 & Htail).
  rewrite Hre. unfold match_here, wrap_re, wrapped_nbsp.
  rewrite <- !app_assoc.
  change (Seqs [L "<"; Group 1 tag; L ">"; Group 2 lazy_any;
                Star true (Group 3 (L "&nbsp;")); close_start; Group 4 tag;
                L ">"])
    with (Seq (L "<") (Seq (Group 1 tag) (Seq (L ">") (Seq (Group 2 lazy_any)
            (Seqs [Star true (Group 3 (L "&nbsp;")); close_start;
                   Group 4 tag; L ">"]))))).
  rewrite m_Seq, m_L, m_Seq, H1, m_Seq, m_L, m_Seq, m_Group. unfold lazy_any.
  rewrite lazy_skip_on.
  - apply lazy_stop. rewrite Htail. reflexivity.
  - exact Hany.
  - apply fails_on_pred
      with (P := fun a => a <> "<"%char /\ a <> "&"%char); [exact Hc|].
    intros a t [Ha1 Ha2]. cbn [Seqs]. rewrite m_Seq.
    rewrite star_greedy_body_fail.
    + now apply m_first_lit with (a0 := "<"%char).
    + intros K. now apply m_first_lit with (a0 := "&"%char).
Qed.

Lemma wrap_rule_facts p name mk :
  In (p, (name, mk)) wrap_rules ->
  first_lit (p_re p) = Some "<"%char
  /\ parse_template p (wrap_template mk)
     = Ok (map TLit mk ++ TGroup 2 :: map TLit mk ++ [TGroup 3])
  /\ name <> [].
Proof.
  intros Hin. simpl in Hin.
  destruct Hin as [E|[E|[E|[E|[E|[]]]]]]; inversion E; subst;
    repeat split; try reflexivity; discriminate.
Qed.

Lemma expand_app t1 t2 x : expand (t1 ++ t2) x = expand t1 x ++ expand t2 x.
Proof. apply flat_map_app. Qed.

(** A wrapping rule on a span that ends with the entity: the markers go
    around the content and the entity comes after the closing marker. *)
Lemma wrap_rule_reorders p name mk pre c post :
  In (p, (name, mk)) wrap_rules ->
  forallb (not_char "<") pre = true ->
  forallb content_char c = true ->
  re_sub false p (wrap_template mk) (pre ++ wrapped_nbsp name c ++ post) 0
  = (rest <- re_sub false p (wrap_template mk) post 0 ;;
     Ok (pre ++ mk ++ c ++ mk ++ T "&nbsp;" ++ rest)).
Proof.
  intros Hin Hpre Hc. apply forallb_not_char in Hpre.
  destruct (wrap_rule_facts Hin) as (Hf & Htpl & Hname).
  pose proof (@wrap_match p name mk c post Hin Hc) as Hm.
  rewrite !re_sub_eq, Htpl. cbn [bind]. f_equal.
  rewrite sub_with_absent with (a0 := "<"%char) by assumption. f_equal.
  rewrite sub_with_here with (1 := Hm).
  - rewrite !expand_app, !expand_cons, !expand_plain, expand_app, expand_plain.
    cbn [expand expand_item flat_map group m_caps cap_get Nat.eqb option_map].
    unfold span_text. cbn [fst snd].
    rewrite (consumed_app c (T "&nbsp;</" ++ name ++ T ">" ++ post)).
    change (T "&nbsp;</" ++ name ++ T ">" ++ post)
      with (T "&nbsp;" ++ T "</" ++ name ++ T ">" ++ post).
    rewrite (consumed_app (T "&nbsp;") (T "</" ++ name ++ T ">" ++ post)).
    now rewrite <- !app_assoc.
  - unfold wrapped_nbsp. rewrite !length_app. simpl. lia.
Qed.
(** ** The stages outside the block loops never raise *)

Lemma replace_all_total pairs :
  Forall (fun pr => exists tpl, parse_template (fst pr) (snd pr) = Ok tpl)
         pairs ->
  forall text, exists y, replace_all pairs text = Ok y.
Proof.
  induction 1 as [|[p repl] rest [tpl Hp] _ IH]; intros text.
  - now exists text.
  - cbn [replace_all]. cbn [fst snd] in Hp. rewrite re_sub_eq, Hp.
    cbn [bind]. apply IH.
Qed.

Lemma convert_simple_total text : exists y, convert_simple text = Ok y.
Proof.
  unfold convert_simple.
  destruct (@replace_all_total
              (combine to_replace_simple replace_with_simple)) with (text := text)
    as [y Hy].
  - repeat constructor; eexists; reflexivity.
  - rewrite Hy. cbn [bind]. apply replace_all_total.
    repeat constructor; eexists; reflexivity.
Qed.

Lemma perform_phrase_replacements_total text :
  exists y, perform_phrase_replacements text = Ok y.
Proof.
  unfold perform_phrase_replacements. rewrite re_sub_eq.
  change (parse_template coffee_shop_search_pattern (T "\1\2 \3\4"))
    with (Ok [TGroup 1; TGroup 2; TLit " "%char; TGroup 3; TGroup 4]).
  cbn [bind]. eexists. reflexivity.
Qed.

Lemma hr_rule_total text : exists y, hr_rule text = Ok y.
Proof.
  unfold hr_rule. rewrite re_sub_eq, hr_template. cbn [bind].
  eexists. reflexivity.
Qed.

(** A loop that finds no block returns its text at once. *)
Lemma loops_without_block fuel text :
  (search true ol_parent_search_pattern text = None ->
   ol_loop fuel text = Some (Ok text))
  /\ (search true ul_parent_search_pattern text = None ->
      ul_loop fuel text = Some (Ok text))
  /\ (search true quote_parent_search_pattern text = None ->
      quote_loop fuel text = Some (Ok text)).
Proof.
  repeat split; intros H;
    [rewrite ol_loop_eq | rewrite ul_loop_eq | rewrite quote_loop_eq];
    now rewrite H.
Qed.

(** ** Groups are pieces of the subject *)

Lemma caps_in_cons s0 i s s' c :
  suffix s s0 -> caps_in s0 c -> caps_in s0 ((i, (s, s')) :: c).
Proof.
  intros Hs Hc j sp [E|Hin]; [inversion E; subst; exact Hs | eauto].
Qed.

Lemma caps_in_suffix s0 s1 c : suffix s1 s0 -> caps_in s1 c -> caps_in s0 c.
Proof. intros Hs Hc i sp Hin. eapply suffix_trans; eauto. Qed.

Lemma star_caps d r g s0 :
  (forall A s c (k : cont A) x, m d r s c k = Some x ->
     suffix s s0 -> caps_in s0 c ->
     exists s' c', suffix s' s /\ caps_in s0 c' /\ k s' c' = Some x) ->
  forall A fuel s c (k : cont A) x,
    star (m d (A:=A) r) g fuel s c k = Some x ->
    suffix s s0 -> caps_in s0 c ->
    exists s' c', suffix s' s /\ caps_in s0 c' /\ k s' c' = Some x.
Proof.
  intros IHr A fuel.
  induction fuel as [|fuel IH]; intros s c k x H Hs Hc; simpl in H.
  - exists s, c. repeat split; [apply suffix_refl | exact Hc | exact H].
  - assert (Hagain : forall y,
      m d r s c (fun s' c' =>
        if length s' <? length s then star (m d (A:=A) r) g fuel s' c' k
        else None) = Some y ->
      exists s' c', suffix s' s /\ caps_in s0 c' /\ k s' c' = Some y).
    { intros y Hy. apply IHr in Hy; [|exact Hs|exact Hc].
      destruct Hy as (s1 & c1 & Hs1 & Hc1 & Hk).
      destruct (length s1 <? length s); [|discriminate].
      apply IH in Hk; [|eapply suffix_trans; eassumption|exact Hc1].
      destruct Hk as (s2 & c2 & Hs2 & Hc2 & Hk).
      exists s2, c2. repeat split; try assumption.
      eapply suffix_trans; eassumption. }
    destruct g.
    + destruct (m d r s c _) as [y|] eqn:E.
      * inversion H; subst. now apply Hagain.
      * exists s, c. repeat split; [apply suffix_refl | exact Hc | exact H].
    + destruct (k s c) as [y|] eqn:E.
      * inversion H; subst. exists s, c.
        repeat split; [apply suffix_refl | exact Hc | exact E].
      * now apply Hagain.
Qed.

Lemma m_caps_in d s0 r :
  forall A s c (k : cont A) x, m d r s c k = Some x ->
    suffix s s0 -> caps_in s0 c ->
    exists s' c', suffix s' s /\ caps_in s0 c' /\ k s' c' = Some x.
Proof.
  induction r as [|p|r1 IH1 r2 IH2|r1 IH1 r2 IH2|g r1 IH1|i r1 IH1|r1 IH1];
    intros A s c k x H Hs Hc; simpl in H.
  - exists s, c. repeat split; [apply suffix_refl | exact Hc | exact H].
  - destruct s as [|a s]; [discriminate|].
    destruct (cls_match d p a); [|discriminate].
    exists s, c. repeat split; [apply suffix_cons, suffix_refl | exact Hc | exact H].
  - apply IH1 in H; [|exact Hs|exact Hc].
    destruct H as (s1 & c1 & Hs1 & Hc1 & H).
    apply IH2 in H; [|eapply suffix_trans; eassumption|exact Hc1].
    destruct H as (s2 & c2 & Hs2 & Hc2 & H).
    exists s2, c2. repeat split; try assumption.
    eapply suffix_trans; eassumption.
  - destruct (m d r1 s c k) as [y|] eqn:E.
    + inversion H; subst. now apply IH1 in E.
    + now apply IH2 in H.
  - eapply star_caps; eassumption.
  - apply IH1 in H; [|exact Hs|exact Hc].
    destruct H as (s1 & c1 & Hs1 & Hc1 & H).
    exists s1, ((i, (s, s1)) :: c1). repeat split; try assumption.
    now apply caps_in_cons.
  - destruct (m d r1 s c _) as [c'|] eqn:E; [|discriminate].
    apply IH1 in E; [|exact Hs|exact Hc].
    destruct E as (s1 & c1 & _ & Hc1 & E). inversion E; subst.
    exists s, c'. repeat split; [apply suffix_refl | exact Hc1 | exact H].
Qed.

Lemma match_here_caps d r adv s s' c :
  match_here d r adv s = Some (s', c) -> suffix s' s /\ caps_in s c.
Proof.
  unfold match_here. intros H.
  apply (@m_caps_in d s) in H; [|apply suffix_refl|intros i sp []].
  destruct H as (s1 & c1 & Hs1 & Hc1 & Hk).
  destruct (adv && (length s1 =? length s)); [discriminate|].
  inversion Hk; subst. now split.
Qed.

(** What [re.search] returns: the text before the match and the match
    make up the text, and the groups lie in the text from the match on. *)
Lemma search_adv_parts d r : forall s adv x,
  search_adv d r adv s = Some x ->
  s = m_pre x ++ m_start x
  /\ suffix (m_end x) (m_start x)
  /\ caps_in (m_start x) (m_caps x).
Proof.
  induction s as [|a s IH]; intros adv x H; simpl in H.
  - destruct (match_here d r adv []) as [[s' c]|] eqn:E; [|discriminate].
    inversion H; subst. apply match_here_caps in E. now split.
  - destruct (match_here d r adv (a :: s)) as [[s' c]|] eqn:E.
    + inversion H; subst. apply match_here_caps in E. now split.
    + destruct (search_adv d r false s) as [y|] eqn:F; [|discriminate].
      inversion H; subst. apply IH in F. destruct F as (F1 & F2 & F3).
      unfold m_start, m_end in *. cbn [shift m_pre m_span m_caps] in *.
      repeat split; try assumption. cbn [app]. now f_equal.
Qed.

Lemma In_consumed (a : ascii) (s s' : str) : In a (consumed s s') -> In a s.
Proof.
  unfold consumed. generalize (length s - length s'). intros n. revert s.
  induction n as [|n IH]; intros [|b s] H; simpl in H; try contradiction.
  destruct H as [H|H]; [now left | right; now apply IH].
Qed.

Lemma suffix_In_trans (a : ascii) (t s : str) : suffix t s -> In a t -> In a s.
Proof. intros [u ->] H. apply in_or_app. now right. Qed.

(** The characters of an expansion are literals of the template or come
    from the matched text on. *)
Lemma expand_chars tpl x a :
  caps_in (m_start x) (m_caps x) ->
  In a (expand tpl x) -> In (TLit a) tpl \/ In a (m_start x).
Proof.
  intros Hc. unfold expand. induction tpl as [|it tpl IH]; [intros []|].
  cbn [flat_map]. intros H. apply in_app_or in H. destruct H as [H|H].
  - destruct it as [b|i]; cbn [expand_item] in H.
    + destruct H as [<-|[]]. left. now left.
    + right. destruct (group x i) as [g|] eqn:G; [|destruct H].
      destruct i as [|i]; cbn [group] in G.
      * inversion G; subst. now apply In_consumed in H.
      * destruct (cap_get (m_caps x) (S i)) as [sp|] eqn:Cg; [|discriminate].
        inversion G; subst. apply In_consumed in H.
        assert (Hin : In (S i, sp) (m_caps x)).
        { clear -Cg. induction (m_caps x) as [|[j sq] l IHl]; [discriminate|].
          cbn [cap_get] in Cg. destruct (Nat.eqb (S i) j) eqn:E.
          - apply Nat.eqb_eq in E. inversion Cg; subst. now left.
          - right. now apply IHl. }
        apply Hc in Hin. eapply suffix_In_trans; eassumption.
  - destruct (IH H) as [H'|H']; [left; now right | now right].
Qed.

(** [re.sub] brings in no character that is neither in the text nor a
    literal of the template. *)
Lemma sub_loop_chars d r tpl count a : forall fuel done adv s,
  In a (sub_loop fuel d r tpl count done adv s) ->
  In (TLit a) tpl \/ In a s.
Proof.
  induction fuel as [|fuel IH]; intros done adv s H; cbn [sub_loop] in H;
    [now right|].
  destruct (negb (count =? 0) && (count <=? done)); [now right|].
  destruct (search_adv d r adv s) as [x|] eqn:E; [|now right].
  apply search_adv_parts in E. destruct E as (E1 & E2 & E3).
  apply in_app_or in H. destruct H as [H|H].
  - right. rewrite E1. apply in_or_app. now left.
  - apply in_app_or in H. destruct H as [H|H].
    + apply expand_chars in H; [|exact E3]. destruct H as [H|H]; [now left|].
      right. rewrite E1. apply in_or_app. now right.
    + apply IH in H. destruct H as [H|H]; [now left|]. right.
      rewrite E1. apply in_or_app. right. eapply suffix_In_trans; eassumption.
Qed.

Lemma re_sub_chars d p repl tpl text count y a :
  parse_template p repl = Ok tpl ->
  re_sub d p repl text count = Ok y ->
  In a y -> In (TLit a) tpl \/ In a text.
Proof.
  intros Hp H Hin. unfold re_sub in H. rewrite Hp in H. cbn [bind] in H.
  inversion H; subst. eapply sub_loop_chars; eassumption.
Qed.

(** ** Characters that a stage cannot bring in *)

Lemma re_sub_keeps (P : ascii -> Prop) d p repl tpl text count y :
  parse_template p repl = Ok tpl ->
  (forall a, In (TLit a) tpl -> P a) ->
  (forall a, In a text -> P a) ->
  re_sub d p repl text count = Ok y ->
  forall a, In a y -> P a.
Proof.
  intros Hp Ht Hx H a Hin.
  destruct (@re_sub_chars d p repl tpl text count y a Hp H Hin); auto.
Qed.

Lemma replace_all_keeps (P : ascii -> Prop) pairs :
  Forall (fun pr => exists tpl, parse_template (fst pr) (snd pr) = Ok tpl
                    /\ forall a, In (TLit a) tpl -> P a) pairs ->
  forall text y, (forall a, In a text -> P a) ->
    replace_all pairs text = Ok y -> forall a, In a y -> P a.
Proof.
  induction 1 as [|[p repl] rest (tpl & Hp & Ht) _ IH]; intros text y Hx H.
  - cbn [replace_all] in H. inversion H; subst. exact Hx.
  - cbn [replace_all] in H. cbn [fst snd] in Hp.
    destruct (re_sub false p repl text 0) as [t|e] eqn:E; [|discriminate].
    cbn [bind] in H. eapply IH; [|exact H].
    eapply re_sub_keeps; eassumption.
Qed.

Lemma fix_mispellings_keeps (P : ascii -> Prop) name :
  good_name name = true -> (forall a, In a name -> P a) ->
  (forall a, In a (upper name) -> P a) ->
  forall ws text y, (forall a, In a text -> P a) ->
    fix_mispellings name ws text = Ok y -> forall a, In a y -> P a.
Proof.
  intros Hg Hn Hu. unfold good_name in Hg. apply andb_prop in Hg.
  destruct Hg as [_ Hg].
  assert (Hpl : plain_text name).
  { unfold plain_text. intros Hin.
    rewrite forallb_forall in Hg. apply Hg in Hin. now vm_compute in Hin. }
  assert (Hpu : plain_text (upper name)).
  { unfold plain_text, upper. intros Hin. apply in_map_iff in Hin.
    destruct Hin as (b & Hb & Hin). unfold upper_char in Hb.
    destruct (is_lower b) eqn:Lb.
    - unfold is_lower, between in Lb. apply andb_prop in Lb.
      destruct Lb as [L1 L2]. apply Nat.leb_le in L1, L2.
      assert (Hc : code (ascii_of_nat (code b - 32)) = code b - 32).
      { unfold code. apply nat_ascii_embedding. unfold code in *. lia. }
      rewrite Hb in Hc. change (code bsl) with 92 in Hc. lia.
    - subst b. rewrite forallb_forall in Hg. apply Hg in Hin.
      now vm_compute in Hin. }
  induction ws as [|[w|] ws IH]; intros text y Hx H; cbn [fix_mispellings] in H.
  - inversion H; subst. exact Hx.
  - destruct (re_sub false (name_pattern (upper w)) (upper name) text 0)
      as [t1|] eqn:E1; [|discriminate]. cbn [bind] in H.
    destruct (re_sub false (name_alt_pattern w (lower w)) name t1 0)
      as [t2|] eqn:E2; [|discriminate]. cbn [bind] in H.
    eapply IH; [|exact H].
    eapply re_sub_keeps; [apply parse_template_plain, Hpl| |
                          |exact E2].
    + intros a Ha. apply in_map_iff in Ha. destruct Ha as (b & Eb & Hb).
      inversion Eb; subst. now apply Hn.
    + eapply re_sub_keeps; [apply parse_template_plain, Hpu| |exact Hx|exact E1].
      intros a Ha. apply in_map_iff in Ha. destruct Ha as (b & Eb & Hb).
      inversion Eb; subst. now apply Hu.
  - eapply IH; eassumption.
Qed.
Lemma fix_names_keeps (P : ascii -> Prop) : forall table,
  forallb good_entry table = true ->
  (forall e a, In e table -> In a (fst e) \/ In a (upper (fst e)) -> P a) ->
  forall text y, (forall a, In a text -> P a) ->
    fix_names table text = Ok y -> forall a, In a y -> P a.
Proof.
  induction table as [|[name ws] rest IH]; intros Hg Hn text y Hx H;
    cbn [fix_names] in H.
  - inversion H; subst. exact Hx.
  - cbn [forallb] in Hg. apply andb_prop in Hg. destruct Hg as [Hg Hr].
    unfold good_entry in Hg. cbn [fst snd] in Hg. apply andb_prop in Hg.
    destruct Hg as [Hg _].
    assert (Hpl : plain_text name).
    { unfold good_name in Hg. apply andb_prop in Hg. destruct Hg as [_ Hg].
      unfold plain_text. intros Hin. rewrite forallb_forall in Hg.
      apply Hg in Hin. now vm_compute in Hin. }
    assert (Hname : forall a, In a name -> P a).
    { intros a Ha. apply (Hn (name, ws)); [now left | now left]. }
    destruct (re_sub false (name_pattern (lower name)) name text 0)
      as [t1|] eqn:E1; [|discriminate]. cbn [bind] in H.
    destruct (fix_mispellings name ws t1) as [t2|] eqn:E2; [|discriminate].
    cbn [bind] in H.
    eapply IH; [exact Hr| |
                |exact H].
    + intros e a He Ha. apply (Hn e); [now right | exact Ha].
    + eapply fix_mispellings_keeps; [exact Hg|exact Hname| |
                                     |exact E2].
      * intros a Ha. apply (Hn (name, ws)); [now left | now right].
      * eapply re_sub_keeps; [apply parse_template_plain, Hpl| |exact Hx
                              |exact E1].
        intros a Ha. apply in_map_iff in Ha. destruct Ha as (b & Eb & Hb).
        inversion Eb; subst. now apply Hname.
Qed.

(** The names of the table are made of letters and spaces. *)
Lemma names_to_fix_chars e a :
  In e names_to_fix -> In a (fst e) \/ In a (upper (fst e)) ->
  is_ascii_letter a = true \/ a = " "%char.
Proof.
  intros He Ha.
  assert (Hall : forallb (fun e : str * list (option str) =>
            forallb (fun a => is_ascii_letter a || ascii_eqb a " ")
                    (fst e ++ upper (fst e))) names_to_fix = true)
    by (vm_compute; reflexivity).
  rewrite forallb_forall in Hall. apply Hall in He.
  rewrite forallb_forall in He.
  assert (Hin : In a (fst e ++ upper (fst e)))
    by (apply in_or_app; exact Ha).
  apply He in Hin. apply orb_prop in Hin. destruct Hin as [Hin|Hin].
  - now left.
  - right. now apply Ascii.eqb_eq in Hin.
Qed.

Lemma fix_name_spellings_keeps (P : ascii -> Prop) text y :
  (forall a, is_ascii_letter a = true \/ a = " "%char -> P a) ->
  (forall a, In a text -> P a) ->
  fix_name_spellings text = Ok y -> forall a, In a y -> P a.
Proof.
  intros Hl Hx H. unfold fix_name_spellings in H.
  eapply (@fix_names_keeps P names_to_fix); [|
                           |exact Hx|exact H].
  - vm_compute; reflexivity.
  - intros e a He Ha. apply Hl. eapply names_to_fix_chars; eassumption.
Qed.

Lemma perform_phrase_replacements_keeps (P : ascii -> Prop) text y :
  P " "%char -> (forall a, In a text -> P a) ->
  perform_phrase_replacements text = Ok y -> forall a, In a y -> P a.
Proof.
  intros Hs Hx H. unfold perform_phrase_replacements in H.
  eapply (@re_sub_keeps P false coffee_shop_search_pattern (T "\1\2 \3\4")
            [TGroup 1; TGroup 2; TLit " "%char; TGroup 3; TGroup 4]);
    [reflexivity| |exact Hx|exact H].
  - intros a Ha. cbn in Ha.
    repeat (destruct Ha as [Ha|Ha]; [try discriminate|]);
      [inversion Ha; subst; exact Hs|contradiction].
Qed.

(** The eight replacements and the five removals of [convert_simple], on
    a text without a tag: only the entity is replaced. *)
Lemma convert_simple_tag_free text :
  ~ In "<"%char text ->
  convert_simple text = Ok (replace_each [T "&nbsp;"] (T " ") text).
Proof.
  intros Hx. unfold convert_simple, to_replace_simple, replace_with_simple.
  cbn [combine replace_all].
  repeat (erewrite re_sub_no_match;
          [cbn [bind]
          |vm_compute; reflexivity
          |apply search_adv_absent with (a0 := "<"%char);
           [reflexivity|exact Hx]]).
  change (plain "&nbsp;") with (name_pattern (T "&nbsp;")).
  rewrite re_sub_name; [|discriminate|now vm_compute; intros [H|[]]].
  cbn [bind].
  assert (Hy : ~ In "<"%char (replace_each [T "&nbsp;"] (T " ") text)).
  { intros Hin.
    assert (Hr := @re_sub_name (T "&nbsp;") (T " ") text).
    refine (@re_sub_keeps (fun a => a <> "<"%char) false
              (name_pattern (T "&nbsp;")) (T " ") [TLit " "%char] text 0 _
              eq_refl _ _ (Hr _ _) _ Hin eq_refl).
    - intros a [Ha|[]]. inversion Ha; subst. discriminate.
    - intros a Ha E. subst. now apply Hx.
    - discriminate.
    - vm_compute. now intros [H|[]]. }
  apply replace_all_no_match.
  repeat constructor; try (eexists; vm_compute; reflexivity);
    cbn [fst]; apply search_adv_absent with (a0 := "<"%char);
    solve [reflexivity|exact Hy].
Qed.
Lemma tpl_lits_in (allowed : str) (tpl : list titem) :
  forallb (fun it => match it with
                     | TLit a => existsb (ascii_eqb a) allowed
                     | TGroup _ => true
                     end) tpl = true ->
  forall a, In (TLit a) tpl -> In a allowed.
Proof.
  rewrite forallb_forall. intros H a Ha. apply H in Ha.
  apply existsb_exists in Ha. destruct Ha as (b & Hb & E).
  apply Ascii.eqb_eq in E. now subst.
Qed.

Lemma nbsp_pass_tag_free text :
  ~ In "<"%char text ->
  ~ In "<"%char (replace_each [T "&nbsp;"] (T " ") text).
Proof.
  intros Hx Hin.
  assert (Hr := @re_sub_name (T "&nbsp;") (T " ") text).
  refine (@re_sub_keeps (fun a => a <> "<"%char) false
            (name_pattern (T "&nbsp;")) (T " ") [TLit " "%char] text 0 _
            eq_refl _ _ (Hr _ _) _ Hin eq_refl).
  - intros a [Ha|[]]. inversion Ha; subst. discriminate.
  - intros a Ha E. subst. now apply Hx.
  - discriminate.
  - vm_compute. now intros [H|[]].
Qed.

Lemma fix_name_spellings_total text : exists y, fix_name_spellings text = Ok y.
Proof.
  unfold fix_name_spellings. rewrite fix_names_spec; [|reflexivity].
  eexists. reflexivity.
Qed.

(** A text without a tag passes the loops for lists and for blockquotes
    and the rule for horizontal lines as it is. *)
Lemma tag_free_blocks fuel text :
  ~ In "<"%char text ->
  convert_lists fuel text = Some (Ok text)
  /\ convert_quote_blocks fuel text = Some (Ok text)
  /\ hr_rule text = Ok text.
Proof.
  intros Hx.
  assert (Hs : forall d p, first_lit (p_re p) = Some "<"%char ->
                           search d p text = None).
  { intros d p Hp. now apply search_adv_absent with (a0 := "<"%char). }
  destruct (loops_without_block fuel text) as (Ho & Hu & Hq).
  split; [|split].
  - unfold convert_lists. rewrite Ho by (now apply Hs). cbn [rbind].
    apply Hu. now apply Hs.
  - apply Hq. now apply Hs.
  - unfold hr_rule. eapply re_sub_no_match; [apply hr_template|now apply Hs].
Qed.

(** ** Texts with several lists *)

(** A text inside which a pattern matches nowhere, whatever follows. *)
Lemma quiet_app d r u v :
  seg_ok d r (u, false) -> seg_ok d r (v, false) -> seg_ok d r (u ++ v, false).
Proof.
  unfold seg_ok. cbn [fst snd]. intros Hu Hv rest p a w E.
  revert p E. induction u as [|b u IH]; intros p E.
  - cbn [app] in E. eapply Hv; eassumption.
  - destruct p as [|b' p]; cbn [app] in E; inversion E; subst.
    + rewrite <- app_assoc. apply (Hu (v ++ rest) [] a u eq_refl).
    + apply IH with (p := p); [|assumption].
      intros rest' p' a' w' E'. apply (Hu rest' (b' :: p') a' w').
      now rewrite E'.
Qed.

Lemma quiet_nil d r : seg_ok d r ([], false).
Proof. intros rest [|? ?] b w E; discriminate. Qed.

Lemma quiet_segs d r segs :
  Forall (fun sg => snd sg = false /\ seg_ok d r sg) segs ->
  seg_ok d r (seg_text segs, false).
Proof.
  induction 1 as [|[u h] segs [Hh Hu] _ IH]; [apply quiet_nil|].
  cbn [snd] in Hh. subst h.
  change (seg_text ((u, false) :: segs)) with (u ++ seg_text segs).
  now apply quiet_app.
Qed.

Lemma search_quiet d r u s :
  seg_ok d r (u, false) ->
  search_adv d r false (u ++ s)
  = option_map (prepend u) (search_adv d r false s).
Proof. intros H. apply search_adv_skip. apply H. Qed.

Lemma search_quiet_none d r a0 u :
  first_lit r = Some a0 -> seg_ok d r (u, false) ->
  search_adv d r false u = None.
Proof.
  intros Hf H. rewrite <- (app_nil_r u), search_quiet by exact H.
  cbn [search_adv]. now rewrite (match_here_nil d r false Hf).
Qed.

Lemma quiet_absent d r u :
  first_lit r = Some "<"%char -> forallb (not_char "<") u = true ->
  seg_ok d r (u, false).
Proof.
  intros Hf Hu. apply seg_ok_absent with (a0 := "<"%char); [exact Hf|].
  now apply forallb_not_char.
Qed.
Lemma uint_tag_free (d : Decimal.uint) :
  ~ In "<"%char (list_ascii_of_string (NilEmpty.string_of_uint d)).
Proof.
  induction d; simpl; intros H; try tauto;
    destruct H as [E|H]; try discriminate; tauto.
Qed.

Lemma numbered_tag_free : forall items k,
  forallb plain_item items = true -> ~ In "<"%char (numbered k items).
Proof.
  intros items k Hit. apply plain_items_spec in Hit. revert k.
  induction Hit as [|[c w] rest [Hc Hw] _ IH]; intros k; [easy|].
  cbn [numbered fst snd] in *.
  apply line_char_spec in Hc. destruct Hc as (_ & Hc & _).
  apply spaces_spec in Hw. destruct Hw as (_ & _ & Hw & _).
  intros [E|Hin]; [discriminate|].
  repeat (apply in_app_or in Hin; destruct Hin as [Hin|Hin]);
    try tauto.
  - now apply uint_tag_free in Hin.
  - vm_compute in Hin. intuition discriminate.
  - now apply IH in Hin.
Qed.

(** The items of an unordered list hold no match of a pattern that
    starts with [<] and matches none of their tags. *)
Lemma quiet_uitems d r items :
  first_lit r = Some "<"%char ->
  forallb plain_uitem items = true ->
  (forall ck, seg_ok d r (ul_item_open ck, false)) ->
  seg_ok d r (T "</li>", false) ->
  seg_ok d r (ul_items items, false).
Proof.
  intros Hf Hit Hopen Hclose. apply plain_uitems_spec in Hit.
  induction Hit as [|[ck [c w]] rest [Hc Hw] _ IH]; [apply quiet_nil|].
  unfold ul_items. cbn [flat_map]. unfold ul_item at 1. cbn [fst snd] in *.
  rewrite <- !app_assoc.
  apply line_char_spec in Hc. destruct Hc as (_ & Hc & _).
  apply spaces_spec in Hw. destruct Hw as (_ & _ & Hw & _).
  repeat apply quiet_app; try assumption.
  - apply Hopen.
  - now apply seg_ok_absent with (a0 := "<"%char).
  - now apply seg_ok_absent with (a0 := "<"%char).
Qed.

Lemma quiet_tag d r u :
  first_lit r = Some "<"%char ->
  forallb (not_char "<") u = true ->
  (forall rest, match_here d r false ("<"%char :: u ++ rest) = None) ->
  seg_ok d r ("<"%char :: u, false).
Proof.
  intros Hf Hu Hm. apply seg_ok_other_tag; try assumption.
  now apply forallb_not_char.
Qed.

(** An unordered or task list holds no match of the pattern for ordered
    lists. *)
Lemma ul_block_quiet_ol task ws items :
  forallb is_space ws = true ->
  forallb plain_uitem items = true ->
  seg_ok true (p_re ol_parent_search_pattern) (ul_block task ws items, false).
Proof.
  intros Hws Hit. unfold ul_block.
  apply spaces_spec in Hws. destruct Hws as (_ & _ & Hws & _).
  repeat apply quiet_app.
  - destruct task; apply quiet_tag; reflexivity.
  - now apply seg_ok_absent with (a0 := "<"%char).
  - apply quiet_uitems; try assumption; try reflexivity.
    + intros [|]; apply quiet_tag; reflexivity.
    + apply quiet_tag; reflexivity.
  - apply quiet_tag; reflexivity.
Qed.

(** The bullets written for a list hold no match of the pattern for
    unordered lists. *)
Lemma bullets_quiet_ul task items :
  forallb plain_uitem items = true ->
  seg_ok true (p_re ul_parent_search_pattern) (bullets task items, false).
Proof.
  intros Hit. apply plain_uitems_spec in Hit. unfold bullets.
  induction Hit as [|[ck [c w]] rest [Hc Hw] _ IH]; [apply quiet_nil|].
  cbn [flat_map fst snd] in *. rewrite <- !app_assoc.
  apply line_char_spec in Hc. destruct Hc as (_ & Hc & _).
  apply spaces_spec in Hw. destruct Hw as (_ & _ & Hw & _).
  repeat apply quiet_app; try assumption.
  - destruct task, ck;
      first [ apply quiet_tag; reflexivity
            | apply quiet_absent; reflexivity ].
  - now apply seg_ok_absent with (a0 := "<"%char).
  - now apply seg_ok_absent with (a0 := "<"%char).
Qed.

Lemma ol_step_after pre ws items post :
  seg_ok true (p_re ol_parent_search_pattern) (pre, false) ->
  forallb is_space ws = true ->
  forallb plain_item items = true ->
  exists ol_match,
    search true ol_parent_search_pattern (pre ++ ol_block ws items ++ post)
    = Some ol_match
    /\ ol_step (pre ++ ol_block ws items ++ post) ol_match
       = Ok (pre ++ ws ++ numbered 1 items ++ post).
Proof.
  intros Hpre Hws Hit.
  pose proof (ol_parent_match ws items post Hws Hit) as Hm.
  assert (Hs : search_adv true (p_re ol_parent_search_pattern) false
                 (pre ++ ol_block ws items ++ post)
               = Some (prepend pre
                   (MRes [] (ol_block ws items ++ post, post)
                     [(4, (T "</ol>" ++ post, post));
                      (3, (li_items items ++ T "</ol>" ++ post,
                           T "</ol>" ++ post));
                      (2, (ws ++ li_items items ++ T "</ol>" ++ post,
                           li_items items ++ T "</ol>" ++ post));
                      (1, (ol_block ws items ++ post,
                           ws ++ li_items items ++ T "</ol>" ++ post))]))).
  { rewrite search_quiet by exact Hpre.
    now rewrite (search_adv_here _ _ _ _ Hm). }
  eexists. split; [exact Hs|].
  unfold ol_step, prepend, span_text. cbn [m_span fst snd].
  rewrite consumed_app, li_str_block by assumption.
  rewrite re_sub_eq, ol_template by assumption. cbn [bind]. f_equal.
  erewrite sub_with_first by exact Hs.
  unfold prepend, m_end. cbn [m_pre m_span m_caps snd].
  rewrite app_nil_r. f_equal.
  rewrite expand_cons, expand_plain.
  cbn [expand_item group m_caps cap_get Nat.eqb option_map].
  unfold span_text. cbn [fst snd]. rewrite consumed_app.
  now rewrite <- !app_assoc.
Qed.

Lemma ul_search_after task pre ws items post :
  seg_ok true (p_re ul_parent_search_pattern) (pre, false) ->
  forallb is_space ws = true ->
  forallb plain_uitem items = true ->
  search_adv true (p_re ul_parent_search_pattern) false
             (pre ++ ul_block task ws items ++ post)
  = Some (prepend pre
            (MRes [] (ul_block task ws items ++ post, post)
               [(4, (T "</ul>" ++ post, post));
                (3, (ul_items items ++ T "</ul>" ++ post, T "</ul>" ++ post));
                (2, (ws ++ ul_items items ++ T "</ul>" ++ post,
                     ul_items items ++ T "</ul>" ++ post));
                (1, (ul_block task ws items ++ post,
                     ws ++ ul_items items ++ T "</ul>" ++ post))])).
Proof.
  intros Hpre Hws Hit.
  pose proof (ul_parent_match task ws items post Hws Hit) as Hm.
  rewrite search_quiet by exact Hpre.
  now rewrite (search_adv_here _ _ _ _ Hm).
Qed.

Lemma ul_step_after task pre ws items post :
  seg_ok true (p_re ul_parent_search_pattern) (pre, false) ->
  forallb is_space ws = true ->
  forallb plain_uitem items = true ->
  exists ul_match,
    search true ul_parent_search_pattern (pre ++ ul_block task ws items ++ post)
    = Some ul_match
    /\ ul_step (pre ++ ul_block task ws items ++ post) ul_match
       = Ok (pre ++ ws ++ ws ++ bullets task items ++ post).
Proof.
  intros Hpre Hws Hit.
  pose proof (@ul_search_after task pre ws items post Hpre Hws Hit) as Hs.
  assert (Hsp : re_sub true ul_parent_search_pattern
                  (T "\2" ++ ws ++ bullets task items)
                  (pre ++ ul_block task ws items ++ post) 1
                = Ok (pre ++ ws ++ ws ++ bullets task items ++ post)).
  { rewrite re_sub_eq, group2_template.
    - cbn [bind]. f_equal. erewrite sub_with_first by exact Hs.
      unfold prepend, m_end. cbn [m_pre m_span m_caps snd].
      rewrite app_nil_r. f_equal.
      rewrite expand_cons, expand_plain.
      cbn [expand_item group m_caps cap_get Nat.eqb option_map].
      unfold span_text. cbn [fst snd]. rewrite consumed_app.
      now rewrite <- !app_assoc.
    - simpl. lia.
    - apply plain_text_app; [|now apply bullets_plain].
      apply spaces_spec in Hws. tauto.
    - now apply ul_substring_head. }
  eexists. split; [exact Hs|].
  unfold ul_step, slice_groups, start_of, end_of, group_str, group, prepend.
  cbn [m_caps cap_get Nat.eqb option_map fst snd]. unfold span_text.
  cbn [fst snd].
  replace (consumed (ws ++ ul_items items ++ T "</ul>" ++ post)
                    (T "</ul>" ++ post))
    with (ws ++ ul_items items)
    by (rewrite <- (consumed_app (ws ++ ul_items items) (T "</ul>" ++ post));
        now rewrite <- app_assoc).
  replace (consumed (ul_block task ws items ++ post)
                    (ws ++ ul_items items ++ T "</ul>" ++ post))
    with (ul_open task)
    by (rewrite <- (consumed_app (ul_open task)
                      (ws ++ ul_items items ++ T "</ul>" ++ post));
        unfold ul_block; now rewrite <- !app_assoc).
  destruct task.
  - destruct tl_search_task as [x Hx]. rewrite Hx.
    rewrite ul_pass_checked by assumption. cbn [bind].
    rewrite (ul_pass_open true) by assumption. cbn [bind].
    rewrite ul_pass_close by assumption. cbn [bind].
    exact Hsp.
  - rewrite tl_search_plain. rewrite <- list_segs_text_mid.
    rewrite (ul_pass_open false) by assumption. cbn [bind].
    rewrite ul_pass_close by assumption. cbn [bind].
    exact Hsp.
Qed.
Lemma doc_text_cons p ps : doc_text (p :: ps) = piece_text p ++ doc_text ps.
Proof. reflexivity. Qed.

Lemma doc_numbered_cons p ps :
  doc_numbered (p :: ps) = piece_numbered p ++ doc_numbered ps.
Proof. reflexivity. Qed.

Lemma doc_markdown_cons p ps :
  doc_markdown (p :: ps) = piece_markdown p ++ doc_markdown ps.
Proof. reflexivity. Qed.

(** The loop for ordered lists, on a text of good pieces that follows a
    text [acc] it has nothing to do in. *)
Lemma ol_phase : forall ps acc fuel,
  forallb good_piece ps = true ->
  seg_ok true (p_re ol_parent_search_pattern) (acc, false) ->
  length ps <= fuel ->
  ol_loop fuel (acc ++ doc_text ps) = Some (Ok (acc ++ doc_numbered ps)).
Proof.
  induction ps as [|p ps IH]; intros acc fuel Hg Hq Hf.
  - cbn [doc_text doc_numbered flat_map]. rewrite app_nil_r, ol_loop_eq.
    unfold search.
    now rewrite search_quiet_none with (a0 := "<"%char) by (reflexivity || exact Hq).
  - cbn [forallb] in Hg. apply andb_prop in Hg. destruct Hg as [Hp Hg].
    rewrite doc_text_cons, doc_numbered_cons. cbn [length] in Hf.
    destruct p as [s|ws items|task ws items];
      cbn [piece_text piece_numbered good_piece] in *.
    + rewrite !app_assoc. apply IH; [exact Hg| |lia].
      apply quiet_app; [exact Hq|]. now apply quiet_absent.
    + apply andb_prop in Hp. destruct Hp as [Hws Hit].
      destruct fuel as [|fuel]; [lia|].
      destruct (@ol_step_after acc ws items (doc_text ps) Hq Hws Hit)
        as (x & Hs & Hstep).
      rewrite <- app_assoc, ol_loop_eq, Hs, Hstep.
      replace (acc ++ ws ++ numbered 1 items ++ doc_text ps)
        with ((acc ++ ws ++ numbered 1 items) ++ doc_text ps)
        by (now rewrite <- !app_assoc).
      rewrite IH; [now rewrite <- !app_assoc|exact Hg| |lia].
      apply spaces_spec in Hws. destruct Hws as (_ & _ & Hws & _).
      repeat apply quiet_app; try exact Hq;
        apply seg_ok_absent with (a0 := "<"%char);
        first [reflexivity | exact Hws | now apply numbered_tag_free].
    + apply andb_prop in Hp. destruct Hp as [Hws Hit].
      rewrite !app_assoc. apply IH; [exact Hg| |lia].
      apply quiet_app; [exact Hq|]. now apply ul_block_quiet_ol.
Qed.

(** The loop for unordered and task lists, once the ordered lists are
    rewritten. *)
Lemma ul_phase : forall ps acc fuel,
  forallb good_piece ps = true ->
  seg_ok true (p_re ul_parent_search_pattern) (acc, false) ->
  length ps <= fuel ->
  ul_loop fuel (acc ++ doc_numbered ps) = Some (Ok (acc ++ doc_markdown ps)).
Proof.
  induction ps as [|p ps IH]; intros acc fuel Hg Hq Hf.
  - cbn [doc_markdown doc_numbered flat_map]. rewrite app_nil_r, ul_loop_eq.
    unfold search.
    now rewrite search_quiet_none with (a0 := "<"%char) by (reflexivity || exact Hq).
  - cbn [forallb] in Hg. apply andb_prop in Hg. destruct Hg as [Hp Hg].
    rewrite doc_markdown_cons, doc_numbered_cons. cbn [length] in Hf.
    destruct p as [s|ws items|task ws items];
      cbn [piece_text piece_numbered piece_markdown good_piece] in *.
    + rewrite !app_assoc. apply IH; [exact Hg| |lia].
      apply quiet_app; [exact Hq|]. now apply quiet_absent.
    + apply andb_prop in Hp. destruct Hp as [Hws Hit].
      rewrite !app_assoc. apply IH; [exact Hg| |lia].
      apply spaces_spec in Hws. destruct Hws as (_ & _ & Hws & _).
      rewrite <- app_assoc.
      repeat apply quiet_app; try exact Hq;
        apply seg_ok_absent with (a0 := "<"%char);
        first [reflexivity | exact Hws | now apply numbered_tag_free].
    + apply andb_prop in Hp. destruct Hp as [Hws Hit].
      destruct fuel as [|fuel]; [lia|].
      destruct (@ul_step_after task acc ws items (doc_numbered ps) Hq Hws Hit)
        as (x & Hs & Hstep).
      rewrite <- app_assoc, ul_loop_eq, Hs, Hstep.
      replace (acc ++ ws ++ ws ++ bullets task items ++ doc_numbered ps)
        with ((acc ++ ws ++ ws ++ bullets task items) ++ doc_numbered ps)
        by (now rewrite <- !app_assoc).
      rewrite IH; [now rewrite <- !app_assoc|exact Hg| |lia].
      apply spaces_spec in Hws. destruct Hws as (_ & _ & Hws & _).
      repeat apply quiet_app; try exact Hq;
        first [ now apply bullets_quiet_ul
              | apply seg_ok_absent with (a0 := "<"%char);
                [reflexivity | exact Hws] ].
Qed.

(** ** Runs of whitespace *)

Lemma take_drop_space s : s = take_space s ++ drop_space s.
Proof.
  induction s as [|a t IH]; [reflexivity|]. cbn [take_space drop_space].
  destruct (is_space a); [cbn [app]; now f_equal | reflexivity].
Qed.

Lemma take_space_all d s : Forall (in_cls d Space) (take_space s).
Proof.
  induction s as [|a t IH]; [constructor|]. cbn [take_space].
  destruct (is_space a) eqn:E; [|constructor].
  constructor; [exact E|exact IH].
Qed.

Lemma drop_space_length s : length (drop_space s) <= length s.
Proof.
  induction s as [|a t IH]; [reflexivity|]. cbn [drop_space].
  destruct (is_space a); simpl; lia.
Qed.

(** The whole run is taken by [\s*]. *)
Lemma greedy_spaces d A (k : cont A) c s x :
  k (drop_space s) c = Some x ->
  m d (Star true (Chr Space)) s c k = Some x.
Proof.
  intros Hk. rewrite (take_drop_space s) at 1.
  apply greedy_skip; [apply take_space_all|].
  destruct (drop_space s) as [|a t] eqn:E.
  - now rewrite greedy_nil.
  - rewrite greedy_blocked; [exact Hk|].
    clear -E. induction s as [|b s IH]; [discriminate|].
    cbn [drop_space] in E. destruct (is_space b) eqn:Eb.
    + now apply IH.
    + inversion E; subst. exact Eb.
Qed.

Lemma whitespace_match_here d a t :
  match_here d (Plus (Chr Space)) false (a :: t)
  = if is_space a then Some (drop_space t, []) else None.
Proof.
  unfold match_here, Plus. rewrite m_Seq, m_Chr_cons. cbn [cls_match].
  destruct (is_space a); [|reflexivity].
  apply greedy_spaces. cbn [andb]. reflexivity.
Qed.

Lemma escape_runs_in_run s :
  escape_runs true s = take_space s ++ escape_runs false (drop_space s).
Proof.
  induction s as [|a t IH]; [reflexivity|].
  cbn [escape_runs take_space drop_space].
  destruct (is_space a) eqn:E.
  - cbn [app]. now rewrite IH.
  - cbn [app escape_runs]. now rewrite E.
Qed.

Lemma consumed_take_space a t :
  consumed (a :: t) (drop_space t) = a :: take_space t.
Proof.
  rewrite (take_drop_space t) at 1.
  change (a :: take_space t ++ drop_space t)
    with ((a :: take_space t) ++ drop_space t).
  apply consumed_app.
Qed.

Lemma escape_tag_sub : forall n s, length s <= n ->
  sub_with false (Plus (Chr Space)) [TLit bsl; TGroup 0] 0 s
  = escape_runs false s.
Proof.
  induction n as [|n IH]; intros s Hn.
  - destruct s; [|simpl in Hn; lia]. reflexivity.
  - destruct s as [|a t]; [reflexivity|]. cbn [escape_runs].
    pose proof (whitespace_match_here false a t) as Hm.
    destruct (is_space a) eqn:E.
    + rewrite sub_with_here with (1 := Hm).
      * cbn [expand flat_map expand_item group m_span app]. unfold span_text.
        cbn [fst snd]. rewrite consumed_take_space, app_nil_r.
        rewrite escape_runs_in_run. cbn [app]. do 2 f_equal.
        f_equal. apply IH.
        pose proof (drop_space_length t). simpl in Hn. lia.
      * pose proof (drop_space_length t). simpl. lia.
    + change (a :: t) with ([a] ++ t). rewrite sub_with_skip.
      * cbn [app]. f_equal. apply IH. simpl in Hn. lia.
      * intros v b w Ev. destruct v as [|? [|? ?]]; inversion Ev; subst.
        exact Hm.
Qed.

(** ** The identifier of a new entry *)

Lemma one_of_cons d cs A a s c (k : cont A) :
  cs <> [] ->
  m d (one_of cs) (a :: s) c k
  = if existsb (ascii_eqb a) cs then k s c else None.
Proof.
  induction cs as [|b cs IH]; intros Hne; [congruence|].
  destruct cs as [|b' cs].
  - cbn [one_of existsb]. rewrite m_Chr_cons. cbn [cls_match].
    now rewrite orb_false_r.
  - change (one_of (b :: b' :: cs))
      with (Alt (Chr (Lit b)) (one_of (b' :: cs))).
    rewrite m_Alt, m_Chr_cons, IH by discriminate. cbn [cls_match].
    change (existsb (ascii_eqb a) (b :: b' :: cs))
      with (ascii_eqb a b || existsb (ascii_eqb a) (b' :: cs)).
    destruct (ascii_eqb a b); cbn [orb]; [|reflexivity].
    destruct (k s c); [reflexivity|].
    now destruct (existsb (ascii_eqb a) (b' :: cs)).
Qed.

Lemma one_of_nil d cs A c (k : cont A) :
  cs <> [] -> m d (one_of cs) [] c k = None.
Proof.
  induction cs as [|b cs IH]; intros Hne; [congruence|].
  destruct cs as [|b' cs]; [reflexivity|].
  change (one_of (b :: b' :: cs)) with (Alt (Chr (Lit b)) (one_of (b' :: cs))).
  rewrite m_Alt. cbn [m]. now apply IH.
Qed.

Lemma Matches_Alt_inv d r1 r2 s s1 :
  Matches d (Alt r1 r2) s s1 -> Matches d r1 s s1 \/ Matches d r2 s s1.
Proof. intros H. inversion H; subst; auto. Qed.

Lemma Matches_one_of_inv d cs : forall s s1,
  cs <> [] -> Matches d (one_of cs) s s1 ->
  exists a, s = a :: s1 /\ existsb (ascii_eqb a) cs = true.
Proof.
  induction cs as [|b cs IH]; intros s s1 Hne H; [congruence|].
  destruct cs as [|b' cs].
  - apply Matches_Chr_inv in H. destruct H as (a & -> & Ha).
    exists a. split; [reflexivity|]. cbn [existsb cls_match] in *.
    now rewrite Ha.
  - change (one_of (b :: b' :: cs))
      with (Alt (Chr (Lit b)) (one_of (b' :: cs))) in H.
    apply Matches_Alt_inv in H. destruct H as [Hm|Hm].
    + apply Matches_Chr_inv in Hm. destruct Hm as (a & -> & Ha).
      exists a. split; [reflexivity|]. cbn [existsb cls_match] in *.
      now rewrite Ha.
    + apply IH in Hm; [destruct Hm as (a & -> & Ha)|discriminate].
      exists a. split; [reflexivity|].
      change (existsb (ascii_eqb a) (b :: b' :: cs))
        with (ascii_eqb a b || existsb (ascii_eqb a) (b' :: cs)).
      rewrite Ha. apply orb_true_r.
Qed.

(** A match of a repetition of single characters is a run of them. *)
Lemma Matches_Star_run d g r (p : ascii -> bool) :
  (forall s s1, Matches d r s s1 -> exists a, s = a :: s1 /\ p a = true) ->
  forall s s1, Matches d (Star g r) s s1 ->
    exists u, s = u ++ s1 /\ forallb p u = true.
Proof.
  intros Hr s s1 H. remember (Star g r) as q eqn:Eq.
  induction H; inversion Eq; subst.
  - exists []. now split.
  - destruct (Hr _ _ H) as (a & -> & Ha).
    destruct (IHMatches2 eq_refl) as (u & -> & Hu).
    exists (a :: u). split; [reflexivity|]. cbn [forallb]. now rewrite Ha.
Qed.

Lemma take_drop_while p s : s = take_while p s ++ drop_while p s.
Proof.
  induction s as [|a t IH]; [reflexivity|]. cbn [take_while drop_while].
  destruct (p a); [cbn [app]; now f_equal | reflexivity].
Qed.

Lemma take_while_all p s : forallb p (take_while p s) = true.
Proof.
  induction s as [|a t IH]; [reflexivity|]. cbn [take_while].
  destruct (p a) eqn:E; [|reflexivity]. cbn [forallb]. now rewrite E.
Qed.

Lemma drop_while_head p s a t : drop_while p s = a :: t -> p a = false.
Proof.
  induction s as [|b s IH]; [discriminate|]. cbn [drop_while].
  destruct (p b) eqn:E; [exact IH|]. intros H. inversion H; subst. exact E.
Qed.

Lemma take_while_nil p s : take_while p s = [] -> drop_while p s = s.
Proof.
  destruct s as [|a t]; [reflexivity|]. cbn [take_while drop_while].
  now destruct (p a).
Qed.

Lemma drop_while_app p u s :
  forallb p u = true -> drop_while p (u ++ s) = drop_while p s.
Proof.
  induction u as [|a u IH]; [reflexivity|]. cbn [forallb app drop_while].
  intros H. apply andb_prop in H. destruct H as [Ha Hu]. rewrite Ha.
  now apply IH.
Qed.

Lemma drop_while_stop p s :
  match s with a :: _ => p a = false | [] => True end -> drop_while p s = s.
Proof. destruct s as [|a t]; [reflexivity|]. cbn. now intros ->. Qed.

(** The whole run is taken by a greedy repetition of single
    characters. *)
Lemma greedy_run d r (p : ascii -> bool) A (k : cont A) c :
  (forall a s c' (k' : cont A),
     m d r (a :: s) c' k' = if p a then k' s c' else None) ->
  forall s x, k (drop_while p s) c = Some x ->
    m d (Star true r) s c k = Some x.
Proof.
  intros Hr. induction s as [|a t IH]; intros x Hk.
  - now rewrite greedy_nil.
  - rewrite m_Star_eq. change (length (a :: t)) with (S (length t)).
    cbn [star]. rewrite Hr. cbn [drop_while] in Hk.
    destruct (p a).
    + change (S (length t)) with (length (a :: t)).
      rewrite ltb_length_cons. rewrite <- m_Star_eq.
      now rewrite (IH x Hk).
    + exact Hk.
Qed.

Lemma id_char_not_space a : is_id_char a = true -> is_space a = false.
Proof.
  destruct a as [[] [] [] [] [] [] [] []]; vm_compute; congruence.
Qed.

Lemma at_end_spaces s : at_end s = true -> forallb is_space s = true.
Proof.
  destruct s as [|a [|b t]]; try discriminate; [reflexivity|].
  cbn [at_end forallb]. intros H. apply Ascii.eqb_eq in H. now subst.
Qed.

(** What a match of the pattern consists of: identifier characters,
    then whitespace. *)
Lemma id_shape s s' :
  Matches false (p_re id_pattern) s s' ->
  exists u sp, s = u ++ sp ++ s' /\ u <> []
    /\ forallb is_id_char u = true /\ forallb is_space sp = true.
Proof.
  unfold id_pattern, p_re, Plus, spaces. intros H.
  apply Matches_Seq_inv in H. destruct H as (s1 & H1 & H2).
  apply Matches_Group_inv in H1.
  apply Matches_Seq_inv in H1. destruct H1 as (s0 & H0 & H1).
  apply Matches_one_of_inv in H0; [|discriminate].
  destruct H0 as (a & -> & Ha).
  apply Matches_Star_run with (p := is_id_char) in H1;
    [|intros x y Hxy; apply Matches_one_of_inv in Hxy;
      [exact Hxy|discriminate]].
  destruct H1 as (u & -> & Hu).
  apply Matches_Star_run with (p := is_space) in H2;
    [|intros x y Hxy; apply Matches_Chr_inv in Hxy; exact Hxy].
  destruct H2 as (sp & -> & Hsp).
  exists (a :: u), sp. repeat split.
  - discriminate.
  - cbn [forallb]. unfold is_id_char at 1. now rewrite Ha.
  - exact Hsp.
Qed.

Lemma run_then_spaces u : forall sp y p z,
  u ++ sp = y ++ p :: z ->
  forallb is_id_char u = true -> forallb is_space sp = true ->
  is_id_char p = false ->
  forallb is_space (p :: z) = true.
Proof.
  induction u as [|b u IH]; intros sp y p z E Hu Hsp Hp.
  - cbn [app] in E. subst sp. rewrite forallb_app in Hsp.
    now apply andb_prop in Hsp.
  - cbn [forallb] in Hu. apply andb_prop in Hu. destruct Hu as [Hb Hu].
    destruct y as [|b' y]; cbn [app] in E; inversion E; subst.
    + congruence.
    + eapply IH; eassumption.
Qed.

(** No match starts before a character that can neither be part of the
    identifier nor of the whitespace after it. *)
Lemma id_match_fail y p id ws :
  is_id_char p = false ->
  forallb is_id_char id = true ->
  (id = [] -> is_space p = false) ->
  match_here_end false (p_re id_pattern) (y ++ p :: id ++ ws) = None.
Proof.
  intros Hp Hid Hnil. unfold match_here_end. apply m_none.
  intros s' c' Hm. destruct (at_end s') eqn:He; [exfalso|reflexivity].
  apply id_shape in Hm. destruct Hm as (u & sp & E & _ & Hu & Hsp).
  apply at_end_spaces in He.
  assert (Hall : forallb is_space (sp ++ s') = true)
    by (rewrite forallb_app, Hsp, He; reflexivity).
  pose proof (run_then_spaces u (sp ++ s') y p (id ++ ws)
                (eq_sym E) Hu Hall Hp) as Hz.
  cbn [forallb] in Hz. apply andb_prop in Hz. destruct Hz as [Hps Hz].
  destruct id as [|a id].
  - rewrite Hnil in Hps by reflexivity. discriminate.
  - cbn [app forallb] in Hz, Hid.
    apply andb_prop in Hz. destruct Hz as [Ha _].
    apply andb_prop in Hid. destruct Hid as [Ha' _].
    apply id_char_not_space in Ha'. congruence.
Qed.

Lemma search_end_skip d r u : forall s,
  (forall v a w, u = v ++ a :: w -> match_here_end d r (a :: w ++ s) = None) ->
  search_end d r (u ++ s) = option_map (prepend u) (search_end d r s).
Proof.
  induction u as [|a u IH]; intros s H.
  - cbn [app]. destruct (search_end d r s) as [[? ? ?]|]; reflexivity.
  - cbn [app search_end]. rewrite (H [] a u eq_refl).
    rewrite IH by (intros v b w E; apply (H (a :: v) b w); now rewrite E).
    destruct (search_end d r s) as [[? ? ?]|]; reflexivity.
Qed.

Lemma id_match_success a t ws :
  is_id_char a = true -> forallb is_id_char t = true ->
  forallb is_space ws = true ->
  match_here_end false (p_re id_pattern) (a :: t ++ ws)
  = Some ([], [(1, (a :: t ++ ws, ws))]).
Proof.
  intros Ha Ht Hws. unfold match_here_end, id_pattern, p_re, Plus.
  rewrite m_Seq, m_Group, m_Seq, one_of_cons by discriminate.
  fold (is_id_char a). rewrite Ha.
  apply greedy_run with (p := is_id_char).
  - intros b s c' k'. now rewrite one_of_cons by discriminate.
  - rewrite drop_while_app by exact Ht.
    rewrite drop_while_stop.
    + unfold spaces. apply greedy_spaces.
      replace (drop_space ws) with (@nil ascii); [reflexivity|].
      clear -Hws. induction ws as [|b ws IH]; [reflexivity|].
      cbn [forallb] in Hws. apply andb_prop in Hws. destruct Hws as [Hb Hws].
      cbn [drop_space]. rewrite Hb. now apply IH.
    + destruct ws as [|b ws]; [exact I|].
      cbn [forallb] in Hws. apply andb_prop in Hws. destruct Hws as [Hb _].
      destruct (is_id_char b) eqn:Eb; [|reflexivity].
      apply id_char_not_space in Eb. congruence.
Qed.

Lemma search_end_spaces ws :
  forallb is_space ws = true ->
  search_end false (p_re id_pattern) ws = None.
Proof.
  induction ws as [|a ws IH]; intros Hws.
  - reflexivity.
  - cbn [forallb] in Hws. apply andb_prop in Hws. destruct Hws as [Ha Hws].
    cbn [search_end].
    assert (Hm : match_here_end false (p_re id_pattern) (a :: ws) = None).
    { unfold match_here_end, id_pattern, p_re, Plus.
      rewrite m_Seq, m_Group, m_Seq, one_of_cons by discriminate.
      fold (is_id_char a). destruct (is_id_char a) eqn:E; [|reflexivity].
      apply id_char_not_space in E. congruence. }
    rewrite Hm, IH by exact Hws. reflexivity.
Qed.

Lemma parse_id_parts pre id ws :
  forallb is_id_char id = true -> forallb is_space ws = true ->
  (forall y p, pre = y ++ [p] ->
     is_id_char p = false /\ (id = [] -> is_space p = false)) ->
  parse_id_from_output (pre ++ id ++ ws) = id.
Proof.
  intros Hid Hws Hpre. unfold parse_id_from_output.
  rewrite search_end_skip.
  - destruct id as [|a t].
    + cbn [app]. now rewrite search_end_spaces.
    + cbn [forallb] in Hid. apply andb_prop in Hid. destruct Hid as [Ha Ht].
      cbn [app search_end]. rewrite id_match_success by assumption.
      cbn [option_map]. unfold group_str, group, prepend.
      cbn [m_caps cap_get Nat.eqb option_map]. unfold span_text.
      cbn [fst snd].
      change (a :: t ++ ws) with ((a :: t) ++ ws). now rewrite consumed_app.
  - intros v a w E.
    destruct (exists_last (l := a :: w)) as (y & p & Ey); [discriminate|].
    destruct (Hpre (v ++ y) p) as [Hp Hnil].
    { rewrite E. change (a :: w) with ((a :: w)) . rewrite Ey.
      now rewrite app_assoc. }
    change (a :: w ++ id ++ ws) with ((a :: w) ++ id ++ ws).
    rewrite Ey, <- app_assoc. cbn [app]. now apply id_match_fail.
Qed.

(** ** Web links *)

Lemma link_template :
  parse_template link_parent_search_pattern (T "[\g<display_text>\](\g<link>)")
  = Ok [TLit "["%char; TGroup 4; TLit bsl; TLit "]"%char; TLit "("%char;
        TGroup 2; TLit ")"%char].
Proof. reflexivity. Qed.

Lemma link_close_match A post c (k : cont A) :
  m true (Group 5 (Seqs [close_start; L "a>"])) (T "</a>" ++ post) c k
  = k post ((5, (T "</a>" ++ post, post)) :: c).
Proof. reflexivity. Qed.

Lemma link_match url c0 disp post :
  forallb (not_char dq) (url ++ [c0]) = true ->
  forallb (not_char "<") disp = true ->
  match_here true (p_re link_parent_search_pattern) false
             (anchor (url ++ [c0]) disp ++ post)
  = Some (post,
          [(5, (T "</a>" ++ post, post));
           (4, (disp ++ T "</a>" ++ post, T "</a>" ++ post));
           (3, (c0 :: dq :: T ">" ++ disp ++ T "</a>" ++ post,
                disp ++ T "</a>" ++ post));
           (2, (url ++ c0 :: dq :: T ">" ++ disp ++ T "</a>" ++ post,
                c0 :: dq :: T ">" ++ disp ++ T "</a>" ++ post));
           (1, (anchor (url ++ [c0]) disp ++ post,
                url ++ c0 :: dq :: T ">" ++ disp ++ T "</a>" ++ post))]).
Proof.
  intros Hurl Hdisp.
  apply forallb_not_char in Hdisp.
  rewrite forallb_app in Hurl. apply andb_prop in Hurl.
  destruct Hurl as [Hurl Hc0]. cbn [forallb] in Hc0.
  rewrite andb_true_r in Hc0. apply not_char_neq in Hc0.
  assert (Hu : forall x, In x url -> x <> dq).
  { intros x Hx. rewrite forallb_forall in Hurl. now apply not_char_neq, Hurl. }
  assert (Etext : anchor (url ++ [c0]) disp ++ post
                  = T "<a" ++ [" "%char] ++ T "href=" ++ dq :: url ++ c0 :: dq
                    :: T ">" ++ disp ++ T "</a>" ++ post).
  { unfold anchor. cbn [lit list_ascii_of_string app].
    rewrite <- !app_assoc. cbn [app]. rewrite <- !app_assoc. reflexivity. }
  rewrite Etext.
  unfold match_here, link_parent_search_pattern, p_re.
  change (Seqs [Group 1 (Seqs [L "<a"; spaces; L "href="; Chr (Lit dq)]);
                Group 2 lazy_any;
                Group 3 (Seqs [Chr Any; Chr (Lit dq); L ">"]);
                Group 4 lazy_any; Group 5 (Seqs [close_start; L "a>"])])
    with (Seq (Group 1 (Seq (L "<a") (Seq spaces
                 (Seq (L "href=") (Chr (Lit dq))))))
           (Seq (Group 2 lazy_any)
             (Seq (Group 3 (Seq (Chr Any) (Seq (Chr (Lit dq)) (L ">"))))
               (Seq (Group 4 lazy_any)
                    (Group 5 (Seqs [close_start; L "a>"])))))).
  rewrite m_Seq, m_Group, m_Seq, m_L, m_Seq. unfold spaces.
  apply greedy_skip; [repeat constructor|].
  match goal with
  | |- m _ _ (lit "href=" ++ ?t) _ _ = _ =>
      change (lit "href=" ++ t) with ("h"%char :: T "ref=" ++ t);
      rewrite greedy_blocked by reflexivity;
      change ("h"%char :: T "ref=" ++ t) with (lit "href=" ++ t)
  end.
  rewrite m_Seq, m_L, m_Chr_cons. cbn [cls_match]. rewrite ascii_eqb_refl.
  rewrite m_Seq, m_Group. unfold lazy_any.
  rewrite lazy_skip_on.
  - apply lazy_stop.
    rewrite m_Seq, m_Group, m_Seq, m_Chr_cons. cbn [cls_match orb].
    rewrite m_Seq, m_Chr_cons. cbn [cls_match]. rewrite ascii_eqb_refl.
    change (">"%char :: disp ++ T "</a>" ++ post)
      with (T ">" ++ disp ++ T "</a>" ++ post).
    rewrite m_L, m_Seq, m_Group.
    rewrite lazy_skip_on.
    + apply lazy_stop. rewrite link_close_match. reflexivity.
    + apply all_any_dotall.
    + apply fails_on_absent with (a0 := "<"%char); [exact Hdisp|].
      intros a t Ha. now apply m_first_lit with (a0 := "<"%char).
  - apply all_any_dotall.
  - intros v a w E.
    rewrite m_Seq, m_Group, m_Seq, m_Chr_cons. cbn [cls_match orb].
    rewrite m_Seq.
    destruct w as [|x w]; cbn [app]; rewrite m_Chr_cons; cbn [cls_match].
    + now rewrite ascii_eqb_neq.
    + rewrite ascii_eqb_neq; [reflexivity|]. apply Hu. rewrite E.
      apply in_or_app. right. right. now left.
Qed.

(** ** The phrase replacement *)

Lemma m_alt2 d a b A x s c (k : cont A) :
  a <> b ->
  m d (Alt (Chr (Lit a)) (Chr (Lit b))) (x :: s) c k
  = if ascii_eqb x a || ascii_eqb x b then k s c else None.
Proof.
  intros Hne. rewrite m_Alt, !m_Chr_cons. cbn [cls_match].
  destruct (ascii_eqb x a) eqn:Ea; cbn [orb]; [|reflexivity].
  apply Ascii.eqb_eq in Ea. subst x. rewrite (ascii_eqb_neq Hne).
  now destruct (k s c).
Qed.

Lemma split_coffee_shop_skip : forall k t,
  split_coffee_shop k t = split_coffee_shop 0 (skipn k t).
Proof.
  induction k as [|k IH]; intros t; [reflexivity|].
  destruct t as [|a t]; [reflexivity|]. cbn [split_coffee_shop skipn].
  apply IH.
Qed.

(** A match of the phrase pattern is an occurrence of the phrase. *)
Lemma coffee_shop_match s :
  match coffee_shop_at s with
  | Some (c1, c2) =>
      exists rest,
        s = c1 :: T "offee" ++ c2 :: T "hop" ++ rest
        /\ match_here false (p_re coffee_shop_search_pattern) false s
           = Some (rest,
                   [(4, (T "hop" ++ rest, rest));
                    (3, (c2 :: T "hop" ++ rest, T "hop" ++ rest));
                    (2, (T "offee" ++ c2 :: T "hop" ++ rest,
                         c2 :: T "hop" ++ rest));
                    (1, (s, T "offee" ++ c2 :: T "hop" ++ rest))])
  | None => match_here false (p_re coffee_shop_search_pattern) false s = None
  end.
Proof.
  unfold match_here, coffee_shop_search_pattern, p_re.
  change (Seqs [Group 1 (Alt (L "C") (L "c")); Group 2 (L "offee");
                Group 3 (Alt (L "S") (L "s")); Group 4 (L "hop")])
    with (Seq (Group 1 (Alt (Chr (Lit "C")) (Chr (Lit "c"))))
           (Seq (Group 2 (L "offee"))
             (Seq (Group 3 (Alt (Chr (Lit "S")) (Chr (Lit "s"))))
                  (Group 4 (L "hop"))))).
  unfold L.
  destruct s as [|c1 s1]; [reflexivity|].
  cbn [coffee_shop_at].
  rewrite m_Seq, m_Group, m_alt2 by discriminate.
  destruct (ascii_eqb c1 "C" || ascii_eqb c1 "c"); [|reflexivity].
  rewrite m_Seq, m_Group, m_Lits_strip.
  destruct (strip_prefix (T "offee") s1) as [s1'|] eqn:E1; [|reflexivity].
  apply strip_prefix_app in E1. subst s1.
  destruct s1' as [|c2 s2]; [reflexivity|].
  rewrite m_Seq, m_Group, m_alt2 by discriminate.
  destruct (ascii_eqb c2 "S" || ascii_eqb c2 "s"); [|reflexivity].
  rewrite m_Group, m_Lits_strip.
  destruct (strip_prefix (T "hop") s2) as [rest|] eqn:E2; [|reflexivity].
  apply strip_prefix_app in E2. subst s2.
  exists rest. split; reflexivity.
Qed.

Lemma phrase_sub : forall n s, length s <= n ->
  sub_with false (p_re coffee_shop_search_pattern)
           [TGroup 1; TGroup 2; TLit " "%char; TGroup 3; TGroup 4] 0 s
  = split_coffee_shop 0 s.
Proof.
  induction n as [|n IH]; intros s Hn.
  - destruct s; [|simpl in Hn; lia]. reflexivity.
  - destruct s as [|a t]; [reflexivity|]. cbn [split_coffee_shop].
    pose proof (coffee_shop_match (a :: t)) as Hm.
    destruct (coffee_shop_at (a :: t)) as [[c1 c2]|].
    + destruct Hm as (rest & Es & Hm).
      injection Es as Ea Et. subst a t.
      rewrite sub_with_here with (1 := Hm).
      * cbn [expand flat_map expand_item group m_caps cap_get Nat.eqb
             option_map].
        unfold span_text. cbn [fst snd].
        rewrite (consumed_app (T "hop") rest).
        rewrite (consumed_app [c2] (T "hop" ++ rest) : consumed
                   (c2 :: T "hop" ++ rest) (T "hop" ++ rest) = [c2]).
        rewrite (consumed_app (T "offee") (c2 :: T "hop" ++ rest)).
        match goal with
        | |- context [consumed ?x (lit "offee" ++ c2 :: lit "hop" ++ rest)] =>
            replace (consumed x (lit "offee" ++ c2 :: lit "hop" ++ rest))
              with [c1] by (symmetry; exact (consumed_app [c1] _))
        end.
        rewrite split_coffee_shop_skip.
        match goal with
        | |- context [skipn 9 ?x] => change (skipn 9 x) with rest
        end.
        rewrite IH by (simpl in Hn; simpl; lia).
        reflexivity.
      * simpl. lia.
    + change (a :: t) with ([a] ++ t). rewrite sub_with_skip.
      * cbn [app]. f_equal. apply IH. simpl in Hn. lia.
      * intros v b w Ev. destruct v as [|? [|? ?]]; inversion Ev; subst.
        exact Hm.
Qed.

(** ** Matches of patterns without groups *)

Lemma star_gfree d r g :
  (forall A s c (k : cont A) x, m d r s c k = Some x ->
     exists s', Matches d r s s' /\ k s' c = Some x) ->
  forall A fuel s c (k : cont A) x,
    star (m d (A:=A) r) g fuel s c k = Some x ->
    exists s', Matches d (Star g r) s s' /\ k s' c = Some x.
Proof.
  intros IHr A fuel.
  induction fuel as [|fuel IH]; intros s c k x H; simpl in H.
  - exists s. split; [constructor | exact H].
  - assert (Hagain : forall y,
      m d r s c (fun s' c' =>
        if length s' <? length s then star (m d (A:=A) r) g fuel s' c' k
        else None) = Some y ->
      exists s', Matches d (Star g r) s s' /\ k s' c = Some y).
    { intros y Hy. apply IHr in Hy. destruct Hy as (s1 & Hm & Hk).
      destruct (length s1 <? length s); [|discriminate].
      apply IH in Hk. destruct Hk as (s2 & Hs & Hk).
      exists s2. split; [econstructor; eassumption | exact Hk]. }
    destruct g.
    + destruct (m d r s c _) as [y|] eqn:E.
      * inversion H; subst. now apply Hagain.
      * exists s. split; [constructor | exact H].
    + destruct (k s c) as [y|] eqn:E.
      * inversion H; subst. exists s. split; [constructor | exact E].
      * now apply Hagain.
Qed.

(** A pattern without groups leaves the captures as they are. *)
Lemma m_gfree d r :
  gfree r = true ->
  forall A s c (k : cont A) x, m d r s c k = Some x ->
    exists s', Matches d r s s' /\ k s' c = Some x.
Proof.
  induction r as [|p|r1 IH1 r2 IH2|r1 IH1 r2 IH2|g r1 IH1|i r1 IH1|r1 IH1];
    intros Hg A s c k x H; cbn [gfree] in Hg; simpl in H.
  - exists s. split; [constructor | exact H].
  - destruct s as [|a s]; [discriminate|].
    destruct (cls_match d p a) eqn:E; [|discriminate].
    exists s. split; [now constructor | exact H].
  - apply andb_prop in Hg. destruct Hg as [Hg1 Hg2].
    apply (IH1 Hg1) in H. destruct H as (s1 & H1 & H).
    apply (IH2 Hg2) in H. destruct H as (s2 & H2 & H).
    exists s2. split; [econstructor; eassumption | exact H].
  - apply andb_prop in Hg. destruct Hg as [Hg1 Hg2].
    destruct (m d r1 s c k) as [y|] eqn:E.
    + inversion H; subst. apply (IH1 Hg1) in E. destruct E as (s1 & H1 & E).
      exists s1. split; [now apply M_AltL | exact E].
    + apply (IH2 Hg2) in H. destruct H as (s1 & H1 & H).
      exists s1. split; [now apply M_AltR | exact H].
  - eapply star_gfree; [|eassumption]. intros. now apply (IH1 Hg).
  - discriminate.
  - destruct (m d r1 s c _) as [c'|] eqn:E; [|discriminate].
    apply (IH1 Hg) in E. destruct E as (s1 & H1 & E). inversion E; subst.
    exists s. split; [econstructor; eassumption | exact H].
Qed.

Lemma m_Group_gfree d i r A s c (k : cont A) x :
  gfree r = true ->
  m d (Group i r) s c k = Some x ->
  exists s', Matches d r s s' /\ k s' ((i, (s, s')) :: c) = Some x.
Proof.
  intros Hg H. rewrite m_Group in H.
  now apply (@m_gfree d r Hg) in H.
Qed.

(** The match that [re.search] returns is a match at its start. *)
Lemma search_adv_match d r : forall s adv x,
  search_adv d r adv s = Some x ->
  exists adv', match_here d r adv' (m_start x) = Some (m_end x, m_caps x).
Proof.
  induction s as [|a s IH]; intros adv x H; simpl in H.
  - destruct (match_here d r adv []) as [[s' c]|] eqn:E; [|discriminate].
    inversion H; subst. now exists adv.
  - destruct (match_here d r adv (a :: s)) as [[s' c]|] eqn:E.
    + inversion H; subst. now exists adv.
    + destruct (search_adv d r false s) as [y|] eqn:F; [|discriminate].
      inversion H; subst. apply IH in F. exact F.
Qed.

(** ** The tags of a text *)

Lemma opens_app u v : opens (u ++ v) = opens u + opens v.
Proof.
  induction u as [|a u IH]; [reflexivity|]. cbn [app opens]. rewrite IH. lia.
Qed.

Lemma opens_absent u : ~ In "<"%char u -> opens u = 0.
Proof.
  induction u as [|a u IH]; intros H; [reflexivity|]. cbn [opens].
  rewrite IH by (intros Hin; apply H; now right).
  rewrite ascii_eqb_neq; [reflexivity|]. intros E. apply H. now left.
Qed.

Lemma consumed_split (s s' : str) : suffix s' s -> s = consumed s s' ++ s'.
Proof. intros [u ->]. now rewrite consumed_app. Qed.

Lemma opens_consumed (s s' : str) :
  suffix s' s -> opens s = opens (consumed s s') + opens s'.
Proof.
  intros H. rewrite (consumed_split H) at 1. apply opens_app.
Qed.

Lemma opens_suffix (s s' : str) : suffix s' s -> opens s' <= opens s.
Proof. intros H. rewrite (opens_consumed H). lia. Qed.

Lemma Matches_opens d r s s' :
  Matches d r s s' -> opens s = opens (consumed s s') + opens s'.
Proof. intros H. apply opens_consumed. eapply Matches_suffix; eassumption. Qed.

Lemma Matches_spaces_run d g s s' :
  Matches d (Star g (Chr Space)) s s' ->
  exists u, s = u ++ s' /\ forallb is_space u = true.
Proof.
  apply Matches_Star_run. intros x y H. apply Matches_Chr_inv in H. exact H.
Qed.
(** ** Patterns that are a sequence of groups *)

Lemma seq2_parts d r1 r2 adv s s' c :
  gfree r1 = true -> gfree r2 = true ->
  match_here d (Seq (Group 1 r1) (Group 2 r2)) adv s = Some (s', c) ->
  exists s1,
    Matches d r1 s s1 /\ Matches d r2 s1 s'
    /\ c = [(2, (s1, s')); (1, (s, s1))].
Proof.
  intros G1 G2 H. unfold match_here in H. rewrite m_Seq in H.
  apply m_Group_gfree in H; [|exact G1]. destruct H as (s1 & M1 & H).
  apply m_Group_gfree in H; [|exact G2]. destruct H as (s2 & M2 & H).
  destruct (adv && (length s2 =? length s)); [discriminate|].
  inversion H; subst. now exists s1.
Qed.

Lemma seq3_parts d r1 r2 r3 adv s s' c :
  gfree r1 = true -> gfree r2 = true -> gfree r3 = true ->
  match_here d (Seq (Group 1 r1) (Seq (Group 2 r2) (Group 3 r3))) adv s
  = Some (s', c) ->
  exists s1 s2,
    Matches d r1 s s1 /\ Matches d r2 s1 s2 /\ Matches d r3 s2 s'
    /\ c = [(3, (s2, s')); (2, (s1, s2)); (1, (s, s1))].
Proof.
  intros G1 G2 G3 H. unfold match_here in H. rewrite m_Seq in H.
  apply m_Group_gfree in H; [|exact G1]. destruct H as (s1 & M1 & H).
  rewrite m_Seq in H.
  apply m_Group_gfree in H; [|exact G2]. destruct H as (s2 & M2 & H).
  apply m_Group_gfree in H; [|exact G3]. destruct H as (s3 & M3 & H).
  destruct (adv && (length s3 =? length s)); [discriminate|].
  inversion H; subst. now exists s1, s2.
Qed.

Lemma seq4_parts d r1 r2 r3 r4 adv s s' c :
  gfree r1 = true -> gfree r2 = true -> gfree r3 = true -> gfree r4 = true ->
  match_here d (Seq (Group 1 r1) (Seq (Group 2 r2)
                 (Seq (Group 3 r3) (Group 4 r4)))) adv s
  = Some (s', c) ->
  exists s1 s2 s3,
    Matches d r1 s s1 /\ Matches d r2 s1 s2 /\ Matches d r3 s2 s3
    /\ Matches d r4 s3 s'
    /\ c = [(4, (s3, s')); (3, (s2, s3)); (2, (s1, s2)); (1, (s, s1))].
Proof.
  intros G1 G2 G3 G4 H. unfold match_here in H. rewrite m_Seq in H.
  apply m_Group_gfree in H; [|exact G1]. destruct H as (s1 & M1 & H).
  rewrite m_Seq in H.
  apply m_Group_gfree in H; [|exact G2]. destruct H as (s2 & M2 & H).
  rewrite m_Seq in H.
  apply m_Group_gfree in H; [|exact G3]. destruct H as (s3 & M3 & H).
  apply m_Group_gfree in H; [|exact G4]. destruct H as (s4 & M4 & H).
  destruct (adv && (length s4 =? length s)); [discriminate|].
  inversion H; subst. now exists s1, s2, s3.
Qed.

(** What [re.search] returns for a pattern, as a match at the start of
    the match and the text before it. *)
Lemma search_adv_found d r adv s x :
  search_adv d r adv s = Some x ->
  s = m_pre x ++ m_start x
  /\ exists adv', match_here d r adv' (m_start x) = Some (m_end x, m_caps x).
Proof.
  intros H. split.
  - now apply search_adv_parts in H.
  - eapply search_adv_match; eassumption.
Qed.

(** A closing tag takes at least its [<]. *)
Lemma close_tag_opens d w s s' :
  Matches d (Seqs [close_start; L w]) s s' -> opens s' < opens s.
Proof.
  intros H. cbn [Seqs] in H. apply Matches_Seq_inv in H.
  destruct H as (s1 & H1 & H2). unfold close_start in H1. cbn [Seqs] in H1.
  apply Matches_Seq_inv in H1. destruct H1 as (t & Ht & H1).
  apply Matches_L_inv in Ht. subst s.
  apply Matches_suffix, opens_suffix in H1.
  apply Matches_suffix, opens_suffix in H2.
  cbn [lit list_ascii_of_string app opens]. rewrite ascii_eqb_refl. lia.
Qed.

Lemma plain_text_in (s t : str) :
  (forall a, In a t -> In a s) -> plain_text s -> plain_text t.
Proof. unfold plain_text. intros H Hs Hin. now apply Hs, H. Qed.

Lemma plain_text_suffix (s t : str) : suffix t s -> plain_text s -> plain_text t.
Proof.
  intros Ht. apply plain_text_in. intros a. now apply suffix_In_trans.
Qed.

Lemma plain_text_consumed (s s' : str) :
  plain_text s -> plain_text (consumed s s').
Proof. apply plain_text_in. intros a. apply In_consumed. Qed.

Lemma plain_text_app_inv u v :
  plain_text (u ++ v) -> plain_text u /\ plain_text v.
Proof.
  unfold plain_text. intros H. split; intros Hin; apply H, in_or_app; tauto.
Qed.
(** ** The ordered-list loop on a text without backslash *)

Lemma li_lines_raw : forall ys k, li_lines k ys = raw_lines k (map item_of ys).
Proof.
  induction ys as [|y ys IH]; intros k; [reflexivity|].
  cbn [li_lines map raw_lines item_of fst snd]. rewrite IH.
  now rewrite <- !app_assoc.
Qed.

Lemma raw_lines_parse_plain p : forall items k f,
  Forall plain_pair items ->
  length (raw_lines k items) < f ->
  (t <- tok_next (raw_lines k items) ;; parse_loop f p t)
  = Ok (map TLit (numbered k items)).
Proof.
  induction items as [|[c w] rest IH]; intros k f Hit Hf.
  - destruct f; [simpl in Hf; lia|]. reflexivity.
  - inversion Hit as [|? ? [Hc Hw] Hrest]; subst. cbn [fst snd] in Hc, Hw.
    cbn [raw_lines numbered fst snd] in *.
    set (u := str_of_nat k ++ T ". " ++ c ++ w).
    assert (Hu : plain_text u).
    { unfold u. repeat apply plain_text_app; try assumption.
      - apply str_of_nat_plain.
      - vm_compute. intuition discriminate. }
    replace (T "\n" ++ str_of_nat k ++ T ". " ++ c ++ w ++ raw_lines (S k) rest)
      with (bsl :: "n"%char :: u ++ raw_lines (S k) rest) in *
      by (unfold u; now rewrite <- !app_assoc).
    replace (nl :: str_of_nat k ++ T ". " ++ c ++ w ++ numbered (S k) rest)
      with (nl :: u ++ numbered (S k) rest)
      by (unfold u; now rewrite <- !app_assoc).
    destruct f as [|f]; [simpl in Hf; lia|].
    rewrite parse_escape_n.
    cbn [length] in Hf. rewrite length_app in Hf.
    replace f with (length u + (f - length u)) by lia.
    rewrite parse_app_plain by assumption.
    rewrite IH; [|exact Hrest|lia].
    cbn [bind map]. now rewrite map_app.
Qed.

Lemma ol_template_plain items :
  Forall plain_pair items ->
  parse_template ol_parent_search_pattern (T "\2" ++ raw_lines 1 items)
  = Ok (TGroup 2 :: map TLit (numbered 1 items)).
Proof.
  intros Hit. unfold parse_template.
  change (T "\2" ++ raw_lines 1 items)
    with (bsl :: "2"%char :: raw_lines 1 items).
  cbn [length]. rewrite parse_group2.
  - rewrite raw_lines_parse_plain; [reflexivity | exact Hit | lia].
  - simpl. lia.
  - apply raw_lines_head.
Qed.

Lemma numbered_plain : forall items k,
  Forall plain_pair items -> plain_text (numbered k items).
Proof.
  induction items as [|[c w] rest IH]; intros k Hit; [easy|].
  inversion Hit as [|? ? [Hc Hw] Hrest]; subst. cbn [fst snd] in Hc, Hw.
  cbn [numbered fst snd].
  change (nl :: str_of_nat k ++ T ". " ++ c ++ w ++ numbered (S k) rest)
    with ([nl] ++ str_of_nat k ++ T ". " ++ c ++ w ++ numbered (S k) rest).
  repeat apply plain_text_app; try assumption.
  - vm_compute. intuition discriminate.
  - apply str_of_nat_plain.
  - vm_compute. intuition discriminate.
  - now apply IH.
Qed.

Lemma opens_numbered : forall items k,
  opens (numbered k items) = list_sum (map item_opens items).
Proof.
  induction items as [|[c w] rest IH]; intros k; [reflexivity|].
  cbn [numbered map list_sum fst snd].
  change (nl :: str_of_nat k ++ T ". " ++ c ++ w ++ numbered (S k) rest)
    with ([nl] ++ str_of_nat k ++ T ". " ++ c ++ w ++ numbered (S k) rest).
  rewrite !opens_app, IH. unfold item_opens. cbn [fst snd].
  rewrite (@opens_absent (str_of_nat k)) by apply uint_tag_free.
  change (opens [nl]) with 0. change (opens (T ". ")) with 0.
  unfold list_sum. cbn [fold_right]. lia.
Qed.

(** What a match of an item consists of. *)
Lemma li_match_parts adv s s' c :
  match_here false (p_re li_search_pattern) adv s = Some (s', c) ->
  exists s1 s2 s3,
    s = T "<li>" ++ s1 /\ suffix s2 s1 /\ suffix s3 s2 /\ suffix s' s3
    /\ c = [(4, (s3, s')); (3, (s2, s3)); (2, (s1, s2)); (1, (s, s1))].
Proof.
  intros H. apply seq4_parts in H; try reflexivity.
  destruct H as (s1 & s2 & s3 & M1 & M2 & M3 & M4 & ->).
  exists s1, s2, s3. repeat split.
  - now apply Matches_L_inv in M1.
  - eapply Matches_suffix; eassumption.
  - eapply Matches_suffix; eassumption.
  - eapply Matches_suffix; eassumption.
Qed.

Lemma li_found adv s x :
  search_adv false (p_re li_search_pattern) adv s = Some x ->
  item_opens (item_of x) + 1 + opens (m_end x) <= opens s
  /\ (plain_text s -> plain_pair (item_of x) /\ plain_text (m_end x)).
Proof.
  intros H. apply search_adv_found in H. destruct H as (Es & adv' & Hm).
  apply li_match_parts in Hm.
  destruct Hm as (s1 & s2 & s3 & E1 & H2 & H3 & H4 & Ec).
  unfold item_of, item_opens, group_str, group. rewrite Ec.
  cbn [cap_get Nat.eqb option_map fst snd]. unfold span_text. cbn [fst snd].
  split.
  - rewrite Es, opens_app, E1, opens_app.
    rewrite (opens_consumed H2), (opens_consumed H3), (opens_consumed H4).
    change (opens (T "<li>")) with 1. lia.
  - intros Hs. rewrite Es in Hs. apply plain_text_app_inv in Hs.
    destruct Hs as [_ Hs]. rewrite E1 in Hs.
    apply plain_text_app_inv in Hs. destruct Hs as [_ Hs1].
    assert (Hs2 : plain_text s2) by (eapply plain_text_suffix; eassumption).
    assert (Hs3 : plain_text s3) by (eapply plain_text_suffix; eassumption).
    repeat split.
    + now apply plain_text_consumed.
    + now apply plain_text_consumed.
    + eapply plain_text_suffix; eassumption.
Qed.

Lemma scan_items : forall fuel adv s,
  list_sum (map (fun y => item_opens (item_of y) + 1)
                (scan fuel false (p_re li_search_pattern) adv s))
  <= opens s
  /\ (plain_text s ->
      Forall plain_pair
             (map item_of (scan fuel false (p_re li_search_pattern) adv s))).
Proof.
  induction fuel as [|fuel IH]; intros adv s; cbn [scan].
  - split; [simpl; lia | constructor].
  - destruct (search_adv false (p_re li_search_pattern) adv s) as [x|] eqn:E.
    + apply li_found in E. destruct E as [Ho Hp].
      destruct (IH (is_nil (span_text (m_span x))) (m_end x)) as [IHo IHp].
      split.
      * unfold list_sum in *. cbn [map fold_right]. lia.
      * intros Hs. destruct (Hp Hs) as [Hx He]. cbn [map].
        constructor; [exact Hx | now apply IHp].
    + split; [simpl; lia | constructor].
Qed.
Lemma sum_items_length (ys : list mres) :
  list_sum (map (fun y => item_opens (item_of y) + 1) ys)
  = list_sum (map item_opens (map item_of ys)) + length ys.
Proof.
  unfold list_sum. induction ys as [|y ys IH]; [reflexivity|].
  cbn [map fold_right length]. rewrite IH. lia.
Qed.

Lemma sum_items_nil (ys : list mres) :
  length ys = 0 -> list_sum (map item_opens (map item_of ys)) = 0.
Proof. destruct ys; [reflexivity|discriminate]. Qed.

(** What a match of an ordered list consists of. *)
Lemma ol_match_parts adv s s' c :
  match_here true (p_re ol_parent_search_pattern) adv s = Some (s', c) ->
  exists ws s2 s3,
    s = T "<ol>" ++ ws ++ s2 /\ forallb is_space ws = true
    /\ suffix s3 s2 /\ suffix s' s3 /\ opens s' < opens s3
    /\ c = [(4, (s3, s')); (3, (s2, s3)); (2, (ws ++ s2, s2));
            (1, (s, ws ++ s2))].
Proof.
  intros H. apply seq4_parts in H; try reflexivity.
  destruct H as (s1 & s2 & s3 & M1 & M2 & M3 & M4 & ->).
  apply Matches_L_inv in M1.
  apply Matches_spaces_run in M2. destruct M2 as (ws & -> & Hws).
  exists ws, s2, s3. repeat split; try assumption.
  - eapply Matches_suffix; eassumption.
  - eapply Matches_suffix; eassumption.
  - eapply close_tag_opens; eassumption.
Qed.

Lemma spaces_opens ws : forallb is_space ws = true -> opens ws = 0.
Proof.
  intros H. apply opens_absent. apply spaces_spec in H. tauto.
Qed.

(** One iteration of the ordered-list loop on a text without backslash:
    it raises nothing, brings in no backslash and takes away at least
    one [<]. *)
Lemma ol_step_plain text x :
  plain_text text ->
  search true ol_parent_search_pattern text = Some x ->
  exists text',
    ol_step text x = Ok text' /\ plain_text text' /\ opens text' < opens text.
Proof.
  intros Hplain Hs. unfold search in Hs.
  destruct (search_adv_found _ _ _ _ Hs) as (Es & adv' & Hm).
  apply ol_match_parts in Hm.
  destruct Hm as (ws & s2 & s3 & E1 & Hws & H3 & H4 & Hlt & Ec).
  assert (Hend : suffix (m_end x) (m_start x)).
  { rewrite E1. eapply suffix_trans; [exact H4|].
    eapply suffix_trans; [exact H3|]. exists (T "<ol>" ++ ws).
    now rewrite <- app_assoc. }
  assert (Hp : plain_text (m_pre x) /\ plain_text (m_start x))
    by (apply plain_text_app_inv; now rewrite <- Es).
  destruct Hp as [Hpre Hstart].
  unfold ol_step. set (M := span_text (m_span x)).
  assert (HM : plain_text M) by (now apply plain_text_consumed).
  unfold finditer. rewrite li_lines_raw.
  destruct (scan_items (scan_fuel M) false M) as [Ho Hitems].
  specialize (Hitems HM).
  set (ys := scan (scan_fuel M) false (p_re li_search_pattern) false M) in *.
  rewrite re_sub_eq, ol_template_plain by exact Hitems. cbn [bind].
  eexists. split; [reflexivity|].
  erewrite sub_with_first by exact Hs.
  rewrite expand_cons, expand_plain.
  assert (Eg : expand_item x (TGroup 2) = ws).
  { cbn [expand_item group]. rewrite Ec.
    cbn [cap_get Nat.eqb option_map]. unfold span_text. cbn [fst snd].
    apply consumed_app. }
  rewrite Eg.
  assert (Hwsp : plain_text ws) by (apply spaces_spec in Hws; tauto).
  split.
  - repeat apply plain_text_app; try assumption.
    + now apply numbered_plain.
    + eapply plain_text_suffix; eassumption.
  - rewrite !opens_app, opens_numbered, (@spaces_opens ws Hws).
    assert (Et : opens text = opens (m_pre x) + opens (m_start x))
      by (rewrite <- opens_app; now f_equal).
    assert (EM : opens (m_start x) = opens M + opens (m_end x))
      by (now apply opens_consumed).
    assert (E2 : opens (m_start x) = 1 + opens s2).
    { rewrite E1, !opens_app, (@spaces_opens ws Hws). reflexivity. }
    apply opens_suffix in H3. apply opens_suffix in H4.
    rewrite sum_items_length in Ho.
    pose proof (sum_items_nil ys) as Hnil.
    destruct (length ys); [rewrite Hnil by reflexivity|]; lia.
Qed.

Lemma ol_loop_ends : forall n text,
  opens text <= n -> plain_text text ->
  exists y,
    plain_text y /\ opens y <= opens text
    /\ forall fuel, n <= fuel -> ol_loop fuel text = Some (Ok y).
Proof.
  induction n as [|n IH]; intros text Hn Hp.
  - exists text. repeat split; [exact Hp|lia|].
    intros fuel _. rewrite ol_loop_eq.
    destruct (search true ol_parent_search_pattern text) as [x|] eqn:E;
      [|reflexivity].
    destruct (ol_step_plain Hp E) as (t' & _ & _ & Hlt). lia.
  - destruct (search true ol_parent_search_pattern text) as [x|] eqn:E.
    + destruct (ol_step_plain Hp E) as (t' & Hstep & Hp' & Hlt).
      destruct (IH t') as (y & Hy & Hoy & Hrun); [lia|exact Hp'|].
      exists y. repeat split; [exact Hy|lia|].
      intros fuel Hf. destruct fuel as [|fuel]; [lia|].
      rewrite ol_loop_eq, E, Hstep. apply Hrun. lia.
    + exists text. repeat split; [exact Hp|lia|].
      intros fuel _. now rewrite ol_loop_eq, E.
Qed.
(** ** [re.sub] does not add tags *)

Lemma expand_span tpl x :
  expand tpl x = expand tpl (MRes [] (m_start x, m_end x) (m_caps x)).
Proof.
  unfold expand. apply flat_map_ext. intros [b|[|i]]; reflexivity.
Qed.

(** When no expansion of the template has more [<] than the match it
    replaces, the result has no more [<] than the text. *)
Lemma sub_loop_opens d r tpl :
  (forall adv s0 s' c, match_here d r adv s0 = Some (s', c) ->
     opens (expand tpl (MRes [] (s0, s') c)) <= opens (consumed s0 s')) ->
  forall fuel count done adv s,
    opens (sub_loop fuel d r tpl count done adv s) <= opens s.
Proof.
  intros Hexp. induction fuel as [|fuel IH]; intros count done adv s;
    cbn [sub_loop]; [lia|].
  destruct (negb (count =? 0) && (count <=? done)); [lia|].
  destruct (search_adv d r adv s) as [x|] eqn:E; [|lia].
  destruct (@search_adv_found d r adv s x E) as (Es & adv' & Hm).
  pose proof (@search_adv_parts d r s adv x E) as (_ & Hend & _).
  rewrite !opens_app, (expand_span tpl x).
  specialize (Hexp _ _ _ _ Hm).
  specialize (IH count (S done) (is_nil (span_text (m_span x))) (m_end x)).
  assert (Et : opens s = opens (m_pre x) + opens (m_start x))
    by (rewrite <- opens_app; now f_equal).
  rewrite (opens_consumed Hend) in Et. lia.
Qed.

Lemma re_sub_opens d p repl tpl text count y :
  parse_template p repl = Ok tpl ->
  (forall adv s0 s' c, match_here d (p_re p) adv s0 = Some (s', c) ->
     opens (expand tpl (MRes [] (s0, s') c)) <= opens (consumed s0 s')) ->
  re_sub d p repl text count = Ok y -> opens y <= opens text.
Proof.
  intros Hp Hexp H. unfold re_sub in H. rewrite Hp in H. cbn [bind] in H.
  inversion H; subst. now apply sub_loop_opens.
Qed.

(** A template of literals without [<]. *)
Lemma literal_opens (new : str) x (u : str) :
  opens new = 0 -> opens (expand (map TLit new) x) <= opens u.
Proof. intros H. rewrite expand_plain, H. lia. Qed.

(** ** The blockquote loop on a text without backslash *)

Lemma quote_contents_opens adv s0 s' c :
  match_here true (p_re quote_contents_search_pattern) adv s0 = Some (s', c) ->
  opens (expand quote_contents_tpl (MRes [] (s0, s') c))
  <= opens (consumed s0 s').
Proof.
  intros H. apply seq2_parts in H; try reflexivity.
  destruct H as (s1 & M1 & M2 & ->).
  apply Matches_Chr_inv in M1. destruct M1 as (a & -> & Ha).
  apply Matches_suffix in M2.
  unfold quote_contents_tpl.
  cbn [expand flat_map expand_item group m_caps cap_get Nat.eqb option_map].
  unfold span_text. cbn [fst snd]. rewrite app_nil_r.
  assert (E : opens (a :: s1) = opens (consumed (a :: s1) s') + opens s').
  { apply opens_consumed. now apply suffix_cons. }
  cbn [opens] in E. rewrite (opens_consumed M2) in E.
  cbn [app opens] in *.
  change (ascii_eqb nl "<") with false. change (ascii_eqb ">" "<") with false.
  change (ascii_eqb " " "<") with false.
  cbn [cls_match] in Ha. apply Ascii.eqb_eq in Ha. subst a.
  change (ascii_eqb nl "<") with false in E. cbv iota in E. lia.
Qed.

Lemma quote_match_parts adv s s' c :
  match_here true (p_re quote_parent_search_pattern) adv s = Some (s', c) ->
  exists s1 s2,
    s = T "<blockquote>" ++ s1 /\ suffix s2 s1 /\ suffix s' s2
    /\ opens s' < opens s2
    /\ c = [(3, (s2, s')); (2, (s1, s2)); (1, (s, s1))].
Proof.
  intros H. apply seq3_parts in H; try reflexivity.
  destruct H as (s1 & s2 & M1 & M2 & M3 & ->).
  apply Matches_L_inv in M1.
  exists s1, s2. repeat split; try assumption.
  - eapply Matches_suffix; eassumption.
  - eapply Matches_suffix; eassumption.
  - eapply close_tag_opens; eassumption.
Qed.

Lemma quote_step_plain text x :
  plain_text text ->
  search true quote_parent_search_pattern text = Some x ->
  exists text',
    quote_step text x = Ok text' /\ plain_text text'
    /\ opens text' < opens text.
Proof.
  intros Hplain Hs. unfold search in Hs.
  destruct (search_adv_found _ _ _ _ Hs) as (Es & adv' & Hm).
  apply quote_match_parts in Hm.
  destruct Hm as (s1 & s2 & E1 & H2 & H3 & Hlt & Ec).
  assert (Hp : plain_text (m_pre x) /\ plain_text (m_start x))
    by (apply plain_text_app_inv; now rewrite <- Es).
  destruct Hp as [Hpre Hstart].
  assert (Hs1 : plain_text s1).
  { rewrite E1 in Hstart. now apply plain_text_app_inv in Hstart. }
  assert (Hend : plain_text (m_end x)).
  { eapply plain_text_suffix; [exact H3|].
    eapply plain_text_suffix; eassumption. }
  unfold quote_step, slice_groups, start_of, end_of. rewrite Ec.
  cbn [cap_get Nat.eqb option_map fst snd].
  set (Q := consumed s1 s2).
  assert (HQ : plain_text Q) by (now apply plain_text_consumed).
  destruct (re_sub true quote_contents_search_pattern (T "\n> \g<contents>")
                   Q 0) as [Q'|e] eqn:E.
  2:{ rewrite re_sub_eq, quote_contents_template in E. discriminate. }
  cbn [bind].
  assert (HQ' : plain_text Q').
  { unfold plain_text. intros Hin.
    refine (@re_sub_keeps (fun a => a <> bsl) true
              quote_contents_search_pattern (T "\n> \g<contents>")
              quote_contents_tpl Q 0 Q' quote_contents_template _ _ E
              bsl Hin eq_refl).
    - intros a Ha. cbn in Ha.
      repeat (destruct Ha as [Ha|Ha]; [inversion Ha; subst; discriminate|]);
        contradiction.
    - intros a Ha Eb. subst. now apply HQ. }
  assert (Ho : opens Q' <= opens Q).
  { eapply re_sub_opens; [apply quote_contents_template| |exact E].
    apply quote_contents_opens. }
  rewrite re_sub_eq, parse_template_plain by exact HQ'. cbn [bind].
  eexists. split; [reflexivity|].
  erewrite sub_with_first by exact Hs. rewrite expand_plain.
  split.
  - repeat apply plain_text_app; assumption.
  - rewrite !opens_app.
    assert (Et : opens text = opens (m_pre x) + opens (m_start x))
      by (rewrite <- opens_app; now f_equal).
    rewrite E1, opens_app, (opens_consumed H2) in Et. fold Q in Et.
    apply opens_suffix in H3.
    change (opens (T "<blockquote>")) with 1 in Et. lia.
Qed.

Lemma quote_loop_ends : forall n text,
  opens text <= n -> plain_text text ->
  exists y,
    plain_text y /\ opens y <= opens text
    /\ forall fuel, n <= fuel -> quote_loop fuel text = Some (Ok y).
Proof.
  induction n as [|n IH]; intros text Hn Hp.
  - exists text. repeat split; [exact Hp|lia|].
    intros fuel _. rewrite quote_loop_eq.
    destruct (search true quote_parent_search_pattern text) as [x|] eqn:E;
      [|reflexivity].
    destruct (quote_step_plain Hp E) as (t' & _ & _ & Hlt). lia.
  - destruct (search true quote_parent_search_pattern text) as [x|] eqn:E.
    + destruct (quote_step_plain Hp E) as (t' & Hstep & Hp' & Hlt).
      destruct (IH t') as (y & Hy & Hoy & Hrun); [lia|exact Hp'|].
      exists y. repeat split; [exact Hy|lia|].
      intros fuel Hf. destruct fuel as [|fuel]; [lia|].
      rewrite quote_loop_eq, E, Hstep. apply Hrun. lia.
    + exists text. repeat split; [exact Hp|lia|].
      intros fuel _. now rewrite quote_loop_eq, E.
Qed.
(** ** The template [\2] before a digit *)

Lemma octdigit_val a : is_octdigit a = true -> digit_val a <= 7.
Proof.
  unfold is_octdigit, between, digit_val. intros H.
  apply andb_prop in H. destruct H as [_ H]. apply Nat.leb_le in H. lia.
Qed.

Lemma digit_val_digit a : is_digit a = true -> digit_val a <= 9.
Proof.
  unfold is_digit, between, digit_val. intros H.
  apply andb_prop in H. destruct H as [_ H]. apply Nat.leb_le in H. lia.
Qed.

(** [\2] followed by a digit is no reference to group 2: with a second
    octal digit after an octal one it is the escape of a character
    above the ASCII range, otherwise a reference to a group that does
    not exist. *)
Lemma group2_digit_escape p a u f :
  is_digit a = true -> a <> bsl ->
  (t <- tok_next (bsl :: "2"%char :: a :: u) ;; parse_loop (S f) p t)
  = (t1 <- tok_next u ;;
     '(items, t2) <-
       (if is_octdigit a && tok_is t1 is_octdigit then
          '(d2, t2) <- tok_get t1 ;;
          let d2 := match d2 with Some x => x | None => [] end in
          let v := int_of 8 ("2"%char :: [a] ++ d2) in
          if 255 <? v then Raise ReError
          else Ok ([TLit (ascii_of_nat v)], t2)
        else g <- addgroup p (int_of 10 ["2"%char; a]) ;; Ok (g, t1)) ;;
     rest <- parse_loop f p t2 ;; Ok (items ++ rest)).
Proof.
  intros Ha Hab.
  cbn [tok_next]. rewrite ascii_eqb_refl. cbn [bind parse_loop].
  unfold tok_get at 1. cbn [fst snd tok_next]. rewrite (ascii_eqb_neq Hab).
  cbn [bind]. unfold parse_escape.
  change (ascii_eqb "2" "g") with false. change (ascii_eqb "2" "0") with false.
  change (is_digit "2") with true. cbv iota.
  change (tok_is (Some [a], u) is_digit) with (is_digit a). rewrite Ha.
  unfold tok_get at 1. cbn [fst snd].
  destruct (tok_next u) as [t1|e]; [|reflexivity]. cbn [bind].
  change (is_octdigit "2") with true. cbn [forallb andb].
  rewrite andb_true_r. reflexivity.
Qed.

Lemma group2_digit p a u :
  is_digit a = true -> plain_text (a :: u) -> p_groups p < 20 ->
  parse_template p (T "\2" ++ a :: u) = Raise ReError
  \/ exists b u' v,
       u = b :: u' /\ 128 <= v < 256
       /\ parse_template p (T "\2" ++ a :: u)
          = Ok (TLit (ascii_of_nat v) :: map TLit u').
Proof.
  intros Ha Hp Hg. apply plain_text_cons in Hp. destruct Hp as [Hab Hu].
  assert (Hbad : addgroup p (int_of 10 ["2"%char; a]) = Raise ReError).
  { unfold addgroup, int_of. cbn [fold_left].
    change (digit_val "2") with 2.
    replace (p_groups p <? 10 * (10 * 0 + 2) + digit_val a) with true;
      [reflexivity|]. symmetry. apply Nat.ltb_lt. lia. }
  unfold parse_template.
  change (T "\2" ++ a :: u) with (bsl :: "2"%char :: a :: u).
  rewrite group2_digit_escape by assumption. rewrite Hbad.
  destruct u as [|b u'].
  - left. cbn [tok_next bind].
    change (tok_is (None, []) is_octdigit) with false.
    rewrite andb_false_r. reflexivity.
  - apply plain_text_cons in Hu. destruct Hu as [Hbb Hu'].
    cbn [tok_next]. rewrite (ascii_eqb_neq Hbb). cbn [bind].
    change (tok_is (Some [b], u') is_octdigit) with (is_octdigit b).
    destruct (is_octdigit a) eqn:Oa; cbn [andb]; [|now left].
    destruct (is_octdigit b) eqn:Ob; [|now left].
    right. exists b, u', (int_of 8 ("2"%char :: [a] ++ [b])).
    apply octdigit_val in Oa. apply octdigit_val in Ob.
    assert (Hv : 128 <= int_of 8 ("2"%char :: [a] ++ [b]) < 256).
    { unfold int_of. cbn [app fold_left]. change (digit_val "2") with 2. lia. }
    split; [reflexivity|]. split; [exact Hv|].
    unfold tok_get. cbn [fst snd].
    pose proof (@parse_loop_plain p u' (length (bsl :: "2"%char :: a :: b :: u')))
      as Hrest.
    destruct (tok_next u') as [t2|e]; cbn [bind] in *.
    + replace (255 <? int_of 8 ("2"%char :: [a] ++ [b])) with false
        by (symmetry; apply Nat.ltb_ge; lia).
      cbn [bind]. rewrite Hrest; [reflexivity|simpl; lia|exact Hu'].
    + specialize (Hrest ltac:(simpl; lia) Hu'). discriminate.
Qed.

(** The template of the unordered-list loop, for a rewritten block
    without backslash: an error, or group 2 or one character that is no
    [<] and no backslash, followed by the rest of the block. *)
Lemma group2_prefix p u :
  plain_text u -> 2 <= p_groups p -> p_groups p < 20 ->
  parse_template p (T "\2" ++ u) = Raise ReError
  \/ exists it rest,
       parse_template p (T "\2" ++ u) = Ok (it :: map TLit rest)
       /\ suffix rest u
       /\ (it = TGroup 2
           \/ exists a, it = TLit a /\ a <> "<"%char /\ a <> bsl).
Proof.
  intros Hu Hg2 Hg. destruct u as [|a u].
  - right. exists (TGroup 2), []. split; [|split].
    + rewrite group2_template; [reflexivity|exact Hg2|exact Hu|exact I].
    + apply suffix_refl.
    + now left.
  - destruct (is_digit a) eqn:Da.
    + destruct (group2_digit p Da Hu Hg) as [E|(b & u' & v & -> & Hv & E)];
        [now left|].
      right. exists (TLit (ascii_of_nat v)), u'. split; [exact E|]. split.
      * exists [a; b]. reflexivity.
      * right. exists (ascii_of_nat v). split; [reflexivity|].
        assert (Hn : nat_of_ascii (ascii_of_nat v) = v)
          by (apply nat_ascii_embedding; lia).
        split; intros Eq; rewrite Eq in Hn; vm_compute in Hn; lia.
    + right. exists (TGroup 2), (a :: u). split; [|split].
      * rewrite group2_template; [reflexivity|exact Hg2|exact Hu|exact Da].
      * apply suffix_refl.
      * now left.
Qed.
(** ** The unordered-list loop on a text without backslash *)

Lemma ul_match_parts adv s s' c :
  match_here true (p_re ul_parent_search_pattern) adv s = Some (s', c) ->
  exists ws s2 s3,
    suffix (ws ++ s2) s /\ opens (ws ++ s2) < opens s
    /\ forallb is_space ws = true
    /\ suffix s3 s2 /\ suffix s' s3 /\ opens s' < opens s3
    /\ c = [(4, (s3, s')); (3, (s2, s3)); (2, (ws ++ s2, s2));
            (1, (s, ws ++ s2))].
Proof.
  intros H. apply seq4_parts in H; try reflexivity.
  destruct H as (s1 & s2 & s3 & M1 & M2 & M3 & M4 & ->).
  apply Matches_spaces_run in M2. destruct M2 as (ws & -> & Hws).
  exists ws, s2, s3. repeat split; try assumption.
  - eapply Matches_suffix; eassumption.
  - cbn [Seqs] in M1. apply Matches_Seq_inv in M1.
    destruct M1 as (t & Ht & M1). apply Matches_L_inv in Ht. subst s.
    apply Matches_suffix, opens_suffix in M1.
    rewrite (opens_app (T "<ul") t). change (opens (T "<ul")) with 1. lia.
  - eapply Matches_suffix; eassumption.
  - eapply Matches_suffix; eassumption.
  - eapply close_tag_opens; eassumption.
Qed.

(** A pass that replaces matches by a text without [<] and without
    backslash. *)
Lemma literal_pass d p repl (new : str) U :
  parse_template p repl = Ok (map TLit new) ->
  plain_text new -> opens new = 0 -> plain_text U ->
  exists U', re_sub d p repl U 0 = Ok U' /\ plain_text U'
             /\ opens U' <= opens U.
Proof.
  intros Hp Hn Ho HU. rewrite re_sub_eq, Hp. cbn [bind].
  eexists. split; [reflexivity|]. split.
  - unfold plain_text, sub_with. intros Hin.
    apply sub_loop_chars in Hin. destruct Hin as [Hin|Hin]; [|now apply HU].
    apply in_map_iff in Hin. destruct Hin as (b & Eb & Hb).
    inversion Eb; subst. now apply Hn.
  - unfold sub_with. apply sub_loop_opens. intros adv s0 s' c _.
    now apply literal_opens.
Qed.

Lemma li_passes (g1 U : str) :
  plain_text U ->
  exists U1 U2,
    match search true tl_start_search_pattern g1 with
    | Some _ =>
        u <- re_sub false li_checked_pattern (T "\n- [X] ") U 0 ;;
        re_sub false li_open_pattern (T "\n- [ ] ") u 0
    | None => re_sub false li_open_pattern (T "\n- ") U 0
    end = Ok U1
    /\ re_sub false li_close_pattern [] U1 0 = Ok U2
    /\ plain_text U2 /\ opens U2 <= opens U.
Proof.
  intros HU.
  assert (Hpl : forall w : str, forallb (not_char bsl) w = true -> plain_text w)
    by (intros w; apply forallb_not_char).
  destruct (search true tl_start_search_pattern g1).
  - destruct (@literal_pass false li_checked_pattern (T "\n- [X] ")
                (nl :: T "- [X] ") U) as (U0 & -> & H0 & O0);
      [reflexivity|now apply Hpl|reflexivity|exact HU|].
    cbn [bind].
    destruct (@literal_pass false li_open_pattern (T "\n- [ ] ")
                (nl :: T "- [ ] ") U0) as (U1 & -> & H1 & O1);
      [reflexivity|now apply Hpl|reflexivity|exact H0|].
    destruct (@literal_pass false li_close_pattern [] [] U1)
      as (U2 & E2 & H2 & O2);
      [reflexivity|now apply Hpl|reflexivity|exact H1|].
    exists U1, U2. repeat split; [exact E2|exact H2|lia].
  - destruct (@literal_pass false li_open_pattern (T "\n- ")
                (nl :: T "- ") U) as (U1 & -> & H1 & O1);
      [reflexivity|now apply Hpl|reflexivity|exact HU|].
    destruct (@literal_pass false li_close_pattern [] [] U1)
      as (U2 & E2 & H2 & O2);
      [reflexivity|now apply Hpl|reflexivity|exact H1|].
    exists U1, U2. repeat split; [exact E2|exact H2|lia].
Qed.

(** One iteration of the unordered-list loop on a text without
    backslash: it raises [re.error] (the rewritten block starts with a
    digit), or it brings in no backslash and takes away at least one
    [<]. *)
Lemma ul_step_plain text x :
  plain_text text ->
  search true ul_parent_search_pattern text = Some x ->
  ul_step text x = Raise ReError
  \/ exists text',
       ul_step text x = Ok text' /\ plain_text text'
       /\ opens text' < opens text.
Proof.
  intros Hplain Hs. unfold search in Hs.
  destruct (@search_adv_found true (p_re ul_parent_search_pattern) false
              text x Hs) as (Es & adv' & Hm).
  apply ul_match_parts in Hm.
  destruct Hm as (ws & s2 & s3 & H1 & Hlt1 & Hws & H3 & H4 & Hlt & Ec).
  assert (Hp : plain_text (m_pre x) /\ plain_text (m_start x))
    by (apply plain_text_app_inv; now rewrite <- Es).
  destruct Hp as [Hpre Hstart].
  assert (Hs1 : plain_text (ws ++ s2))
    by (eapply plain_text_suffix; eassumption).
  assert (Hend : plain_text (m_end x)).
  { eapply plain_text_suffix; [exact H4|].
    eapply plain_text_suffix; [exact H3|].
    now apply plain_text_app_inv in Hs1. }
  assert (H13 : suffix s3 (ws ++ s2)).
  { eapply suffix_trans; [exact H3|]. now exists ws. }
  unfold ul_step, slice_groups, start_of, end_of. rewrite Ec.
  cbn [cap_get Nat.eqb option_map fst snd].
  set (U := consumed (ws ++ s2) s3).
  assert (HU : plain_text U) by (now apply plain_text_consumed).
  destruct (@li_passes (group_str x 1) U HU) as (U1 & U2 & E1 & E2 & HU2 & O2).
  rewrite E1. cbn [bind]. rewrite E2. cbn [bind].
  destruct (@group2_prefix ul_parent_search_pattern U2 HU2)
    as [E|(it & rest & E & Hrest & Hit)];
    [simpl; lia|simpl; lia| |].
  - left. unfold re_sub. now rewrite E.
  - right. rewrite re_sub_eq, E. cbn [bind].
    eexists. split; [reflexivity|].
    erewrite sub_with_first by exact Hs.
    rewrite expand_cons, expand_plain.
    assert (Hrp : plain_text rest) by (eapply plain_text_suffix; eassumption).
    assert (Hro : opens rest <= opens U2) by (now apply opens_suffix).
    assert (Hitem : plain_text (expand_item x it)
                    /\ opens (expand_item x it) = 0).
    { destruct Hit as [->|(a & -> & Ha1 & Ha2)].
      - cbn [expand_item group]. rewrite Ec.
        cbn [cap_get Nat.eqb option_map]. unfold span_text. cbn [fst snd].
        rewrite consumed_app. split.
        + apply spaces_spec in Hws. tauto.
        + now apply spaces_opens.
      - cbn [expand_item]. split.
        + unfold plain_text. intros [Eq|[]]. congruence.
        + cbn [opens]. now rewrite (ascii_eqb_neq Ha1). }
    destruct Hitem as [Hip Hio].
    split.
    + repeat apply plain_text_app; assumption.
    + rewrite !opens_app, Hio.
      assert (Et : opens text = opens (m_pre x) + opens (m_start x))
        by (rewrite <- opens_app; now f_equal).
      pose proof (opens_consumed H13) as EU. fold U in EU.
      lia.
Qed.

Lemma ul_loop_ends : forall n text,
  opens text <= n -> plain_text text ->
  exists r,
    (r = Raise ReError
     \/ exists y, r = Ok y /\ plain_text y /\ opens y <= opens text)
    /\ forall fuel, n <= fuel -> ul_loop fuel text = Some r.
Proof.
  induction n as [|n IH]; intros text Hn Hp.
  - destruct (search true ul_parent_search_pattern text) as [x|] eqn:E.
    + destruct (ul_step_plain Hp E) as [Hstep|(t' & _ & _ & Hlt)]; [|lia].
      exists (Raise ReError). split; [now left|].
      intros fuel _. exfalso.
      unfold search in E.
      destruct (@search_adv_found true (p_re ul_parent_search_pattern) false
                  text x E) as (Es & adv' & Hm).
      apply ul_match_parts in Hm.
      destruct Hm as (ws & s2 & s3 & H1 & Hlt1 & _).
      assert (Et : opens text = opens (m_pre x) + opens (m_start x))
        by (rewrite <- opens_app; now f_equal).
      lia.
    + exists (Ok text). split; [right; exists text; repeat split; [exact Hp|lia]|].
      intros fuel _. now rewrite ul_loop_eq, E.
  - destruct (search true ul_parent_search_pattern text) as [x|] eqn:E.
    + destruct (ul_step_plain Hp E) as [Hstep|(t' & Hstep & Hp' & Hlt)].
      * exists (Raise ReError). split; [now left|].
        intros fuel Hf. destruct fuel as [|fuel]; [lia|].
        now rewrite ul_loop_eq, E, Hstep.
      * destruct (IH t') as (r & Hr & Hrun); [lia|exact Hp'|].
        exists r. split.
        -- destruct Hr as [->|(y & -> & Hy & Hoy)]; [now left|].
           right. exists y. repeat split; [exact Hy|lia].
        -- intros fuel Hf. destruct fuel as [|fuel]; [lia|].
           rewrite ul_loop_eq, E, Hstep. apply Hrun. lia.
    + exists (Ok text). split; [right; exists text; repeat split; [exact Hp|lia]|].
      intros fuel _. now rewrite ul_loop_eq, E.
Qed.
(** ** The stages outside the loops bring in no backslash *)

Lemma convert_simple_brings text :
  exists y, convert_simple text = Ok y
    /\ forall a, In a y ->
         In a text \/ In a ["*"; "~"; "#"; nl; " "]%char.
Proof.
  destruct (convert_simple_total text) as [y Hy]. exists y. split; [exact Hy|].
  unfold convert_simple in Hy.
  destruct (replace_all (combine to_replace_simple replace_with_simple) text)
    as [t|] eqn:E; [|discriminate]. cbn [bind] in Hy.
  set (P := fun a => In a text \/ In a ["*"; "~"; "#"; nl; " "]%char).
  assert (Ht : forall a, In a t -> P a).
  { refine (@replace_all_keeps P _ _ text t _ E); [|intros a Ha; now left].
    repeat constructor; eexists;
      (split; [vm_compute; reflexivity|]);
      intros a Ha; right; revert a Ha; apply tpl_lits_in; reflexivity. }
  refine (@replace_all_keeps P _ _ t y Ht Hy).
  repeat constructor; eexists;
    (split; [vm_compute; reflexivity|]); intros a [].
Qed.

Lemma convert_simple_plain text :
  plain_text text -> exists y, convert_simple text = Ok y /\ plain_text y.
Proof.
  intros Hp. destruct (convert_simple_brings text) as (y & Hy & Hin).
  exists y. split; [exact Hy|]. unfold plain_text. intros Hb.
  destruct (Hin _ Hb) as [H|H]; [now apply Hp|].
  vm_compute in H. intuition discriminate.
Qed.

Lemma phrase_names_plain text :
  plain_text text ->
  exists t1 t2,
    perform_phrase_replacements text = Ok t1
    /\ fix_name_spellings t1 = Ok t2 /\ plain_text t2.
Proof.
  intros Hp.
  destruct (perform_phrase_replacements_total text) as [t1 E1].
  destruct (fix_name_spellings_total t1) as [t2 E2].
  exists t1, t2. split; [exact E1|]. split; [exact E2|].
  assert (H1 : plain_text t1).
  { unfold plain_text. intros Hin.
    refine (@perform_phrase_replacements_keeps (fun a => a <> bsl)
              text t1 _ _ E1 _ Hin eq_refl); [discriminate|].
    intros a Ha E. subst. now apply Hp. }
  unfold plain_text. intros Hin.
  refine (@fix_name_spellings_keeps (fun a => a <> bsl)
            t1 t2 _ _ E2 _ Hin eq_refl).
  - intros a [Ha|Ha] E; subst; discriminate.
  - intros a Ha E. subst. now apply H1.
Qed.

Lemma hr_rule_plain text :
  plain_text text -> exists y, hr_rule text = Ok y /\ plain_text y.
Proof.
  intros Hp. destruct (hr_rule_total text) as [y Hy]. exists y.
  split; [exact Hy|]. unfold plain_text. intros Hin.
  unfold hr_rule in Hy.
  refine (@re_sub_keeps (fun a => a <> bsl) false hr_pattern (T "\n---")
            _ text 0 y hr_template _ _ Hy _ Hin eq_refl).
  - intros a Ha. apply in_map_iff in Ha. destruct Ha as (b & Eb & Hb).
    inversion Eb; subst. intros E. subst. vm_compute in Hb.
    intuition discriminate.
  - intros a Ha E. subst. now apply Hp.
Qed.

(** ** [re.sub] on a text cut into pieces *)

Lemma sub_with_pieces d r tpl ps : forall tail,
  Forall (piece_ok d r tpl) ps ->
  search_adv d r false tail = None ->
  sub_with d r tpl 0 (pieces_text ps ++ tail) = pieces_result ps ++ tail.
Proof.
  induction ps as [|[u o] ps IH]; intros tail Hok Htail.
  - now apply sub_with_none.
  - inversion Hok as [|? ? Hu Hrest]; subst.
    change (pieces_text ((u, o) :: ps)) with (u ++ pieces_text ps).
    change (pieces_result ((u, o) :: ps))
      with (match o with Some res => res | None => u end ++ pieces_result ps).
    rewrite <- !app_assoc. unfold piece_ok in Hu. cbn [fst snd] in Hu.
    destruct o as [res|].
    + destruct Hu as [Hne Hm].
      destruct (Hm (pieces_text ps ++ tail)) as (c & Hc & He).
      rewrite sub_with_here with (1 := Hc).
      * f_equal; [exact He | now apply IH].
      * rewrite !length_app. destruct u; [congruence | simpl; lia].
    + rewrite sub_with_skip by (apply Hu). f_equal. now apply IH.
Qed.

Lemma pieces_text_app a b : pieces_text (a ++ b) = pieces_text a ++ pieces_text b.
Proof. apply flat_map_app. Qed.

Lemma pieces_result_app a b :
  pieces_result (a ++ b) = pieces_result a ++ pieces_result b.
Proof. apply flat_map_app. Qed.

(** A pass on a text of tokens, from the pieces of each token. *)
Lemma pass_tokens p repl tpl (f g : mtoken -> str)
      (pieces : mtoken -> list (str * option str)) (ts : list mtoken) :
  parse_template p repl = Ok tpl ->
  (exists a0, first_lit (p_re p) = Some a0) ->
  (forall t, In t ts ->
     pieces_text (pieces t) = f t /\ pieces_result (pieces t) = g t
     /\ Forall (piece_ok false (p_re p) tpl) (pieces t)) ->
  re_sub false p repl (flat_map f ts) 0 = Ok (flat_map g ts).
Proof.
  intros Hp [a0 Hf] H. rewrite re_sub_eq, Hp. cbn [bind]. f_equal.
  assert (E : flat_map f ts = pieces_text (flat_map pieces ts)
              /\ flat_map g ts = pieces_result (flat_map pieces ts)
              /\ Forall (piece_ok false (p_re p) tpl) (flat_map pieces ts)).
  { induction ts as [|t ts IH]; [repeat split; constructor|].
    destruct (H t (or_introl eq_refl)) as (H1 & H2 & H3).
    destruct IH as (I1 & I2 & I3); [intros u Hu; apply H; now right|].
    cbn [flat_map]. rewrite pieces_text_app, pieces_result_app, H1, H2, I1, I2.
    repeat split. apply Forall_app. now split. }
  destruct E as (-> & -> & Hok).
  rewrite <- (app_nil_r (pieces_text _)), <- (app_nil_r (pieces_result _)).
  apply sub_with_pieces; [exact Hok|].
  cbn [search_adv]. now rewrite (match_here_nil false (p_re p) false Hf).
Qed.
(** ** The tokens a pass rewrites *)

Lemma wrap_rule_in k : In (wrap_rule k) wrap_rules.
Proof. destruct k; cbn; tauto. Qed.

(** The end of a wrapping pattern at a closing tag without entity. *)
Lemma wrap_bare_tail p name mk :
  In (p, (name, mk)) wrap_rules ->
  exists tag,
    p_re p = wrap_re tag
    /\ (forall A rest c (k : cont A),
          m false (Group 1 tag) (name ++ rest) c k
          = k rest ((1, (name ++ rest, rest)) :: c))
    /\ (forall A post c (k : cont A),
          m false (Seqs [Star true (Group 3 (L "&nbsp;")); close_start;
                         Group 4 tag; L ">"])
            (T "</" ++ name ++ T ">" ++ post) c k
          = k post ((4, (name ++ T ">" ++ post, T ">" ++ post)) :: c)).
Proof.
  intros Hin. simpl in Hin.
  destruct Hin as [E|[E|[E|[E|[E|[]]]]]]; inversion E; subst; clear E;
    eexists; (split; [reflexivity|]); split; intros;
    try (cbn [Seqs]; rewrite m_Seq, star_greedy_body_fail
           by (intros; reflexivity));
    first [reflexivity | cbn; rewrite ?option_same; reflexivity].
Qed.

Lemma wrap_match_bare p name mk c post :
  In (p, (name, mk)) wrap_rules ->
  forallb content_char c = true ->
  match_here false (p_re p) false
             ((T "<" ++ name ++ T ">" ++ c ++ T "</" ++ name ++ T ">") ++ post)
  = Some (post,
          [(4, (name ++ T ">" ++ post, T ">" ++ post));
           (2, (c ++ T "</" ++ name ++ T ">" ++ post,
                T "</" ++ name ++ T ">" ++ post));
           (1, (name ++ T ">" ++ c ++ T "</" ++ name ++ T ">" ++ post,
                T ">" ++ c ++ T "</" ++ name ++ T ">" ++ post))]).
Proof.
  intros Hin Hc. apply content_char_spec in Hc. destruct Hc as [Hc Hany].
  destruct (wrap_bare_tail Hin) as (tag & Hre & H1 & Htail).
  rewrite Hre. unfold match_here, wrap_re.
  rewrite <- !app_assoc.
  change (Seqs [L "<"; Group 1 tag; L ">"; Group 2 lazy_any;
                Star true (Group 3 (L "&nbsp;")); close_start; Group 4 tag;
                L ">"])
    with (Seq (L "<") (Seq (Group 1 tag) (Seq (L ">") (Seq (Group 2 lazy_any)
            (Seqs [Star true (Group 3 (L "&nbsp;")); close_start;
                   Group 4 tag; L ">"]))))).
  rewrite m_Seq, m_L, m_Seq, H1, m_Seq, m_L, m_Seq, m_Group. unfold lazy_any.
  rewrite lazy_skip_on.
  - apply lazy_stop. rewrite Htail. reflexivity.
  - exact Hany.
  - apply fails_on_pred
      with (P := fun a => a <> "<"%char /\ a <> "&"%char); [exact Hc|].
    intros a t [Ha1 Ha2]. cbn [Seqs]. rewrite m_Seq.
    rewrite star_greedy_body_fail.
    + now apply m_first_lit with (a0 := "<"%char).
    + intros K. now apply m_first_lit with (a0 := "&"%char).
Qed.

Lemma wrap_tpl_parse k :
  parse_template (fst (wrap_rule k)) (wrap_template (wrap_marker k))
  = Ok (wrap_tpl k).
Proof. destruct k; reflexivity. Qed.

(** A span in the pass of its rule. *)
Lemma wrap_hit k c (n : bool) :
  forallb content_char c = true ->
  piece_ok false (p_re (fst (wrap_rule k))) (wrap_tpl k)
    (wrap_open k ++ c ++ (if n then T "&nbsp;" else []) ++ wrap_close k,
     Some (wrap_marker k ++ c ++ wrap_marker k
           ++ (if n then T "&nbsp;" else []))).
Proof.
  intros Hc. unfold piece_ok. cbn [fst snd]. split.
  - unfold wrap_open. discriminate.
  - intros rest.
    assert (Hin : In (fst (wrap_rule k), (wrap_name k, wrap_marker k))
                     wrap_rules).
    { pose proof (wrap_rule_in k) as H. unfold wrap_name, wrap_marker.
      now destruct (wrap_rule k) as [p [nm mk]]. }
    destruct n.
    + pose proof (@wrap_match (fst (wrap_rule k)) (wrap_name k) (wrap_marker k)
                    c rest Hin Hc) as Hm.
      eexists. split.
      * unfold wrap_open, wrap_close. unfold wrapped_nbsp in Hm.
        rewrite <- !app_assoc in *. exact Hm.
      * unfold wrap_tpl.
        rewrite !expand_app, !expand_cons, !expand_plain, expand_app,
          expand_plain.
        cbn [expand expand_item flat_map group m_caps cap_get Nat.eqb
             option_map].
        unfold span_text. cbn [fst snd].
        rewrite (consumed_app c (T "&nbsp;</" ++ wrap_name k ++ T ">" ++ rest)).
        change (T "&nbsp;</" ++ wrap_name k ++ T ">" ++ rest)
          with (T "&nbsp;" ++ T "</" ++ wrap_name k ++ T ">" ++ rest).
        rewrite (consumed_app (T "&nbsp;")
                   (T "</" ++ wrap_name k ++ T ">" ++ rest)).
        now rewrite app_nil_r.
    + pose proof (@wrap_match_bare (fst (wrap_rule k)) (wrap_name k)
                    (wrap_marker k) c rest Hin Hc) as Hm.
      eexists. split.
      * unfold wrap_open, wrap_close. cbn [app].
        rewrite <- !app_assoc in *. exact Hm.
      * unfold wrap_tpl.
        rewrite !expand_app, !expand_cons, !expand_plain, expand_app,
          expand_plain.
        cbn [expand expand_item flat_map group m_caps cap_get Nat.eqb
             option_map].
        unfold span_text. cbn [fst snd].
        rewrite (consumed_app c (T "</" ++ wrap_name k ++ T ">" ++ rest)).
        now rewrite !app_nil_r.
Qed.

(** A literal pattern at an occurrence of its word. *)
Lemma literal_hit (w new : string) :
  lit w <> [] ->
  piece_ok false (L w) (map TLit (lit new)) (lit w, Some (lit new)).
Proof.
  intros Hne. unfold piece_ok. cbn [fst snd]. split; [exact Hne|].
  intros rest. exists []. split.
  - unfold match_here. now rewrite m_L.
  - apply expand_plain.
Qed.

(** The opening tag of a paragraph with attributes, in the pass that
    removes it. *)
Lemma p_attrs_hit a r :
  is_space a = true -> forallb tag_char r = true ->
  piece_ok false (p_re remove_p_attrs) [] (T "<p" ++ a :: r ++ T ">", Some []).
Proof.
  intros Ha Hr. apply tag_char_spec in Hr.
  destruct Hr as (_ & _ & Hgt & Hany).
  unfold piece_ok. cbn [fst snd]. split; [discriminate|].
  intros rest. exists []. split; [|reflexivity].
  unfold match_here, remove_p_attrs, p_re.
  change (Seqs [L "<p"; Chr Space; lazy_any; L ">"])
    with (Seq (L "<p") (Seq (Chr Space) (Seq lazy_any (L ">")))).
  rewrite <- !app_assoc.
  rewrite m_Seq, m_L. cbn [app]. rewrite m_Seq, m_Chr_cons. cbn [cls_match].
  rewrite Ha, m_Seq. unfold lazy_any. rewrite <- app_assoc.
  rewrite lazy_skip_on.
  - apply lazy_stop. now rewrite m_L.
  - exact Hany.
  - apply fails_on_absent with (a0 := ">"%char); [exact Hgt|].
    intros b t Hb. now apply m_first_lit with (a0 := ">"%char).
Qed.

(** The tags [<p>] and [</p>], in the pass that removes them. *)
Lemma p_hit (close : bool) :
  piece_ok false (p_re remove_p) []
    ((if close then T "</p>" else T "<p>"), Some []).
Proof.
  unfold piece_ok. cbn [fst snd]. split; [now destruct close|].
  intros rest. destruct close; eexists; split; reflexivity.
Qed.

Lemma digits_run ds : forallb is_digit ds = true ->
  Forall (in_cls false Digit) ds.
Proof.
  rewrite forallb_forall. intros H. apply Forall_forall. intros a Ha.
  now apply H.
Qed.

(** The closing tag of a heading, in the pass that removes it. *)
Lemma h_close_hit ds :
  negb (is_nil ds) && forallb is_digit ds = true ->
  piece_ok false (p_re remove_h) [] (T "</h" ++ ds ++ T ">", Some []).
Proof.
  intros H. apply andb_prop in H. destruct H as [Hne Hd].
  destruct ds as [|d ds]; [discriminate|]. cbn [forallb] in Hd.
  apply andb_prop in Hd. destruct Hd as [Hd Hds]. apply digits_run in Hds.
  unfold piece_ok. cbn [fst snd]. split; [discriminate|].
  intros rest. eexists. split; [|reflexivity].
  unfold match_here, remove_h, p_re.
  change (Seqs [L "<"; opt_slash 1; L "h"; Plus (Chr Digit); L ">"])
    with (Seq (L "<") (Seq (opt_slash 1) (Seq (L "h")
            (Seq (Plus (Chr Digit)) (L ">"))))).
  rewrite <- !app_assoc.
  change (T "</h" ++ (d :: ds) ++ T ">" ++ rest)
    with (T "<" ++ T "/" ++ T "h" ++ d :: ds ++ T ">" ++ rest).
  rewrite m_Seq, m_L, m_Seq. unfold opt_slash.
  apply m_Opt_some. rewrite m_Group, m_Seq.
  rewrite m_Opt_none by reflexivity.
  change (T "/" ++ T "h" ++ d :: ds ++ T ">" ++ rest)
    with ("/"%char :: T "h" ++ d :: ds ++ T ">" ++ rest).
  rewrite m_Chr_cons. cbn [cls_match]. rewrite ascii_eqb_refl.
  rewrite m_Seq, m_L. unfold Plus. rewrite m_Seq, m_Seq, m_Chr_cons.
  cbn [cls_match]. rewrite Hd.
  apply greedy_skip; [exact Hds|].
  change (T ">" ++ rest) with (">"%char :: rest).
  rewrite greedy_blocked by reflexivity.
  change (">"%char :: rest) with (T ">" ++ rest). rewrite m_L.
  reflexivity.
Qed.
(** ** The pieces of a token, pass by pass *)

Lemma forallb_imp (P Q : ascii -> bool) (u : str) :
  (forall a, P a = true -> Q a = true) ->
  forallb P u = true -> forallb Q u = true.
Proof.
  intros H. rewrite !forallb_forall. intros Hu a Ha. now apply H, Hu.
Qed.

Lemma text_char_lt u :
  forallb text_char u = true -> forallb (not_char "<") u = true.
Proof.
  apply forallb_imp. intros a H. unfold text_char in H.
  now apply andb_prop in H.
Qed.

Lemma text_char_amp u :
  forallb text_char u = true -> forallb (not_char "&") u = true.
Proof.
  apply forallb_imp. intros a H. unfold text_char in H.
  now apply andb_prop in H.
Qed.

Lemma content_char_text u :
  forallb content_char u = true -> forallb text_char u = true.
Proof.
  apply forallb_imp. intros a H. unfold content_char in H.
  now apply andb_prop in H.
Qed.

Lemma tag_char_text u :
  forallb tag_char u = true -> forallb text_char u = true.
Proof.
  apply forallb_imp. intros a H. unfold tag_char in H.
  apply andb_prop in H. destruct H as [H _]. now apply andb_prop in H.
Qed.

Lemma digit_text a : is_digit a = true -> text_char a = true.
Proof. destruct a as [[] [] [] [] [] [] [] []]; vm_compute; congruence. Qed.

Lemma space_text a : is_space a = true -> text_char a = true.
Proof. destruct a as [[] [] [] [] [] [] [] []]; vm_compute; congruence. Qed.

Lemma piece_quiet_absent r tpl a0 u :
  first_lit r = Some a0 -> forallb (not_char a0) u = true ->
  Forall (piece_ok false r tpl) [(u, None)].
Proof.
  intros Hf Hu. constructor; [|constructor]. unfold piece_ok. cbn [fst snd].
  apply seg_ok_absent with (a0 := a0); [exact Hf|now apply forallb_not_char].
Qed.

Lemma piece_quiet_tag r tpl u :
  first_lit r = Some "<"%char -> forallb (not_char "<") u = true ->
  (forall rest, match_here false r false ("<"%char :: u ++ rest) = None) ->
  Forall (piece_ok false r tpl) [("<"%char :: u, None)].
Proof.
  intros Hf Hu Hm. constructor; [|constructor]. unfold piece_ok. cbn [fst snd].
  now apply quiet_tag.
Qed.

Lemma piece_quiet_wrap r tpl k c (n : bool) :
  first_lit r = Some "<"%char -> forallb content_char c = true ->
  (forall rest, match_here false r false (wrap_open k ++ rest) = None) ->
  (forall rest, match_here false r false (wrap_close k ++ rest) = None) ->
  Forall (piece_ok false r tpl)
    [(wrap_open k ++ c ++ (if n then T "&nbsp;" else []) ++ wrap_close k,
      None)].
Proof.
  intros Hf Hc Ho Hcl. constructor; [|constructor].
  unfold piece_ok. cbn [fst snd].
  apply content_char_text, text_char_lt in Hc.
  apply quiet_app; [|apply quiet_app; [|apply quiet_app]].
  - destruct k; apply quiet_tag; try reflexivity; try exact Hf;
      intros rest; apply (Ho rest).
  - now apply quiet_absent.
  - apply quiet_absent; [exact Hf|now destruct n].
  - destruct k; apply quiet_tag; try reflexivity; try exact Hf;
      intros rest; apply (Hcl rest).
Qed.

Lemma piece_hit d r tpl u res :
  piece_ok d r tpl (u, Some res) -> Forall (piece_ok d r tpl) [(u, Some res)].
Proof. intros H. constructor; [exact H|constructor]. Qed.

Lemma kept_tag_cases (P : str -> Prop) t :
  existsb (str_eqb t) kept_tags = true ->
  (forall u, In u kept_tags -> P u) -> P t.
Proof.
  intros H HP. apply existsb_exists in H. destruct H as (u & Hu & E).
  assert (t = u); [|subst; now apply HP].
  clear -E. revert u E. induction t as [|a t IH]; intros [|b u] E;
    try discriminate; [reflexivity|].
  cbn [str_eqb] in E. apply andb_prop in E. destruct E as [E1 E2].
  apply Ascii.eqb_eq in E1. subst. f_equal. now apply IH.
Qed.

Lemma piece_quiet_kept r tpl t :
  first_lit r = Some "<"%char ->
  existsb (str_eqb t) kept_tags = true ->
  (forall u rest, In u kept_tags -> match_here false r false (u ++ rest) = None) ->
  Forall (piece_ok false r tpl) [(t, None)].
Proof.
  intros Hf Ht Hm.
  apply (@kept_tag_cases (fun u => Forall (piece_ok false r tpl) [(u, None)])
           t Ht).
  intros u Hu.
  assert (Hm' := fun rest => Hm u rest Hu). clear Hm.
  cbn in Hu.
  repeat (destruct Hu as [<-|Hu];
          [apply piece_quiet_tag; [exact Hf|reflexivity|exact Hm']|]).
  destruct Hu.
Qed.
Ltac solve_absent :=
  repeat first [rewrite forallb_app | progress cbn [forallb]];
  repeat match goal with
         | H : forallb (not_char ?a) ?u = true |- context [forallb (not_char ?a) ?u] =>
             rewrite H
         | H : not_char ?a ?b = true |- context [not_char ?a ?b] => rewrite H
         end;
  reflexivity.

Ltac token_facts :=
  repeat match goal with
         | H : forallb content_char ?c = true |- _ =>
             let H1 := fresh "Hlt" in let H2 := fresh "Hamp" in
             pose proof (@text_char_lt _ (@content_char_text _ H)) as H1;
             pose proof (@text_char_amp _ (@content_char_text _ H)) as H2;
             revert H
         | H : forallb tag_char ?c = true |- _ =>
             let H1 := fresh "Hlt" in let H2 := fresh "Hamp" in
             pose proof (@text_char_lt _ (@tag_char_text _ H)) as H1;
             pose proof (@text_char_amp _ (@tag_char_text _ H)) as H2;
             revert H
         | H : forallb text_char ?c = true |- _ =>
             let H1 := fresh "Hlt" in let H2 := fresh "Hamp" in
             pose proof (@text_char_lt _ H) as H1;
             pose proof (@text_char_amp _ H) as H2;
             revert H
         | H : forallb is_digit ?c = true |- _ =>
             let H1 := fresh "Hlt" in let H2 := fresh "Hamp" in
             pose proof (@text_char_lt _ (@forallb_imp _ _ _ digit_text H)) as H1;
             pose proof (@text_char_amp _ (@forallb_imp _ _ _ digit_text H)) as H2;
             revert H
         | H : is_space ?a = true |- _ =>
             let H1 := fresh "Hlt" in let H2 := fresh "Hamp" in
             pose proof (proj1 (andb_prop _ _ (@space_text _ H))) as H1;
             pose proof (proj2 (andb_prop _ _ (@space_text _ H))) as H2;
             revert H
         end;
  intros.

Ltac solve_hit :=
  first
    [ match goal with
      | H : forallb content_char ?c = true |- _ =>
          first [ exact (@wrap_hit WEm c true H) | exact (@wrap_hit WEm c false H)
                | exact (@wrap_hit WI c true H) | exact (@wrap_hit WI c false H)
                | exact (@wrap_hit WStrong c true H)
                | exact (@wrap_hit WStrong c false H)
                | exact (@wrap_hit WB c true H) | exact (@wrap_hit WB c false H)
                | exact (@wrap_hit WDel c true H)
                | exact (@wrap_hit WDel c false H) ]
      end
    | exact (@literal_hit "<h1>" (String nl "# ") ltac:(discriminate))
    | exact (@literal_hit "<h2>" (String nl "## ") ltac:(discriminate))
    | exact (@literal_hit "<h3>" (String nl "##### ") ltac:(discriminate))
    | exact (@literal_hit "&nbsp;" " " ltac:(discriminate))
    | match goal with
      | Ha : is_space ?a = true, Hr : forallb tag_char ?r = true |- _ =>
          exact (@p_attrs_hit a r Ha Hr)
      end
    | exact (p_hit false) | exact (p_hit true)
    | match goal with
      | Hn : negb (is_nil ?ds) = true, Hd : forallb is_digit ?ds = true |- _ =>
          exact (@h_close_hit ds (andb_true_intro (conj Hn Hd)))
      end ].

Ltac solve_piece :=
  first
    [ solve [apply piece_quiet_absent with (a0 := "<"%char);
             [reflexivity|solve_absent]]
    | solve [apply piece_quiet_absent with (a0 := "&"%char);
             [reflexivity|solve_absent]]
    | solve [apply piece_hit; solve_hit]
    | solve [apply piece_quiet_tag;
             [reflexivity|solve_absent|intros rest; reflexivity]]
    | solve [match goal with
             | H : forallb content_char ?c = true |- _ =>
                 first [ refine (@piece_quiet_wrap _ _ WStrong c true _ H _ _)
                       | refine (@piece_quiet_wrap _ _ WStrong c false _ H _ _)
                       | refine (@piece_quiet_wrap _ _ WB c true _ H _ _)
                       | refine (@piece_quiet_wrap _ _ WB c false _ H _ _)
                       | refine (@piece_quiet_wrap _ _ WDel c true _ H _ _)
                       | refine (@piece_quiet_wrap _ _ WDel c false _ H _ _) ];
                 [reflexivity|intros rest; reflexivity..]
             end]
    | solve [match goal with
             | H : existsb (str_eqb ?t) kept_tags = true |- _ =>
                 apply (@kept_tag_cases
                          (fun u => Forall (piece_ok false _ _) [(u, None)]) t H);
                 intros u Hu; cbn in Hu;
                 repeat (destruct Hu as [<-|Hu];
                         [apply piece_quiet_absent with (a0 := "&"%char);
                          reflexivity|]);
                 destruct Hu
             end]
    | solve [apply piece_quiet_kept;
             [reflexivity|assumption
             |intros u rest Hu; cbn in Hu;
              repeat (destruct Hu as [<-|Hu]; [reflexivity|]); destruct Hu]]
    | solve [constructor;
             [unfold piece_ok; cbn [fst snd];
              apply seg_ok_absent with (a0 := "&"%char);
              [reflexivity|apply forallb_not_char; solve_absent]
             |apply piece_hit; solve_hit]]
    ].

Ltac solve_token :=
  split; [cbn; rewrite ?app_nil_r, <- ?app_assoc; reflexivity|];
  split; [cbn; rewrite ?app_nil_r, <- ?app_assoc; reflexivity|];
  cbv beta iota zeta delta
      [token_pieces token_after wrap_pass Nat.eqb Nat.leb Nat.add andb
       head_open head_marker];
  solve_piece.

Ltac split_token t Hg :=
  destruct t as [s| |k c n|l|ds|attrs| |tag]; cbn [good_token] in Hg;
  [ | | destruct k, n
    | destruct l as [|[|[|[|l]]]]; try discriminate Hg
    | apply andb_prop in Hg; destruct Hg as [Hne Hds]
    | destruct attrs as [|a r];
      [|apply andb_prop in Hg; destruct Hg as [Ha Hr]]
    | | ];
  token_facts.
(** One pass of [convert_simple] on one token: its pieces spell the token
    as the passes before left it, their results spell it as this pass
    leaves it, and every piece is a match of the pattern or free of
    matches. *)
Lemma token_step j t p repl tpl :
  nth_error simple_passes j = Some (p, repl) ->
  parse_template p repl = Ok tpl ->
  good_token t = true ->
  pieces_text (token_pieces j t) = token_after j t
  /\ pieces_result (token_pieces j t) = token_after (S j) t
  /\ Forall (piece_ok false (p_re p) tpl) (token_pieces j t).
Proof.
  intros Hj Hp Hg.
  do 13 (destruct j as [|j];
         [cbn in Hj; injection Hj as <- <-; vm_compute in Hp;
          injection Hp as <-;
          split_token t Hg; solve_token|]).
  destruct j; discriminate Hj.
Qed.

(** Every pass has a template that parses and a pattern that starts with
    a literal character. *)
Lemma pass_ready j p repl :
  nth_error simple_passes j = Some (p, repl) ->
  (exists tpl, parse_template p repl = Ok tpl)
  /\ exists a0, first_lit (p_re p) = Some a0.
Proof.
  intros Hj.
  do 13 (destruct j as [|j];
         [cbn in Hj; injection Hj as <- <-;
          split; eexists; vm_compute; reflexivity|]).
  destruct j; discriminate Hj.
Qed.

Lemma skipn_nth (X : Type) (l : list X) : forall j x,
  nth_error l j = Some x -> skipn j l = x :: skipn (S j) l.
Proof.
  induction l as [|y l IH]; intros [|j] x H; try discriminate H.
  - now injection H as ->.
  - cbn in H. now apply IH.
Qed.

Lemma replace_all_app a : forall b text,
  replace_all (a ++ b) text = (t <- replace_all a text ;; replace_all b t).
Proof.
  induction a as [|[p repl] a IH]; intros b text; [reflexivity|].
  cbn [app replace_all]. destruct (re_sub false p repl text 0) as [t|e];
    [|reflexivity].
  cbn [bind]. apply IH.
Qed.

Lemma convert_simple_passes text :
  convert_simple text = replace_all simple_passes text.
Proof. unfold convert_simple, simple_passes. now rewrite replace_all_app. Qed.

(** The passes from the [j]-th on. *)
Lemma passes_from (ts : list mtoken) :
  forallb good_token ts = true ->
  forall n j, j + n = 13 ->
  replace_all (skipn j simple_passes) (flat_map (token_after j) ts)
  = Ok (flat_map (token_after 13) ts).
Proof.
  intros Hts. induction n as [|n IH]; intros j Hj.
  - replace j with 13 by lia. reflexivity.
  - destruct (nth_error simple_passes j) as [[p repl]|] eqn:E.
    2:{ apply nth_error_None in E. change (length simple_passes) with 13 in E.
        lia. }
    rewrite (skipn_nth _ _ E). cbn [replace_all].
    destruct (pass_ready _ E) as [[tpl Hp] Hf].
    rewrite (@pass_tokens p repl tpl (token_after j) (token_after (S j))
               (token_pieces j) ts Hp Hf).
    + cbn [bind]. apply IH. lia.
    + intros t Ht. apply (@token_step j t p repl tpl E Hp).
      rewrite forallb_forall in Hts. now apply Hts.
Qed.

Lemma convert_simple_of_tokens (ts : list mtoken) :
  forallb good_token ts = true ->
  convert_simple (tokens_text ts) = Ok (tokens_markdown ts).
Proof.
  intros Hts. rewrite convert_simple_passes.
  exact (passes_from ts Hts 13 0 eq_refl).
Qed.
(** The stages after [convert_simple], when it leaves no [<]. *)
Lemma stages_after_simple fuel text t1 :
  convert_simple text = Ok t1 -> ~ In "<"%char t1 ->
  convert_journey_html_to_dayone_markdown fuel text
  = lift (t <- perform_phrase_replacements t1 ;; fix_name_spellings t).
Proof.
  intros E1 H1. unfold convert_journey_html_to_dayone_markdown.
  rewrite E1. cbn [lift rbind].
  destruct (@tag_free_blocks fuel t1 H1) as (-> & _ & _). cbn [rbind].
  destruct (perform_phrase_replacements_total t1) as [t2 E2].
  rewrite E2. cbn [rbind bind].
  assert (H2 : ~ In "<"%char t2).
  { intros Hin.
    refine (@perform_phrase_replacements_keeps (fun a => a <> "<"%char)
              t1 t2 _ _ E2 _ Hin eq_refl); [discriminate|].
    intros a Ha E. subst. now apply H1. }
  destruct (fix_name_spellings_total t2) as [t3 E3].
  rewrite E3. cbn [rbind].
  assert (H3 : ~ In "<"%char t3).
  { intros Hin.
    refine (@fix_name_spellings_keeps (fun a => a <> "<"%char)
              t2 t3 _ _ E3 _ Hin eq_refl).
    - intros a [Ha|Ha] E; subst; discriminate.
    - intros a Ha E. subst. now apply H2. }
  destruct (@tag_free_blocks fuel t3 H3) as (_ & -> & Hh). cbn [rbind].
  unfold hr_rule in Hh. now rewrite Hh.
Qed.

Lemma forallb_imp_gen (X : Type) (P Q : X -> bool) (l : list X) :
  (forall x, P x = true -> Q x = true) ->
  forallb P l = true -> forallb Q l = true.
Proof.
  intros H. rewrite !forallb_forall. intros Hl x Hx. now apply H, Hl.
Qed.

Lemma inline_token_good t : inline_token t = true -> good_token t = true.
Proof. destruct t; cbn; congruence. Qed.

Lemma token_markdown_tag_free t :
  inline_token t = true ->
  forallb (not_char "<") (token_markdown t) = true.
Proof.
  intros Hg. unfold token_markdown.
  destruct t as [s| |k c n|l|ds|attrs| |tag]; cbn [inline_token good_token] in Hg;
    [ | | destruct k, n
      | destruct l as [|[|[|[|l]]]]; try discriminate Hg
      | | destruct attrs | | discriminate Hg ];
    token_facts;
    cbv beta iota zeta delta
      [token_after wrap_pass Nat.leb Nat.add head_marker];
    solve_absent.
Qed.

Lemma tokens_markdown_tag_free ts :
  forallb inline_token ts = true -> ~ In "<"%char (tokens_markdown ts).
Proof.
  intros Hts. apply forallb_not_char. unfold tokens_markdown.
  induction ts as [|t ts IH]; [reflexivity|].
  cbn [forallb] in Hts. apply andb_prop in Hts. destruct Hts as [Ht Hts].
  cbn [flat_map]. rewrite forallb_app, (token_markdown_tag_free _ Ht).
  now apply IH.
Qed.

(** ** The rule for horizontal lines on every text *)

(** The pattern at the front of a text, step by step. *)
Lemma hr_match_here s :
  match_here false (p_re hr_pattern) false s
  = match strip_prefix (T "<hr") s with
    | Some r =>
        match strip_prefix (T " dir") r with
        | Some r1 =>
            match drop_while attr_char r1 with
            | a :: rest =>
                if ascii_eqb a ">"
                then Some (rest, [(1, (r, a :: rest))])
                else None
            | [] => None
            end
        | None =>
            match strip_prefix (T ">") r with
            | Some rest => Some (rest, [])
            | None => None
            end
        end
    | None => None
    end.
Proof.
  unfold match_here, hr_pattern, p_re.
  change (Seqs [L "<hr"; Opt (Group 1 (Seq (L " dir") lazy_any)); L ">"])
    with (Seq (L "<hr")
              (Seq (Opt (Group 1 (Seq (L " dir") lazy_any))) (L ">"))).
  unfold L. rewrite m_Seq, m_Lits_strip.
  destruct (strip_prefix (T "<hr") s) as [r|] eqn:E0; [|reflexivity].
  rewrite m_Seq. unfold Opt. rewrite m_Alt, m_Group, m_Seq, m_Lits_strip.
  destruct (strip_prefix (T " dir") r) as [r1|] eqn:E1.
  - apply strip_prefix_app in E1.
    pose proof (take_drop_while attr_char r1) as Er.
    pose proof (take_while_all attr_char r1) as Hu.
    apply attr_char_spec in Hu. destruct Hu as [Hany Hgt].
    unfold lazy_any. rewrite Er at 1. rewrite lazy_skip_on.
    + destruct (drop_while attr_char r1) as [|a rest] eqn:Ed.
      * rewrite lazy_nil, m_Lits_strip. cbn [strip_prefix lit].
        rewrite m_Eps, m_Lits_strip. subst r. reflexivity.
      * pose proof (drop_while_head _ _ Ed) as Ha. unfold attr_char in Ha.
        destruct (ascii_eqb a ">") eqn:Eg.
        -- apply Ascii.eqb_eq in Eg. subst a.
           erewrite lazy_stop; [reflexivity|].
           rewrite m_Lits_strip. reflexivity.
        -- cbn [negb andb] in Ha. apply negb_false_iff in Ha.
           rewrite lazy_blocked by (cbn [cls_match orb]; now rewrite Ha).
           rewrite m_Lits_strip.
           change (strip_prefix (lit ">") (a :: rest))
             with (if ascii_eqb a ">" then Some rest else None).
           rewrite Eg, m_Eps, m_Lits_strip. subst r. reflexivity.
    + exact Hany.
    + apply fails_on_absent with (a0 := ">"%char); [exact Hgt|].
      intros a t Hne. now apply m_first_lit with (a0 := ">"%char).
  - rewrite m_Eps, m_Lits_strip.
    now destruct (strip_prefix (lit ">") r).
Qed.

(** A match of the pattern at the front of a text is a marker. *)
Lemma hr_marker_match s :
  match hr_marker_at s with
  | Some rest =>
      length rest < length s
      /\ exists c, match_here false (p_re hr_pattern) false s = Some (rest, c)
  | None => match_here false (p_re hr_pattern) false s = None
  end.
Proof.
  rewrite hr_match_here. unfold hr_marker_at.
  destruct (strip_prefix (T "<hr") s) as [r|] eqn:E0; [|reflexivity].
  apply strip_prefix_app in E0. subst s.
  destruct (strip_prefix (T " dir") r) as [r1|] eqn:E1.
  - apply strip_prefix_app in E1. subst r.
    pose proof (take_drop_while attr_char r1) as Er.
    destruct (drop_while attr_char r1) as [|a rest]; [reflexivity|].
    destruct (ascii_eqb a ">"); [|reflexivity]. split.
    + rewrite Er, !length_app. cbn [length]. lia.
    + eexists. reflexivity.
  - destruct (strip_prefix (T ">") r) as [rest|] eqn:E2; [|reflexivity].
    apply strip_prefix_app in E2. subst r. split.
    + cbn. lia.
    + eexists. reflexivity.
Qed.

Lemma hr_sub : forall fuel s, length s <= fuel ->
  sub_with false (p_re hr_pattern) (map TLit (nl :: T "---")) 0 s
  = hr_lines fuel s.
Proof.
  induction fuel as [|fuel IH]; intros s Hn.
  - destruct s; [|simpl in Hn; lia]. reflexivity.
  - cbn [hr_lines]. pose proof (hr_marker_match s) as Hm.
    destruct (hr_marker_at s) as [rest|].
    + destruct Hm as (Hlt & c & Hm).
      rewrite sub_with_here with (1 := Hm) by exact Hlt.
      rewrite expand_plain. f_equal. apply IH. lia.
    + destruct s as [|a t]; [reflexivity|].
      change (a :: t) with ([a] ++ t). rewrite sub_with_skip.
      * cbn [app]. f_equal. apply IH. simpl in Hn. lia.
      * intros v b w Ev. destruct v as [|? [|? ?]]; inversion Ev; subst.
        exact Hm.
Qed.

(** The rule for horizontal lines is [hr_spec] on every text. *)
Lemma hr_rule_spec text : hr_rule text = Ok (hr_spec text).
Proof.
  unfold hr_rule, hr_spec. rewrite re_sub_eq, hr_template. cbn [bind].
  f_equal. now apply hr_sub.
Qed.

Lemma hr_lines_more : forall fuel fuel' s,
  length s <= fuel -> length s <= fuel' -> hr_lines fuel s = hr_lines fuel' s.
Proof.
  intros fuel fuel' s H H'. now rewrite <- !hr_sub.
Qed.

(** [hr_spec] at a marker at the front of a text, and at any other
    character. *)
Lemma hr_spec_marker s rest :
  hr_marker_at s = Some rest ->
  hr_spec s = (nl :: T "---") ++ hr_spec rest.
Proof.
  intros H. unfold hr_spec.
  pose proof (hr_marker_match s) as Hm. rewrite H in Hm.
  destruct Hm as [Hlt _].
  destruct (length s) as [|n] eqn:E; [lia|].
  cbn [hr_lines]. rewrite H. f_equal. apply hr_lines_more; lia.
Qed.

Lemma hr_spec_other a t :
  hr_marker_at (a :: t) = None -> hr_spec (a :: t) = a :: hr_spec t.
Proof.
  intros H. unfold hr_spec. cbn [length hr_lines]. now rewrite H.
Qed.

Lemma strip_prefix_front w : forall t, strip_prefix w (w ++ t) = Some t.
Proof.
  induction w as [|a w IH]; intros t; [reflexivity|].
  cbn [app strip_prefix]. now rewrite ascii_eqb_refl.
Qed.

(** The markers are the texts of the two forms. *)
Lemma hr_marker_at_spec s rest :
  hr_marker_at s = Some rest
  <-> (s = T "<hr>" ++ rest
       \/ exists attr, forallb attr_char attr = true
                       /\ s = T "<hr dir" ++ attr ++ T ">" ++ rest).
Proof.
  unfold hr_marker_at. split.
  - destruct (strip_prefix (T "<hr") s) as [r|] eqn:E0; [|discriminate].
    apply strip_prefix_app in E0. subst s.
    destruct (strip_prefix (T " dir") r) as [r1|] eqn:E1.
    + apply strip_prefix_app in E1. subst r.
      pose proof (take_drop_while attr_char r1) as Er.
      pose proof (take_while_all attr_char r1) as Hu.
      destruct (drop_while attr_char r1) as [|a t]; [discriminate|].
      destruct (ascii_eqb a ">") eqn:Eg; [|discriminate].
      apply Ascii.eqb_eq in Eg. subst a. intros H. injection H as ->.
      right. exists (take_while attr_char r1). split; [exact Hu|].
      rewrite Er at 1. reflexivity.
    + intros E2. apply strip_prefix_app in E2. subst r. now left.
  - intros [->|(attr & Ha & ->)]; [reflexivity|].
    change (T "<hr dir" ++ attr ++ T ">" ++ rest)
      with (T "<hr" ++ T " dir" ++ attr ++ T ">" ++ rest).
    rewrite !strip_prefix_front, drop_while_app by exact Ha.
    reflexivity.
Qed.

Lemma pipeline_stages fuel text :
  convert_journey_html_to_dayone_markdown fuel text
  = match convert_simple text with
    | Raise e => Some (Raise e)
    | Ok inline =>
        match convert_lists fuel inline with
        | None => None
        | Some (Raise e) => Some (Raise e)
        | Some (Ok lists) =>
            match perform_phrase_replacements lists with
            | Raise e => Some (Raise e)
            | Ok phrases =>
                match fix_name_spellings phrases with
                | Raise e => Some (Raise e)
                | Ok names =>
                    match convert_quote_blocks fuel names with
                    | None => None
                    | Some (Raise e) => Some (Raise e)
                    | Some (Ok quotes) => Some (Ok (hr_spec quotes))
                    end
                end
            end
        end
    end.
Proof.
  unfold convert_journey_html_to_dayone_markdown.
  destruct (convert_simple text) as [inline|e]; [|reflexivity].
  cbn [lift rbind].
  destruct (convert_lists fuel inline) as [[lists|e]|]; try reflexivity.
  cbn [rbind].
  destruct (perform_phrase_replacements lists) as [phrases|e]; [|reflexivity].
  cbn [rbind].
  destruct (fix_name_spellings phrases) as [names|e]; [|reflexivity].
  cbn [rbind].
  destruct (convert_quote_blocks fuel names) as [[quotes|e]|]; try reflexivity.
  cbn [rbind lift]. fold (hr_rule quotes). now rewrite hr_rule_spec.
Qed.

(** ** A blockquote block, wherever it is found *)

Lemma lines_of_join s :
  s = fst (lines_of s) ++ join_lines (snd (lines_of s)).
Proof.
  unfold join_lines.
  induction s as [|a t IH]; [reflexivity|]. cbn [lines_of].
  destruct (ascii_eqb a nl) eqn:E; cbn [fst snd app flat_map].
  - apply Ascii.eqb_eq in E. subst a. f_equal. exact IH.
  - f_equal. exact IH.
Qed.

Lemma lines_of_lines s :
  Forall (fun l => ~ In nl l) (fst (lines_of s) :: snd (lines_of s)).
Proof.
  induction s as [|a t IH]; cbn [lines_of].
  - constructor; [intros []|constructor].
  - inversion IH as [|? ? H0 Hs]; subst.
    destruct (ascii_eqb a nl) eqn:E; cbn [fst snd].
    + constructor; [intros []|]. now constructor.
    + constructor; [|exact Hs]. intros [->|Hin]; [|now apply H0].
      now rewrite ascii_eqb_refl in E.
Qed.

Lemma lines_of_plain s :
  plain_text s ->
  Forall (fun l => plain_text l) (fst (lines_of s) :: snd (lines_of s)).
Proof.
  unfold plain_text. intros Hs.
  enough (H : forall l, In l (fst (lines_of s) :: snd (lines_of s)) ->
                        forall a, In a l -> In a s).
  { apply Forall_forall. intros l Hl Hin. apply Hs. now apply (H l). }
  clear Hs. induction s as [|a t IH]; cbn [lines_of]; intros l Hl b Hb.
  - destruct Hl as [<-|[]]. destruct Hb.
  - destruct (ascii_eqb a nl); cbn [fst snd] in Hl.
    + destruct Hl as [<-|Hl]; [destruct Hb|]. right. now apply (IH l).
    + destruct Hl as [<-|Hl].
      * destruct Hb as [->|Hb]; [now left|]. right.
        apply (IH (fst (lines_of t))); [now left|exact Hb].
      * right. apply (IH l); [now right|exact Hb].
Qed.

(** One iteration of the blockquote loop on the block that the search
    finds, when the quoted text holds no backslash. *)
Lemma quote_step_found text quote_match :
  search true quote_parent_search_pattern text = Some quote_match ->
  forallb (not_char bsl) (group_str quote_match 2) = true ->
  let contents := group_str quote_match 2 in
  text = m_pre quote_match ++ T "<blockquote>" ++ contents
         ++ group_str quote_match 3 ++ m_end quote_match
  /\ quote_step text quote_match
     = Ok (m_pre quote_match
           ++ (fst (lines_of contents) ++ quote_lines (snd (lines_of contents)))
           ++ m_end quote_match).
Proof.
  intros Hs Hb. unfold search in Hs.
  destruct (search_adv_found _ _ _ _ Hs) as (Es & adv' & Hm).
  apply quote_match_parts in Hm.
  destruct Hm as (s1 & s2 & E1 & H2 & H3 & _ & Ec).
  unfold group_str, group in *. rewrite Ec in *.
  cbn [cap_get Nat.eqb option_map] in *. unfold span_text in *.
  cbn [fst snd] in *.
  set (Q := consumed s1 s2) in *.
  apply forallb_not_char in Hb. fold (plain_text Q) in Hb.
  split.
  - rewrite Es at 1. f_equal. rewrite E1. f_equal.
    rewrite (consumed_split H2) at 1. fold Q. f_equal.
    apply (consumed_split H3).
  - unfold quote_step, slice_groups, start_of, end_of. rewrite Ec.
    cbn [cap_get Nat.eqb option_map fst snd]. fold Q.
    rewrite (lines_of_join Q) at 1.
    rewrite quote_sub_content by apply lines_of_lines.
    cbn [bind].
    assert (Hp : plain_text (fst (lines_of Q) ++ quote_lines (snd (lines_of Q)))).
    { pose proof (lines_of_plain Hb) as Hl.
      inversion Hl as [|? ? H0 Hls]; subst.
      apply plain_text_app; [exact H0|now apply quote_lines_plain]. }
    rewrite re_sub_eq, parse_template_plain by exact Hp. cbn [bind].
    f_equal. erewrite sub_with_first by exact Hs.
    now rewrite expand_plain.
Qed.

(** ** The unordered-list loop on the block it finds *)






















(** ** The block loops on any block they find *)

(** The parts of the text around the blockquote block that the search
    finds. *)
Lemma quote_block_parts text quote_match :
  search true quote_parent_search_pattern text = Some quote_match ->
  text = m_pre quote_match ++ T "<blockquote>" ++ group_str quote_match 2
         ++ group_str quote_match 3 ++ m_end quote_match.
Proof.
  intros Hs. unfold search in Hs.
  destruct (search_adv_found _ _ _ _ Hs) as (Es & adv' & Hm).
  apply quote_match_parts in Hm.
  destruct Hm as (s1 & s2 & E1 & H2 & H3 & _ & Ec).
  unfold group_str, group in *. rewrite Ec in *.
  cbn [cap_get Nat.eqb option_map] in *. unfold span_text in *.
  cbn [fst snd] in *.
  rewrite Es at 1. f_equal. rewrite E1. f_equal.
  rewrite (consumed_split H2) at 1. f_equal.
  apply (consumed_split H3).
Qed.

(** One iteration of the blockquote loop hands the rewritten lines to
    [re.sub] as the replacement of the block. *)
Lemma quote_step_template text quote_match :
  search true quote_parent_search_pattern text = Some quote_match ->
  let contents := group_str quote_match 2 in
  quote_step text quote_match
  = re_sub true quote_parent_search_pattern
           (fst (lines_of contents) ++ quote_lines (snd (lines_of contents)))
           text 1.
Proof.
  intros Hs. unfold search in Hs.
  destruct (search_adv_found _ _ _ _ Hs) as (Es & adv' & Hm).
  apply quote_match_parts in Hm.
  destruct Hm as (s1 & s2 & E1 & H2 & H3 & _ & Ec).
  unfold group_str, group in *. rewrite Ec in *.
  cbn [cap_get Nat.eqb option_map] in *. unfold span_text in *.
  cbn [fst snd] in *. cbv zeta.
  set (Q := consumed s1 s2) in *.
  unfold quote_step, slice_groups, start_of, end_of. rewrite Ec.
  cbn [cap_get Nat.eqb option_map fst snd]. fold Q.
  rewrite (lines_of_join Q) at 1.
  rewrite quote_sub_content by apply lines_of_lines.
  reflexivity.
Qed.



(** * The claims *)

(** C9 (as amended).  [convert_simple] is idempotent on its own output
    whenever that output holds no recognized tag and no entity of a
    non-breaking space: if [convert_simple x] returns [y], no tag
    pattern of [to_replace_simple] or [to_remove_simple] matches
    anywhere in [y] and the entity occurs nowhere in [y], then running
    [convert_simple] on the result again gives the same result. *)
Theorem convert_simple_idempotent (x y : str) :
  convert_simple x = Ok y ->
  no_recognized_tags y = true ->
  no_entity y = true ->
  (y' <- convert_simple x ;; convert_simple y') = convert_simple x.
Proof.
  intros Hx Ht He. rewrite Hx. cbn [bind].
  now apply convert_simple_no_markup, no_tags_no_entity.
Qed.

Lemma convert_simple_idempotent_witness :
  convert_simple (T "<em>a</em> <span>b</span>") = Ok (T "*a* b")
  /\ no_recognized_tags (T "*a* b") = true
  /\ no_entity (T "*a* b") = true
  /\ (y' <- convert_simple (T "<em>a</em> <span>b</span>") ;; convert_simple y')
     = convert_simple (T "<em>a</em> <span>b</span>").
Proof.
  split; [vm_compute; reflexivity|].
  split; [vm_compute; reflexivity|].
  split; [vm_compute; reflexivity|].
  apply (@convert_simple_idempotent (T "<em>a</em> <span>b</span>") (T "*a* b"));
    vm_compute; reflexivity.
Defined.

(** C9, the claim as stated fails when the removal of a tag leaves the
    entity of a non-breaking space behind: the output of the first pass
    holds no tag, but the second pass turns the entity into a space. *)
Lemma convert_simple_not_idempotent :
  convert_simple (T "&nb<p>sp;") = Ok (T "&nbsp;")
  /\ no_recognized_tags (T "&nbsp;") = true
  /\ forallb (not_char "<") (T "&nbsp;") = true
  /\ convert_simple (T "&nbsp;") = Ok (T " ")
  /\ (y' <- convert_simple (T "&nb<p>sp;") ;; convert_simple y')
     <> convert_simple (T "&nb<p>sp;").
Proof.
  split; [vm_compute; reflexivity|].
  split; [vm_compute; reflexivity|].
  split; [vm_compute; reflexivity|].
  split; [vm_compute; reflexivity|].
  vm_compute. discriminate.
Qed.

(** C7 (as amended).  For every input, the conversion is the
    composition of the five stages in the order inline rewriter, list
    rewriter, phrase rewriter, name normalizer, quote rewriter, followed
    by the rule for horizontal lines: each stage is run on the text the
    stage before returned, and an exception of a stage, or a block loop
    that does not end, is the outcome of the conversion.  The rule for
    horizontal lines is [hr_spec]: it goes through the text from left
    to right, turns every horizontal-rule marker into a newline and
    three dashes and keeps every other character; a marker is [<hr>],
    or [<hr dir] followed by any characters other than [>] and the
    newline and by [>], and nothing else (so a marker with another
    attribute is kept as it is). *)
Theorem convert_is_pipeline :
  (forall fuel text,
     convert_journey_html_to_dayone_markdown fuel text
     = match convert_simple text with
       | Raise e => Some (Raise e)
       | Ok inline =>
           match convert_lists fuel inline with
           | None => None
           | Some (Raise e) => Some (Raise e)
           | Some (Ok lists) =>
               match perform_phrase_replacements lists with
               | Raise e => Some (Raise e)
               | Ok phrases =>
                   match fix_name_spellings phrases with
                   | Raise e => Some (Raise e)
                   | Ok names =>
                       match convert_quote_blocks fuel names with
                       | None => None
                       | Some (Raise e) => Some (Raise e)
                       | Some (Ok quotes) => Some (Ok (hr_spec quotes))
                       end
                   end
               end
           end
       end)
  /\ (forall s rest,
        hr_marker_at s = Some rest
        <-> (s = T "<hr>" ++ rest
             \/ exists attr, forallb attr_char attr = true
                             /\ s = T "<hr dir" ++ attr ++ T ">" ++ rest))
  /\ (forall s rest,
        hr_marker_at s = Some rest ->
        hr_spec s = (nl :: T "---") ++ hr_spec rest)
  /\ (forall a t,
        hr_marker_at (a :: t) = None -> hr_spec (a :: t) = a :: hr_spec t)
  /\ hr_spec [] = [].
Proof.
  split; [exact pipeline_stages|].
  split; [exact hr_marker_at_spec|].
  split; [exact hr_spec_marker|].
  split; [exact hr_spec_other|reflexivity].
Qed.

Lemma convert_is_pipeline_witness :
  hr_marker_at (T "<hr dir=ltr> b<hr>") = Some (T " b<hr>")
  /\ hr_spec (T "<hr dir=ltr> b<hr>") = (nl :: T "---") ++ hr_spec (T " b<hr>")
  /\ hr_spec (T "a <hr dir=ltr> b<hr>")
     = T "a " ++ (nl :: T "---") ++ T " b" ++ (nl :: T "---").
Proof.
  split; [reflexivity|]. split; [|reflexivity].
  apply (proj1 (proj2 (proj2 convert_is_pipeline))). reflexivity.
Defined.

(** C7, the claim as stated fails on a horizontal-rule marker with an
    attribute that does not start with [ dir]: the marker is left as
    it is. *)
Lemma hr_other_attribute_kept :
  convert_journey_html_to_dayone_markdown 0 (T "a<hr class=x>b")
  = Some (Ok (T "a<hr class=x>b"))
  /\ convert_journey_html_to_dayone_markdown 0 (T "a<hr class=x>b")
     <> Some (Ok (T "a" ++ (nl :: T "---") ++ T "b"))
  /\ convert_journey_html_to_dayone_markdown 0 (T "a<hr>b")
     = Some (Ok (T "a" ++ (nl :: T "---") ++ T "b")).
Proof.
  split; [vm_compute; reflexivity|].
  split; [vm_compute; discriminate|vm_compute; reflexivity].
Qed.

(** C8 (refuted on the code).  The block loops do not end on every input:
    the replacement text of each loop is built from the text of the block
    and is read as a template, so a block that holds the escape for the
    whole match is put back by its own replacement.  On [ol_bad] the
    ordered-list loop is still running after any number of iterations
    (each one adds a numbered empty line before the unchanged block), and
    so are the unordered-list loop on [ul_bad] and the blockquote loop on
    [quote_bad] (each iteration leaves the text as it was). *)
Theorem block_loops_diverge :
  (forall fuel, ol_loop fuel ol_bad = None)
  /\ (forall fuel, ul_loop fuel ul_bad = None)
  /\ (forall fuel, quote_loop fuel quote_bad = None).
Proof.
  split; [|split].
  - intros fuel. apply (ol_loop_bad fuel 0).
  - induction fuel as [|fuel IH]; rewrite ul_loop_eq;
      destruct ul_bad_fixed as (x & Hs & Hstep); rewrite Hs; [reflexivity|].
    now rewrite Hstep.
  - induction fuel as [|fuel IH]; rewrite quote_loop_eq;
      destruct quote_bad_fixed as (x & Hs & Hstep); rewrite Hs; [reflexivity|].
    now rewrite Hstep.
Qed.

(** C1 (refuted on the code).  The pipeline raises on a blockquote whose
    text holds a backslash before a letter that is no escape: the quoted
    text is handed to [re.sub] as the replacement template, and the
    template parser rejects it. *)
Theorem convert_raises :
  forall fuel,
    convert_journey_html_to_dayone_markdown (S fuel)
      (T "<blockquote>C:\Users</blockquote>")
    = Some (Raise ReError).
Proof. intros fuel. vm_compute. reflexivity. Qed.

(** C2 (refuted on the code).  The reordering of a non-breaking space
    before the closing tag is done by the emphasis, strong and
    strikethrough rules, but not by the underline rule: that rule has no
    group for the entity, so the entity stays inside the emphasis markers
    and the space it becomes comes before the closing marker. *)
Theorem underline_keeps_nbsp_inside :
  re_sub false underline_pattern (T "*\g<text>*")
         (underlined (T "a&nbsp;") ++ T "b") 0
  = Ok (T "*a&nbsp;*b")
  /\ convert_simple (underlined (T "a&nbsp;") ++ T "b") = Ok (T "*a *b")
  /\ convert_simple (T "<em>a&nbsp;</em>b") = Ok (T "*a* b")
  /\ convert_simple (T "<strong>a&nbsp;</strong>b") = Ok (T "**a** b")
  /\ convert_simple (T "<del>a&nbsp;</del>b") = Ok (T "~~a~~ b").
Proof. repeat split; vm_compute; reflexivity. Qed.

(** C3 (refuted on the code).  The inner content of an item is not
    always emitted as it is.  The rewritten items are handed to [re.sub]
    as the replacement template, so a backslash escape in an item is
    expanded (here [\t] becomes a tab).  And the items are looked for
    without the DOTALL flag that the search for the block has, so an
    item whose content holds a newline is not found: it is dropped with
    its content, where the unordered-list loop keeps it.  The example
    of the claim holds, and so does the claim on blocks of plain
    one-line items ([ol_step_block]). *)
Theorem ordered_item_not_verbatim :
  ol_loop 1 (T "<ol><li>C:\temp</li></ol>")
  = Some (Ok (nl :: T "1. C:" ++ tab :: T "emp"))
  /\ ol_loop 1 (T "x<ol><li>a" ++ nl :: T "b</li></ol>y") = Some (Ok (T "xy"))
  /\ ul_loop 1 (T "x<ul><li>a" ++ nl :: T "b</li></ul>y")
     = Some (Ok (T "x" ++ nl :: T "- a" ++ nl :: T "by"))
  /\ ol_loop 1 (T "<ol><li>Alpha</li><li>Beta</li><li>Gamma</li></ol>")
     = Some (Ok (nl :: T "1. Alpha" ++ nl :: T "2. Beta" ++ nl :: T "3. Gamma")).
Proof. repeat split; vm_compute; reflexivity. Qed.




(** C6 (as amended).  For every text, [fix_name_spellings] goes through
    the entries of its table in order and, for each canonical name, (a)
    replaces every all-lowercase occurrence of the name by the name as
    capitalized in the table and (b) for each known misspelling replaces
    its all-uppercase occurrences by the canonical name in uppercase and
    its occurrences as spelled in the table or in all-lowercase by the
    canonical name; an entry without misspellings gets rule (a) only.
    The replacements are those of [rewriteNames_spec], defined on the
    text without the matcher. *)
Theorem fix_name_spellings_spec :
  forall text,
    fix_name_spellings text = Ok (rewriteNames_spec names_to_fix text).
Proof. intros text. now apply fix_names_spec. Qed.

(** C6, the claim as stated fails on a misspelling in another mix of
    cases than the one of the table: it is left as it is, where the
    claim has it replaced by the canonical name. *)
Lemma mixed_case_misspelling_kept :
  fix_name_spellings (T "Nome one") = Ok (T "Nome one")
  /\ fix_name_spellings (T "Nome one") <> Ok (T "Name One")
  /\ fix_name_spellings (T "nOME oNE") = Ok (T "nOME oNE")
  /\ fix_name_spellings (T "Nome One and nome one")
     = Ok (T "Name One and Name One").
Proof.
  split; [vm_compute; reflexivity|].
  split; [vm_compute; discriminate|].
  split; vm_compute; reflexivity.
Qed.

(** C4 (as amended).  For every blockquote block that the search of
    [convert_quote_blocks] locates in a text: the text is the text
    before the block, the opening tag, the inner content, the closing
    tag and the text after the block; the inner content is its first
    line followed by its later lines, each with the newline before it;
    and one iteration replaces the whole block, markers removed, by the
    inner content in which every line that has a newline both before it
    and after it inside the capture is prefixed with [> ], the first
    line (no newline before it) and the last line (no newline after it)
    being left without prefix ([quote_lines]).  The rewritten content is
    handed to [re.sub] as the replacement of the block; when the inner
    content holds no backslash, the block becomes the rewritten content
    as it is. *)
Theorem quote_block_inner_lines_prefixed (text : str) (quote_match : mres) :
  search true quote_parent_search_pattern text = Some quote_match ->
  let contents := group_str quote_match 2 in
  let first_line := fst (lines_of contents) in
  let later_lines := snd (lines_of contents) in
  let rewritten := first_line ++ quote_lines later_lines in
  text = m_pre quote_match ++ T "<blockquote>" ++ contents
         ++ group_str quote_match 3 ++ m_end quote_match
  /\ contents = first_line ++ join_lines later_lines
  /\ Forall (fun l => ~ In nl l) (first_line :: later_lines)
  /\ quote_step text quote_match
     = re_sub true quote_parent_search_pattern rewritten text 1
  /\ (forallb (not_char bsl) contents = true ->
      quote_step text quote_match
      = Ok (m_pre quote_match ++ rewritten ++ m_end quote_match)).
Proof.
  intros Hs. cbv zeta.
  split; [exact (quote_block_parts text Hs)|].
  split; [apply lines_of_join|].
  split; [apply lines_of_lines|].
  split; [exact (quote_step_template text Hs)|].
  intros Hb. exact (proj2 (quote_step_found text Hs Hb)).
Qed.

(** A block after a tag, with a tag inside a line. *)
Lemma quote_block_inner_lines_prefixed_witness :
  exists quote_match,
    search true quote_parent_search_pattern
      (T "a<br><blockquote>Line0" ++ nl :: T "<b>Line1</b>" ++ nl :: T "Line2"
       ++ nl :: T "Line3</blockquote> b")
    = Some quote_match
    /\ forallb (not_char bsl) (group_str quote_match 2) = true
    /\ lines_of (group_str quote_match 2)
       = (T "Line0", [T "<b>Line1</b>"; T "Line2"; T "Line3"])
    /\ quote_step
         (T "a<br><blockquote>Line0" ++ nl :: T "<b>Line1</b>" ++ nl :: T "Line2"
          ++ nl :: T "Line3</blockquote> b")
         quote_match
       = Ok (T "a<br>Line0" ++ nl :: T "> <b>Line1</b>" ++ nl :: T "> Line2"
             ++ nl :: T "Line3 b").
Proof.
  destruct (search true quote_parent_search_pattern
              (T "a<br><blockquote>Line0" ++ nl :: T "<b>Line1</b>"
               ++ nl :: T "Line2" ++ nl :: T "Line3</blockquote> b"))
    as [x|] eqn:E; [|vm_compute in E; discriminate E].
  exists x. split; [reflexivity|].
  assert (Hb : forallb (not_char bsl) (group_str x 2) = true).
  { vm_compute in E. injection E as <-. reflexivity. }
  split; [exact Hb|].
  destruct (quote_block_inner_lines_prefixed _ E) as (_ & _ & _ & _ & Hq).
  rewrite (Hq Hb). clear Hq Hb.
  vm_compute in E. injection E as <-. split; reflexivity.
Defined.

(** C4, the claim as stated fails on its own example: the two-line block
    comes out unchanged, its first line without the prefix. *)
Lemma quote_first_line_not_prefixed :
  convert_quote_blocks 1 (quote_block (T "Line1" ++ nl :: T "Line2"))
  = Some (Ok (T "Line1" ++ nl :: T "Line2"))
  /\ convert_quote_blocks 1 (quote_block (T "Line1" ++ nl :: T "Line2"))
     <> Some (Ok (T "> Line1" ++ nl :: T "Line2")).
Proof. split; [vm_compute; reflexivity | vm_compute; discriminate]. Qed.

(** C10 (refuted on the code).  A styled underline span whose content
    holds no word character is not always emitted bare.  The text group
    of the underline rule is meant to be the content of the span, the
    closing tag being the next group, but nothing keeps it from running
    over a closing tag: when another closing span tag follows on the
    line, the group runs on from the wordless content over the first
    closing tag to a word character and to the later closing tag, and
    the wordless content comes out inside emphasis markers with all
    that follows it.  Alone, inside a paragraph or before text without
    a later span, the span is emitted bare as the claim says, and the
    later span alone is wrapped by itself. *)
Theorem wordless_span_wrapped :
  convert_simple (underlined (T "-") ++ T "a" ++ underlined (T "b"))
  = Ok (T "*-ab*")
  /\ convert_simple (underlined (T "-") ++ T "a" ++ underlined (T "b"))
     <> Ok (T "-a*b*")
  /\ convert_simple (T "<p>" ++ underlined (T "--") ++ T "</p>")
     = Ok (T "--")
  /\ convert_simple (underlined (T "-") ++ T "a") = Ok (T "-a")
  /\ convert_simple (T "a" ++ underlined (T "b")) = Ok (T "a*b*").
Proof.
  split; [vm_compute; reflexivity|].
  split; [vm_compute; discriminate|].
  repeat split; vm_compute; reflexivity.
Qed.

(** * Further properties of the code *)

(** X1.  On an entry text without any [<], the conversion ends whatever
    the number of loop iterations allowed, raises nothing, and is the
    replacement of the entity for a non-breaking space by a space,
    followed by the phrase replacement and the name normalizer: the loops
    for lists and blockquotes, the other inline rules and the rule for
    horizontal lines leave such a text as it is. *)
Theorem convert_tag_free (fuel : nat) (text : str) :
  forallb (not_char "<") text = true ->
  convert_journey_html_to_dayone_markdown fuel text
  = lift (t <- perform_phrase_replacements
                 (replace_each [T "&nbsp;"] (T " ") text) ;;
          fix_name_spellings t).
Proof.
  intros Hx. apply forallb_not_char in Hx.
  unfold convert_journey_html_to_dayone_markdown.
  rewrite (@convert_simple_tag_free text Hx). cbn [lift rbind].
  apply nbsp_pass_tag_free in Hx. revert Hx.
  generalize (replace_each [T "&nbsp;"] (T " ") text). intros t1 H1.
  destruct (@tag_free_blocks fuel t1 H1) as (-> & _ & _). cbn [rbind].
  destruct (perform_phrase_replacements_total t1) as [t2 E2].
  rewrite E2. cbn [rbind bind].
  assert (H2 : ~ In "<"%char t2).
  { intros Hin.
    refine (@perform_phrase_replacements_keeps (fun a => a <> "<"%char)
              t1 t2 _ _ E2 _ Hin eq_refl); [discriminate|].
    intros a Ha E. subst. now apply H1. }
  destruct (fix_name_spellings_total t2) as [t3 E3].
  rewrite E3. cbn [rbind].
  assert (H3 : ~ In "<"%char t3).
  { intros Hin.
    refine (@fix_name_spellings_keeps (fun a => a <> "<"%char)
              t2 t3 _ _ E3 _ Hin eq_refl).
    - intros a [Ha|Ha] E; subst; discriminate.
    - intros a Ha E. subst. now apply H2. }
  destruct (@tag_free_blocks fuel t3 H3) as (_ & -> & Hh). cbn [rbind].
  unfold hr_rule in Hh. now rewrite Hh.
Qed.

Lemma convert_tag_free_witness :
  forallb (not_char "<") (T "Met Nome One at the coffeeshop&nbsp;today") = true
  /\ convert_journey_html_to_dayone_markdown 0
       (T "Met Nome One at the coffeeshop&nbsp;today")
     = Some (Ok (T "Met Name One at the coffee shop today")).
Proof.
  split; [reflexivity|].
  rewrite (@convert_tag_free 0 (T "Met Nome One at the coffeeshop&nbsp;today"));
    reflexivity.
Defined.

(** X2.  An exception of the conversion comes from one of the two block
    stages.  The inline rewriter, the phrase replacement, the name
    normalizer and the rule for horizontal lines return a text on every
    text.  So when the conversion raises an exception, either
    [convert_lists] has raised it on the text that the inline rewriter
    returned, or [convert_lists] has returned and [convert_quote_blocks]
    has raised it on the text that the phrase replacement and the name
    normalizer made of the result of [convert_lists]. *)
Theorem convert_raises_in_block_stage :
  (forall text, exists y, convert_simple text = Ok y)
  /\ (forall text, exists y, perform_phrase_replacements text = Ok y)
  /\ (forall text, exists y, fix_name_spellings text = Ok y)
  /\ (forall text, exists y, hr_rule text = Ok y)
  /\ (forall fuel text e,
        convert_journey_html_to_dayone_markdown fuel text = Some (Raise e) ->
        exists t1,
          convert_simple text = Ok t1
          /\ (convert_lists fuel t1 = Some (Raise e)
              \/ exists t2 t3 t4,
                   convert_lists fuel t1 = Some (Ok t2)
                   /\ perform_phrase_replacements t2 = Ok t3
                   /\ fix_name_spellings t3 = Ok t4
                   /\ convert_quote_blocks fuel t4 = Some (Raise e))).
Proof.
  split; [exact convert_simple_total|].
  split; [exact perform_phrase_replacements_total|].
  split; [exact fix_name_spellings_total|].
  split; [exact hr_rule_total|].
  intros fuel text e.
  unfold convert_journey_html_to_dayone_markdown. intros H.
  destruct (convert_simple_total text) as [t1 E1].
  rewrite E1 in H. cbn [lift rbind] in H.
  exists t1. split; [exact E1|].
  destruct (convert_lists fuel t1) as [[t2|e2]|] eqn:E2; cbn [rbind] in H;
    [|inversion H; subst; now left|discriminate].
  destruct (perform_phrase_replacements_total t2) as [t3 E3].
  rewrite E3 in H. cbn [rbind] in H.
  destruct (fix_name_spellings_total t3) as [t4 E4].
  rewrite E4 in H. cbn [rbind] in H.
  destruct (convert_quote_blocks fuel t4) as [[t5|e5]|] eqn:E5;
    cbn [rbind] in H;
    [|inversion H; subst; right; exists t2, t3, t4; now repeat split
     |discriminate].
  destruct (hr_rule_total t5) as [t6 E6]. unfold hr_rule in E6.
  rewrite E6 in H. discriminate.
Qed.

(** A list item with a backslash: the list stage raises.  A blockquote
    with a backslash: the list stage returns, the quote stage raises. *)
Lemma convert_raises_in_block_stage_witness :
  convert_journey_html_to_dayone_markdown 1
    (T "<blockquote>at the coffeeshop C:\Users</blockquote>")
  = Some (Raise ReError)
  /\ exists t1,
       convert_simple (T "<blockquote>at the coffeeshop C:\Users</blockquote>")
       = Ok t1
       /\ (convert_lists 1 t1 = Some (Raise ReError)
           \/ exists t2 t3 t4,
                convert_lists 1 t1 = Some (Ok t2)
                /\ perform_phrase_replacements t2 = Ok t3
                /\ fix_name_spellings t3 = Ok t4
                /\ convert_quote_blocks 1 t4 = Some (Raise ReError)).
Proof.
  split; [vm_compute; reflexivity|].
  apply (proj2 (proj2 (proj2 (proj2 convert_raises_in_block_stage)))).
  vm_compute. reflexivity.
Defined.

(** X3.  The inline rewriter never raises, and every character of its
    result is a character of its input or one of the characters of the
    Markdown markers it writes: asterisk, tilde, hash, newline, space. *)
Theorem convert_simple_characters (text : str) :
  exists y, convert_simple text = Ok y
    /\ forall a, In a y ->
         In a text \/ In a ["*"; "~"; "#"; nl; " "]%char.
Proof. apply convert_simple_brings. Qed.

(** X4.  [convert_lists] on a text made of running text without tags,
    blocks of ordered items and blocks of unordered or task items, in any
    order, the items being plain one-line items: with one loop iteration
    allowed for each piece it ends and raises nothing; every ordered
    block becomes its numbered lines, every unordered or task block its
    bullet lines, and the running text stays where it is.  The
    whitespace after the opening tag of an unordered or task list comes
    out twice, and the opening tag of a checked item in a list that is no
    task list is left in the text. *)
Theorem convert_lists_document (ps : list piece) (fuel : nat) :
  forallb good_piece ps = true ->
  length ps <= fuel ->
  convert_lists fuel (doc_text ps) = Some (Ok (doc_markdown ps)).
Proof.
  intros Hg Hf. unfold convert_lists.
  rewrite <- (app_nil_l (doc_text ps)).
  rewrite ol_phase; [|exact Hg|apply quiet_nil|exact Hf].
  cbn [rbind]. rewrite ul_phase; [reflexivity|exact Hg|apply quiet_nil|exact Hf].
Qed.

Lemma convert_lists_document_witness :
  forallb good_piece
    [PText (T "To buy:");
     POl [nl] [(T "eggs", [nl]); (T "milk", [nl])];
     PText (T "To do:");
     PUl true [nl] [(true, (T "call", [nl])); (false, (T "write", []))]]
  = true
  /\ convert_lists 4
       (T "To buy:<ol>" ++ nl :: T "<li>eggs</li>" ++ nl :: T "<li>milk</li>"
        ++ nl :: T "</ol>To do:" ++ task_open ++ nl :: li_checked_open
        ++ T "call</li>" ++ nl :: T "<li>write</li></ul>")
     = Some (Ok (T "To buy:" ++ nl :: nl :: T "1. eggs" ++ nl :: nl
                 :: T "2. milk" ++ nl :: T "To do:" ++ nl :: nl :: nl
                 :: T "- [X] call" ++ nl :: nl :: T "- [ ] write")).
Proof.
  split; [reflexivity|].
  apply (@convert_lists_document
           [PText (T "To buy:");
            POl [nl] [(T "eggs", [nl]); (T "milk", [nl])];
            PText (T "To do:");
            PUl true [nl] [(true, (T "call", [nl])); (false, (T "write", []))]]
           4); [reflexivity|simpl; lia].
Defined.

(** X5.  [escape_tag] never raises, and its result is the tag with one
    backslash put before every maximal run of whitespace: the first
    whitespace character of a run gets the backslash, the others of the
    run and every other character are left as they are. *)
Theorem escape_tag_spec (raw : str) :
  escape_tag raw = Ok (escape_runs false raw).
Proof.
  unfold escape_tag. rewrite re_sub_eq.
  change (parse_template whitespace_pattern (T "\\\g<0>"))
    with (Ok [TLit bsl; TGroup 0]).
  cbn [bind]. f_equal. now apply escape_tag_sub with (n := length raw).
Qed.

(** X6.  [parse_id_from_output] returns the longest run of characters
    of [[A-F0-9]] that ends where the trailing whitespace of the output
    starts, and the empty text when the output, without its trailing
    whitespace, does not end with such a character (so an identifier in
    lowercase is not found). *)
Theorem parse_id_from_output_spec (output : str) :
  parse_id_from_output output = trailing_id output.
Proof.
  unfold trailing_id.
  set (r1 := drop_while is_space (rev output)).
  assert (E : output
              = rev (drop_while is_id_char r1) ++ rev (take_while is_id_char r1)
                ++ rev (take_while is_space (rev output))).
  { rewrite <- !rev_app_distr, <- app_assoc.
    rewrite <- (take_drop_while is_id_char r1). unfold r1.
    rewrite <- (take_drop_while is_space (rev output)).
    now rewrite rev_involutive. }
  rewrite E at 1. apply parse_id_parts.
  - rewrite forallb_forall. intros a Ha. apply in_rev in Ha.
    pose proof (take_while_all is_id_char r1) as H.
    rewrite forallb_forall in H. now apply H.
  - rewrite forallb_forall. intros a Ha. apply in_rev in Ha.
    pose proof (take_while_all is_space (rev output)) as H.
    rewrite forallb_forall in H. now apply H.
  - intros y p Ey.
    assert (Ed : drop_while is_id_char r1 = p :: rev y).
    { rewrite <- (rev_involutive (drop_while is_id_char r1)), Ey.
      now rewrite rev_app_distr. }
    split.
    + now apply drop_while_head in Ed.
    + intros Hnil.
      assert (Ht : take_while is_id_char r1 = []).
      { rewrite <- (rev_involutive (take_while is_id_char r1)), Hnil.
        reflexivity. }
      apply take_while_nil in Ht. rewrite Ht in Ed. unfold r1 in Ed.
      now apply drop_while_head in Ed.
Qed.

(** X7.  An entry on the equator or on the prime meridian loses its
    location: a latitude that is zero with a valid longitude, and a
    longitude that is zero with a valid latitude, pass the validation
    of the coordinates, but [build_dayone_args] tests the coordinates
    for truth, a zero is false, and the command line is the one of an
    entry without coordinates, whatever the other coordinate is. *)
Theorem zero_coordinate_dropped
        (float_str : DayOne.float -> str) (target_journal_name : str)
        (entry : DayOne.ValidatedEntry) (s : bool)
        (latitude longitude : DayOne.float) :
  (DayOne.is_lon_valid longitude = true ->
   DayOne.valid_coordinates (Some (SpecFloat.S754_zero s)) (Some longitude)
   = (Some (SpecFloat.S754_zero s), Some longitude))
  /\ (DayOne.is_lat_valid latitude = true ->
      DayOne.valid_coordinates (Some latitude) (Some (SpecFloat.S754_zero s))
      = (Some latitude, Some (SpecFloat.S754_zero s)))
  /\ DayOne.build_dayone_args float_str target_journal_name
       (DayOne.with_coordinates entry (Some (SpecFloat.S754_zero s))
                                (Some longitude))
     = DayOne.build_dayone_args float_str target_journal_name
         (DayOne.with_coordinates entry None None)
  /\ DayOne.build_dayone_args float_str target_journal_name
       (DayOne.with_coordinates entry (Some latitude)
                                (Some (SpecFloat.S754_zero s)))
     = DayOne.build_dayone_args float_str target_journal_name
         (DayOne.with_coordinates entry None None).
Proof.
  split; [|split; [|split]].
  - intros Hlon. unfold DayOne.valid_coordinates. now rewrite Hlon.
  - intros Hlat. unfold DayOne.valid_coordinates. rewrite Hlat. cbn [andb].
    reflexivity.
  - reflexivity.
  - unfold DayOne.build_dayone_args, DayOne.coordinate_args.
    cbn [DayOne.with_coordinates DayOne.lat DayOne.lon DayOne.truthy].
    now rewrite andb_false_r.
Qed.

(** At longitude 120 (no valid latitude) on the equator, and at
    latitude 45 on the prime meridian. *)
Lemma zero_coordinate_dropped_witness :
  DayOne.is_lon_valid (SpecFloat.S754_finite false 8444249301319680 (-46))
  = true
  /\ DayOne.is_lat_valid (SpecFloat.S754_finite false 8444249301319680 (-46))
     = false
  /\ DayOne.is_lat_valid (SpecFloat.S754_finite false 6333186975989760 (-47))
     = true
  /\ DayOne.valid_coordinates
       (Some (SpecFloat.S754_zero false))
       (Some (SpecFloat.S754_finite false 8444249301319680 (-46)))
     = (Some (SpecFloat.S754_zero false),
        Some (SpecFloat.S754_finite false 8444249301319680 (-46)))
  /\ DayOne.valid_coordinates
       (Some (SpecFloat.S754_finite false 6333186975989760 (-47)))
       (Some (SpecFloat.S754_zero false))
     = (Some (SpecFloat.S754_finite false 6333186975989760 (-47)),
        Some (SpecFloat.S754_zero false))
  /\ DayOne.build_dayone_args (fun _ => T "0.0") (T "Journal")
       {| DayOne.foreign_id := T "1"; DayOne.source_path := T "1.json";
          DayOne.text := T "On the line"; DayOne.tags := [T "trip"];
          DayOne.photos := [];
          DayOne.lat := Some (SpecFloat.S754_zero false);
          DayOne.lon := Some (SpecFloat.S754_finite false 8444249301319680
                                                    (-46));
          DayOne.timestamp := T "2020-01-01 10:00:00 AM";
          DayOne.timezone := T "UTC" |}
     = [T "dayone2"; T "-j"; T "Journal"; T "-d"; T "2020-01-01 10:00:00 AM";
        T "-z"; T "UTC"; T "-t"; T "trip"; T "--"; T "new"].
Proof.
  pose proof
    (@zero_coordinate_dropped (fun _ => T "0.0") (T "Journal")
       {| DayOne.foreign_id := T "1"; DayOne.source_path := T "1.json";
          DayOne.text := T "On the line"; DayOne.tags := [T "trip"];
          DayOne.photos := [];
          DayOne.lat := None; DayOne.lon := None;
          DayOne.timestamp := T "2020-01-01 10:00:00 AM";
          DayOne.timezone := T "UTC" |}
       false
       (SpecFloat.S754_finite false 6333186975989760 (-47))
       (SpecFloat.S754_finite false 8444249301319680 (-46)))
    as (H1 & H2 & H3 & _).
  split; [reflexivity|]. split; [reflexivity|]. split; [reflexivity|].
  split; [exact (H1 eq_refl)|]. split; [exact (H2 eq_refl)|].
  exact H3.
Defined.

(** X8.  [convert_weblinks] (a stage the conversion does not call) turns
    a link into the display text in square brackets and the address in
    round brackets, but the address loses its last character, which the
    pattern reads as the character before the closing quote, and the
    backslash of the template stays in the text before the closing square
    bracket. *)
Theorem convert_weblinks_drops_last (pre url : str) (c0 : ascii)
        (disp post : str) :
  forallb (not_char "<") pre = true ->
  forallb (not_char dq) (url ++ [c0]) = true ->
  forallb (not_char "<") disp = true ->
  forallb (not_char "<") post = true ->
  convert_weblinks (pre ++ anchor (url ++ [c0]) disp ++ post)
  = Ok (pre ++ T "[" ++ disp ++ bsl :: T "](" ++ url ++ T ")" ++ post).
Proof.
  intros Hpre Hurl Hdisp Hpost.
  pose proof (@link_match url c0 disp post Hurl Hdisp) as Hm.
  apply forallb_not_char in Hpre. apply forallb_not_char in Hpost.
  unfold convert_weblinks. rewrite re_sub_eq, link_template. cbn [bind].
  f_equal.
  rewrite sub_with_absent with (a0 := "<"%char); [|reflexivity|exact Hpre].
  f_equal. rewrite sub_with_here with (1 := Hm).
  - rewrite sub_with_absent_all with (a0 := "<"%char);
      [|reflexivity|exact Hpost].
    cbn [expand flat_map expand_item group m_caps cap_get Nat.eqb option_map].
    unfold span_text. cbn [fst snd].
    rewrite (consumed_app disp (T "</a>" ++ post)).
    rewrite (consumed_app url (c0 :: dq :: T ">" ++ disp ++ T "</a>" ++ post)).
    rewrite app_nil_r. cbn [lit list_ascii_of_string].
    rewrite <- !app_assoc. reflexivity.
  - unfold anchor. rewrite !length_app. simpl. lia.
Qed.

Lemma convert_weblinks_drops_last_witness :
  forallb (not_char dq) (T "https://example.org/" ++ ["a"%char]) = true
  /\ convert_weblinks
       (T "See " ++ anchor (T "https://example.org/a") (T "this page")
        ++ T ".")
     = Ok (T "See [this page\](https://example.org/).").
Proof.
  split; [reflexivity|].
  apply (@convert_weblinks_drops_last (T "See ") (T "https://example.org/")
           "a"%char (T "this page") (T ".")); reflexivity.
Defined.

(** X9.  [perform_phrase_replacements] never raises and puts a space
    into every occurrence of the phrase, read left to right: the letters
    [C] or [c], [offee], [S] or [s], [hop] become the same letters with
    a space before the [S] or [s]; the case of the two letters is kept
    and every other character is left as it is. *)
Theorem perform_phrase_replacements_spec (text : str) :
  perform_phrase_replacements text = Ok (split_coffee_shop 0 text).
Proof.
  unfold perform_phrase_replacements. rewrite re_sub_eq.
  change (parse_template coffee_shop_search_pattern (T "\1\2 \3\4"))
    with (Ok [TGroup 1; TGroup 2; TLit " "%char; TGroup 3; TGroup 4]).
  cbn [bind]. f_equal. now apply phrase_sub with (n := length text).
Qed.

(** X10.  On a text without a backslash the three block loops end.  With
    as many iterations allowed as the text has [<] characters, the loop
    for ordered lists and the loop for blockquotes return a text and
    raise nothing, whatever the text holds (nested, unclosed or empty
    blocks); the loop for unordered and task lists returns a text or
    raises [re.error], which happens when a rewritten block starts with
    a digit.  Every iteration takes at least one [<] away and brings in
    no backslash. *)
Theorem block_loops_end (text : str) :
  forallb (not_char bsl) text = true ->
  (exists y, plain_text y /\ opens y <= opens text
     /\ forall fuel, opens text <= fuel -> ol_loop fuel text = Some (Ok y))
  /\ (exists y, plain_text y /\ opens y <= opens text
        /\ forall fuel, opens text <= fuel ->
             quote_loop fuel text = Some (Ok y))
  /\ (exists r,
        (r = Raise ReError
         \/ exists y, r = Ok y /\ plain_text y /\ opens y <= opens text)
        /\ forall fuel, opens text <= fuel -> ul_loop fuel text = Some r).
Proof.
  intros Hp. apply forallb_not_char in Hp. split; [|split].
  - now apply ol_loop_ends.
  - now apply quote_loop_ends.
  - now apply ul_loop_ends.
Qed.

Lemma block_loops_end_witness :
  forallb (not_char bsl)
    (T "<ol><li>a<ol><li>b</li></ol></li></ol><blockquote>q") = true
  /\ exists y, plain_text y
       /\ opens y
          <= opens (T "<ol><li>a<ol><li>b</li></ol></li></ol><blockquote>q")
       /\ forall fuel,
            opens (T "<ol><li>a<ol><li>b</li></ol></li></ol><blockquote>q")
            <= fuel ->
            ol_loop fuel
              (T "<ol><li>a<ol><li>b</li></ol></li></ol><blockquote>q")
            = Some (Ok y).
Proof.
  split; [reflexivity|].
  exact (proj1 (@block_loops_end
                  (T "<ol><li>a<ol><li>b</li></ol></li></ol><blockquote>q")
                  eq_refl)).
Defined.

(** X11.  On an entry text without a backslash the conversion ends:
    there is a number of loop iterations from which on it returns the
    same result, and this result is a text without backslash or the
    exception [re.error] (raised by the loop for unordered lists). *)
Theorem convert_ends (text : str) :
  forallb (not_char bsl) text = true ->
  exists n r,
    (r = Raise ReError \/ exists y, r = Ok y /\ plain_text y)
    /\ forall fuel, n <= fuel ->
         convert_journey_html_to_dayone_markdown fuel text = Some r.
Proof.
  intros Hp. apply forallb_not_char in Hp.
  destruct (convert_simple_plain Hp) as (t1 & E1 & H1).
  destruct (ol_loop_ends (n := opens t1) (le_n _) H1) as (t2 & H2 & O2 & Hol).
  destruct (ul_loop_ends (n := opens t1) O2 H2) as (r & Hr & Hul).
  destruct Hr as [->|(t3 & -> & H3 & O3)].
  - exists (opens t1), (Raise ReError). split; [now left|].
    intros fuel Hf. unfold convert_journey_html_to_dayone_markdown.
    rewrite E1. cbn [lift rbind]. unfold convert_lists.
    rewrite (Hol fuel Hf). cbn [rbind]. now rewrite (Hul fuel Hf).
  - destruct (phrase_names_plain H3) as (t4 & t5 & E4 & E5 & H5).
    destruct (quote_loop_ends (n := opens t5) (le_n _) H5)
      as (t6 & H6 & O6 & Hq).
    destruct (hr_rule_plain H6) as (t7 & E7 & H7).
    exists (opens t1 + opens t5), (Ok t7). split.
    + right. exists t7. split; [reflexivity|exact H7].
    + intros fuel Hf. unfold convert_journey_html_to_dayone_markdown.
      rewrite E1. cbn [lift rbind]. unfold convert_lists.
      rewrite (Hol fuel) by lia. cbn [rbind]. rewrite (Hul fuel) by lia.
      cbn [rbind]. rewrite E4. cbn [rbind]. rewrite E5. cbn [rbind].
      unfold convert_quote_blocks. rewrite (Hq fuel) by lia. cbn [rbind].
      unfold hr_rule in E7. now rewrite E7.
Qed.

Lemma convert_ends_witness :
  exists n r,
    (r = Raise ReError \/ exists y, r = Ok y /\ plain_text y)
    /\ forall fuel, n <= fuel ->
         convert_journey_html_to_dayone_markdown fuel
           (T "<p>One</p><ul><li>a<ul><li>b</li></ul></li></ul>")
         = Some r.
Proof.
  apply (@convert_ends (T "<p>One</p><ul><li>a<ul><li>b</li></ul></li></ul>")).
  reflexivity.
Defined.

(** X12.  On a text made of running text without [<] and [&], entities
    for a non-breaking space, spans of [em], [i], [strong], [b] and
    [del] with a content on one line (and possibly the entity before the
    closing tag), opening tags of headings of level 1 to 3, closing tags
    of headings, paragraph tags with or without attributes, and the tags
    of lists, blockquotes, lines and breaks, [convert_simple] raises
    nothing and rewrites token by token: a span becomes its content
    between the markers [*], [**] or [~~] with the entity, as a space,
    behind the closing marker; the opening tag of a heading becomes a
    newline and one, two or (for level 3) five hashes and a space; the
    closing tags of headings and the paragraph tags go; the entity
    becomes a space; the running text and the other tags stay. *)
Theorem convert_simple_tokens (ts : list mtoken) :
  forallb good_token ts = true ->
  convert_simple (tokens_text ts) = Ok (tokens_markdown ts).
Proof. apply convert_simple_of_tokens. Qed.

Lemma convert_simple_tokens_witness :
  convert_simple
    (T "<p class='x'>Hello <em>world&nbsp;</em>and <b>all</b>&nbsp;<del>of</del></p><h3>Title</h3><ul>")
  = Ok (T "Hello *world* and **all** ~~of~~" ++ nl :: T "##### Title<ul>").
Proof.
  exact (convert_simple_tokens
           [TkPOpen (T " class='x'"); TkText (T "Hello ");
            TkWrap WEm (T "world") true; TkText (T "and ");
            TkWrap WB (T "all") false; TkNbsp; TkWrap WDel (T "of") false;
            TkPClose; TkHead 3; TkText (T "Title"); TkHeadClose (T "3");
            TkKeep (T "<ul>")] eq_refl).
Defined.
(** X13.  On an entry text of inline markup only (running text, entities
    for a non-breaking space, spans, heading and paragraph tags, as in
    X12 but without the tags of lists, blockquotes, lines and breaks),
    the whole conversion ends whatever the number of loop iterations
    allowed, raises nothing and is the phrase replacement and the name
    normalizer applied to the token-by-token Markdown: the stages for
    lists, blockquotes and horizontal lines leave the text as it is. *)
Theorem convert_inline (fuel : nat) (ts : list mtoken) :
  forallb inline_token ts = true ->
  convert_journey_html_to_dayone_markdown fuel (tokens_text ts)
  = lift (t <- perform_phrase_replacements (tokens_markdown ts) ;;
          fix_name_spellings t).
Proof.
  intros Hts. apply stages_after_simple.
  - apply convert_simple_of_tokens.
    exact (@forallb_imp_gen _ inline_token good_token ts inline_token_good Hts).
  - now apply tokens_markdown_tag_free.
Qed.

Lemma convert_inline_witness :
  convert_journey_html_to_dayone_markdown 0
    (T "<p>At the <b>Coffee shop</b>&nbsp;with <i>Sam&nbsp;</i></p><h2>Later</h2>")
  = Some (Ok (T "At the **Coffee shop** with *Sam* " ++ nl :: T "## Later")).
Proof.
  refine (eq_trans
            (convert_inline 0
               [TkPOpen []; TkText (T "At the "); TkWrap WB (T "Coffee shop") false;
                TkNbsp; TkText (T "with "); TkWrap WI (T "Sam") true; TkPClose;
                TkHead 2; TkText (T "Later"); TkHeadClose (T "2")] eq_refl) _).
  vm_compute. reflexivity.
Defined.

(** X14.  A span (in particular a styled underline span) whose inner content
    holds no word character, standing in a text that holds no other tag
    and no entity: the first pass of [convert_simple] changes nothing,
    so the content is not wrapped in emphasis markers, and the whole of
    [convert_simple] deletes the opening and the closing tag and leaves
    the content bare between the text before and the text after. *)
Theorem wordless_span_emitted_bare (pre attrs c post : str) :
  forallb text_char pre = true ->
  forallb tag_char attrs = true ->
  forallb wordless_char c = true ->
  forallb text_char post = true ->
  replace_all (combine to_replace_simple replace_with_simple)
              (pre ++ span_open attrs ++ c ++ span_close ++ post)
  = Ok (pre ++ span_open attrs ++ c ++ span_close ++ post)
  /\ convert_simple (pre ++ span_open attrs ++ c ++ span_close ++ post)
     = Ok (pre ++ c ++ post).
Proof.
  intros. split;
    [now apply wordless_span_first_pass | now apply wordless_span_bare].
Qed.

Lemma wordless_span_emitted_bare_witness :
  forallb text_char (T "x ") = true
  /\ forallb tag_char (T " style=" ++ dq :: T "text-decoration: underline;"
                       ++ [dq]) = true
  /\ forallb wordless_char (T "-- ") = true
  /\ forallb text_char (T " y") = true
  /\ convert_simple (T "x " ++ underlined (T "-- ") ++ T " y")
     = Ok (T "x --  y").
Proof.
  repeat (split; [reflexivity|]).
  apply (@wordless_span_emitted_bare
           (T "x ")
           (T " style=" ++ dq :: T "text-decoration: underline;" ++ [dq])
           (T "-- ") (T " y")); reflexivity.
Defined.
